(** * Trade reconstruction engine: fills, bills and trades

    A shallow embedding of the TypeScript trade processors
    (OKX and Binance linear futures, Binance inverse futures, spot and
    margin), of the shared [TimelineUtils] aggregator and of [SafeParsers],
    followed by the properties established about them.

    Conventions of the embedding.
    - A JavaScript [number] that has already crossed the raw-to-domain
      boundary (a parsed price, size, fee) is an exact rational [Q]; a
      parsed timestamp is an integer [Z].  Rounding of binary64 arithmetic
      is abstracted away and equalities between computed amounts are
      stated with [==] on [Q].  Division follows [Qdiv], so a division by
      zero yields [0] where JavaScript yields [NaN] or an infinity.
    - The numeric string fields of the raw records ([fillPx], [fillSz],
      [fee], [ts], [balChg], [ctVal], [notional]) are represented by the
      number they denote; the parsers themselves are modelled on their
      own in [SafeParsers], over a number type that has [NaN] and the two
      infinities.
    - A JavaScript [Map] is an association list in insertion order, since
      the order of [Map.values()] decides the order of the output.
    - Objects mutated in place become values threaded through the
      functions; where the source mutates an object that is already
      stored in a list, the model updates the stored copy. *)

From Stdlib Require Import ZArith QArith Qminmax Qabs Qround.
From Stdlib Require Import String Ascii List Bool Lia Lqa.
From Stdlib Require Import Permutation Sorted DecimalString.
Import ListNotations.

Local Open Scope string_scope.
Local Open Scope Z_scope.

(** ** JavaScript built-ins used by the engine *)

Module JS.

(** [String.prototype.toLowerCase], on the ASCII letters. *)
Definition lowerAscii (c : ascii) : ascii :=
  let n := N_of_ascii c in
  if ((65 <=? n)%N && (n <=? 90)%N)%bool then ascii_of_N (n + 32) else c.

Fixpoint toLowerCase (s : string) : string :=
  match s with
  | EmptyString => EmptyString
  | String c s' => String (lowerAscii c) (toLowerCase s')
  end.

(** [String.prototype.includes]. *)
Fixpoint includes (s sub : string) : bool :=
  if String.prefix sub s then true
  else match s with
       | EmptyString => false
       | String _ s' => includes s' sub
       end.

(** [a.localeCompare(b)]: -1, 0 or 1.  The order is the lexicographic
    order of the character codes, with which the default collation
    agrees on the identifiers the exchanges issue (decimal digits) and
    on the [","] separator that [mergeGroup] puts between them. *)
Definition localeCompare (a b : string) : Z :=
  match String.compare a b with
  | Lt => -1
  | Eq => 0
  | Gt => 1
  end.

(** [x || d] on strings: the empty string is falsy. *)
Definition orElse (x d : string) : string :=
  match x with
  | EmptyString => d
  | _ => x
  end.

(** [Boolean(s)] on strings, as used by [filter(Boolean)]. *)
Definition truthy (s : string) : bool :=
  match s with
  | EmptyString => false
  | _ => true
  end.

(** [Array.prototype.join]. *)
Fixpoint join (sep : string) (l : list string) : string :=
  match l with
  | [] => ""
  | [x] => x
  | x :: l' => x ++ sep ++ join sep l'
  end.

(** [String(n)] for an integer [n]. *)
Definition stringOfInt (n : Z) : string :=
  NilZero.string_of_int (Z.to_int n).

(** [Array.prototype.includes] on strings. *)
Definition mem (x : string) (l : list string) : bool :=
  existsb (String.eqb x) l.

(** [Array.prototype.sort(cmp)].  The sort is stable; for a comparator
    that is a total preorder its result is the one of the insertion
    sort below, which puts an element before the first element it does
    not compare greater than. *)
Section Sort.
Context {A : Type} (cmp : A -> A -> Z).

Fixpoint insert (x : A) (l : list A) : list A :=
  match l with
  | [] => [x]
  | y :: l' => if cmp x y <=? 0 then x :: l else y :: insert x l'
  end.

Definition sort (l : list A) : list A := fold_right insert [] l.
End Sort.

(** [Map<string, V>], in insertion order. *)
Section Map.
Context {V : Type}.

Definition map := list (string * V).

Fixpoint get (k : string) (m : map) : option V :=
  match m with
  | [] => None
  | (k', v) :: m' => if String.eqb k k' then Some v else get k m'
  end.

Fixpoint set (k : string) (v : V) (m : map) : map :=
  match m with
  | [] => [(k, v)]
  | (k', v') :: m' =>
      if String.eqb k k' then (k', v) :: m' else (k', v') :: set k v m'
  end.

Fixpoint delete (k : string) (m : map) : map :=
  match m with
  | [] => []
  | (k', v') :: m' =>
      if String.eqb k k' then m' else (k', v') :: delete k m'
  end.

Definition values (m : map) : list V := List.map snd m.
End Map.
Arguments map : clear implicits.

(** Comparisons on numbers. *)
Definition Qltb (x y : Q) : bool := negb (Qle_bool y x).
Definition Qgtb (x y : Q) : bool := Qltb y x.

End JS.

(** ** The domain types of [models/types] *)

Inductive TradeDirection := LONG | SHORT.

Inductive PositionStatus := OPEN_ | CLOSED | LIQUIDATED.

(** The action tag of a timeline event. *)
Inductive Action := OPEN | ADD | REDUCE | CLOSE | MARKET_ANALYSIS.

Definition Action_eqb (a b : Action) : bool :=
  match a, b with
  | OPEN, OPEN | ADD, ADD | REDUCE, REDUCE | CLOSE, CLOSE
  | MARKET_ANALYSIS, MARKET_ANALYSIS => true
  | _, _ => false
  end.

Definition TradeDirection_eqb (a b : TradeDirection) : bool :=
  match a, b with
  | LONG, LONG | SHORT, SHORT => true
  | _, _ => false
  end.

Definition PositionStatus_eqb (a b : PositionStatus) : bool :=
  match a, b with
  | OPEN_, OPEN_ | CLOSED, CLOSED | LIQUIDATED, LIQUIDATED => true
  | _, _ => false
  end.

Record TimelineEvent := mkEvent {
  timestamp : Z;
  action : Action;
  size : Q;
  price : Q;
  notes : string;
  tradeId : string;
  orderId : string;
  fee : Q;
  feeCcy : string
}.

(** [RawFill] and [OkxFill]: the fields the processors read.  An absent
    string field is the empty string. *)
Record RawFill := mkFill {
  f_instId : string;
  f_tradeId : string;
  f_ordId : string;
  f_side : string;
  f_posSide : string;
  f_fillPx : Q;
  f_fillSz : Q;
  f_fee : Q;
  f_feeCcy : string;
  f_ts : Z
}.

(** [Bill] and [OkxBill]. *)
Record Bill := mkBill {
  b_instId : string;
  b_ccy : string;
  b_balChg : Q;
  b_ts : Z;
  b_type : string
}.

(** [InstrumentDetail] and [OkxInstrument]. *)
Record InstrumentDetail := mkInstrument {
  i_instId : string;
  i_ctVal : Q;
  i_baseCcy : string;
  i_quoteCcy : string
}.

(** [RawPositionRisk] (Binance). *)
Record RawPositionRisk := mkRisk {
  r_symbol : string;
  r_positionSide : string;
  r_notional : Q
}.

(** [OkxPosition]. *)
Record OkxPosition := mkPosition {
  p_instId : string;
  p_posSide : string;
  p_notionalUsd : Q
}.

Record StandardizedTrade := mkTrade {
  id : string;
  symbol : string;
  direction : TradeDirection;
  status : PositionStatus;
  entryTime : Z;
  exitTime : Z;
  durationMs : Z;
  totalSize : Q;
  totalValue : Q;
  averageEntryPrice : Q;
  averageExitPrice : Q;
  realizedPnl : Q;
  totalCommission : Q;
  totalFundingFee : Q;
  netPnl : Q;
  pnlPercentage : Q;
  timeline : list TimelineEvent;
  tradeIds : list string;
  orderIds : list string;
  tags : list string;
  _currentPositionSize : Q;
  _closingSizeAccumulator : Q;
  _closingValueAccumulator : Q;
  _rawFills : list RawFill;
  _rawBills : list Bill;
  currentNotionalValue : option Q;
  pnlCurrency : string;
  feeCurrency : string;
  valueCurrency : string
}.

(** The trade's user [notes] field is the empty string throughout the
    processors and is left out of the record.

    Field assignments [trade.x = v]: one setter per field the processors
    assign. *)

Definition set_status (v : PositionStatus) (t : StandardizedTrade) : StandardizedTrade :=
  mkTrade (id t) (symbol t) (direction t) v (entryTime t) (exitTime t)
    (durationMs t) (totalSize t) (totalValue t) (averageEntryPrice t)
    (averageExitPrice t) (realizedPnl t) (totalCommission t)
    (totalFundingFee t) (netPnl t) (pnlPercentage t) (timeline t)
    (tradeIds t) (orderIds t) (tags t) (_currentPositionSize t)
    (_closingSizeAccumulator t) (_closingValueAccumulator t) (_rawFills t)
    (_rawBills t) (currentNotionalValue t) (pnlCurrency t) (feeCurrency t)
    (valueCurrency t).

Definition set_exitTime (v : Z) (t : StandardizedTrade) : StandardizedTrade :=
  mkTrade (id t) (symbol t) (direction t) (status t) (entryTime t) v
    (durationMs t) (totalSize t) (totalValue t) (averageEntryPrice t)
    (averageExitPrice t) (realizedPnl t) (totalCommission t)
    (totalFundingFee t) (netPnl t) (pnlPercentage t) (timeline t)
    (tradeIds t) (orderIds t) (tags t) (_currentPositionSize t)
    (_closingSizeAccumulator t) (_closingValueAccumulator t) (_rawFills t)
    (_rawBills t) (currentNotionalValue t) (pnlCurrency t) (feeCurrency t)
    (valueCurrency t).

Definition set_durationMs (v : Z) (t : StandardizedTrade) : StandardizedTrade :=
  mkTrade (id t) (symbol t) (direction t) (status t) (entryTime t)
    (exitTime t) v (totalSize t) (totalValue t) (averageEntryPrice t)
    (averageExitPrice t) (realizedPnl t) (totalCommission t)
    (totalFundingFee t) (netPnl t) (pnlPercentage t) (timeline t)
    (tradeIds t) (orderIds t) (tags t) (_currentPositionSize t)
    (_closingSizeAccumulator t) (_closingValueAccumulator t) (_rawFills t)
    (_rawBills t) (currentNotionalValue t) (pnlCurrency t) (feeCurrency t)
    (valueCurrency t).

Definition set_totalSize (v : Q) (t : StandardizedTrade) : StandardizedTrade :=
  mkTrade (id t) (symbol t) (direction t) (status t) (entryTime t)
    (exitTime t) (durationMs t) v (totalValue t) (averageEntryPrice t)
    (averageExitPrice t) (realizedPnl t) (totalCommission t)
    (totalFundingFee t) (netPnl t) (pnlPercentage t) (timeline t)
    (tradeIds t) (orderIds t) (tags t) (_currentPositionSize t)
    (_closingSizeAccumulator t) (_closingValueAccumulator t) (_rawFills t)
    (_rawBills t) (currentNotionalValue t) (pnlCurrency t) (feeCurrency t)
    (valueCurrency t).

Definition set_totalValue (v : Q) (t : StandardizedTrade) : StandardizedTrade :=
  mkTrade (id t) (symbol t) (direction t) (status t) (entryTime t)
    (exitTime t) (durationMs t) (totalSize t) v (averageEntryPrice t)
    (averageExitPrice t) (realizedPnl t) (totalCommission t)
    (totalFundingFee t) (netPnl t) (pnlPercentage t) (timeline t)
    (tradeIds t) (orderIds t) (tags t) (_currentPositionSize t)
    (_closingSizeAccumulator t) (_closingValueAccumulator t) (_rawFills t)
    (_rawBills t) (currentNotionalValue t) (pnlCurrency t) (feeCurrency t)
    (valueCurrency t).

Definition set_averageEntryPrice (v : Q) (t : StandardizedTrade) : StandardizedTrade :=
  mkTrade (id t) (symbol t) (direction t) (status t) (entryTime t)
    (exitTime t) (durationMs t) (totalSize t) (totalValue t) v
    (averageExitPrice t) (realizedPnl t) (totalCommission t)
    (totalFundingFee t) (netPnl t) (pnlPercentage t) (timeline t)
    (tradeIds t) (orderIds t) (tags t) (_currentPositionSize t)
    (_closingSizeAccumulator t) (_closingValueAccumulator t) (_rawFills t)
    (_rawBills t) (currentNotionalValue t) (pnlCurrency t) (feeCurrency t)
    (valueCurrency t).

Definition set_averageExitPrice (v : Q) (t : StandardizedTrade) : StandardizedTrade :=
  mkTrade (id t) (symbol t) (direction t) (status t) (entryTime t)
    (exitTime t) (durationMs t) (totalSize t) (totalValue t)
    (averageEntryPrice t) v (realizedPnl t) (totalCommission t)
    (totalFundingFee t) (netPnl t) (pnlPercentage t) (timeline t)
    (tradeIds t) (orderIds t) (tags t) (_currentPositionSize t)
    (_closingSizeAccumulator t) (_closingValueAccumulator t) (_rawFills t)
    (_rawBills t) (currentNotionalValue t) (pnlCurrency t) (feeCurrency t)
    (valueCurrency t).

Definition set_realizedPnl (v : Q) (t : StandardizedTrade) : StandardizedTrade :=
  mkTrade (id t) (symbol t) (direction t) (status t) (entryTime t)
    (exitTime t) (durationMs t) (totalSize t) (totalValue t)
    (averageEntryPrice t) (averageExitPrice t) v (totalCommission t)
    (totalFundingFee t) (netPnl t) (pnlPercentage t) (timeline t)
    (tradeIds t) (orderIds t) (tags t) (_currentPositionSize t)
    (_closingSizeAccumulator t) (_closingValueAccumulator t) (_rawFills t)
    (_rawBills t) (currentNotionalValue t) (pnlCurrency t) (feeCurrency t)
    (valueCurrency t).

Definition set_totalCommission (v : Q) (t : StandardizedTrade) : StandardizedTrade :=
  mkTrade (id t) (symbol t) (direction t) (status t) (entryTime t)
    (exitTime t) (durationMs t) (totalSize t) (totalValue t)
    (averageEntryPrice t) (averageExitPrice t) (realizedPnl t) v
    (totalFundingFee t) (netPnl t) (pnlPercentage t) (timeline t)
    (tradeIds t) (orderIds t) (tags t) (_currentPositionSize t)
    (_closingSizeAccumulator t) (_closingValueAccumulator t) (_rawFills t)
    (_rawBills t) (currentNotionalValue t) (pnlCurrency t) (feeCurrency t)
    (valueCurrency t).

Definition set_totalFundingFee (v : Q) (t : StandardizedTrade) : StandardizedTrade :=
  mkTrade (id t) (symbol t) (direction t) (status t) (entryTime t)
    (exitTime t) (durationMs t) (totalSize t) (totalValue t)
    (averageEntryPrice t) (averageExitPrice t) (realizedPnl t)
    (totalCommission t) v (netPnl t) (pnlPercentage t) (timeline t)
    (tradeIds t) (orderIds t) (tags t) (_currentPositionSize t)
    (_closingSizeAccumulator t) (_closingValueAccumulator t) (_rawFills t)
    (_rawBills t) (currentNotionalValue t) (pnlCurrency t) (feeCurrency t)
    (valueCurrency t).

Definition set_netPnl (v : Q) (t : StandardizedTrade) : StandardizedTrade :=
  mkTrade (id t) (symbol t) (direction t) (status t) (entryTime t)
    (exitTime t) (durationMs t) (totalSize t) (totalValue t)
    (averageEntryPrice t) (averageExitPrice t) (realizedPnl t)
    (totalCommission t) (totalFundingFee t) v (pnlPercentage t) (timeline t)
    (tradeIds t) (orderIds t) (tags t) (_currentPositionSize t)
    (_closingSizeAccumulator t) (_closingValueAccumulator t) (_rawFills t)
    (_rawBills t) (currentNotionalValue t) (pnlCurrency t) (feeCurrency t)
    (valueCurrency t).

Definition set_pnlPercentage (v : Q) (t : StandardizedTrade) : StandardizedTrade :=
  mkTrade (id t) (symbol t) (direction t) (status t) (entryTime t)
    (exitTime t) (durationMs t) (totalSize t) (totalValue t)
    (averageEntryPrice t) (averageExitPrice t) (realizedPnl t)
    (totalCommission t) (totalFundingFee t) (netPnl t) v (timeline t)
    (tradeIds t) (orderIds t) (tags t) (_currentPositionSize t)
    (_closingSizeAccumulator t) (_closingValueAccumulator t) (_rawFills t)
    (_rawBills t) (currentNotionalValue t) (pnlCurrency t) (feeCurrency t)
    (valueCurrency t).

Definition set_timeline (v : list TimelineEvent) (t : StandardizedTrade) : StandardizedTrade :=
  mkTrade (id t) (symbol t) (direction t) (status t) (entryTime t)
    (exitTime t) (durationMs t) (totalSize t) (totalValue t)
    (averageEntryPrice t) (averageExitPrice t) (realizedPnl t)
    (totalCommission t) (totalFundingFee t) (netPnl t) (pnlPercentage t) v
    (tradeIds t) (orderIds t) (tags t) (_currentPositionSize t)
    (_closingSizeAccumulator t) (_closingValueAccumulator t) (_rawFills t)
    (_rawBills t) (currentNotionalValue t) (pnlCurrency t) (feeCurrency t)
    (valueCurrency t).

Definition set_tradeIds (v : list string) (t : StandardizedTrade) : StandardizedTrade :=
  mkTrade (id t) (symbol t) (direction t) (status t) (entryTime t)
    (exitTime t) (durationMs t) (totalSize t) (totalValue t)
    (averageEntryPrice t) (averageExitPrice t) (realizedPnl t)
    (totalCommission t) (totalFundingFee t) (netPnl t) (pnlPercentage t)
    (timeline t) v (orderIds t) (tags t) (_currentPositionSize t)
    (_closingSizeAccumulator t) (_closingValueAccumulator t) (_rawFills t)
    (_rawBills t) (currentNotionalValue t) (pnlCurrency t) (feeCurrency t)
    (valueCurrency t).

Definition set_orderIds (v : list string) (t : StandardizedTrade) : StandardizedTrade :=
  mkTrade (id t) (symbol t) (direction t) (status t) (entryTime t)
    (exitTime t) (durationMs t) (totalSize t) (totalValue t)
    (averageEntryPrice t) (averageExitPrice t) (realizedPnl t)
    (totalCommission t) (totalFundingFee t) (netPnl t) (pnlPercentage t)
    (timeline t) (tradeIds t) v (tags t) (_currentPositionSize t)
    (_closingSizeAccumulator t) (_closingValueAccumulator t) (_rawFills t)
    (_rawBills t) (currentNotionalValue t) (pnlCurrency t) (feeCurrency t)
    (valueCurrency t).

Definition set_currentPositionSize (v : Q) (t : StandardizedTrade) : StandardizedTrade :=
  mkTrade (id t) (symbol t) (direction t) (status t) (entryTime t)
    (exitTime t) (durationMs t) (totalSize t) (totalValue t)
    (averageEntryPrice t) (averageExitPrice t) (realizedPnl t)
    (totalCommission t) (totalFundingFee t) (netPnl t) (pnlPercentage t)
    (timeline t) (tradeIds t) (orderIds t) (tags t) v
    (_closingSizeAccumulator t) (_closingValueAccumulator t) (_rawFills t)
    (_rawBills t) (currentNotionalValue t) (pnlCurrency t) (feeCurrency t)
    (valueCurrency t).

Definition set_closingSizeAccumulator (v : Q) (t : StandardizedTrade) : StandardizedTrade :=
  mkTrade (id t) (symbol t) (direction t) (status t) (entryTime t)
    (exitTime t) (durationMs t) (totalSize t) (totalValue t)
    (averageEntryPrice t) (averageExitPrice t) (realizedPnl t)
    (totalCommission t) (totalFundingFee t) (netPnl t) (pnlPercentage t)
    (timeline t) (tradeIds t) (orderIds t) (tags t) (_currentPositionSize t)
    v (_closingValueAccumulator t) (_rawFills t) (_rawBills t)
    (currentNotionalValue t) (pnlCurrency t) (feeCurrency t)
    (valueCurrency t).

Definition set_closingValueAccumulator (v : Q) (t : StandardizedTrade) : StandardizedTrade :=
  mkTrade (id t) (symbol t) (direction t) (status t) (entryTime t)
    (exitTime t) (durationMs t) (totalSize t) (totalValue t)
    (averageEntryPrice t) (averageExitPrice t) (realizedPnl t)
    (totalCommission t) (totalFundingFee t) (netPnl t) (pnlPercentage t)
    (timeline t) (tradeIds t) (orderIds t) (tags t) (_currentPositionSize t)
    (_closingSizeAccumulator t) v (_rawFills t) (_rawBills t)
    (currentNotionalValue t) (pnlCurrency t) (feeCurrency t)
    (valueCurrency t).

Definition set_rawFills (v : list RawFill) (t : StandardizedTrade) : StandardizedTrade :=
  mkTrade (id t) (symbol t) (direction t) (status t) (entryTime t)
    (exitTime t) (durationMs t) (totalSize t) (totalValue t)
    (averageEntryPrice t) (averageExitPrice t) (realizedPnl t)
    (totalCommission t) (totalFundingFee t) (netPnl t) (pnlPercentage t)
    (timeline t) (tradeIds t) (orderIds t) (tags t) (_currentPositionSize t)
    (_closingSizeAccumulator t) (_closingValueAccumulator t) v (_rawBills t)
    (currentNotionalValue t) (pnlCurrency t) (feeCurrency t)
    (valueCurrency t).

Definition set_rawBills (v : list Bill) (t : StandardizedTrade) : StandardizedTrade :=
  mkTrade (id t) (symbol t) (direction t) (status t) (entryTime t)
    (exitTime t) (durationMs t) (totalSize t) (totalValue t)
    (averageEntryPrice t) (averageExitPrice t) (realizedPnl t)
    (totalCommission t) (totalFundingFee t) (netPnl t) (pnlPercentage t)
    (timeline t) (tradeIds t) (orderIds t) (tags t) (_currentPositionSize t)
    (_closingSizeAccumulator t) (_closingValueAccumulator t) (_rawFills t) v
    (currentNotionalValue t) (pnlCurrency t) (feeCurrency t)
    (valueCurrency t).

Definition set_currentNotionalValue (v : option Q) (t : StandardizedTrade) : StandardizedTrade :=
  mkTrade (id t) (symbol t) (direction t) (status t) (entryTime t)
    (exitTime t) (durationMs t) (totalSize t) (totalValue t)
    (averageEntryPrice t) (averageExitPrice t) (realizedPnl t)
    (totalCommission t) (totalFundingFee t) (netPnl t) (pnlPercentage t)
    (timeline t) (tradeIds t) (orderIds t) (tags t) (_currentPositionSize t)
    (_closingSizeAccumulator t) (_closingValueAccumulator t) (_rawFills t)
    (_rawBills t) v (pnlCurrency t) (feeCurrency t) (valueCurrency t).

Local Open Scope Q_scope.

(** ** [utils/TimelineUtils] *)

Module TimelineUtils.

(** The comparator of the sort in [aggregateEvents]. *)
Definition compareEvents (a b : TimelineEvent) : Z :=
  if negb (timestamp a =? timestamp b)%Z
  then (timestamp a - timestamp b)%Z
  else JS.localeCompare (JS.orElse (tradeId a) "") (JS.orElse (tradeId b) "").

(** The test of the loop body: may [current] join the group that ends
    in [prev]? *)
Definition canMerge (mergeWindowMs : Z) (prev current : TimelineEvent) : bool :=
  let isSameAction := Action_eqb (action current) (action prev) in
  let isWithinWindow := (timestamp current - timestamp prev <? mergeWindowMs)%Z in
  let isOpenSequence :=
    (Action_eqb (action prev) OPEN && Action_eqb (action current) ADD)
    || (Action_eqb (action prev) ADD && Action_eqb (action current) OPEN) in
  let isCloseSequence :=
    (Action_eqb (action prev) REDUCE && Action_eqb (action current) CLOSE)
    || (Action_eqb (action prev) CLOSE && Action_eqb (action current) REDUCE) in
  isWithinWindow && (isSameAction || isOpenSequence || isCloseSequence).

(** [mergeGroup]; a group is never empty and is given as its first
    event and the events after it. *)
Definition mergeGroup (first : TimelineEvent) (rest : list TimelineEvent)
  : TimelineEvent :=
  match rest with
  | [] => first
  | _ =>
      let group := first :: rest in
      let totalVal := fold_left (fun acc e => acc + price e * size e) group 0 in
      let totalSz := fold_left (fun acc e => acc + size e) group 0 in
      let totalFee := fold_left (fun acc e => acc + fee e) group 0 in
      let avgPrice := if JS.Qgtb totalSz 0 then totalVal / totalSz else 0 in
      let finalAction :=
        if existsb (fun e => Action_eqb (action e) OPEN) group then OPEN
        else if existsb (fun e => Action_eqb (action e) CLOSE) group then CLOSE
        else action first in
      {| timestamp := timestamp first;
         action := finalAction;
         size := totalSz;
         price := avgPrice;
         notes := JS.join "; " (filter JS.truthy (map notes group));
         tradeId := JS.join "," (filter JS.truthy (map tradeId group));
         orderId := JS.join "," (filter JS.truthy (map orderId group));
         fee := totalFee;
         feeCcy := feeCcy first |}
  end.

(** The [for] loop of [aggregateEvents] with its two variables, the
    list [aggregated] and the group [currentGroup], and the final push. *)
Fixpoint groupLoop (mergeWindowMs : Z) (aggregated : list TimelineEvent)
    (gfirst : TimelineEvent) (grest : list TimelineEvent)
    (events : list TimelineEvent) : list TimelineEvent :=
  match events with
  | [] => aggregated ++ [mergeGroup gfirst grest]
  | current :: events' =>
      let prev := last grest gfirst in
      if canMerge mergeWindowMs prev current
      then groupLoop mergeWindowMs aggregated gfirst (grest ++ [current]) events'
      else groupLoop mergeWindowMs
             (aggregated ++ [mergeGroup gfirst grest]) current [] events'
  end.

Definition aggregateEventsWithin (mergeWindowMs : Z)
    (executionEvents : list TimelineEvent) : list TimelineEvent :=
  if (length executionEvents <? 2)%nat then executionEvents
  else
    match JS.sort compareEvents executionEvents with
    | [] => []
    | e0 :: sortedEvents => groupLoop mergeWindowMs [] e0 [] sortedEvents
    end.

(** [aggregateEvents(executionEvents)] with the default window. *)
Definition aggregateEvents (executionEvents : list TimelineEvent)
  : list TimelineEvent :=
  aggregateEventsWithin 60000 executionEvents.

End TimelineUtils.

(** ** The private timeline aggregation of the Binance processors

    [BinanceCMFuturesTradeProcessor], [BinanceSpotTradeProcessor] and
    [BinanceMarginTradeProcessor] each carry the same two private methods
    [_aggregateTimelineEvents] and [_mergeEvents]; they are embedded once. *)

Module BinanceTimeline.

Definition canMerge (prev current : TimelineEvent) : bool :=
  let timeDiff := (timestamp current - timestamp prev)%Z in
  let isSameAction := Action_eqb (action current) (action prev) in
  let isCloseSequence :=
    (Action_eqb (action prev) REDUCE && Action_eqb (action current) CLOSE)
    || (Action_eqb (action prev) CLOSE && Action_eqb (action current) REDUCE) in
  let canMergeAction := isSameAction || isCloseSequence in
  canMergeAction && (timeDiff <? 60000)%Z.

Definition _mergeEvents (first : TimelineEvent) (rest : list TimelineEvent)
  : TimelineEvent :=
  match rest with
  | [] => first
  | _ =>
      let events := first :: rest in
      let totalVal := fold_left (fun acc e => acc + price e * size e) events 0 in
      let totalSz := fold_left (fun acc e => acc + size e) events 0 in
      let totalFee := fold_left (fun acc e => acc + fee e) events 0 in
      let avgPrice := if JS.Qgtb totalSz 0 then totalVal / totalSz else 0 in
      let mergedAction :=
        if existsb (fun e => Action_eqb (action e) CLOSE) events then CLOSE
        else if existsb (fun e => Action_eqb (action e) OPEN) events then OPEN
        else action first in
      {| timestamp := timestamp first;
         action := mergedAction;
         size := totalSz;
         price := avgPrice;
         notes := JS.join "; " (filter JS.truthy (map notes events));
         tradeId := tradeId first;
         orderId := orderId first;
         fee := totalFee;
         feeCcy := feeCcy first |}
  end.

Fixpoint groupLoop (aggregated : list TimelineEvent)
    (gfirst : TimelineEvent) (grest : list TimelineEvent)
    (events : list TimelineEvent) : list TimelineEvent :=
  match events with
  | [] => aggregated ++ [_mergeEvents gfirst grest]
  | current :: events' =>
      let prev := last grest gfirst in
      if canMerge prev current
      then groupLoop aggregated gfirst (grest ++ [current]) events'
      else groupLoop (aggregated ++ [_mergeEvents gfirst grest]) current [] events'
  end.

Definition _aggregateTimelineEvents (timeline : list TimelineEvent)
  : list TimelineEvent :=
  match timeline with
  | e0 :: ((_ :: _) as events) => groupLoop [] e0 [] events
  | _ => timeline
  end.

End BinanceTimeline.

(** [event.action = a]. *)
Definition with_action (a : Action) (e : TimelineEvent) : TimelineEvent :=
  mkEvent (timestamp e) a (size e) (price e) (notes e) (tradeId e)
    (orderId e) (fee e) (feeCcy e).

(** [1e-9], the floating-point tolerance of every builder and processor. *)
Definition FLOATING_POINT_TOLERANCE : Q := 1 # 1000000000.

(** [status === PositionStatus.OPEN]. *)
Definition isOpenStatus (s : PositionStatus) : bool := PositionStatus_eqb s OPEN_.

(** The funding test shared by every [applyBillsAndRisks]:
    [billTs >= trade.entryTime && (trade.status === OPEN || billTs <= trade.exitTime)]. *)
Definition isRelevant (billTs : Z) (trade : StandardizedTrade) : bool :=
  (entryTime trade <=? billTs)%Z
  && (isOpenStatus (status trade) || (billTs <=? exitTime trade)%Z).

(** [this.instruments.clear(); list.forEach(inst => this.instruments.set(inst.instId, inst))]. *)
Definition indexInstruments (l : list InstrumentDetail) : JS.map InstrumentDetail :=
  fold_left (fun m inst => JS.set (i_instId inst) inst m) l [].

(** ** [infrastructure/okx/OkxTradeBuilder] *)

Module OkxTradeBuilder.

Record t := mk {
  trade : StandardizedTrade;
  contractValue : Q;
  isInverse : bool
}.

Definition with_trade (b : t) (tr : StandardizedTrade) : t :=
  mk tr (contractValue b) (isInverse b).

Definition getTrade (b : t) : StandardizedTrade := trade b.

Definition isClosed (b : t) : bool := PositionStatus_eqb (status (trade b)) CLOSED.

Definition determineDirection (fill : RawFill) : TradeDirection :=
  let posSide := JS.toLowerCase (f_posSide fill) in
  if String.eqb posSide "long" then LONG
  else if String.eqb posSide "short" then SHORT
  else if String.eqb (JS.toLowerCase (f_side fill)) "buy" then LONG else SHORT.

Definition determineAction (b : t) (fill : RawFill) (direction : TradeDirection)
  : Action :=
  let isLong := TradeDirection_eqb direction LONG in
  let isBuy := String.eqb (JS.toLowerCase (f_side fill)) "buy" in
  let isHooksIncrease := (isLong && isBuy) || (negb isLong && negb isBuy) in
  if isHooksIncrease then
    match timeline (trade b) with
    | [] => OPEN
    | _ => ADD
    end
  else REDUCE.

Definition initializeTrade (isInv : bool) (fill : RawFill) : StandardizedTrade :=
  let ts := f_ts fill in
  let direction := determineDirection fill in
  let defaultFeeCcy := JS.orElse (f_feeCcy fill) "USDT" in
  let pnlCcy := if isInv then JS.orElse (f_feeCcy fill) "BTC" else "USDT" in
  let valCcy := if isInv then "USD" else "USDT" in
  {| id := f_instId fill ++ "-" ++ f_posSide fill ++ "-" ++ JS.stringOfInt ts;
     symbol := f_instId fill;
     direction := direction;
     status := OPEN_;
     entryTime := ts;
     exitTime := 0;
     durationMs := 0;
     totalSize := 0;
     totalValue := 0;
     averageEntryPrice := 0;
     averageExitPrice := 0;
     realizedPnl := 0;
     totalCommission := 0;
     totalFundingFee := 0;
     netPnl := 0;
     pnlPercentage := 0;
     timeline := [];
     tradeIds := [];
     orderIds := [];
     tags := [];
     _currentPositionSize := 0;
     _closingSizeAccumulator := 0;
     _closingValueAccumulator := 0;
     _rawFills := [];
     _rawBills := [];
     currentNotionalValue := None;
     pnlCurrency := pnlCcy;
     feeCurrency := defaultFeeCcy;
     valueCurrency := valCcy |}.

(** [updateState(event)]: the trade after the update and the event,
    whose action the method may turn into [CLOSE]. *)
Definition updateState (b : t) (event : TimelineEvent)
  : StandardizedTrade * TimelineEvent :=
  let tr := trade b in
  let '(tr, event) :=
    if Action_eqb (action event) OPEN || Action_eqb (action event) ADD then
      let addedCost :=
        if isInverse b
        then (if JS.Qgtb (price event) 0 then size event / price event else 0)
        else size event * price event in
      let newTotalCost := totalValue tr + addedCost in
      let newTotalSize := totalSize tr + size event in
      let tr :=
        if JS.Qgtb newTotalSize 0 && JS.Qgtb newTotalCost 0 then
          if isInverse b
          then set_averageEntryPrice (newTotalSize / newTotalCost) tr
          else set_averageEntryPrice (newTotalCost / newTotalSize) tr
        else tr in
      let tr := set_totalSize newTotalSize tr in
      let tr := set_totalValue newTotalCost tr in
      let tr := set_currentPositionSize (_currentPositionSize tr + size event) tr in
      (tr, event)
    else
      let sizeReduced := Qmin (size event) (_currentPositionSize tr) in
      let isLong := TradeDirection_eqb (direction tr) LONG in
      let pnl :=
        if isInverse b then
          if JS.Qgtb (averageEntryPrice tr) 0 && JS.Qgtb (price event) 0 then
            if isLong
            then sizeReduced * (1 / averageEntryPrice tr - 1 / price event)
            else sizeReduced * (1 / price event - 1 / averageEntryPrice tr)
          else 0
        else (price event - averageEntryPrice tr) * sizeReduced
             * (if isLong then 1 else -1) in
      let tr := set_realizedPnl (realizedPnl tr + pnl) tr in
      let tr := set_currentPositionSize (_currentPositionSize tr - sizeReduced) tr in
      let tr := set_closingSizeAccumulator (_closingSizeAccumulator tr + sizeReduced) tr in
      let tr :=
        if isInverse b then
          if JS.Qgtb (price event) 0
          then set_closingValueAccumulator
                 (_closingValueAccumulator tr + sizeReduced / price event) tr
          else tr
        else set_closingValueAccumulator
               (_closingValueAccumulator tr + sizeReduced * price event) tr in
      if Qle_bool (_currentPositionSize tr) FLOATING_POINT_TOLERANCE then
        let event := with_action CLOSE event in
        let tr := set_status CLOSED tr in
        let tr := set_exitTime (timestamp event) tr in
        let tr := set_durationMs (exitTime tr - entryTime tr)%Z tr in
        let tr :=
          if JS.Qgtb (_closingSizeAccumulator tr) 0 then
            if isInverse b then
              set_averageExitPrice
                (if JS.Qgtb (_closingValueAccumulator tr) 0
                 then _closingSizeAccumulator tr / _closingValueAccumulator tr
                 else 0) tr
            else set_averageExitPrice
                   (_closingValueAccumulator tr / _closingSizeAccumulator tr) tr
          else tr in
        let tr := set_currentPositionSize 0 tr in
        (tr, event)
      else (tr, event) in
  (set_totalCommission (totalCommission tr + fee event) tr, event).

Definition addFill (b : t) (fill : RawFill) : t :=
  let fillPrice := f_fillPx fill in
  let fillSz := f_fillSz fill in
  let eventSize := fillSz * contractValue b in
  let rawFee := f_fee fill in
  let normalizedFee := - rawFee in
  let action := determineAction b fill (direction (trade b)) in
  let event :=
    {| timestamp := f_ts fill;
       action := action;
       size := eventSize;
       price := fillPrice;
       notes := "";
       tradeId := f_tradeId fill;
       orderId := f_ordId fill;
       fee := normalizedFee;
       feeCcy := f_feeCcy fill |} in
  let '(tr, event) := updateState b event in
  let tr := set_timeline (timeline tr ++ [event]) tr in
  let tr := set_tradeIds (tradeIds tr ++ [f_tradeId fill]) tr in
  let tr :=
    if negb (JS.mem (f_ordId fill) (orderIds tr))
    then set_orderIds (orderIds tr ++ [f_ordId fill]) tr
    else tr in
  let tr := set_rawFills (_rawFills tr ++ [fill]) tr in
  with_trade b tr.

(** [new OkxTradeBuilder(firstFill, contractValue, isInverse)]. *)
Definition new (firstFill : RawFill) (ctVal : Q) (isInv : bool) : t :=
  addFill (mk (initializeTrade isInv firstFill) ctVal isInv) firstFill.

End OkxTradeBuilder.

(** ** [infrastructure/okx/OkxUMFuturesTradeProcessor] *)

Module OkxUMFuturesTradeProcessor.

(** The two results of [processFills]. *)
Record FoldState := mkState {
  closedTrades : list StandardizedTrade;
  openPositions : JS.map OkxTradeBuilder.t
}.

(** The comparator of the sort of the fills: timestamp, then [tradeId]. *)
Definition compareFills (a b : RawFill) : Z :=
  let tsDiff := (f_ts a - f_ts b)%Z in
  if negb (tsDiff =? 0)%Z then tsDiff
  else JS.localeCompare (JS.orElse (f_tradeId a) "") (JS.orElse (f_tradeId b) "").

Definition isReduceOnly (fill : RawFill) : bool :=
  let side := JS.toLowerCase (f_side fill) in
  let posSide := JS.toLowerCase (f_posSide fill) in
  if String.eqb posSide "long" && String.eqb side "sell" then true
  else if String.eqb posSide "short" && String.eqb side "buy" then true
  else false.

Definition positionKeyOf (fill : RawFill) : string :=
  f_instId fill ++ "-" ++ JS.toLowerCase (f_posSide fill).

(** The check at the end of the loop body of [processFills]. *)
Definition closeCheck (positionKey : string) (builder : OkxTradeBuilder.t)
    (st : FoldState) : FoldState :=
  if OkxTradeBuilder.isClosed builder
  then mkState (closedTrades st ++ [OkxTradeBuilder.getTrade builder])
               (JS.delete positionKey (openPositions st))
  else st.

(** One iteration of the loop of [processFills]. *)
Definition processFill (instruments : JS.map InstrumentDetail)
    (st : FoldState) (fill : RawFill) : FoldState :=
  let positionKey := positionKeyOf fill in
  match JS.get positionKey (openPositions st) with
  | None =>
      let contractValue :=
        match JS.get (f_instId fill) instruments with
        | Some instrument => i_ctVal instrument
        | None => 1
        end in
      let isReduce := isReduceOnly fill in
      if isReduce then st
      else
        let isInverse :=
          JS.includes (f_instId fill) "-USD-"
          && negb (JS.includes (f_instId fill) "-USDT-") in
        let builder := OkxTradeBuilder.new fill contractValue isInverse in
        closeCheck positionKey builder
          (mkState (closedTrades st)
                   (JS.set positionKey builder (openPositions st)))
  | Some builder =>
      let builder := OkxTradeBuilder.addFill builder fill in
      closeCheck positionKey builder
        (mkState (closedTrades st)
                 (JS.set positionKey builder (openPositions st)))
  end.

Definition processFills (instruments : JS.map InstrumentDetail)
    (rawFills : list RawFill) : FoldState :=
  fold_left (processFill instruments) rawFills (mkState [] []).

(** The index [billsBySymbol]: the bills of type ['8'], by [instId]. *)
Definition indexBills (rawBills : list Bill) : JS.map (list Bill) :=
  fold_left
    (fun m bill =>
       if String.eqb (b_type bill) "8" then
         match JS.get (b_instId bill) m with
         | None => JS.set (b_instId bill) [bill] m
         | Some l => JS.set (b_instId bill) (l ++ [bill])%list m
         end
       else m)
    rawBills [].

(** The inner loop of the funding match, for one trade. *)
Definition creditBills (potentialBills : list Bill) (trade : StandardizedTrade)
  : StandardizedTrade :=
  fold_left
    (fun trade bill =>
       let billTs := b_ts bill in
       if isRelevant billTs trade then
         let feeAmount := b_balChg bill in
         let trade := set_totalFundingFee (totalFundingFee trade + feeAmount) trade in
         set_rawBills (_rawBills trade ++ [bill]) trade
       else trade)
    potentialBills trade.

Definition applyFunding (billsBySymbol : JS.map (list Bill))
    (trade : StandardizedTrade) : StandardizedTrade :=
  match JS.get (symbol trade) billsBySymbol with
  | None => trade
  | Some potentialBills => creditBills potentialBills trade
  end.

(** The loop over the position risks. *)
Definition applyRisk (open : JS.map OkxTradeBuilder.t) (risk : OkxPosition)
  : JS.map OkxTradeBuilder.t :=
  let positionKey := p_instId risk ++ "-" ++ JS.toLowerCase (p_posSide risk) in
  match JS.get positionKey open with
  | Some builder =>
      let trade := OkxTradeBuilder.getTrade builder in
      JS.set positionKey
        (OkxTradeBuilder.with_trade builder
           (set_currentNotionalValue (Some (p_notionalUsd risk)) trade))
        open
  | None => open
  end.

(** [applyBillsAndRisks]: every trade of [allTrades] is an object of
    [closedTrades] or of a builder of [openPositions], so the updates
    are made where the trades are stored. *)
Definition applyBillsAndRisks (st : FoldState) (rawBills : list Bill)
    (positions : list OkxPosition) : FoldState :=
  let billsBySymbol := indexBills rawBills in
  let closed := map (applyFunding billsBySymbol) (closedTrades st) in
  let open :=
    map (fun kb =>
           (fst kb,
            OkxTradeBuilder.with_trade (snd kb)
              (applyFunding billsBySymbol (OkxTradeBuilder.getTrade (snd kb)))))
        (openPositions st) in
  mkState closed (fold_left applyRisk positions open).

(** The body of the loop of [finalizeMetrics]. *)
Definition finalizeTrade (trade : StandardizedTrade) : StandardizedTrade :=
  let trade := set_timeline (TimelineUtils.aggregateEvents (timeline trade)) trade in
  let trade :=
    set_netPnl (realizedPnl trade - totalCommission trade + totalFundingFee trade)
      trade in
  if JS.Qgtb (totalValue trade) 0
  then set_pnlPercentage (netPnl trade / totalValue trade) trade
  else set_pnlPercentage 0 trade.

Definition finalizeMetrics (trades : list StandardizedTrade)
  : list StandardizedTrade := map finalizeTrade trades.

Definition allTradesOf (st : FoldState) : list StandardizedTrade :=
  closedTrades st ++ map OkxTradeBuilder.getTrade (JS.values (openPositions st)).

Definition processAllData (rawFills : list RawFill) (rawBills : list Bill)
    (instruments : list InstrumentDetail) (positions : list OkxPosition)
  : list StandardizedTrade :=
  let index := indexInstruments instruments in
  let rawFills := JS.sort compareFills rawFills in
  let st := processFills index rawFills in
  let st := applyBillsAndRisks st rawBills positions in
  finalizeMetrics (allTradesOf st).

End OkxUMFuturesTradeProcessor.

(** ** Funding attribution with [break], shared by the Binance futures
    processors

    [tradesBySymbol.get(bill.instId)] lists the trades of [allTrades]
    that have the bill's symbol, in the order of [allTrades]; the inner
    loop credits the first of them that is relevant and stops. *)

Definition creditTrade (bill : Bill) (trade : StandardizedTrade) : StandardizedTrade :=
  let trade := set_totalFundingFee (totalFundingFee trade + b_balChg bill) trade in
  set_rawBills (_rawBills trade ++ [bill]) trade.

Fixpoint creditFirstRelevant (bill : Bill) (trades : list StandardizedTrade)
  : list StandardizedTrade :=
  match trades with
  | [] => []
  | trade :: rest =>
      if String.eqb (symbol trade) (b_instId bill) && isRelevant (b_ts bill) trade
      then creditTrade bill trade :: rest
      else trade :: creditFirstRelevant bill rest
  end.

Definition BILL_TYPE_FUNDING_FEE : string := "FUNDING_FEE".

(** The loop over [rawBills]. *)
Definition applyBillsFirstMatch (rawBills : list Bill)
    (allTrades : list StandardizedTrade) : list StandardizedTrade :=
  fold_left
    (fun trades bill =>
       if String.eqb (b_type bill) BILL_TYPE_FUNDING_FEE
       then creditFirstRelevant bill trades
       else trades)
    rawBills allTrades.

(** Puts the updated objects back where the map holds them. *)
Definition replaceValues {V W : Type} (f : V -> W -> V) (m : JS.map V)
    (ws : list W) : JS.map V :=
  map (fun kvw => (fst (fst kvw), f (snd (fst kvw)) (snd kvw))) (combine m ws).

(** [trade.timeline[trade.timeline.length - 1].action] is [REDUCE] or [CLOSE]. *)
Definition lastIsReduceOrClose (tl : list TimelineEvent) : bool :=
  match rev tl with
  | [] => false
  | e :: _ => Action_eqb (action e) REDUCE || Action_eqb (action e) CLOSE
  end.

(** ** [infrastructure/binance/BinanceTradeBuilder] *)

Module BinanceTradeBuilder.

Record t := mk {
  trade : StandardizedTrade;
  contractValue : Q
}.

Definition with_trade (b : t) (tr : StandardizedTrade) : t :=
  mk tr (contractValue b).

Definition getTrade (b : t) : StandardizedTrade := trade b.

Definition isClosed (b : t) : bool := PositionStatus_eqb (status (trade b)) CLOSED.

Definition initializeTrade (fill : RawFill) : StandardizedTrade :=
  let timestamp := f_ts fill in
  let positionSide := JS.toLowerCase (f_posSide fill) in
  let fillSide := JS.toLowerCase (f_side fill) in
  let direction :=
    if String.eqb positionSide "long" then LONG
    else if String.eqb positionSide "short" then SHORT
    else if String.eqb fillSide "buy" then LONG else SHORT in
  {| id := f_instId fill ++ "-" ++ f_posSide fill ++ "-" ++ JS.stringOfInt timestamp;
     symbol := f_instId fill;
     direction := direction;
     status := OPEN_;
     entryTime := timestamp;
     exitTime := 0;
     durationMs := 0;
     totalSize := 0;
     totalValue := 0;
     averageEntryPrice := 0;
     averageExitPrice := 0;
     realizedPnl := 0;
     totalCommission := 0;
     totalFundingFee := 0;
     netPnl := 0;
     pnlPercentage := 0;
     timeline := [];
     tradeIds := [];
     orderIds := [];
     tags := [];
     _currentPositionSize := 0;
     _closingSizeAccumulator := 0;
     _closingValueAccumulator := 0;
     _rawFills := [];
     _rawBills := [];
     currentNotionalValue := None;
     pnlCurrency := "USDT";
     feeCurrency := JS.orElse (f_feeCcy fill) "USDT";
     valueCurrency := "USDT" |}.

Definition applyEvent (tr : StandardizedTrade) (event : TimelineEvent)
    (isLong : bool) : StandardizedTrade :=
  let tr :=
    if Action_eqb (action event) OPEN || Action_eqb (action event) ADD then
      let newSize := totalSize tr + size event in
      let newVal := totalValue tr + size event * price event in
      let tr :=
        if JS.Qgtb newSize 0 then set_averageEntryPrice (newVal / newSize) tr
        else tr in
      let tr := set_totalSize newSize tr in
      let tr := set_totalValue newVal tr in
      set_currentPositionSize (_currentPositionSize tr + size event) tr
    else if Action_eqb (action event) REDUCE || Action_eqb (action event) CLOSE then
      let reduceSize := Qmin (size event) (_currentPositionSize tr) in
      let pnl := (price event - averageEntryPrice tr) * reduceSize
                 * (if isLong then 1 else -1) in
      let tr := set_realizedPnl (realizedPnl tr + pnl) tr in
      let tr := set_currentPositionSize (_currentPositionSize tr - reduceSize) tr in
      let tr := set_closingSizeAccumulator (_closingSizeAccumulator tr + reduceSize) tr in
      set_closingValueAccumulator
        (_closingValueAccumulator tr + reduceSize * price event) tr
    else tr in
  set_timeline (timeline tr ++ [event]) tr.

Definition closeTrade (tr : StandardizedTrade) (exitTime_ : Z) : StandardizedTrade :=
  let tr := set_status CLOSED tr in
  let tr := set_exitTime exitTime_ tr in
  let tr := set_durationMs (exitTime tr - entryTime tr)%Z tr in
  if JS.Qgtb (_closingSizeAccumulator tr) 0
  then set_averageExitPrice
         (_closingValueAccumulator tr / _closingSizeAccumulator tr) tr
  else tr.

(** [timelineEvent.action = 'CLOSE'] after the event has been pushed:
    the assignment reaches the last element of the timeline. *)
Definition closeLastEvent (tl : list TimelineEvent) : list TimelineEvent :=
  match rev tl with
  | [] => []
  | e :: before => rev before ++ [with_action CLOSE e]
  end.

Definition addFill (b : t) (fill : RawFill) : t :=
  let tr := trade b in
  let fillPrice := f_fillPx fill in
  let fillSize := f_fillSz fill * contractValue b in
  let fillFee := f_fee fill in
  let timestamp_ := f_ts fill in
  let isLong := TradeDirection_eqb (direction tr) LONG in
  let isBuy := String.eqb (JS.toLowerCase (f_side fill)) "buy" in
  let isAdd := if isLong then isBuy else negb isBuy in
  let action_ :=
    match timeline tr with
    | [] => OPEN
    | _ => if isAdd then ADD else REDUCE
    end in
  let timelineEvent :=
    {| timestamp := timestamp_;
       action := action_;
       size := fillSize;
       price := fillPrice;
       notes := "";
       tradeId := f_tradeId fill;
       orderId := f_ordId fill;
       fee := fillFee;
       feeCcy := f_feeCcy fill |} in
  let tr := applyEvent tr timelineEvent isLong in
  let tr := set_rawFills (_rawFills tr ++ [fill]) tr in
  let tr :=
    if negb (JS.mem (f_tradeId fill) (tradeIds tr))
    then set_tradeIds (tradeIds tr ++ [f_tradeId fill]) tr else tr in
  let tr :=
    if negb (JS.mem (f_ordId fill) (orderIds tr))
    then set_orderIds (orderIds tr ++ [f_ordId fill]) tr else tr in
  let tr := set_totalCommission (totalCommission tr + fillFee) tr in
  let tr :=
    if Action_eqb action_ REDUCE then
      if Qle_bool (_currentPositionSize tr) FLOATING_POINT_TOLERANCE then
        let tr := closeTrade tr timestamp_ in
        set_timeline (closeLastEvent (timeline tr)) tr
      else tr
    else tr in
  with_trade b tr.

(** [new BinanceTradeBuilder(firstFill, contractValue)]. *)
Definition new (firstFill : RawFill) (ctVal : Q) : t :=
  addFill (mk (initializeTrade firstFill) ctVal) firstFill.

End BinanceTradeBuilder.

(** ** [infrastructure/binance/BinanceUMFuturesTradeProcessor] *)

Module BinanceUMFuturesTradeProcessor.

Record FoldState := mkState {
  closedTrades : list StandardizedTrade;
  openPositions : JS.map BinanceTradeBuilder.t
}.

(** The comparator of the sort of the fills: the timestamp alone. *)
Definition compareFills (a b : RawFill) : Z := (f_ts a - f_ts b)%Z.

Definition positionKeyOf (fill : RawFill) : string :=
  f_instId fill ++ "-" ++ f_posSide fill.

Definition isOpeningFill (fill : RawFill) : bool :=
  let fillSide := JS.toLowerCase (f_side fill) in
  let positionSide := JS.toLowerCase (f_posSide fill) in
  (String.eqb positionSide "long" && String.eqb fillSide "buy")
  || (String.eqb positionSide "short" && String.eqb fillSide "sell").

Definition closeCheck (positionKey : string) (builder : BinanceTradeBuilder.t)
    (st : FoldState) : FoldState :=
  if BinanceTradeBuilder.isClosed builder
  then mkState (closedTrades st ++ [BinanceTradeBuilder.getTrade builder])
               (JS.delete positionKey (openPositions st))
  else st.

Definition processFill (instruments : JS.map InstrumentDetail)
    (st : FoldState) (fill : RawFill) : FoldState :=
  let positionKey := positionKeyOf fill in
  match JS.get positionKey (openPositions st) with
  | None =>
      if negb (isOpeningFill fill) then st
      else
        let contractValue :=
          match JS.get (f_instId fill) instruments with
          | Some instrument => i_ctVal instrument
          | None => 1
          end in
        let builder := BinanceTradeBuilder.new fill contractValue in
        closeCheck positionKey builder
          (mkState (closedTrades st)
                   (JS.set positionKey builder (openPositions st)))
  | Some builder =>
      let builder := BinanceTradeBuilder.addFill builder fill in
      closeCheck positionKey builder
        (mkState (closedTrades st)
                 (JS.set positionKey builder (openPositions st)))
  end.

Definition processFills (instruments : JS.map InstrumentDetail)
    (rawFills : list RawFill) : FoldState :=
  fold_left (processFill instruments) rawFills (mkState [] []).

Definition allTradesOf (st : FoldState) : list StandardizedTrade :=
  closedTrades st ++ map BinanceTradeBuilder.getTrade (JS.values (openPositions st)).

(** The loop over [rawPositionRisks]: its body builds [positionKey] and
    does nothing else. *)
Definition applyRisk (open : JS.map BinanceTradeBuilder.t)
    (rawRisk : RawPositionRisk) : JS.map BinanceTradeBuilder.t :=
  let positionKey := r_symbol rawRisk ++ "-" ++ r_positionSide rawRisk in
  open.

Definition applyBillsAndRisks (st : FoldState) (rawBills : list Bill)
    (rawPositionRisks : list RawPositionRisk) : FoldState :=
  let allTrades := applyBillsFirstMatch rawBills (allTradesOf st) in
  let n := length (closedTrades st) in
  let open :=
    replaceValues BinanceTradeBuilder.with_trade (openPositions st)
      (skipn n allTrades) in
  mkState (firstn n allTrades) (fold_left applyRisk rawPositionRisks open).

Definition finalizeTrade (trade : StandardizedTrade) : StandardizedTrade :=
  let trade := set_timeline (TimelineUtils.aggregateEvents (timeline trade)) trade in
  let trade :=
    set_netPnl (realizedPnl trade - totalCommission trade + totalFundingFee trade)
      trade in
  if JS.Qgtb (totalValue trade) 0
  then set_pnlPercentage (netPnl trade / totalValue trade) trade
  else set_pnlPercentage 0 trade.

Definition finalizeMetrics (allTrades : list StandardizedTrade)
  : list StandardizedTrade := map finalizeTrade allTrades.

Definition processAllData (rawFills : list RawFill) (rawBills : list Bill)
    (instrumentDetails : list InstrumentDetail)
    (rawPositionRisks : list RawPositionRisk) : list StandardizedTrade :=
  let index := indexInstruments instrumentDetails in
  let rawFills := JS.sort compareFills rawFills in
  let st := processFills index rawFills in
  let st := applyBillsAndRisks st rawBills rawPositionRisks in
  finalizeMetrics (allTradesOf st).

End BinanceUMFuturesTradeProcessor.

(** ** [infrastructure/binance/BinanceCMFuturesTradeProcessor] *)

Module BinanceCMFuturesTradeProcessor.

Record FoldState := mkState {
  closedTrades : list StandardizedTrade;
  openPositions : JS.map StandardizedTrade
}.

Definition compareFills (a b : RawFill) : Z := (f_ts a - f_ts b)%Z.

Definition positionKeyOf (fill : RawFill) : string :=
  f_instId fill ++ "-" ++ f_posSide fill.

Definition isOpeningFill (fill : RawFill) : bool :=
  let fillSide := JS.toLowerCase (f_side fill) in
  let positionSide := JS.toLowerCase (f_posSide fill) in
  (String.eqb positionSide "long" && String.eqb fillSide "buy")
  || (String.eqb positionSide "short" && String.eqb fillSide "sell").

Definition _createNewTrade (instruments : JS.map InstrumentDetail)
    (fill : RawFill) : StandardizedTrade :=
  let fillTimestamp := f_ts fill in
  let positionSide := JS.toLowerCase (f_posSide fill) in
  let fillSide := JS.toLowerCase (f_side fill) in
  let instrument := JS.get (f_instId fill) instruments in
  let pnlCcy :=
    match instrument with Some i => i_baseCcy i | None => "Unknown" end in
  let valCcy :=
    match instrument with Some i => i_quoteCcy i | None => "USD" end in
  let direction :=
    if String.eqb positionSide "long" then LONG
    else if String.eqb positionSide "short" then SHORT
    else if String.eqb fillSide "buy" then LONG else SHORT in
  {| id := f_instId fill ++ "-" ++ positionSide ++ "-" ++ JS.stringOfInt fillTimestamp;
     symbol := f_instId fill;
     direction := direction;
     status := OPEN_;
     entryTime := fillTimestamp;
     exitTime := 0;
     durationMs := 0;
     totalSize := 0;
     totalValue := 0;
     averageEntryPrice := 0;
     averageExitPrice := 0;
     realizedPnl := 0;
     totalCommission := 0;
     totalFundingFee := 0;
     netPnl := 0;
     pnlPercentage := 0;
     timeline := [];
     tradeIds := [];
     orderIds := [];
     tags := [];
     _currentPositionSize := 0;
     _closingSizeAccumulator := 0;
     _closingValueAccumulator := 0;
     _rawFills := [];
     _rawBills := [];
     currentNotionalValue := None;
     pnlCurrency := pnlCcy;
     feeCurrency := f_feeCcy fill;
     valueCurrency := valCcy |}.

Definition _updateTradeWithFill (instruments : JS.map InstrumentDetail)
    (trade : StandardizedTrade) (fill : RawFill) : StandardizedTrade :=
  let fillSide := JS.toLowerCase (f_side fill) in
  let fillPrice := f_fillPx fill in
  let fillSizeContracts := f_fillSz fill in
  let instrument := JS.get (f_instId fill) instruments in
  let contractValueUsd :=
    match instrument with Some i => i_ctVal i | None => 100 end in
  let fillNotionalUsd := fillSizeContracts * contractValueUsd in
  let fillCostCoin := fillNotionalUsd / fillPrice in
  let timelineEvent (a : Action) :=
    {| timestamp := f_ts fill;
       action := a;
       size := fillSizeContracts;
       price := fillPrice;
       notes := "";
       tradeId := f_tradeId fill;
       orderId := f_ordId fill;
       fee := f_fee fill;
       feeCcy := f_feeCcy fill |} in
  let isCurrentLong := TradeDirection_eqb (direction trade) LONG in
  let isFillDirectionBuy := String.eqb fillSide "buy" in
  let '(trade, action_) :=
    if (isCurrentLong && isFillDirectionBuy)
       || (negb isCurrentLong && negb isFillDirectionBuy) then
      let action_ := match timeline trade with [] => OPEN | _ => ADD end in
      let previousCostCoin :=
        if JS.Qgtb (totalSize trade) 0 && JS.Qgtb (averageEntryPrice trade) 0
        then totalValue trade / averageEntryPrice trade
        else 0 in
      let newTotalNotionalUsd := totalValue trade + fillNotionalUsd in
      let newTotalCostCoin := previousCostCoin + fillCostCoin in
      let trade := set_averageEntryPrice (newTotalNotionalUsd / newTotalCostCoin) trade in
      let trade := set_totalSize (totalSize trade + fillSizeContracts) trade in
      let trade := set_totalValue newTotalNotionalUsd trade in
      let trade :=
        set_currentPositionSize (_currentPositionSize trade + fillSizeContracts)
          trade in
      (trade, action_)
    else
      let sizeReducedContracts :=
        Qmin fillSizeContracts (_currentPositionSize trade) in
      let notionalReducedUsd := sizeReducedContracts * contractValueUsd in
      let pnlCoin :=
        if TradeDirection_eqb (direction trade) LONG
        then notionalReducedUsd * (1 / averageEntryPrice trade - 1 / fillPrice)
        else notionalReducedUsd * (1 / fillPrice - 1 / averageEntryPrice trade) in
      let trade := set_realizedPnl (realizedPnl trade + pnlCoin) trade in
      let trade :=
        set_currentPositionSize (_currentPositionSize trade - sizeReducedContracts)
          trade in
      let trade :=
        set_closingSizeAccumulator
          (_closingSizeAccumulator trade + sizeReducedContracts) trade in
      let trade :=
        set_closingValueAccumulator
          (_closingValueAccumulator trade + sizeReducedContracts * fillPrice)
          trade in
      if Qle_bool (_currentPositionSize trade) FLOATING_POINT_TOLERANCE
      then (set_currentPositionSize 0 trade, CLOSE)
      else (trade, REDUCE) in
  let timelineEvent := timelineEvent action_ in
  let trade := set_totalCommission (totalCommission trade + fee timelineEvent) trade in
  let trade := set_timeline (timeline trade ++ [timelineEvent]) trade in
  let trade := set_tradeIds (tradeIds trade ++ [f_tradeId fill]) trade in
  let trade := set_rawFills (_rawFills trade ++ [fill]) trade in
  if negb (JS.mem (f_ordId fill) (orderIds trade))
  then set_orderIds (orderIds trade ++ [f_ordId fill]) trade
  else trade.

Definition _closeTrade (trade : StandardizedTrade) (exitTimestamp : Z)
  : StandardizedTrade :=
  let trade := set_status CLOSED trade in
  let trade := set_exitTime exitTimestamp trade in
  let trade := set_durationMs (exitTime trade - entryTime trade)%Z trade in
  if JS.Qgtb (_closingSizeAccumulator trade) 0
  then set_averageExitPrice
         (_closingValueAccumulator trade / _closingSizeAccumulator trade) trade
  else set_averageExitPrice 0 trade.

(** One iteration of the loop of [_processFillsAndAggregateTrades]. *)
Definition processFill (instruments : JS.map InstrumentDetail)
    (st : FoldState) (fill : RawFill) : FoldState :=
  let positionKey := positionKeyOf fill in
  let found := JS.get positionKey (openPositions st) in
  let isOpening := isOpeningFill fill in
  match found with
  | None =>
      if negb isOpening then st
      else
        let trade := _createNewTrade instruments fill in
        let trade := _updateTradeWithFill instruments trade fill in
        let open := JS.set positionKey trade (openPositions st) in
        if Qle_bool (_currentPositionSize trade) FLOATING_POINT_TOLERANCE
           && lastIsReduceOrClose (timeline trade)
        then mkState (closedTrades st ++ [_closeTrade trade (f_ts fill)])
                     (JS.delete positionKey open)
        else mkState (closedTrades st) open
  | Some trade =>
      let trade := _updateTradeWithFill instruments trade fill in
      let open := JS.set positionKey trade (openPositions st) in
      if Qle_bool (_currentPositionSize trade) FLOATING_POINT_TOLERANCE
         && lastIsReduceOrClose (timeline trade)
      then mkState (closedTrades st ++ [_closeTrade trade (f_ts fill)])
                   (JS.delete positionKey open)
      else mkState (closedTrades st) open
  end.

Definition _processFillsAndAggregateTrades (instruments : JS.map InstrumentDetail)
    (rawFills : list RawFill) : FoldState :=
  fold_left (processFill instruments) rawFills (mkState [] []).

Definition allTradesOf (st : FoldState) : list StandardizedTrade :=
  closedTrades st ++ JS.values (openPositions st).

Definition applyRisk (open : JS.map StandardizedTrade)
    (rawRisk : RawPositionRisk) : JS.map StandardizedTrade :=
  let positionKey :=
    r_symbol rawRisk ++ "-" ++ JS.toLowerCase (r_positionSide rawRisk) in
  match JS.get positionKey open with
  | Some trade =>
      JS.set positionKey
        (set_currentNotionalValue (Some (r_notional rawRisk)) trade) open
  | None => open
  end.

Definition _applyBillsAndRisks (st : FoldState) (rawBills : list Bill)
    (rawPositionRisks : list RawPositionRisk) : FoldState :=
  let allTrades := applyBillsFirstMatch rawBills (allTradesOf st) in
  let n := length (closedTrades st) in
  let open :=
    replaceValues (fun _ trade => trade) (openPositions st) (skipn n allTrades) in
  mkState (firstn n allTrades) (fold_left applyRisk rawPositionRisks open).

Definition finalizeTrade (trade : StandardizedTrade) : StandardizedTrade :=
  let trade :=
    set_timeline (BinanceTimeline._aggregateTimelineEvents (timeline trade)) trade in
  let trade :=
    set_netPnl (realizedPnl trade - totalCommission trade + totalFundingFee trade)
      trade in
  let costCoin := totalValue trade / averageEntryPrice trade in
  if negb (Qeq_bool costCoin 0)
  then set_pnlPercentage (netPnl trade / costCoin) trade
  else set_pnlPercentage 0 trade.

Definition _finalizeTradeMetrics (allTrades : list StandardizedTrade)
  : list StandardizedTrade := map finalizeTrade allTrades.

Definition processAllData (rawFills : list RawFill) (rawBills : list Bill)
    (instrumentDetails : list InstrumentDetail)
    (rawPositionRisks : list RawPositionRisk) : list StandardizedTrade :=
  let instruments := indexInstruments instrumentDetails in
  let rawFills := JS.sort compareFills rawFills in
  let st := _processFillsAndAggregateTrades instruments rawFills in
  let st := _applyBillsAndRisks st rawBills rawPositionRisks in
  _finalizeTradeMetrics (allTradesOf st).

End BinanceCMFuturesTradeProcessor.

(** ** [infrastructure/binance/BinanceSpotTradeProcessor] *)

Module BinanceSpotTradeProcessor.

Record FoldState := mkState {
  closedTrades : list StandardizedTrade;
  openPositions : JS.map StandardizedTrade
}.

Definition compareFills (a b : RawFill) : Z := (f_ts a - f_ts b)%Z.

Definition positionKeyOf (fill : RawFill) : string := f_instId fill ++ "-spot".

Definition _createNewTrade (instruments : JS.map InstrumentDetail)
    (fill : RawFill) : StandardizedTrade :=
  let fillTimestamp := f_ts fill in
  let instrument := JS.get (f_instId fill) instruments in
  let quoteCcy :=
    match instrument with Some i => i_quoteCcy i | None => "USDT" end in
  let feeCcy_ := f_feeCcy fill in
  {| id := f_instId fill ++ "-spot-" ++ JS.stringOfInt fillTimestamp;
     symbol := f_instId fill;
     direction := LONG;
     status := OPEN_;
     entryTime := fillTimestamp;
     exitTime := 0;
     durationMs := 0;
     totalSize := 0;
     totalValue := 0;
     averageEntryPrice := 0;
     averageExitPrice := 0;
     realizedPnl := 0;
     totalCommission := 0;
     totalFundingFee := 0;
     netPnl := 0;
     pnlPercentage := 0;
     timeline := [];
     tradeIds := [];
     orderIds := [];
     tags := ["spot"];
     _currentPositionSize := 0;
     _closingSizeAccumulator := 0;
     _closingValueAccumulator := 0;
     _rawFills := [];
     _rawBills := [];
     currentNotionalValue := None;
     pnlCurrency := quoteCcy;
     feeCurrency := feeCcy_;
     valueCurrency := quoteCcy |}.

Definition _updateTradeWithFill (trade : StandardizedTrade) (fill : RawFill)
  : StandardizedTrade :=
  let isBuy := String.eqb (JS.toLowerCase (f_side fill)) "buy" in
  let fillPrice := f_fillPx fill in
  let fillSize := f_fillSz fill in
  let timelineEvent (a : Action) :=
    {| timestamp := f_ts fill;
       action := a;
       size := fillSize;
       price := fillPrice;
       notes := "";
       tradeId := f_tradeId fill;
       orderId := f_ordId fill;
       fee := f_fee fill;
       feeCcy := f_feeCcy fill |} in
  let '(trade, action_) :=
    if isBuy then
      let action_ := match timeline trade with [] => OPEN | _ => ADD end in
      let newCumulativeSize := totalSize trade + fillSize in
      let newCumulativeCost :=
        totalSize trade * averageEntryPrice trade + fillSize * fillPrice in
      let trade := set_averageEntryPrice (newCumulativeCost / newCumulativeSize) trade in
      let trade := set_totalSize newCumulativeSize trade in
      let trade := set_totalValue newCumulativeCost trade in
      let trade := set_currentPositionSize (_currentPositionSize trade + fillSize) trade in
      (trade, action_)
    else
      let sizeReduced := Qmin fillSize (_currentPositionSize trade) in
      let pnl := (fillPrice - averageEntryPrice trade) * sizeReduced in
      let trade := set_realizedPnl (realizedPnl trade + pnl) trade in
      let trade := set_currentPositionSize (_currentPositionSize trade - sizeReduced) trade in
      let trade :=
        set_closingSizeAccumulator (_closingSizeAccumulator trade + sizeReduced) trade in
      let trade :=
        set_closingValueAccumulator
          (_closingValueAccumulator trade + sizeReduced * fillPrice) trade in
      if Qle_bool (_currentPositionSize trade) FLOATING_POINT_TOLERANCE
      then (set_currentPositionSize 0 trade, CLOSE)
      else (trade, REDUCE) in
  let timelineEvent := timelineEvent action_ in
  let trade := set_totalCommission (totalCommission trade + fee timelineEvent) trade in
  let trade := set_timeline (timeline trade ++ [timelineEvent]) trade in
  let trade := set_tradeIds (tradeIds trade ++ [f_tradeId fill]) trade in
  let trade := set_rawFills (_rawFills trade ++ [fill]) trade in
  if negb (JS.mem (f_ordId fill) (orderIds trade))
  then set_orderIds (orderIds trade ++ [f_ordId fill]) trade
  else trade.

Definition _closeTrade (trade : StandardizedTrade) (exitTimestamp : Z)
  : StandardizedTrade :=
  let trade := set_status CLOSED trade in
  let trade := set_exitTime exitTimestamp trade in
  let trade := set_durationMs (exitTime trade - entryTime trade)%Z trade in
  if JS.Qgtb (_closingSizeAccumulator trade) 0
  then set_averageExitPrice
         (_closingValueAccumulator trade / _closingSizeAccumulator trade) trade
  else set_averageExitPrice 0 trade.

(** One iteration of the loop of [_processFillsAndAggregateTrades]. *)
Definition processFill (instruments : JS.map InstrumentDetail)
    (st : FoldState) (fill : RawFill) : FoldState :=
  let positionKey := positionKeyOf fill in
  let found := JS.get positionKey (openPositions st) in
  let isBuy := String.eqb (JS.toLowerCase (f_side fill)) "buy" in
  match found with
  | None =>
      if negb isBuy then st
      else
        let trade := _createNewTrade instruments fill in
        let trade := _updateTradeWithFill trade fill in
        let open := JS.set positionKey trade (openPositions st) in
        if Qle_bool (_currentPositionSize trade) FLOATING_POINT_TOLERANCE
           && lastIsReduceOrClose (timeline trade)
        then mkState (closedTrades st ++ [_closeTrade trade (f_ts fill)])
                     (JS.delete positionKey open)
        else mkState (closedTrades st) open
  | Some trade =>
      let trade := _updateTradeWithFill trade fill in
      let open := JS.set positionKey trade (openPositions st) in
      if Qle_bool (_currentPositionSize trade) FLOATING_POINT_TOLERANCE
         && lastIsReduceOrClose (timeline trade)
      then mkState (closedTrades st ++ [_closeTrade trade (f_ts fill)])
                   (JS.delete positionKey open)
      else mkState (closedTrades st) open
  end.

Definition _processFillsAndAggregateTrades (instruments : JS.map InstrumentDetail)
    (rawFills : list RawFill) : FoldState :=
  fold_left (processFill instruments) rawFills (mkState [] []).

Definition allTradesOf (st : FoldState) : list StandardizedTrade :=
  closedTrades st ++ JS.values (openPositions st).

Definition finalizeTrade (trade : StandardizedTrade) : StandardizedTrade :=
  let trade :=
    set_timeline (BinanceTimeline._aggregateTimelineEvents (timeline trade)) trade in
  let trade := set_netPnl (realizedPnl trade - totalCommission trade) trade in
  if JS.Qgtb (totalValue trade) 0
  then set_pnlPercentage (netPnl trade / totalValue trade) trade
  else set_pnlPercentage 0 trade.

Definition _finalizeTradeMetrics (allTrades : list StandardizedTrade)
  : list StandardizedTrade := map finalizeTrade allTrades.

(** [rawBills] and [rawPositionRisks] are not read. *)
Definition processAllData (rawFills : list RawFill) (rawBills : list Bill)
    (instrumentDetails : list InstrumentDetail)
    (rawPositionRisks : list RawPositionRisk) : list StandardizedTrade :=
  let instruments := indexInstruments instrumentDetails in
  let rawFills := JS.sort compareFills rawFills in
  let st := _processFillsAndAggregateTrades instruments rawFills in
  _finalizeTradeMetrics (allTradesOf st).

End BinanceSpotTradeProcessor.

(** ** [infrastructure/binance/BinanceMarginTradeProcessor] *)

Module BinanceMarginTradeProcessor.

Record FoldState := mkState {
  closedTrades : list StandardizedTrade;
  openPositions : JS.map StandardizedTrade
}.

Definition compareFills (a b : RawFill) : Z := (f_ts a - f_ts b)%Z.

Definition positionKeyOf (fill : RawFill) : string := f_instId fill ++ "-margin".

(** [{ ...fill, fillSz: sz.toString() }]. *)
Definition with_fillSz (sz : Q) (fill : RawFill) : RawFill :=
  mkFill (f_instId fill) (f_tradeId fill) (f_ordId fill) (f_side fill)
    (f_posSide fill) (f_fillPx fill) sz (f_fee fill) (f_feeCcy fill) (f_ts fill).

Definition _createNewTrade (instruments : JS.map InstrumentDetail)
    (fill : RawFill) : StandardizedTrade :=
  let fillTimestamp := f_ts fill in
  let instrument := JS.get (f_instId fill) instruments in
  let quoteCcy :=
    match instrument with Some i => i_quoteCcy i | None => "USDT" end in
  let feeCcy_ := f_feeCcy fill in
  let isBuy := String.eqb (JS.toLowerCase (f_side fill)) "buy" in
  let direction := if isBuy then LONG else SHORT in
  {| id := f_instId fill ++ "-margin-" ++ JS.stringOfInt fillTimestamp;
     symbol := f_instId fill;
     direction := direction;
     status := OPEN_;
     entryTime := fillTimestamp;
     exitTime := 0;
     durationMs := 0;
     totalSize := 0;
     totalValue := 0;
     averageEntryPrice := 0;
     averageExitPrice := 0;
     realizedPnl := 0;
     totalCommission := 0;
     totalFundingFee := 0;
     netPnl := 0;
     pnlPercentage := 0;
     timeline := [];
     tradeIds := [];
     orderIds := [];
     tags := ["margin"];
     _currentPositionSize := 0;
     _closingSizeAccumulator := 0;
     _closingValueAccumulator := 0;
     _rawFills := [];
     _rawBills := [];
     currentNotionalValue := None;
     pnlCurrency := quoteCcy;
     feeCurrency := feeCcy_;
     valueCurrency := quoteCcy |}.

Definition _updateTradeWithFill (trade : StandardizedTrade) (fill : RawFill)
    (isOpeningNewCycle : bool) : StandardizedTrade :=
  let isBuy := String.eqb (JS.toLowerCase (f_side fill)) "buy" in
  let fillPrice := f_fillPx fill in
  let fillSize := f_fillSz fill in
  let timelineEvent (a : Action) :=
    {| timestamp := f_ts fill;
       action := a;
       size := fillSize;
       price := fillPrice;
       notes := "";
       tradeId := f_tradeId fill;
       orderId := f_ordId fill;
       fee := f_fee fill;
       feeCcy := f_feeCcy fill |} in
  let isIncrease :=
    if TradeDirection_eqb (direction trade) LONG then isBuy else negb isBuy in
  let '(trade, action_) :=
    if isIncrease then
      let action_ :=
        if JS.Qgtb (Qabs (_currentPositionSize trade)) 0 && negb isOpeningNewCycle
        then ADD else OPEN in
      let currentAbsSize := Qabs (_currentPositionSize trade) in
      let currentCost := currentAbsSize * averageEntryPrice trade in
      let newFillCost := fillSize * fillPrice in
      let newTotalSize := currentAbsSize + fillSize in
      let trade :=
        set_averageEntryPrice ((currentCost + newFillCost) / newTotalSize) trade in
      let trade := set_totalSize (totalSize trade + fillSize) trade in
      let trade := set_totalValue (totalValue trade + newFillCost) trade in
      let trade :=
        if TradeDirection_eqb (direction trade) LONG
        then set_currentPositionSize (_currentPositionSize trade + fillSize) trade
        else set_currentPositionSize (_currentPositionSize trade - fillSize) trade in
      (trade, action_)
    else
      let reduceSize := fillSize in
      let '(pnl, trade) :=
        if TradeDirection_eqb (direction trade) LONG
        then ((fillPrice - averageEntryPrice trade) * reduceSize,
              set_currentPositionSize (_currentPositionSize trade - reduceSize) trade)
        else ((averageEntryPrice trade - fillPrice) * reduceSize,
              set_currentPositionSize (_currentPositionSize trade + reduceSize) trade) in
      let trade := set_realizedPnl (realizedPnl trade + pnl) trade in
      let trade :=
        set_closingSizeAccumulator (_closingSizeAccumulator trade + reduceSize) trade in
      let trade :=
        set_closingValueAccumulator
          (_closingValueAccumulator trade + reduceSize * fillPrice) trade in
      if Qle_bool (Qabs (_currentPositionSize trade)) FLOATING_POINT_TOLERANCE
      then (set_currentPositionSize 0 trade, CLOSE)
      else (trade, REDUCE) in
  let timelineEvent := timelineEvent action_ in
  let trade := set_totalCommission (totalCommission trade + fee timelineEvent) trade in
  let trade := set_timeline (timeline trade ++ [timelineEvent]) trade in
  let trade := set_tradeIds (tradeIds trade ++ [f_tradeId fill]) trade in
  let trade := set_rawFills (_rawFills trade ++ [fill]) trade in
  if negb (JS.mem (f_ordId fill) (orderIds trade))
  then set_orderIds (orderIds trade ++ [f_ordId fill]) trade
  else trade.

Definition _closeTrade (trade : StandardizedTrade) (exitTimestamp : Z)
  : StandardizedTrade :=
  let trade := set_status CLOSED trade in
  let trade := set_exitTime exitTimestamp trade in
  let trade := set_durationMs (exitTime trade - entryTime trade)%Z trade in
  if JS.Qgtb (_closingSizeAccumulator trade) 0
  then set_averageExitPrice
         (_closingValueAccumulator trade / _closingSizeAccumulator trade) trade
  else set_averageExitPrice 0 trade.

(** The flip test: [Some (closingSize, openingSize)] when [isFlip]. *)
Definition flipOf (trade : StandardizedTrade) (fill : RawFill) : option (Q * Q) :=
  let fillSize := f_fillSz fill in
  let isBuy := String.eqb (JS.toLowerCase (f_side fill)) "buy" in
  if TradeDirection_eqb (direction trade) LONG && negb isBuy then
    if JS.Qgtb fillSize (_currentPositionSize trade + FLOATING_POINT_TOLERANCE)
    then let closingSize := _currentPositionSize trade in
         Some (closingSize, fillSize - closingSize)
    else None
  else if TradeDirection_eqb (direction trade) SHORT && isBuy then
    if JS.Qgtb fillSize (Qabs (_currentPositionSize trade) + FLOATING_POINT_TOLERANCE)
    then let closingSize := Qabs (_currentPositionSize trade) in
         Some (closingSize, fillSize - closingSize)
    else None
  else None.

(** One iteration of the loop of [_processFillsAndAggregateTrades]. *)
Definition processFill (instruments : JS.map InstrumentDetail)
    (st : FoldState) (fill : RawFill) : FoldState :=
  let positionKey := positionKeyOf fill in
  match JS.get positionKey (openPositions st) with
  | None =>
      let trade := _createNewTrade instruments fill in
      let trade := _updateTradeWithFill trade fill false in
      mkState (closedTrades st) (JS.set positionKey trade (openPositions st))
  | Some trade =>
      match flipOf trade fill with
      | Some (closingSize, openingSize) =>
          let closingFill := with_fillSz closingSize fill in
          let trade := _updateTradeWithFill trade closingFill false in
          let trade := _closeTrade trade (f_ts fill) in
          let openingFill := with_fillSz openingSize fill in
          let newTrade := _createNewTrade instruments openingFill in
          let newTrade := _updateTradeWithFill newTrade openingFill true in
          mkState (closedTrades st ++ [trade])
                  (JS.set positionKey newTrade (openPositions st))
      | None =>
          let trade := _updateTradeWithFill trade fill false in
          let open := JS.set positionKey trade (openPositions st) in
          if Qle_bool (Qabs (_currentPositionSize trade)) FLOATING_POINT_TOLERANCE
             && lastIsReduceOrClose (timeline trade)
          then mkState (closedTrades st ++ [_closeTrade trade (f_ts fill)])
                       (JS.delete positionKey open)
          else mkState (closedTrades st) open
      end
  end.

Definition _processFillsAndAggregateTrades (instruments : JS.map InstrumentDetail)
    (rawFills : list RawFill) : FoldState :=
  fold_left (processFill instruments) rawFills (mkState [] []).

Definition allTradesOf (st : FoldState) : list StandardizedTrade :=
  closedTrades st ++ JS.values (openPositions st).

Definition finalizeTrade (trade : StandardizedTrade) : StandardizedTrade :=
  let trade :=
    set_timeline (BinanceTimeline._aggregateTimelineEvents (timeline trade)) trade in
  let trade := set_netPnl (realizedPnl trade - totalCommission trade) trade in
  if JS.Qgtb (totalValue trade) 0
  then set_pnlPercentage (netPnl trade / totalValue trade) trade
  else set_pnlPercentage 0 trade.

Definition _finalizeTradeMetrics (allTrades : list StandardizedTrade)
  : list StandardizedTrade := map finalizeTrade allTrades.

(** [rawBills] and [rawPositionRisks] are not read. *)
Definition processAllData (rawFills : list RawFill) (rawBills : list Bill)
    (instrumentDetails : list InstrumentDetail)
    (rawPositionRisks : list RawPositionRisk) : list StandardizedTrade :=
  let instruments := indexInstruments instrumentDetails in
  let rawFills := JS.sort compareFills rawFills in
  let st := _processFillsAndAggregateTrades instruments rawFills in
  _finalizeTradeMetrics (allTradesOf st).

End BinanceMarginTradeProcessor.

(** ** [infrastructure/okx/SafeParsers] *)

Local Close Scope Q_scope.

Module SafeParsers.

(** A JavaScript number at the parsing boundary: a finite value (an
    exact rational, the rounding to binary64 left out), an infinity or
    [NaN]. *)
Inductive number := NaN | PosInfinity | NegInfinity | Finite (q : Q).

(** The argument type [string | number | undefined], and [null], which
    the functions test for as well. *)
Inductive value :=
| VUndefined
| VNull
| VString (s : string)
| VNumber (n : number).

Definition isNaN (n : number) : bool :=
  match n with NaN => true | _ => false end.

Definition isFinite (n : number) : bool :=
  match n with Finite _ => true | _ => false end.

(** *** The built-in [parseFloat] and [parseInt(_, 10)]

    Both skip leading white space, read an optional sign and then the
    longest prefix that is a literal; what follows the literal is
    ignored, and without a literal the result is [NaN]. *)

Definition isWhiteSpace (c : ascii) : bool :=
  let n := N_of_ascii c in
  ((n =? 32) || ((9 <=? n) && (n <=? 13)))%N.

Fixpoint skipWhiteSpace (s : string) : string :=
  match s with
  | String c s' => if isWhiteSpace c then skipWhiteSpace s' else s
  | EmptyString => s
  end.

Definition digitOf (c : ascii) : option Z :=
  let n := N_of_ascii c in
  if ((48 <=? n) && (n <=? 57))%N then Some (Z.of_N n - 48) else None.

Fixpoint takeDigits (s : string) : list Z * string :=
  match s with
  | String c s' =>
      match digitOf c with
      | Some d => let '(ds, rest) := takeDigits s' in (d :: ds, rest)
      | None => ([], s)
      end
  | EmptyString => ([], s)
  end.

Definition valueOfDigits (ds : list Z) : Z :=
  fold_left (fun acc d => 10 * acc + d) ds 0.

Definition takeSign (s : string) : bool * string :=
  match s with
  | String "-" s' => (true, s')
  | String "+" s' => (false, s')
  | _ => (false, s)
  end.

Definition takeExponent (s : string) : Z :=
  match s with
  | String c s' =>
      if (Ascii.eqb c "e" || Ascii.eqb c "E")%bool then
        let '(neg, s'') := takeSign s' in
        match takeDigits s'' with
        | ([], _) => 0
        | (ds, _) => if neg then - valueOfDigits ds else valueOfDigits ds
        end
      else 0
  | EmptyString => 0
  end.

Definition parseFloat (input : string) : number :=
  let '(neg, s) := takeSign (skipWhiteSpace input) in
  if String.prefix "Infinity" s then (if neg then NegInfinity else PosInfinity)
  else
    let '(intDigits, s1) := takeDigits s in
    let '(fracDigits, s2) :=
      match s1 with
      | String "." s' => takeDigits s'
      | _ => ([], s1)
      end in
    match (intDigits ++ fracDigits)%list with
    | [] => NaN
    | ds =>
        let mantissa := valueOfDigits ds in
        let scale := takeExponent s2 - Z.of_nat (length fracDigits) in
        let magnitude := (inject_Z mantissa * Qpower 10 scale)%Q in
        Finite (if neg then (- magnitude)%Q else magnitude)
    end.

Definition parseInt10 (input : string) : number :=
  let '(neg, s) := takeSign (skipWhiteSpace input) in
  match takeDigits s with
  | ([], _) => NaN
  | (ds, _) =>
      let n := valueOfDigits ds in
      Finite (inject_Z (if neg then - n else n))
  end.

(** *** The built-in [String(n)] on numbers

    [Number::toString]: the shortest digit string [ds] and the position
    [n] of the decimal point with [0.ds * 10^n] the number, printed in
    positional notation when [-6 < n <= 21] and in exponent notation
    otherwise.  A binary64 number has at most 17 significant digits. *)

Definition digitChar (d : Z) : string :=
  String (ascii_of_N (Z.to_N (d + 48))) EmptyString.

Definition digitsToString (ds : list Z) : string :=
  fold_right (fun d s => digitChar d ++ s) "" ds.

Fixpoint generateDigits (fuel : nat) (x : Q) : list Z :=
  match fuel with
  | O => []
  | S fuel' =>
      let d := Qfloor x in
      let r := Qred ((x - inject_Z d) * 10)%Q in
      d :: (if Qeq_bool r 0 then [] else generateDigits fuel' r)
  end.

Fixpoint stripZeros (rev_ds : list Z) : list Z :=
  match rev_ds with
  | 0 :: ds => stripZeros ds
  | _ => rev_ds
  end.

Definition digitCount (p : positive) : Z :=
  Z.of_nat (String.length (NilZero.string_of_uint (Pos.to_uint p))).

Definition zeros (n : Z) : string := digitsToString (repeat 0 (Z.to_nat n)).

Definition positiveToString (q : Q) : string :=
  let n0 := match Qnum q with Zpos a => digitCount a - digitCount (Qden q) + 1 | _ => 0 end in
  let n := if Qle_bool (Qpower 10 (n0 - 1)) q then n0 else n0 - 1 in
  let ds := rev (stripZeros (rev (generateDigits 17 (Qred (q / Qpower 10 (n - 1)))%Q))) in
  let k := Z.of_nat (length ds) in
  if ((k <=? n) && (n <=? 21))%bool then digitsToString ds ++ zeros (n - k)
  else if ((0 <? n) && (n <=? 21))%bool then
    digitsToString (firstn (Z.to_nat n) ds) ++ "." ++ digitsToString (skipn (Z.to_nat n) ds)
  else if ((-6 <? n) && (n <=? 0))%bool then
    "0." ++ zeros (- n) ++ digitsToString ds
  else
    let e := n - 1 in
    let expo := (if e <? 0 then "-" else "+") ++ NilZero.string_of_int (Z.to_int (Z.abs e)) in
    match ds with
    | [d] => digitChar d ++ "e" ++ expo
    | d :: rest => digitChar d ++ "." ++ digitsToString rest ++ "e" ++ expo
    | [] => "0"
    end.

Definition numberToString (n : number) : string :=
  match n with
  | NaN => "NaN"
  | PosInfinity => "Infinity"
  | NegInfinity => "-Infinity"
  | Finite q =>
      if Qeq_bool q 0 then "0"
      else if Qle_bool q 0 then "-" ++ positiveToString (- q)%Q
      else positiveToString q
  end.
(** [String(value)]. *)
Definition toString (v : value) : string :=
  match v with
  | VUndefined => "undefined"
  | VNull => "null"
  | VString s => s
  | VNumber n => numberToString n
  end.

(** *** [SafeParsers.integer] and [SafeParsers.float] *)

Definition integer (v : value) (fallback : number) : number :=
  match v with
  | VUndefined | VNull => fallback
  | _ =>
      let parsed := parseInt10 (toString v) in
      if isNaN parsed then fallback else parsed
  end.

Definition float (v : value) (fallback : number) : number :=
  match v with
  | VUndefined | VNull => fallback
  | _ =>
      let parsed := parseFloat (toString v) in
      if isNaN parsed then fallback else parsed
  end.

(** The default of the [fallback] parameter. *)
Definition defaultFallback : number := Finite 0.

End SafeParsers.

Local Open Scope Q_scope.

(** ** [infrastructure/okx/OkxDataProvider] and the cache of open fills *)

Module OkxDataProvider.

(** The key of [deduplicateFills]:
    [fill.tradeId || `${fill.instId}-${fill.ts}-${fill.side}`]. *)
Definition fillKey (fill : RawFill) : string :=
  JS.orElse (f_tradeId fill)
    (f_instId fill ++ "-" ++ JS.stringOfInt (f_ts fill) ++ "-" ++ f_side fill).

(** [deduplicateFills(fills)]: a [Map] from the key to the fill, filled
    in the order of the fills, and its values. *)
Definition deduplicateFills (fills : list RawFill) : list RawFill :=
  JS.values
    (fold_left (fun unique fill => JS.set (fillKey fill) fill unique) fills []).

(** The field [lastOpenPositions] of the processor after
    [processAllData]: the map [openPositions] of [processFills], whose
    builders hold the trades that [applyBillsAndRisks] and
    [finalizeMetrics] have updated. *)
Definition lastOpenPositions (rawFills : list RawFill) (rawBills : list Bill)
    (instruments : list InstrumentDetail) (positions : list OkxPosition)
  : JS.map OkxTradeBuilder.t :=
  let index := indexInstruments instruments in
  let rawFills := JS.sort OkxUMFuturesTradeProcessor.compareFills rawFills in
  let st := OkxUMFuturesTradeProcessor.processFills index rawFills in
  let st := OkxUMFuturesTradeProcessor.applyBillsAndRisks st rawBills positions in
  map (fun kb =>
         (fst kb,
          OkxTradeBuilder.with_trade (snd kb)
            (OkxUMFuturesTradeProcessor.finalizeTrade
               (OkxTradeBuilder.getTrade (snd kb)))))
      (OkxUMFuturesTradeProcessor.openPositions st).

(** [OkxUMFuturesTradeProcessor.getOpenPositionFills()]: the fills of
    the builders of [lastOpenPositions]. *)
Definition getOpenPositionFills (lastOpenPositions : JS.map OkxTradeBuilder.t)
  : list RawFill :=
  flat_map (fun builder => _rawFills (OkxTradeBuilder.getTrade builder))
    (JS.values lastOpenPositions).

(** [getStandardizedTrades()], from the cached fills and the fetched
    data: the trades, and the fills saved to the cache. *)
Definition getStandardizedTrades (cachedFills newFills : list RawFill)
    (bills : list Bill) (instruments : list InstrumentDetail)
    (positions : list OkxPosition)
  : list StandardizedTrade * list RawFill :=
  let mergedFills := deduplicateFills (cachedFills ++ newFills) in
  let result :=
    OkxUMFuturesTradeProcessor.processAllData mergedFills bills instruments
      positions in
  let openFills :=
    getOpenPositionFills (lastOpenPositions mergedFills bills instruments positions) in
  (result, openFills).

End OkxDataProvider.

(** ** [services/TradeSyncService] *)

Module TradeSyncService.

(** The inner [reduce] of [syncTrades]: the latest timestamp of the
    fills of a trade, not below zero. *)
Definition tradeMaxTs (trade : StandardizedTrade) : Z :=
  fold_left (fun fillMax fill => Z.max fillMax (f_ts fill)) (_rawFills trade) 0%Z.

(** The outer [reduce]. *)
Definition maxTimestampOf (standardizedTrades : list StandardizedTrade) : Z :=
  fold_left (fun max trade => Z.max max (tradeMaxTs trade)) standardizedTrades 0%Z.

(** The last-sync timestamp after [syncTrades], from the one before and
    the trades of the run. *)
Definition syncTrades (currentLastSync : Z)
    (standardizedTrades : list StandardizedTrade) : Z :=
  if (0 <? length standardizedTrades)%nat then
    let maxTimestamp := maxTimestampOf standardizedTrades in
    if (maxTimestamp >? currentLastSync)%Z then maxTimestamp else currentLastSync
  else currentLastSync.

End TradeSyncService.

(** * Vocabulary of the statements *)

Definition oppositeDirection (d : TradeDirection) : TradeDirection :=
  match d with
  | LONG => SHORT
  | SHORT => LONG
  end.

(** The fill trades against the direction of the margin trade: a sell on
    a long, a buy on a short. *)
Definition isClosingSide (tr : StandardizedTrade) (fill : RawFill) : bool :=
  let isBuy := String.eqb (JS.toLowerCase (f_side fill)) "buy" in
  match direction tr with
  | LONG => negb isBuy
  | SHORT => isBuy
  end.

(** The margin sequence of the specification: starting flat, buy 1 at
    100, then sell 2 at 150. *)
Definition marginFlipFills : list RawFill :=
  [ mkFill "BTCUSDT" "1" "1" "buy" "" 100 1 1 "USDT" 1000;
    mkFill "BTCUSDT" "2" "2" "sell" "" 150 2 1 "USDT" 2000 ].

(** A margin sequence whose sell exceeds the open position by less than
    the tolerance: buy 1 at 100, then sell 1.0000000005 at 150. *)
Definition marginSmallExcessFills : list RawFill :=
  [ mkFill "BTCUSDT" "1" "1" "buy" "" 100 1 1 "USDT" 1000;
    mkFill "BTCUSDT" "2" "2" "sell" "" 150 (20000000001 # 20000000000) 1 "USDT"
      2000 ].

(** The inverse-contract pair of the specification on the long side of
    [instId]: buy 10 contracts at 50000, then sell 10 contracts at 55000. *)
Definition inversePairFills (instId feeCcy_ : string) : list RawFill :=
  [ mkFill instId "1" "1" "buy" "long" 50000 10 0 feeCcy_ 1000;
    mkFill instId "2" "2" "sell" "long" 55000 10 0 feeCcy_ 2000 ].

(** A fill that reduces the position of its own side: a sell on the long
    side or a buy on the short side. *)
Definition isReducingFill (fill : RawFill) : bool :=
  let side := JS.toLowerCase (f_side fill) in
  let posSide := JS.toLowerCase (f_posSide fill) in
  (String.eqb posSide "long" && String.eqb side "sell")
  || (String.eqb posSide "short" && String.eqb side "buy").

(** A spot fill that is not a buy. *)
Definition isSpotSell (fill : RawFill) : bool :=
  negb (String.eqb (JS.toLowerCase (f_side fill)) "buy").

(** A spot sequence that starts with a sell for which nothing is open,
    followed by a buy and the sell that closes it. *)
Definition spotOrphanFills : list RawFill :=
  [ mkFill "BTCUSDT" "0" "0" "sell" "" 19000 1 1 "USDT" 500;
    mkFill "BTCUSDT" "1" "1" "buy" "" 20000 1 1 "USDT" 1000;
    mkFill "BTCUSDT" "2" "2" "sell" "" 21000 1 1 "USDT" 2000 ].

(** A buy of 1 at 100 and the sell of 1 at 110 that closes it, on the
    position side [posSide] of [instId]. *)
Definition roundTripFills (instId posSide : string) : list RawFill :=
  [ mkFill instId "1" "1" "buy" posSide 100 1 0 "USDT" 1000;
    mkFill instId "2" "2" "sell" posSide 110 1 0 "USDT" 2000 ].

(** A spot sequence whose first buy has size zero: buy 0 at 100, then
    sell 1 at 110. *)
Definition spotZeroBuyFills : list RawFill :=
  [ mkFill "BTCUSDT" "1" "1" "buy" "" 100 0 0 "USDT" 1000;
    mkFill "BTCUSDT" "2" "2" "sell" "" 110 1 0 "USDT" 2000 ].

(** Two spot fills of one instant: a buy and the sell that closes it. *)
Definition sameInstantFills : list RawFill :=
  [ mkFill "BTCUSDT" "1" "1" "buy" "" 100 1 0 "USDT" 1000;
    mkFill "BTCUSDT" "2" "2" "sell" "" 110 1 0 "USDT" 1000 ].

(** Two OKX fills of one instant that carry no trade identifier. *)
Definition untaggedFills : list RawFill :=
  [ mkFill "BTC-USDT-SWAP" "" "1" "buy" "long" 100 1 0 "USDT" 1000;
    mkFill "BTC-USDT-SWAP" "" "2" "sell" "long" 110 1 0 "USDT" 1000 ].

(** One opening buy of the given size at 100 on the long side. *)
Definition openingBuy (instId posSide : string) (sz : Q) : list RawFill :=
  [ mkFill instId "1" "1" "buy" posSide 100 sz 0 "USDT" 1000 ].

(** Two funding bills of one instrument, two instrument records of one
    identifier and two snapshots of one position. *)
Definition twoFundingBills : list Bill :=
  [ mkBill "BTCUSDT" "USDT" (-1) 1500 "8";
    mkBill "BTCUSDT" "USDT" (-2) 1600 "8" ].

Definition twoInstrumentRecords : list InstrumentDetail :=
  [ mkInstrument "BTCUSDT" 1 "BTC" "USDT";
    mkInstrument "BTCUSDT" 10 "BTC" "USDT" ].

Definition twoSnapshots : list OkxPosition :=
  [ mkPosition "BTCUSDT" "long" 500; mkPosition "BTCUSDT" "long" 600 ].

(** The net profit invariant of a finalized trade. *)
Definition netPnlInvariant (t : StandardizedTrade) : Prop :=
  netPnl t == realizedPnl t - totalCommission t + totalFundingFee t.

(** The closing size of a margin flip, as [flipOf] computes it. *)
Definition closingSizeOf (tr : StandardizedTrade) : Q :=
  match direction tr with
  | LONG => _currentPositionSize tr
  | SHORT => Qabs (_currentPositionSize tr)
  end.

(** A trade that no funding bill has been credited to. *)
Definition noFunding (t : StandardizedTrade) : Prop := totalFundingFee t = 0.

Definition spotNoFunding (st : BinanceSpotTradeProcessor.FoldState) : Prop :=
  Forall noFunding (BinanceSpotTradeProcessor.closedTrades st)
  /\ Forall noFunding (JS.values (BinanceSpotTradeProcessor.openPositions st)).

Definition marginNoFunding (st : BinanceMarginTradeProcessor.FoldState) : Prop :=
  Forall noFunding (BinanceMarginTradeProcessor.closedTrades st)
  /\ Forall noFunding (JS.values (BinanceMarginTradeProcessor.openPositions st)).

(** The funding test of the Binance futures processors for one bill and
    one trade: same instrument, and the bill falls in the life of the
    trade. *)
Definition billMatches (bill : Bill) (t : StandardizedTrade) : bool :=
  String.eqb (symbol t) (b_instId bill) && isRelevant (b_ts bill) t.

(** The list a bill index holds under a key. *)
Definition billsUnder (k : string) (m : JS.map (list Bill)) : list Bill :=
  match JS.get k m with
  | Some l => l
  | None => []
  end.

(** Two trades with the same instrument and the same life. *)
Definition sameLife (t' t : StandardizedTrade) : Prop :=
  symbol t' = symbol t /\ entryTime t' = entryTime t
  /\ status t' = status t /\ exitTime t' = exitTime t.

(** The sum of the balance changes of the bills that the OKX processor
    credits to a trade: type ['8'], same instrument, relevant. *)
Definition okxFundingStep (t : StandardizedTrade) (acc : Q) (bill : Bill) : Q :=
  if String.eqb (b_type bill) "8" && String.eqb (b_instId bill) (symbol t)
     && isRelevant (b_ts bill) t
  then acc + b_balChg bill else acc.

Definition okxFundingOf (bills : list Bill) (t : StandardizedTrade) : Q :=
  fold_left (okxFundingStep t) bills 0.

(** One funding bill at 1500 for the instrument of a margin position
    opened at 1000. *)
Definition marginFundingBill : Bill :=
  mkBill "BTCUSDT" "USDT" (-5) 1500 "FUNDING_FEE".

(** A hedged Binance linear account: a long and a short on the same
    instrument, both open when the funding bill arrives. *)
Definition hedgedFills : list RawFill :=
  [ mkFill "BTCUSDT" "1" "1" "buy" "long" 50000 1 0 "USDT" 1000;
    mkFill "BTCUSDT" "2" "2" "sell" "short" 50000 1 0 "USDT" 1200 ].

(** A trade without a notional annotation. *)
Definition noNotional (t : StandardizedTrade) : Prop :=
  currentNotionalValue t = None.

Definition umNoNotional (st : BinanceUMFuturesTradeProcessor.FoldState) : Prop :=
  Forall noNotional (BinanceUMFuturesTradeProcessor.closedTrades st)
  /\ Forall (fun b => noNotional (BinanceTradeBuilder.getTrade b))
       (JS.values (BinanceUMFuturesTradeProcessor.openPositions st)).

(** An opening fill on the long side, with the position side spelt as
    [posSide], and the risk snapshot of that position. *)
Definition openLongFill (instId posSide : string) : RawFill :=
  mkFill instId "1" "1" "buy" posSide 50000 1 0 "USDT" 1000.

Definition longRisk (instId posSide : string) : RawPositionRisk :=
  mkRisk instId posSide 500.

(** The two branches of the margin [_updateTradeWithFill], as conditions
    on the trade before the fill. *)
Definition marginIsIncrease (tr : StandardizedTrade) (fill : RawFill) : bool :=
  if TradeDirection_eqb (direction tr) LONG
  then String.eqb (JS.toLowerCase (f_side fill)) "buy"
  else negb (String.eqb (JS.toLowerCase (f_side fill)) "buy").

(** The signed running size after a reducing fill, before the tolerance
    test. *)
Definition marginReduced (tr : StandardizedTrade) (fill : RawFill) : Q :=
  if TradeDirection_eqb (direction tr) LONG
  then _currentPositionSize tr - f_fillSz fill
  else _currentPositionSize tr + f_fillSz fill.

(** * Vocabulary of the further properties *)

(** ** The OKX builder *)

(** The event that [OkxTradeBuilder.addFill] builds from a fill. *)
Definition okxEvent (b : OkxTradeBuilder.t) (fill : RawFill) : TimelineEvent :=
  {| timestamp := f_ts fill;
     action :=
       OkxTradeBuilder.determineAction b fill
         (direction (OkxTradeBuilder.trade b));
     size := f_fillSz fill * OkxTradeBuilder.contractValue b;
     price := f_fillPx fill;
     notes := "";
     tradeId := f_tradeId fill;
     orderId := f_ordId fill;
     fee := - f_fee fill;
     feeCcy := f_feeCcy fill |}.

(** The test at the head of [updateState]. *)
Definition isIncreaseAction (ev : TimelineEvent) : bool :=
  Action_eqb (action ev) OPEN || Action_eqb (action ev) ADD.

(** The running size after the reduction by an event, before the
    tolerance test. *)
Definition reducedBy (ev : TimelineEvent) (tr : StandardizedTrade) : Q :=
  _currentPositionSize tr - Qmin (size ev) (_currentPositionSize tr).

(** The reduction brings the running size within the tolerance. *)
Definition closesBy (ev : TimelineEvent) (tr : StandardizedTrade) : bool :=
  Qle_bool (reducedBy ev tr) FLOATING_POINT_TOLERANCE.

(** ** Orders *)

Local Close Scope Q_scope.

(** [a] is not after [b]. *)
Definition string_le (a b : string) : Prop := String.compare a b <> Gt.

(** The order of a sort by timestamp, then by an identifier. *)
Definition lex_le (ta : Z) (sa : string) (tb : Z) (sb : string) : Prop :=
  ta < tb \/ (ta = tb /\ string_le sa sb).

(** The order of the sort of the OKX fills. *)
Definition fillOrder (a b : RawFill) : Prop :=
  lex_le (f_ts a) (JS.orElse (f_tradeId a) "")
         (f_ts b) (JS.orElse (f_tradeId b) "").

(** The order of the sort of the Binance fills. *)
Definition fillBefore (a b : RawFill) : Prop := f_ts a <= f_ts b.

(** The order of the sort of the events in [aggregateEvents]. *)
Definition eventOrder (a b : TimelineEvent) : Prop :=
  lex_le (timestamp a) (JS.orElse (tradeId a) "")
         (timestamp b) (JS.orElse (tradeId b) "").

(** The sort by [cmp] keeps the fills, lists them by non-decreasing
    timestamp and keeps the order of the fills of one timestamp. *)
Definition stableTimeSort (cmp : RawFill -> RawFill -> Z) (fills : list RawFill)
  : Prop :=
  Permutation (JS.sort cmp fills) fills
  /\ StronglySorted fillBefore (JS.sort cmp fills)
  /\ forall ts,
       filter (fun f => f_ts f =? ts) (JS.sort cmp fills) =
       filter (fun f => f_ts f =? ts) fills.

(** No two different fills of the batch have both the same timestamp
    and the same trade identifier. *)
Definition distinctFillKeys (fills : list RawFill) : Prop :=
  forall a b, In a fills -> In b fills ->
    f_ts a = f_ts b ->
    JS.orElse (f_tradeId a) "" = JS.orElse (f_tradeId b) "" ->
    a = b.

Local Open Scope Q_scope.

(** ** Timelines *)

(** The sum of a quantity over the events of a timeline. *)
Definition sumOf (g : TimelineEvent -> Q) (l : list TimelineEvent) : Q :=
  fold_right (fun e acc => g e + acc) 0 l.

(** ** Processors *)

(** The contract value that a processor finds for a fill. *)
Definition contractValueOf (instruments : JS.map InstrumentDetail)
    (fill : RawFill) : Q :=
  match JS.get (f_instId fill) instruments with
  | Some instrument => i_ctVal instrument
  | None => 1
  end.

(** The sum of the raw fees of a list of fills. *)
Definition sumFees (fills : list RawFill) : Q :=
  fold_right (fun f acc => f_fee f + acc) 0 fills.

(** Properties of a trade that the funding bills, the risk annotation
    and the final metrics of the OKX processor cannot change. *)
Definition keptByFunding (P : StandardizedTrade -> Prop) : Prop :=
  (forall t v, P t -> P (set_totalFundingFee v t))
  /\ (forall t v, P t -> P (set_rawBills v t)).

Definition keptByRisk (P : StandardizedTrade -> Prop) : Prop :=
  forall t, P t -> forall v, P (set_currentNotionalValue v t).

Definition keptByOkxFinalize (P : StandardizedTrade -> Prop) : Prop :=
  forall t, P t -> P (OkxUMFuturesTradeProcessor.finalizeTrade t).

(** What holds of the builders of the open positions and of the closed
    trades at a point of the fold of a processor that keeps builders. *)
Definition buildersInvariant {B : Type} (isClosed : B -> bool)
    (I : B -> Prop) (J : StandardizedTrade -> Prop)
    (closed : list StandardizedTrade) (open : JS.map B) : Prop :=
  Forall (fun b => I b /\ isClosed b = false) (JS.values open)
  /\ Forall J closed.

(** The books of a trade that is open: no exit yet, and a running size
    that is what was opened less what was closed. *)
Definition openBooks (t : StandardizedTrade) : Prop :=
  status t = OPEN_
  /\ exitTime t = 0%Z /\ durationMs t = 0%Z
  /\ _currentPositionSize t == totalSize t - _closingSizeAccumulator t.

(** The books of a trade that is closed: it lasted from its entry to
    its exit, not before it; nothing is left of the position, and what
    was opened and not closed is within the tolerance. *)
Definition closedBooks (t : StandardizedTrade) : Prop :=
  status t = CLOSED
  /\ durationMs t = (exitTime t - entryTime t)%Z /\ (0 <= durationMs t)%Z
  /\ _currentPositionSize t = 0
  /\ totalSize t - _closingSizeAccumulator t <= FLOATING_POINT_TOLERANCE.

(** The fees of the timeline add up to the commission of the trade,
    which is the sum of the fees of its fills with the sign [sign]. *)
Definition feeBooks (sign : Q) (t : StandardizedTrade) : Prop :=
  totalCommission t == sumOf fee (timeline t)
  /\ totalCommission t == sign * sumFees (_rawFills t).

(** The invariant of the builders in the fold of the OKX processor,
    before the fills [rest]. *)
Definition okxBuilderInvariant (rest : list RawFill) (b : OkxTradeBuilder.t)
  : Prop :=
  let t := OkxTradeBuilder.trade b in
  Forall (fun f => (entryTime t <= f_ts f)%Z) rest
  /\ (openBooks t \/ closedBooks t)
  /\ feeBooks (-1) t
  /\ currentNotionalValue t = None.

(** The invariant of the closed trades of the OKX processor. *)
Definition okxClosedInvariant (t : StandardizedTrade) : Prop :=
  closedBooks t /\ feeBooks (-1) t /\ currentNotionalValue t = None.

(** The key under which the OKX processor looks up a position snapshot. *)
Definition okxRiskKey (p : OkxPosition) : string :=
  p_instId p ++ "-" ++ JS.toLowerCase (p_posSide p).

(** The notional of the last snapshot of [positions] under [key]. *)
Definition lastNotionalFor (key : string) (positions : list OkxPosition)
  : option Q :=
  fold_left
    (fun acc p =>
       if String.eqb (okxRiskKey p) key then Some (p_notionalUsd p) else acc)
    positions None.

(** The notional of a builder after the snapshots [positions]. *)
Definition annotatedBy (key : string) (positions : list OkxPosition)
    (b : OkxTradeBuilder.t) : option Q :=
  match lastNotionalFor key positions with
  | Some n => Some n
  | None => currentNotionalValue (OkxTradeBuilder.trade b)
  end.

(** The sizes of a trade are in range: the running size and the closed
    size are not negative and together do not exceed the opened size. *)
Definition sizesInRange (t : StandardizedTrade) : Prop :=
  0 <= _currentPositionSize t
  /\ 0 <= _closingSizeAccumulator t
  /\ _currentPositionSize t + _closingSizeAccumulator t <= totalSize t.

(** ** The spot processor *)

(** The fill buys. *)
Definition isBuyFill (fill : RawFill) : bool :=
  String.eqb (JS.toLowerCase (f_side fill)) "buy".

(** The running size of a spot trade after a sale, before the tolerance
    test. *)
Definition spotReduced (tr : StandardizedTrade) (fill : RawFill) : Q :=
  _currentPositionSize tr - Qmin (f_fillSz fill) (_currentPositionSize tr).

(** The event that the spot [_updateTradeWithFill] adds to the timeline. *)
Definition spotEvent (tr : StandardizedTrade) (fill : RawFill) : TimelineEvent :=
  mkEvent (f_ts fill)
    (if isBuyFill fill
     then match timeline tr with [] => OPEN | _ => ADD end
     else if Qle_bool (spotReduced tr fill) FLOATING_POINT_TOLERANCE
          then CLOSE else REDUCE)
    (f_fillSz fill) (f_fillPx fill) "" (f_tradeId fill) (f_ordId fill)
    (f_fee fill) (f_feeCcy fill).

(** The test after which a spot or margin trade is closed. *)
Definition closesNow (t : StandardizedTrade) : bool :=
  Qle_bool (_currentPositionSize t) FLOATING_POINT_TOLERANCE
  && lastIsReduceOrClose (timeline t).

(** What holds of the open trades and of the closed trades at a point
    of the fold of a processor that keeps the trades themselves. *)
Definition tradesInvariant (I J : StandardizedTrade -> Prop)
    (closed : list StandardizedTrade) (open : JS.map StandardizedTrade) : Prop :=
  Forall I (JS.values open) /\ Forall J closed.

(** The invariant of an open spot or margin trade before the fills
    [rest]. *)
Definition binanceOpenInvariant (rest : list RawFill) (t : StandardizedTrade)
  : Prop :=
  Forall (fun f => (entryTime t <= f_ts f)%Z) rest
  /\ openBooks t /\ feeBooks 1 t.

(** ** The inverse-futures processor *)

(** The side of the fill agrees with the direction of the trade. *)
Definition sideAgrees (tr : StandardizedTrade) (fill : RawFill) : bool :=
  (TradeDirection_eqb (direction tr) LONG && isBuyFill fill)
  || (negb (TradeDirection_eqb (direction tr) LONG) && negb (isBuyFill fill)).

(** The event that the inverse-futures [_updateTradeWithFill] adds to
    the timeline. *)
Definition cmEvent (tr : StandardizedTrade) (fill : RawFill) : TimelineEvent :=
  mkEvent (f_ts fill)
    (if sideAgrees tr fill
     then match timeline tr with [] => OPEN | _ => ADD end
     else if Qle_bool (spotReduced tr fill) FLOATING_POINT_TOLERANCE
          then CLOSE else REDUCE)
    (f_fillSz fill) (f_fillPx fill) "" (f_tradeId fill) (f_ordId fill)
    (f_fee fill) (f_feeCcy fill).

(** ** The linear-futures builder of Binance *)

(** The action that [BinanceTradeBuilder.addFill] gives to a fill. *)
Definition umAction (b : BinanceTradeBuilder.t) (fill : RawFill) : Action :=
  match timeline (BinanceTradeBuilder.trade b) with
  | [] => OPEN
  | _ =>
      if (if TradeDirection_eqb (direction (BinanceTradeBuilder.trade b)) LONG
          then isBuyFill fill else negb (isBuyFill fill))
      then ADD else REDUCE
  end.

(** The event that [BinanceTradeBuilder.addFill] builds from a fill. *)
Definition umEvent (b : BinanceTradeBuilder.t) (fill : RawFill) : TimelineEvent :=
  {| timestamp := f_ts fill;
     action := umAction b fill;
     size := f_fillSz fill * BinanceTradeBuilder.contractValue b;
     price := f_fillPx fill;
     notes := "";
     tradeId := f_tradeId fill;
     orderId := f_ordId fill;
     fee := f_fee fill;
     feeCcy := f_feeCcy fill |}.

(** The trade of a builder after the event of a fill. *)
Definition umApplied (b : BinanceTradeBuilder.t) (fill : RawFill)
  : StandardizedTrade :=
  BinanceTradeBuilder.applyEvent (BinanceTradeBuilder.trade b) (umEvent b fill)
    (TradeDirection_eqb (direction (BinanceTradeBuilder.trade b)) LONG).

(** The fill closes the trade. *)
Definition umCloses (b : BinanceTradeBuilder.t) (fill : RawFill) : bool :=
  Action_eqb (umAction b fill) REDUCE
  && Qle_bool (_currentPositionSize (umApplied b fill)) FLOATING_POINT_TOLERANCE.

(** The test of the second branch of [BinanceTradeBuilder.applyEvent]. *)
Definition isReduceAction (ev : TimelineEvent) : bool :=
  Action_eqb (action ev) REDUCE || Action_eqb (action ev) CLOSE.

(** The books of a closed trade of the linear-futures builder of
    Binance, which leaves in the running size what the closing fill did
    not take, within the tolerance. *)
Definition closedBooksWithResidue (t : StandardizedTrade) : Prop :=
  status t = CLOSED
  /\ durationMs t = (exitTime t - entryTime t)%Z /\ (0 <= durationMs t)%Z
  /\ _currentPositionSize t == totalSize t - _closingSizeAccumulator t
  /\ _currentPositionSize t <= FLOATING_POINT_TOLERANCE.

(** The invariant of the builders in the fold of the linear-futures
    processor of Binance, before the fills [rest]. *)
Definition umBuilderInvariant (rest : list RawFill) (b : BinanceTradeBuilder.t)
  : Prop :=
  let t := BinanceTradeBuilder.trade b in
  Forall (fun f => (entryTime t <= f_ts f)%Z) rest
  /\ (openBooks t \/ closedBooksWithResidue t)
  /\ feeBooks 1 t.

(** A property of a trade that a step keeps. *)
Definition keptBy (f : StandardizedTrade -> StandardizedTrade)
    (P : StandardizedTrade -> Prop) : Prop :=
  forall t, P t -> P (f t).

(** ** The margin processor *)

(** The running size of a margin trade has the sign of its direction. *)
Definition marginSigned (t : StandardizedTrade) : Prop :=
  (direction t = LONG -> 0 <= _currentPositionSize t)
  /\ (direction t = SHORT -> _currentPositionSize t <= 0).

(** The books of an open margin trade. *)
Definition marginOpenBooks (t : StandardizedTrade) : Prop :=
  status t = OPEN_
  /\ exitTime t = 0%Z /\ durationMs t = 0%Z
  /\ marginSigned t
  /\ Qabs (_currentPositionSize t) == totalSize t - _closingSizeAccumulator t.

(** The test after which the margin processor closes a trade. *)
Definition marginClosesNow (t : StandardizedTrade) : bool :=
  Qle_bool (Qabs (_currentPositionSize t)) FLOATING_POINT_TOLERANCE
  && lastIsReduceOrClose (timeline t).

(** The invariant of an open margin trade before the fills [rest]. *)
Definition marginOpenInvariant (rest : list RawFill) (t : StandardizedTrade)
  : Prop :=
  Forall (fun f => (entryTime t <= f_ts f)%Z) rest
  /\ marginOpenBooks t /\ feeBooks 1 t.

(** What is assumed of the fills of a margin batch: they come by
    non-decreasing timestamp and none has a negative size. *)
Definition marginFillsOk (fills : list RawFill) : Prop :=
  StronglySorted fillBefore fills /\ Forall (fun f => 0 <= f_fillSz f) fills.

(** ** The data provider and the synchronisation *)

(** The last fill of [fills] that has the key [key]. *)
Definition lastWithKey (key : string) (fills : list RawFill) : option RawFill :=
  fold_left
    (fun acc fill =>
       if String.eqb (OkxDataProvider.fillKey fill) key then Some fill else acc)
    fills None.

(** The fills of the trades. *)
Definition fillsOf (trades : list StandardizedTrade) : list RawFill :=
  flat_map _rawFills trades.

(** ** The replay of the cached fills *)

(** The loop of a builder-based [processFills], seen from one position
    key: the builder under the key, if there is one, and the trades
    that the fills of the key close. *)
Section KeyRun.
Context {B : Type}.
Variable tradeOf : B -> StandardizedTrade.
Variable isClosed : B -> bool.
Variable skip : RawFill -> bool.
Variable init : RawFill -> B.
Variable addFill : B -> RawFill -> B.

Definition stepKey (s : option B) (fill : RawFill)
  : option B * list StandardizedTrade :=
  match s with
  | None =>
      if skip fill then (None, [])
      else if isClosed (addFill (init fill) fill)
           then (None, [tradeOf (addFill (init fill) fill)])
           else (Some (addFill (init fill) fill), [])
  | Some b =>
      if isClosed (addFill b fill)
      then (None, [tradeOf (addFill b fill)])
      else (Some (addFill b fill), [])
  end.

Fixpoint runKey (s : option B) (fills : list RawFill)
  : option B * list StandardizedTrade :=
  match fills with
  | [] => (s, [])
  | fill :: rest =>
      (fst (runKey (fst (stepKey s fill)) rest),
       snd (stepKey s fill) ++ snd (runKey (fst (stepKey s fill)) rest))%list
  end.

Variable key : RawFill -> string.
Variable rawOf : B -> list RawFill.
Variable before : RawFill -> RawFill -> Prop.
Variable Q0 : RawFill -> Prop.

(** An entry of the map of the open positions before the fills [rest]:
    its fills rebuild the builder without closing it, they have the key
    of the entry, each is before the ones after it, and before the
    fills of [rest]. *)
Definition replayable (rest : list RawFill) (kb : string * B) : Prop :=
  runKey None (rawOf (snd kb)) = (Some (snd kb), [])
  /\ Forall (fun f => key f = fst kb) (rawOf (snd kb))
  /\ StronglySorted before (rawOf (snd kb))
  /\ Forall (fun g => Forall (before g) rest) (rawOf (snd kb))
  /\ Forall Q0 (rawOf (snd kb)).

End KeyRun.

(** The state of the OKX processor after [processFills], in
    [processAllData]. *)
Definition okxPositions (instruments : list InstrumentDetail)
    (rawFills : list RawFill) : OkxUMFuturesTradeProcessor.FoldState :=
  OkxUMFuturesTradeProcessor.processFills (indexInstruments instruments)
    (JS.sort OkxUMFuturesTradeProcessor.compareFills rawFills).

(** The fills that a run of [processAllData] leaves for the cache. *)
Definition okxCachedFills (rawFills : list RawFill) (rawBills : list Bill)
    (instruments : list InstrumentDetail) (positions : list OkxPosition)
  : list RawFill :=
  OkxDataProvider.getOpenPositionFills
    (OkxDataProvider.lastOpenPositions rawFills rawBills instruments positions).

(** ** The classes of actions that the aggregations merge *)

(** [TimelineUtils.aggregateEvents] merges equal actions, [OPEN] with
    [ADD] and [REDUCE] with [CLOSE]. *)
Definition mergeClass (a : Action) : nat :=
  match a with
  | OPEN | ADD => 0
  | REDUCE | CLOSE => 1
  | MARKET_ANALYSIS => 2
  end%nat.

(** [_aggregateTimelineEvents] of the Binance processors merges equal
    actions and [REDUCE] with [CLOSE]. *)
Definition binanceMergeClass (a : Action) : nat :=
  match a with
  | OPEN => 0
  | ADD => 1
  | REDUCE | CLOSE => 2
  | MARKET_ANALYSIS => 3
  end%nat.

(** ** The record of a returned trade

    What the status and the times of a trade say, whatever the
    arithmetic of its amounts. *)

(** An open trade: no exit yet. *)
Definition openRecord (t : StandardizedTrade) : Prop :=
  status t = OPEN_ /\ exitTime t = 0%Z /\ durationMs t = 0%Z.

(** A closed trade: it lasted from its entry to its exit, not before
    it. *)
Definition closedRecord (t : StandardizedTrade) : Prop :=
  status t = CLOSED
  /\ durationMs t = (exitTime t - entryTime t)%Z /\ (0 <= durationMs t)%Z.

(** Neither the running size nor the closed size of the trade is
    negative. *)
Definition sizesNotNegative (t : StandardizedTrade) : Prop :=
  0 <= _currentPositionSize t /\ 0 <= _closingSizeAccumulator t.

(** ** The running size and the status *)

(** The last fill of the trade is on its closing side: a sell for a
    long, a buy for a short. *)
Definition lastFillReduces (t : StandardizedTrade) : bool :=
  match rev (_rawFills t) with
  | fill :: _ => isClosingSide t fill
  | [] => false
  end.

(** The running size is not negative and the trade is open or closed.
    The trade is closed only by a fill on its closing side that brought
    the running size within the tolerance, and a trade that such a fill
    left open has a running size above the tolerance. *)
Definition sizeAgreesWithStatus (t : StandardizedTrade) : Prop :=
  0 <= _currentPositionSize t
  /\ (status t = OPEN_ \/ status t = CLOSED)
  /\ (status t = CLOSED ->
      lastFillReduces t = true
      /\ _currentPositionSize t <= FLOATING_POINT_TOLERANCE)
  /\ (status t = OPEN_ -> lastFillReduces t = true ->
      FLOATING_POINT_TOLERANCE < _currentPositionSize t).

(** One fill takes the trade [t] to the trade [t']: it is recorded last,
    the direction stays, the running size is not negative, and the
    status is [OPEN] unless the fill is on the closing side and brings
    the running size within the tolerance. *)
Definition sizeStepped (t t' : StandardizedTrade) (fill : RawFill) : Prop :=
  direction t' = direction t
  /\ _rawFills t' = (_rawFills t ++ [fill])%list
  /\ 0 <= _currentPositionSize t'
  /\ if isClosingSide t fill
     then (status t' = CLOSED
           /\ _currentPositionSize t' <= FLOATING_POINT_TOLERANCE)
          \/ (status t' = OPEN_
              /\ FLOATING_POINT_TOLERANCE < _currentPositionSize t')
     else status t' = OPEN_.
(** * Properties *)

(** ** Tactics and arithmetic shared by the proofs *)

Ltac trade_simpl :=
  cbn [id symbol direction status entryTime exitTime durationMs totalSize
       totalValue averageEntryPrice averageExitPrice realizedPnl
       totalCommission totalFundingFee netPnl pnlPercentage timeline tradeIds
       orderIds tags _currentPositionSize _closingSizeAccumulator
       _closingValueAccumulator _rawFills _rawBills currentNotionalValue
       pnlCurrency feeCurrency valueCurrency
       set_status set_exitTime set_durationMs set_totalSize set_totalValue
       set_averageEntryPrice set_averageExitPrice set_realizedPnl
       set_totalCommission set_totalFundingFee set_netPnl set_pnlPercentage
       set_timeline set_tradeIds set_orderIds set_currentPositionSize
       set_closingSizeAccumulator set_closingValueAccumulator set_rawFills
       set_rawBills set_currentNotionalValue
       timestamp action size price notes tradeId orderId fee feeCcy
       f_instId f_tradeId f_ordId f_side f_posSide f_fillPx f_fillSz f_fee
       f_feeCcy f_ts with_action
       fst snd negb andb orb TradeDirection_eqb Action_eqb PositionStatus_eqb].

Ltac trade_simpl_in H :=
  cbn [id symbol direction status entryTime exitTime durationMs totalSize
       totalValue averageEntryPrice averageExitPrice realizedPnl
       totalCommission totalFundingFee netPnl pnlPercentage timeline tradeIds
       orderIds tags _currentPositionSize _closingSizeAccumulator
       _closingValueAccumulator _rawFills _rawBills currentNotionalValue
       pnlCurrency feeCurrency valueCurrency
       set_status set_exitTime set_durationMs set_totalSize set_totalValue
       set_averageEntryPrice set_averageExitPrice set_realizedPnl
       set_totalCommission set_totalFundingFee set_netPnl set_pnlPercentage
       set_timeline set_tradeIds set_orderIds set_currentPositionSize
       set_closingSizeAccumulator set_closingValueAccumulator set_rawFills
       set_rawBills set_currentNotionalValue
       timestamp action size price notes tradeId orderId fee feeCcy
       f_instId f_tradeId f_ordId f_side f_posSide f_fillPx f_fillSz f_fee
       f_feeCcy f_ts with_action
       fst snd negb andb orb TradeDirection_eqb Action_eqb PositionStatus_eqb] in H.

Ltac break_ifs :=
  repeat match goal with
    | |- context [if ?c then _ else _] => destruct c eqn:?
    end.

Lemma Qgtb_true (x y : Q) : JS.Qgtb x y = true <-> y < x.
Proof.
  unfold JS.Qgtb, JS.Qltb. rewrite negb_true_iff.
  split; intros H.
  - apply Qnot_le_lt. intros Hle. apply Qle_bool_iff in Hle. congruence.
  - destruct (Qle_bool x y) eqn:E; trivial. apply Qle_bool_iff in E.
    exfalso. eapply Qlt_not_le; eauto.
Qed.

Lemma Qgtb_false (x y : Q) : JS.Qgtb x y = false <-> x <= y.
Proof.
  unfold JS.Qgtb, JS.Qltb. rewrite negb_false_iff. apply Qle_bool_iff.
Qed.

Lemma Qle_bool_false (x y : Q) : Qle_bool x y = false <-> y < x.
Proof.
  split; intros H.
  - apply Qnot_le_lt. intros Hle. apply Qle_bool_iff in Hle. congruence.
  - destruct (Qle_bool x y) eqn:E; trivial. apply Qle_bool_iff in E.
    exfalso. eapply Qlt_not_le; eauto.
Qed.

Lemma tolerance_pos : 0 < FLOATING_POINT_TOLERANCE.
Proof. reflexivity. Qed.

(** ** Folds and maps *)

Lemma fold_left_invariant {A B : Type} (P : A -> Prop) (f : A -> B -> A)
    (l : list B) (a : A) :
  P a -> (forall a b, P a -> P (f a b)) -> P (fold_left f l a).
Proof.
  intros Ha Hstep. revert a Ha.
  induction l as [|b l IH]; intros a Ha; simpl; auto.
Qed.

Section MapFacts.
Context {V : Type}.
Implicit Types (m : JS.map V) (k : string) (v : V).

Lemma get_in k m v : JS.get k m = Some v -> In v (JS.values m).
Proof.
  induction m as [|[k' v'] m IH]; simpl; [discriminate|].
  destruct (String.eqb k k'); intros H.
  - left. congruence.
  - right. auto.
Qed.

Lemma Forall_values_get (P : V -> Prop) k m v :
  Forall P (JS.values m) -> JS.get k m = Some v -> P v.
Proof.
  intros HF Hget. rewrite Forall_forall in HF. apply HF.
  eapply get_in; eauto.
Qed.

Lemma Forall_values_set (P : V -> Prop) k m v :
  Forall P (JS.values m) -> P v -> Forall P (JS.values (JS.set k v m)).
Proof.
  intros HF Hv. induction m as [|[k' v'] m IH]; simpl.
  - constructor; [assumption | constructor].
  - inversion HF; subst. destruct (String.eqb k k'); simpl.
    + constructor; assumption.
    + constructor; [assumption | apply IH; assumption].
Qed.

Lemma Forall_values_delete (P : V -> Prop) k m :
  Forall P (JS.values m) -> Forall P (JS.values (JS.delete k m)).
Proof.
  intros HF. induction m as [|[k' v'] m IH]; simpl; [constructor|].
  inversion HF; subst. destruct (String.eqb k k'); simpl.
  - assumption.
  - constructor; [assumption | apply IH; assumption].
Qed.

End MapFacts.

Section MapLookup.
Context {V : Type}.
Implicit Types (m : JS.map V) (k : string) (v : V).

Lemma get_set_same k v m : JS.get k (JS.set k v m) = Some v.
Proof.
  induction m as [|[k' v'] m IH]; simpl.
  - rewrite String.eqb_refl. reflexivity.
  - destruct (String.eqb k k') eqn:E; simpl; rewrite E; auto.
Qed.

Lemma get_set_other k k' v m :
  k <> k' -> JS.get k (JS.set k' v m) = JS.get k m.
Proof.
  intros Hne. induction m as [|[k0 v0] m IH]; simpl.
  - apply String.eqb_neq in Hne. rewrite Hne. reflexivity.
  - destruct (String.eqb k' k0) eqn:E; simpl.
    + apply String.eqb_eq in E. subst k0.
      apply String.eqb_neq in Hne. rewrite Hne. reflexivity.
    + destruct (String.eqb k k0); auto.
Qed.

(** Replacing the value of a present key by one with the same image
    under [f] keeps the images of the values. *)
Lemma map_values_set {W : Type} (f : V -> W) k v v0 m :
  JS.get k m = Some v0 -> f v = f v0 ->
  map f (JS.values (JS.set k v m)) = map f (JS.values m).
Proof.
  intros Hget Hf. induction m as [|[k' v'] m IH]; simpl in *; [discriminate|].
  destruct (String.eqb k k') eqn:E; simpl.
  - injection Hget as ->. rewrite Hf. reflexivity.
  - rewrite IH by assumption. reflexivity.
Qed.

Lemma length_set_present k v v0 m :
  JS.get k m = Some v0 -> length (JS.set k v m) = length m.
Proof.
  intros Hget. induction m as [|[k' v'] m IH]; simpl in *; [discriminate|].
  destruct (String.eqb k k') eqn:E; simpl; auto.
Qed.

End MapLookup.

Lemma replaceValues_values {V W : Type} (f : V -> W -> V) (g : V -> W)
    (m : JS.map V) (ws : list W) :
  (forall v w, g (f v w) = w) ->
  length ws = length m ->
  map g (JS.values (replaceValues f m ws)) = ws.
Proof.
  intros Hgf. unfold replaceValues, JS.values.
  revert ws. induction m as [|[k v] m IH]; intros [|w ws] Hlen;
    simpl in *; try discriminate; trivial.
  rewrite Hgf. f_equal. apply IH. lia.
Qed.

(** ** SafeParsers *)

Section SafeParsersFacts.
Import SafeParsers.

Lemma integer_absent (fallback : number) :
  integer VUndefined fallback = fallback /\ integer VNull fallback = fallback.
Proof. split; reflexivity. Qed.

Lemma float_absent (fallback : number) :
  float VUndefined fallback = fallback /\ float VNull fallback = fallback.
Proof. split; reflexivity. Qed.

Lemma integer_present (v : value) (fallback : number) :
  v <> VUndefined -> v <> VNull ->
  integer v fallback =
    if isNaN (parseInt10 (toString v)) then fallback else parseInt10 (toString v).
Proof. destruct v; intros; try congruence; reflexivity. Qed.

Lemma float_present (v : value) (fallback : number) :
  v <> VUndefined -> v <> VNull ->
  float v fallback =
    if isNaN (parseFloat (toString v)) then fallback else parseFloat (toString v).
Proof. destruct v; intros; try congruence; reflexivity. Qed.

Lemma integer_not_NaN (v : value) (fallback : number) :
  isNaN fallback = false -> isNaN (integer v fallback) = false.
Proof.
  intros Hf. destruct v; simpl; trivial;
    match goal with
    | |- context [isNaN ?p] => destruct (isNaN p) eqn:E; [exact Hf | exact E]
    end.
Qed.

Lemma float_not_NaN (v : value) (fallback : number) :
  isNaN fallback = false -> isNaN (float v fallback) = false.
Proof.
  intros Hf. destruct v; simpl; trivial;
    match goal with
    | |- context [isNaN ?p] => destruct (isNaN p) eqn:E; [exact Hf | exact E]
    end.
Qed.

(** The digit-string reader never yields an infinity. *)
Lemma parseInt10_finite_or_NaN (s : string) :
  parseInt10 s = NaN \/ exists q, parseInt10 s = Finite q.
Proof.
  unfold parseInt10. destruct (takeSign (skipWhiteSpace s)) as [neg s'].
  destruct (takeDigits s') as [[|d ds] rest]; [left | right; eexists]; reflexivity.
Qed.

End SafeParsersFacts.

(** C10, counterexample.  [SafeParsers.float("Infinity")] is the parsed
    value [Infinity], which [isNaN] lets through: the result is not a
    finite number although the fallback [0] is. *)
Lemma SafeParsers_float_not_always_finite :
  SafeParsers.float (SafeParsers.VString "Infinity") SafeParsers.defaultFallback
    = SafeParsers.PosInfinity
  /\ SafeParsers.isFinite
       (SafeParsers.float (SafeParsers.VString "Infinity") SafeParsers.defaultFallback)
     = false
  /\ ~ (forall v fallback,
          SafeParsers.isFinite fallback = true ->
          SafeParsers.isFinite (SafeParsers.float v fallback) = true).
Proof.
  split; [reflexivity | split; [reflexivity |]].
  intros H.
  specialize (H (SafeParsers.VString "Infinity") SafeParsers.defaultFallback eq_refl).
  discriminate H.
Qed.

(** C10, as amended.  [SafeParsers.integer] and [SafeParsers.float] are
    total; an absent input ([undefined] or [null]) yields the fallback;
    for a string or a number the result is the fallback when the built-in
    parser yields [NaN] and the parsed number otherwise; hence the result
    is [NaN] only if the fallback is, and with the default fallback [0] it
    never is.  Nothing forces the parsed number of [float] to be finite. *)
Theorem SafeParsers_fallback_contract :
  forall (v : SafeParsers.value) (fallback : SafeParsers.number),
    (* absent input *)
    SafeParsers.integer SafeParsers.VUndefined fallback = fallback
    /\ SafeParsers.integer SafeParsers.VNull fallback = fallback
    /\ SafeParsers.float SafeParsers.VUndefined fallback = fallback
    /\ SafeParsers.float SafeParsers.VNull fallback = fallback
    (* present input: parse failure gives the fallback, success the parsed value *)
    /\ (v <> SafeParsers.VUndefined -> v <> SafeParsers.VNull ->
        SafeParsers.integer v fallback =
          (if SafeParsers.isNaN (SafeParsers.parseInt10 (SafeParsers.toString v))
           then fallback else SafeParsers.parseInt10 (SafeParsers.toString v))
        /\ SafeParsers.float v fallback =
          (if SafeParsers.isNaN (SafeParsers.parseFloat (SafeParsers.toString v))
           then fallback else SafeParsers.parseFloat (SafeParsers.toString v)))
    (* never NaN unless the fallback is *)
    /\ (SafeParsers.isNaN fallback = false ->
        SafeParsers.isNaN (SafeParsers.integer v fallback) = false
        /\ SafeParsers.isNaN (SafeParsers.float v fallback) = false)
    (* the default fallback *)
    /\ SafeParsers.isNaN (SafeParsers.integer v SafeParsers.defaultFallback) = false
    /\ SafeParsers.isNaN (SafeParsers.float v SafeParsers.defaultFallback) = false.
Proof.
  intros v fallback.
  repeat split; try reflexivity.
  - apply integer_present; assumption.
  - apply float_present; assumption.
  - apply integer_not_NaN; assumption.
  - apply float_not_NaN; assumption.
  - apply integer_not_NaN; reflexivity.
  - apply float_not_NaN; reflexivity.
Qed.

(** A run of the contract on a malformed string, a numeric string and a
    number, with a fallback of 7. *)
Lemma SafeParsers_fallback_contract_witness :
  SafeParsers.integer (SafeParsers.VString "abc") (SafeParsers.Finite 7)
    = SafeParsers.Finite 7
  /\ SafeParsers.isNaN
       (SafeParsers.float (SafeParsers.VNumber SafeParsers.NaN) (SafeParsers.Finite 7))
     = false.
Proof.
  pose proof (SafeParsers_fallback_contract
                (SafeParsers.VString "abc") (SafeParsers.Finite 7)) as H.
  destruct H as (_ & _ & _ & _ & Hp & _).
  destruct Hp as [Hi _]; [discriminate | discriminate |].
  split.
  - rewrite Hi. reflexivity.
  - pose proof (SafeParsers_fallback_contract
                  (SafeParsers.VNumber SafeParsers.NaN) (SafeParsers.Finite 7)) as H.
    destruct H as (_ & _ & _ & _ & _ & Hn & _).
    apply Hn. reflexivity.
Defined.

(** ** Margin: the fields of a trade after a fill *)

Section MarginFields.
Import BinanceMarginTradeProcessor.

(** Splits on the direction, the side and every remaining test of
    [_updateTradeWithFill]; a leaf is closed by computation or by the
    clash of two tests of the same condition. *)
Ltac margin_field tr fill :=
  unfold marginIsIncrease, marginReduced, _updateTradeWithFill;
  destruct (direction tr) eqn:?Hd;
  destruct (String.eqb (JS.toLowerCase (f_side fill)) "buy");
  cbv beta iota delta [negb TradeDirection_eqb];
  break_ifs;
  first
    [ reflexivity
    | trade_simpl;
      match goal with
      | Hd : direction _ = _ |- _ => rewrite Hd; reflexivity
      end
    | exfalso;
      repeat match goal with
        | H : _ = true |- _ => progress trade_simpl_in H
        | H : _ = false |- _ => progress trade_simpl_in H
        end;
      first [ congruence
            | match goal with
              | Hd : direction _ = _ |- _ => rewrite Hd in *; discriminate
              end ] ].

Lemma margin_update_direction tr fill b :
  direction (_updateTradeWithFill tr fill b) = direction tr.
Proof. margin_field tr fill. Qed.

Lemma margin_update_status tr fill b :
  status (_updateTradeWithFill tr fill b) = status tr.
Proof. margin_field tr fill. Qed.

Lemma margin_update_symbol tr fill b :
  symbol (_updateTradeWithFill tr fill b) = symbol tr.
Proof. margin_field tr fill. Qed.

Lemma margin_update_entryTime tr fill b :
  entryTime (_updateTradeWithFill tr fill b) = entryTime tr.
Proof. margin_field tr fill. Qed.

Lemma margin_update_cur tr fill b :
  _currentPositionSize (_updateTradeWithFill tr fill b) =
    if marginIsIncrease tr fill then
      if TradeDirection_eqb (direction tr) LONG
      then _currentPositionSize tr + f_fillSz fill
      else _currentPositionSize tr - f_fillSz fill
    else if Qle_bool (Qabs (marginReduced tr fill)) FLOATING_POINT_TOLERANCE
         then 0 else marginReduced tr fill.
Proof. margin_field tr fill. Qed.

Lemma margin_update_pnl tr fill b :
  realizedPnl (_updateTradeWithFill tr fill b) =
    if marginIsIncrease tr fill then realizedPnl tr
    else realizedPnl tr
         + (if TradeDirection_eqb (direction tr) LONG
            then (f_fillPx fill - averageEntryPrice tr) * f_fillSz fill
            else (averageEntryPrice tr - f_fillPx fill) * f_fillSz fill).
Proof. margin_field tr fill. Qed.

Lemma margin_update_totalSize tr fill b :
  totalSize (_updateTradeWithFill tr fill b) =
    if marginIsIncrease tr fill then totalSize tr + f_fillSz fill
    else totalSize tr.
Proof. margin_field tr fill. Qed.

Lemma margin_update_totalValue tr fill b :
  totalValue (_updateTradeWithFill tr fill b) =
    if marginIsIncrease tr fill
    then totalValue tr + f_fillSz fill * f_fillPx fill
    else totalValue tr.
Proof. margin_field tr fill. Qed.

Lemma margin_update_avgEntry tr fill b :
  averageEntryPrice (_updateTradeWithFill tr fill b) =
    if marginIsIncrease tr fill
    then (Qabs (_currentPositionSize tr) * averageEntryPrice tr
          + f_fillSz fill * f_fillPx fill)
         / (Qabs (_currentPositionSize tr) + f_fillSz fill)
    else averageEntryPrice tr.
Proof. margin_field tr fill. Qed.

Lemma margin_update_commission tr fill b :
  totalCommission (_updateTradeWithFill tr fill b)
  = totalCommission tr + f_fee fill.
Proof. margin_field tr fill. Qed.

Lemma margin_update_timeline tr fill b :
  timeline (_updateTradeWithFill tr fill b) =
    (timeline tr
     ++ [mkEvent (f_ts fill)
           (if marginIsIncrease tr fill then
              if JS.Qgtb (Qabs (_currentPositionSize tr)) 0 && negb b
              then ADD else OPEN
            else if Qle_bool (Qabs (marginReduced tr fill)) FLOATING_POINT_TOLERANCE
                 then CLOSE else REDUCE)
           (f_fillSz fill) (f_fillPx fill) "" (f_tradeId fill) (f_ordId fill)
           (f_fee fill) (f_feeCcy fill)])%list.
Proof. margin_field tr fill. Qed.

Lemma margin_update_tradeIds tr fill b :
  tradeIds (_updateTradeWithFill tr fill b) = (tradeIds tr ++ [f_tradeId fill])%list.
Proof. margin_field tr fill. Qed.

Lemma margin_update_rawFills tr fill b :
  _rawFills (_updateTradeWithFill tr fill b) = (_rawFills tr ++ [fill])%list.
Proof. margin_field tr fill. Qed.

End MarginFields.
(** ** Margin: the flip *)

Section MarginFlip.
Import BinanceMarginTradeProcessor.

Lemma margin_close_status tr ts : status (_closeTrade tr ts) = CLOSED.
Proof. unfold _closeTrade. break_ifs; reflexivity. Qed.

Lemma margin_close_direction tr ts :
  direction (_closeTrade tr ts) = direction tr.
Proof. unfold _closeTrade. break_ifs; reflexivity. Qed.

Lemma margin_close_cur tr ts :
  _currentPositionSize (_closeTrade tr ts) = _currentPositionSize tr.
Proof. unfold _closeTrade. break_ifs; reflexivity. Qed.

Lemma margin_close_pnl tr ts : realizedPnl (_closeTrade tr ts) = realizedPnl tr.
Proof. unfold _closeTrade. break_ifs; reflexivity. Qed.

Lemma margin_close_exit tr ts : exitTime (_closeTrade tr ts) = ts.
Proof. unfold _closeTrade. break_ifs; reflexivity. Qed.

Lemma closingSizeOf_abs tr :
  (direction tr = LONG -> 0 <= _currentPositionSize tr) ->
  closingSizeOf tr == Qabs (_currentPositionSize tr).
Proof.
  unfold closingSizeOf. destruct (direction tr); intros H; [|reflexivity].
  symmetry. apply Qabs_pos. auto.
Qed.

Lemma flipOf_exceeding tr fill :
  isClosingSide tr fill = true ->
  Qabs (_currentPositionSize tr) + FLOATING_POINT_TOLERANCE < f_fillSz fill ->
  flipOf tr fill = Some (closingSizeOf tr, f_fillSz fill - closingSizeOf tr).
Proof.
  intros Hside Hsize. unfold flipOf, isClosingSide, closingSizeOf in *.
  destruct (direction tr); cbn [TradeDirection_eqb andb]; rewrite Hside;
    cbn [andb].
  - replace (JS.Qgtb _ _) with true; [reflexivity|].
    symmetry. apply Qgtb_true.
    eapply Qle_lt_trans; [|exact Hsize]. apply Qplus_le_l. apply Qle_Qabs.
  - replace (JS.Qgtb _ _) with true; [reflexivity|].
    symmetry. apply Qgtb_true. exact Hsize.
Qed.

(** The closing part leaves the old trade with a running size of zero
    and the profit of the closed quantity. *)
Lemma margin_closing_part tr fill :
  (direction tr = LONG -> 0 <= _currentPositionSize tr) ->
  (direction tr = SHORT -> _currentPositionSize tr <= 0) ->
  isClosingSide tr fill = true ->
  let closed := _updateTradeWithFill tr (with_fillSz (closingSizeOf tr) fill) false in
  _currentPositionSize closed == 0
  /\ realizedPnl closed ==
       realizedPnl tr
       + (if TradeDirection_eqb (direction tr) LONG
          then (f_fillPx fill - averageEntryPrice tr)
          else (averageEntryPrice tr - f_fillPx fill))
         * Qabs (_currentPositionSize tr).
Proof.
  intros Hlong Hshort Hside.
  pose proof (closingSizeOf_abs tr Hlong) as Hc.
  cbv zeta. rewrite margin_update_cur, margin_update_pnl.
  unfold marginIsIncrease, marginReduced, isClosingSide in *.
  cbn [with_fillSz f_side f_fillSz f_fillPx].
  destruct (direction tr) eqn:Hd; cbn [TradeDirection_eqb].
  - rewrite negb_true_iff in Hside. rewrite Hside. split.
    + destruct (Qle_bool _ _); [reflexivity|].
      unfold closingSizeOf. rewrite Hd. ring.
    + rewrite Hc. reflexivity.
  - rewrite Hside. cbn [negb]. split.
    + destruct (Qle_bool _ _); [reflexivity|].
      rewrite Hc. rewrite Qabs_neg by auto. ring.
    + rewrite Hc. reflexivity.
Qed.

(** The remainder opens a fresh trade in the direction of the fill. *)
Lemma margin_opening_part insts tr fill (o : Q) :
  isClosingSide tr fill = true ->
  0 < o ->
  let fresh :=
    _updateTradeWithFill (_createNewTrade insts (with_fillSz o fill))
      (with_fillSz o fill) true in
  status fresh = OPEN_
  /\ symbol fresh = f_instId fill
  /\ entryTime fresh = f_ts fill
  /\ direction fresh = oppositeDirection (direction tr)
  /\ totalSize fresh == o
  /\ averageEntryPrice fresh == f_fillPx fill
  /\ Qabs (_currentPositionSize fresh) == o
  /\ realizedPnl fresh == 0
  /\ map action (timeline fresh) = [OPEN].
Proof.
  intros Hside Ho. unfold isClosingSide in Hside.
  assert (Hne : ~ o == 0) by (intros E; rewrite E in Ho; discriminate).
  assert (Habs : Qabs o == o) by (apply Qabs_pos; apply Qlt_le_weak; exact Ho).
  cbv zeta.
  rewrite margin_update_status, margin_update_symbol, margin_update_entryTime,
    margin_update_direction, margin_update_totalSize, margin_update_avgEntry,
    margin_update_cur, margin_update_pnl, margin_update_timeline.
  unfold marginIsIncrease, marginReduced, _createNewTrade.
  cbn [with_fillSz f_side f_fillSz f_fillPx f_instId f_ts
       status symbol entryTime direction totalSize averageEntryPrice
       _currentPositionSize realizedPnl timeline].
  rewrite andb_false_r.
  destruct (direction tr);
    destruct (String.eqb (JS.toLowerCase (f_side fill)) "buy");
    try discriminate Hside; cbn [TradeDirection_eqb negb oppositeDirection map app action].
  - repeat (apply conj); try reflexivity; try ring.
    + change (Qabs 0) with 0. field. exact Hne.
    + setoid_replace (0 - o) with (- o) by ring. rewrite Qabs_opp. exact Habs.
  - repeat (apply conj); try reflexivity; try ring.
    + change (Qabs 0) with 0. field. exact Hne.
    + setoid_replace (0 + o) with o by ring. exact Habs.
Qed.

Lemma margin_flip_step insts st fill tr :
  JS.get (positionKeyOf fill) (openPositions st) = Some tr ->
  (direction tr = LONG -> 0 <= _currentPositionSize tr) ->
  (direction tr = SHORT -> _currentPositionSize tr <= 0) ->
  isClosingSide tr fill = true ->
  Qabs (_currentPositionSize tr) + FLOATING_POINT_TOLERANCE < f_fillSz fill ->
  exists closedTrade newTrade,
    processFill insts st fill =
      mkState (closedTrades st ++ [closedTrade])
              (JS.set (positionKeyOf fill) newTrade (openPositions st))
    /\ (status closedTrade = CLOSED
        /\ direction closedTrade = direction tr
        /\ exitTime closedTrade = f_ts fill
        /\ _currentPositionSize closedTrade == 0
        /\ realizedPnl closedTrade ==
             realizedPnl tr
             + (if TradeDirection_eqb (direction tr) LONG
                then (f_fillPx fill - averageEntryPrice tr)
                else (averageEntryPrice tr - f_fillPx fill))
               * Qabs (_currentPositionSize tr))
    /\ (status newTrade = OPEN_
        /\ symbol newTrade = f_instId fill
        /\ entryTime newTrade = f_ts fill
        /\ direction newTrade = oppositeDirection (direction tr)
        /\ totalSize newTrade == f_fillSz fill - Qabs (_currentPositionSize tr)
        /\ averageEntryPrice newTrade == f_fillPx fill
        /\ Qabs (_currentPositionSize newTrade)
           == f_fillSz fill - Qabs (_currentPositionSize tr)
        /\ realizedPnl newTrade == 0
        /\ map action (timeline newTrade) = [OPEN]).
Proof.
  intros Hget Hlong Hshort Hside Hsize.
  pose proof (closingSizeOf_abs tr Hlong) as Hc.
  unfold processFill. rewrite Hget.
  rewrite (flipOf_exceeding tr fill Hside Hsize). cbv zeta.
  eexists. eexists. split; [reflexivity|]. split.
  - destruct (margin_closing_part tr fill Hlong Hshort Hside) as [Hcur Hpnl].
    rewrite margin_close_status, margin_close_direction, margin_close_exit,
      margin_close_cur, margin_close_pnl, margin_update_direction.
    repeat split; trivial.
  - assert (Ho : 0 < f_fillSz fill - closingSizeOf tr).
    { rewrite Hc. apply (Qplus_lt_l _ _ (Qabs (_currentPositionSize tr))).
      ring_simplify. eapply Qle_lt_trans; [|exact Hsize].
      rewrite <- (Qplus_0_r (Qabs (_currentPositionSize tr))) at 1.
      apply Qplus_le_r. discriminate. }
    destruct (margin_opening_part insts tr fill _ Hside Ho)
      as (H1 & H2 & H3 & H4 & H5 & H6 & H7 & H8 & H9).
    repeat split; trivial.
    + rewrite H5, Hc. reflexivity.
    + rewrite H7, Hc. reflexivity.
Qed.

End MarginFlip.




(** ** Inverse futures: the specification's pair *)

(** C5.  With a contract value of 100 USD, buy 10 contracts at 50000 then
    sell 10 contracts at 55000 on the long key gives, in the Binance
    inverse processor, exactly one trade; it is closed, its realized
    profit is 10 * 100 * (1/50000 - 1/55000) in the settlement currency,
    and its [pnlCurrency] is the base asset of the instrument.  The OKX
    builder on an inverse instrument gives the same status and profit. *)
Theorem inverse_pair_realized_pnl :
  (forall base quote feeCurrency_ : string,
      exists t,
        BinanceCMFuturesTradeProcessor.processAllData
          (inversePairFills "BTCUSD_PERP" feeCurrency_) []
          [mkInstrument "BTCUSD_PERP" 100 base quote] []
        = [t]
        /\ status t = CLOSED
        /\ direction t = LONG
        /\ realizedPnl t == 10 * 100 * (1 / 50000 - 1 / 55000)
        /\ pnlCurrency t = base)
  /\ (exists t,
        OkxUMFuturesTradeProcessor.processAllData
          (inversePairFills "BTC-USD-SWAP" "BTC") []
          [mkInstrument "BTC-USD-SWAP" 100 "BTC" "USD"] []
        = [t]
        /\ status t = CLOSED
        /\ direction t = LONG
        /\ realizedPnl t == 10 * 100 * (1 / 50000 - 1 / 55000)
        /\ pnlCurrency t = "BTC").
Proof.
  split.
  - intros base quote feeCurrency_. eexists. split; [vm_compute; reflexivity|].
    repeat (apply conj); vm_compute; reflexivity.
  - eexists. split; [vm_compute; reflexivity|].
    repeat (apply conj); vm_compute; reflexivity.
Qed.

(** ** Orphan reducing fills *)

Lemma reducing_not_opening_um fill :
  isReducingFill fill = true ->
  BinanceUMFuturesTradeProcessor.isOpeningFill fill = false.
Proof.
  unfold isReducingFill, BinanceUMFuturesTradeProcessor.isOpeningFill.
  destruct (String.eqb_spec (JS.toLowerCase (f_posSide fill)) "long") as [Hl|Hl];
    destruct (String.eqb_spec (JS.toLowerCase (f_posSide fill)) "short") as [Hs|Hs];
    destruct (String.eqb_spec (JS.toLowerCase (f_side fill)) "sell") as [Hsell|Hsell];
    destruct (String.eqb_spec (JS.toLowerCase (f_side fill)) "buy") as [Hbuy|Hbuy];
    cbn; try discriminate; trivial; congruence.
Qed.

Lemma reducing_is_reduceOnly fill :
  isReducingFill fill = true ->
  OkxUMFuturesTradeProcessor.isReduceOnly fill = true.
Proof.
  unfold isReducingFill, OkxUMFuturesTradeProcessor.isReduceOnly.
  destruct (String.eqb (JS.toLowerCase (f_posSide fill)) "long" &&
            String.eqb (JS.toLowerCase (f_side fill)) "sell"); cbn; trivial.
  intros ->. reflexivity.
Qed.

(** A reducing fill for a position key that has no open builder leaves
    the state of the fold as it is, in the OKX, Binance linear and
    Binance inverse processors, and so does a spot sell while no cycle is
    open.  On the spot sequence orphan sell, buy, sell the output is
    exactly the one trade of the buy/sell cycle. *)
Lemma orphan_reducing_fill_skipped :
  (forall insts st fill,
      JS.get (OkxUMFuturesTradeProcessor.positionKeyOf fill)
        (OkxUMFuturesTradeProcessor.openPositions st) = None ->
      isReducingFill fill = true ->
      OkxUMFuturesTradeProcessor.processFill insts st fill = st)
  /\ (forall insts st fill,
      JS.get (BinanceUMFuturesTradeProcessor.positionKeyOf fill)
        (BinanceUMFuturesTradeProcessor.openPositions st) = None ->
      isReducingFill fill = true ->
      BinanceUMFuturesTradeProcessor.processFill insts st fill = st)
  /\ (forall insts st fill,
      JS.get (BinanceCMFuturesTradeProcessor.positionKeyOf fill)
        (BinanceCMFuturesTradeProcessor.openPositions st) = None ->
      isReducingFill fill = true ->
      BinanceCMFuturesTradeProcessor.processFill insts st fill = st)
  /\ (forall insts st fill,
      JS.get (BinanceSpotTradeProcessor.positionKeyOf fill)
        (BinanceSpotTradeProcessor.openPositions st) = None ->
      isSpotSell fill = true ->
      BinanceSpotTradeProcessor.processFill insts st fill = st)
  /\ (exists t,
        BinanceSpotTradeProcessor.processAllData spotOrphanFills [] [] [] = [t]
        /\ status t = CLOSED
        /\ entryTime t = 1000%Z
        /\ tradeIds t = ["1"; "2"]
        /\ BinanceSpotTradeProcessor.processAllData spotOrphanFills [] [] []
           = BinanceSpotTradeProcessor.processAllData (tl spotOrphanFills) [] [] []).
Proof.
  repeat (apply conj).
  - intros insts st fill Hget Hred.
    unfold OkxUMFuturesTradeProcessor.processFill. rewrite Hget.
    rewrite (reducing_is_reduceOnly fill Hred). reflexivity.
  - intros insts st fill Hget Hred.
    unfold BinanceUMFuturesTradeProcessor.processFill. rewrite Hget.
    rewrite (reducing_not_opening_um fill Hred). reflexivity.
  - intros insts st fill Hget Hred.
    unfold BinanceCMFuturesTradeProcessor.processFill. rewrite Hget.
    change (BinanceCMFuturesTradeProcessor.isOpeningFill fill)
      with (BinanceUMFuturesTradeProcessor.isOpeningFill fill).
    rewrite (reducing_not_opening_um fill Hred). reflexivity.
  - intros insts st fill Hget Hsell.
    unfold BinanceSpotTradeProcessor.processFill. rewrite Hget.
    unfold isSpotSell in Hsell. rewrite Hsell. reflexivity.
  - eexists. split; [vm_compute; reflexivity|].
    repeat (apply conj); vm_compute; reflexivity.
Qed.

(** The four step statements at the empty state, on an orphan of each
    processor. *)
Lemma orphan_reducing_fill_skipped_witness :
  OkxUMFuturesTradeProcessor.processFill []
    (OkxUMFuturesTradeProcessor.mkState [] [])
    (mkFill "SOL-USDT-SWAP" "99" "99" "sell" "long" 100 1 0 "USDT" 1766000000000)
  = OkxUMFuturesTradeProcessor.mkState [] []
  /\ BinanceUMFuturesTradeProcessor.processFill []
       (BinanceUMFuturesTradeProcessor.mkState [] [])
       (mkFill "ETHUSDT" "7" "1" "sell" "long" 2926 1 0 "USDT" 1766069352044)
     = BinanceUMFuturesTradeProcessor.mkState [] []
  /\ BinanceCMFuturesTradeProcessor.processFill []
       (BinanceCMFuturesTradeProcessor.mkState [] [])
       (mkFill "BTCUSD_PERP" "7" "1" "buy" "short" 50000 1 0 "BTC" 1000)
     = BinanceCMFuturesTradeProcessor.mkState [] []
  /\ BinanceSpotTradeProcessor.processFill []
       (BinanceSpotTradeProcessor.mkState [] [])
       (hd (mkFill "" "" "" "" "" 0 0 0 "" 0) spotOrphanFills)
     = BinanceSpotTradeProcessor.mkState [] [].
Proof.
  destruct orphan_reducing_fill_skipped as (Hokx & Hum & Hcm & Hspot & _).
  repeat (apply conj).
  - apply Hokx; reflexivity.
  - apply Hum; reflexivity.
  - apply Hcm; reflexivity.
  - apply Hspot; reflexivity.
Defined.


(** ** The net profit of a finalized trade

    Spot and margin never touch [totalFundingFee]: it is the [0] of
    [_createNewTrade] on every trade of the fold. *)

Lemma okx_finalize_netPnl t :
  netPnlInvariant (OkxUMFuturesTradeProcessor.finalizeTrade t).
Proof.
  unfold netPnlInvariant, OkxUMFuturesTradeProcessor.finalizeTrade.
  break_ifs; trade_simpl; reflexivity.
Qed.

Lemma um_finalize_netPnl t :
  netPnlInvariant (BinanceUMFuturesTradeProcessor.finalizeTrade t).
Proof.
  unfold netPnlInvariant, BinanceUMFuturesTradeProcessor.finalizeTrade.
  break_ifs; trade_simpl; reflexivity.
Qed.

Lemma cm_finalize_netPnl t :
  netPnlInvariant (BinanceCMFuturesTradeProcessor.finalizeTrade t).
Proof.
  unfold netPnlInvariant, BinanceCMFuturesTradeProcessor.finalizeTrade.
  break_ifs; trade_simpl; reflexivity.
Qed.

Section SpotFunding.
Import BinanceSpotTradeProcessor.

Lemma spot_update_funding tr fill :
  totalFundingFee (_updateTradeWithFill tr fill) = totalFundingFee tr.
Proof. unfold _updateTradeWithFill. break_ifs; reflexivity. Qed.

Lemma spot_close_funding tr ts :
  totalFundingFee (_closeTrade tr ts) = totalFundingFee tr.
Proof. unfold _closeTrade. break_ifs; reflexivity. Qed.

Lemma spot_processFill_funding insts st fill :
  spotNoFunding st -> spotNoFunding (processFill insts st fill).
Proof.
  intros [Hc Ho]. unfold processFill.
  destruct (JS.get (positionKeyOf fill) (openPositions st)) as [tr|] eqn:Hget.
  - assert (Htr : noFunding (_updateTradeWithFill tr fill)).
    { unfold noFunding. rewrite spot_update_funding.
      exact (Forall_values_get _ _ _ _ Ho Hget). }
    break_ifs; split; simpl.
    + apply Forall_app. split; [assumption|]. constructor; [|constructor].
      unfold noFunding. rewrite spot_close_funding. exact Htr.
    + apply Forall_values_delete, Forall_values_set; assumption.
    + assumption.
    + apply Forall_values_set; assumption.
  - assert (Htr : noFunding (_updateTradeWithFill (_createNewTrade insts fill) fill)).
    { unfold noFunding. rewrite spot_update_funding. reflexivity. }
    break_ifs; try (split; assumption); split; simpl.
    + apply Forall_app. split; [assumption|]. constructor; [|constructor].
      unfold noFunding. rewrite spot_close_funding. exact Htr.
    + apply Forall_values_delete, Forall_values_set; assumption.
    + assumption.
    + apply Forall_values_set; assumption.
Qed.

Lemma spot_fold_funding insts fills :
  Forall noFunding (allTradesOf (_processFillsAndAggregateTrades insts fills)).
Proof.
  unfold allTradesOf, _processFillsAndAggregateTrades.
  assert (H : spotNoFunding (fold_left (processFill insts) fills (mkState [] []))).
  { apply fold_left_invariant.
    - split; constructor.
    - intros; apply spot_processFill_funding; assumption. }
  destruct H. apply Forall_app. split; assumption.
Qed.

Lemma spot_finalize_netPnl t :
  noFunding t -> netPnlInvariant (finalizeTrade t).
Proof.
  unfold noFunding, netPnlInvariant, finalizeTrade. intros H.
  break_ifs; trade_simpl; rewrite H; ring.
Qed.

End SpotFunding.

Section MarginFunding.
Import BinanceMarginTradeProcessor.

Lemma margin_update_funding tr fill b :
  totalFundingFee (_updateTradeWithFill tr fill b) = totalFundingFee tr.
Proof. unfold _updateTradeWithFill. break_ifs; reflexivity. Qed.

Lemma margin_close_funding tr ts :
  totalFundingFee (_closeTrade tr ts) = totalFundingFee tr.
Proof. unfold _closeTrade. break_ifs; reflexivity. Qed.

Lemma margin_processFill_funding insts st fill :
  marginNoFunding st -> marginNoFunding (processFill insts st fill).
Proof.
  intros [Hc Ho]. unfold processFill.
  destruct (JS.get (positionKeyOf fill) (openPositions st)) as [tr|] eqn:Hget.
  - pose proof (Forall_values_get _ _ _ _ Ho Hget) as Htr0.
    destruct (flipOf tr fill) as [[closingSize openingSize]|].
    + split; simpl.
      * apply Forall_app. split; [assumption|]. constructor; [|constructor].
        unfold noFunding. rewrite margin_close_funding, margin_update_funding.
        exact Htr0.
      * apply Forall_values_set; [assumption|].
        unfold noFunding. rewrite margin_update_funding. reflexivity.
    + assert (Htr : noFunding (_updateTradeWithFill tr fill false)).
      { unfold noFunding. rewrite margin_update_funding. exact Htr0. }
      break_ifs; split; simpl.
      * apply Forall_app. split; [assumption|]. constructor; [|constructor].
        unfold noFunding. rewrite margin_close_funding. exact Htr.
      * apply Forall_values_delete, Forall_values_set; assumption.
      * assumption.
      * apply Forall_values_set; assumption.
  - split; simpl; [assumption|].
    apply Forall_values_set; [assumption|].
    unfold noFunding. rewrite margin_update_funding. reflexivity.
Qed.

Lemma margin_fold_funding insts fills :
  Forall noFunding (allTradesOf (_processFillsAndAggregateTrades insts fills)).
Proof.
  unfold allTradesOf, _processFillsAndAggregateTrades.
  assert (H : marginNoFunding (fold_left (processFill insts) fills (mkState [] []))).
  { apply fold_left_invariant.
    - split; constructor.
    - intros; apply margin_processFill_funding; assumption. }
  destruct H. apply Forall_app. split; assumption.
Qed.

Lemma margin_finalize_netPnl t :
  noFunding t -> netPnlInvariant (finalizeTrade t).
Proof.
  unfold noFunding, netPnlInvariant, finalizeTrade. intros H.
  break_ifs; trade_simpl; rewrite H; ring.
Qed.

End MarginFunding.

Lemma Forall_map_intro {A B : Type} (P : B -> Prop) (f : A -> B) (l : list A) :
  (forall a, In a l -> P (f a)) -> Forall P (map f l).
Proof.
  intros H. apply Forall_forall. intros b Hb.
  apply in_map_iff in Hb. destruct Hb as (a & <- & Ha). auto.
Qed.

(** Over the exact rationals of the embedding, where every quotient is
    a number, every trade returned by [processAllData], in the OKX
    linear, Binance linear, Binance inverse, spot and margin processors,
    has [netPnl = realizedPnl - totalCommission + totalFundingFee]: the
    three futures processors assign this expression when they finalize a
    trade; spot and margin assign [realizedPnl - totalCommission] to
    trades whose [totalFundingFee] is zero. *)
Lemma netPnl_invariant_all_variants :
  forall (fills : list RawFill) (bills : list Bill)
         (instruments : list InstrumentDetail)
         (risks : list RawPositionRisk) (positions : list OkxPosition),
    Forall netPnlInvariant
      (OkxUMFuturesTradeProcessor.processAllData fills bills instruments positions)
    /\ Forall netPnlInvariant
         (BinanceUMFuturesTradeProcessor.processAllData fills bills instruments risks)
    /\ Forall netPnlInvariant
         (BinanceCMFuturesTradeProcessor.processAllData fills bills instruments risks)
    /\ Forall netPnlInvariant
         (BinanceSpotTradeProcessor.processAllData fills bills instruments risks)
    /\ Forall netPnlInvariant
         (BinanceMarginTradeProcessor.processAllData fills bills instruments risks).
Proof.
  intros fills bills instruments risks positions.
  repeat split.
  - apply Forall_map_intro. intros; apply okx_finalize_netPnl.
  - apply Forall_map_intro. intros; apply um_finalize_netPnl.
  - apply Forall_map_intro. intros; apply cm_finalize_netPnl.
  - apply Forall_map_intro. intros t Ht. apply spot_finalize_netPnl.
    pose proof (spot_fold_funding (indexInstruments instruments)
                  (JS.sort BinanceSpotTradeProcessor.compareFills fills)) as HF.
    rewrite Forall_forall in HF. apply HF. exact Ht.
  - apply Forall_map_intro. intros t Ht. apply margin_finalize_netPnl.
    pose proof (margin_fold_funding (indexInstruments instruments)
                  (JS.sort BinanceMarginTradeProcessor.compareFills fills)) as HF.
    rewrite Forall_forall in HF. apply HF. exact Ht.
Qed.


(** ** Funding attribution *)

Lemma isRelevant_same ts t t' :
  entryTime t' = entryTime t -> status t' = status t -> exitTime t' = exitTime t ->
  isRelevant ts t' = isRelevant ts t.
Proof. unfold isRelevant. intros -> -> ->. reflexivity. Qed.

(** *** First match wins (Binance linear and inverse) *)

Lemma creditFirstRelevant_none bill trades :
  forallb (fun t => negb (billMatches bill t)) trades = true ->
  creditFirstRelevant bill trades = trades.
Proof.
  induction trades as [|t trades IH]; simpl; trivial.
  fold (billMatches bill t).
  destruct (billMatches bill t); simpl; [discriminate|].
  intros H. rewrite IH by assumption. reflexivity.
Qed.

Lemma creditFirstRelevant_first bill before t after :
  forallb (fun t => negb (billMatches bill t)) before = true ->
  billMatches bill t = true ->
  creditFirstRelevant bill (before ++ t :: after)
  = (before ++ creditTrade bill t :: after)%list.
Proof.
  intros Hb Ht. induction before as [|t0 before IH]; simpl in *.
  - fold (billMatches bill t). rewrite Ht. reflexivity.
  - fold (billMatches bill t0).
    destruct (billMatches bill t0); simpl in *; [discriminate|].
    rewrite IH by assumption. reflexivity.
Qed.

Lemma creditFirstRelevant_length bill trades :
  length (creditFirstRelevant bill trades) = length trades.
Proof.
  induction trades as [|t trades IH]; simpl; trivial.
  destruct (_ && _); simpl; auto.
Qed.

Lemma applyBillsFirstMatch_length bills trades :
  length (applyBillsFirstMatch bills trades) = length trades.
Proof.
  unfold applyBillsFirstMatch. revert trades.
  induction bills as [|b bills IH]; intros trades; simpl; trivial.
  rewrite IH. destruct (String.eqb _ _); trivial.
  apply creditFirstRelevant_length.
Qed.

Lemma um_applyRisk_fold risks open :
  fold_left BinanceUMFuturesTradeProcessor.applyRisk risks open = open.
Proof. induction risks; simpl; auto. Qed.

Lemma um_apply_allTrades st bills risks :
  BinanceUMFuturesTradeProcessor.allTradesOf
    (BinanceUMFuturesTradeProcessor.applyBillsAndRisks st bills risks)
  = applyBillsFirstMatch bills (BinanceUMFuturesTradeProcessor.allTradesOf st).
Proof.
  unfold BinanceUMFuturesTradeProcessor.applyBillsAndRisks,
    BinanceUMFuturesTradeProcessor.allTradesOf at 1.
  cbn [BinanceUMFuturesTradeProcessor.closedTrades
       BinanceUMFuturesTradeProcessor.openPositions].
  rewrite um_applyRisk_fold.
  rewrite replaceValues_values.
  - apply firstn_skipn.
  - reflexivity.
  - rewrite length_skipn, applyBillsFirstMatch_length.
    unfold BinanceUMFuturesTradeProcessor.allTradesOf, JS.values.
    rewrite length_app, !length_map. lia.
Qed.

Lemma cm_applyRisk_funding risks open :
  map totalFundingFee
    (JS.values (fold_left BinanceCMFuturesTradeProcessor.applyRisk risks open))
  = map totalFundingFee (JS.values open).
Proof.
  revert open. induction risks as [|r risks IH]; intros open; simpl; trivial.
  rewrite IH. unfold BinanceCMFuturesTradeProcessor.applyRisk.
  destruct (JS.get _ open) as [tr|] eqn:Hget; trivial.
  eapply map_values_set; [exact Hget | reflexivity].
Qed.

Lemma cm_apply_allTrades st bills risks :
  map totalFundingFee
    (BinanceCMFuturesTradeProcessor.allTradesOf
       (BinanceCMFuturesTradeProcessor._applyBillsAndRisks st bills risks))
  = map totalFundingFee
      (applyBillsFirstMatch bills (BinanceCMFuturesTradeProcessor.allTradesOf st)).
Proof.
  unfold BinanceCMFuturesTradeProcessor._applyBillsAndRisks,
    BinanceCMFuturesTradeProcessor.allTradesOf at 1.
  cbn [BinanceCMFuturesTradeProcessor.closedTrades
       BinanceCMFuturesTradeProcessor.openPositions].
  rewrite map_app, cm_applyRisk_funding, <- map_app.
  f_equal.
  rewrite <- (map_id (JS.values (replaceValues _ _ _))).
  rewrite replaceValues_values.
  - apply firstn_skipn.
  - reflexivity.
  - rewrite length_skipn, applyBillsFirstMatch_length.
    unfold BinanceCMFuturesTradeProcessor.allTradesOf, JS.values.
    rewrite length_app, !length_map. lia.
Qed.

(** *** Every relevant bill, for every trade (OKX) *)

Section OkxFunding.
Import OkxUMFuturesTradeProcessor.

Lemma billsUnder_fold k bills m :
  billsUnder k
    (fold_left
       (fun m bill =>
          if String.eqb (b_type bill) "8" then
            match JS.get (b_instId bill) m with
            | None => JS.set (b_instId bill) [bill] m
            | Some l => JS.set (b_instId bill) (l ++ [bill])%list m
            end
          else m)
       bills m)
  = (billsUnder k m
     ++ filter (fun b => String.eqb (b_type b) "8" && String.eqb (b_instId b) k)
          bills)%list.
Proof.
  revert m. induction bills as [|b bills IH]; intros m; simpl.
  - rewrite app_nil_r. reflexivity.
  - rewrite IH. clear IH.
    destruct (String.eqb (b_type b) "8"); simpl; trivial.
    destruct (String.eqb_spec (b_instId b) k) as [->|Hne].
    + unfold billsUnder.
      destruct (JS.get k m) as [l|] eqn:Hget; rewrite get_set_same.
      * rewrite <- app_assoc. reflexivity.
      * reflexivity.
    + unfold billsUnder.
      destruct (JS.get (b_instId b) m) as [l|];
        rewrite get_set_other by congruence; reflexivity.
Qed.

Lemma billsUnder_index k bills :
  billsUnder k (indexBills bills)
  = filter (fun b => String.eqb (b_type b) "8" && String.eqb (b_instId b) k) bills.
Proof. unfold indexBills. rewrite billsUnder_fold. reflexivity. Qed.

Lemma applyFunding_creditBills idx t :
  applyFunding idx t = creditBills (billsUnder (symbol t) idx) t.
Proof.
  unfold applyFunding, billsUnder.
  destruct (JS.get (symbol t) idx); reflexivity.
Qed.

Lemma okxFunding_shift t bills acc :
  fold_left (okxFundingStep t) bills acc
  == acc + fold_left (okxFundingStep t) bills 0.
Proof.
  revert acc. induction bills as [|b bills IH]; intros acc; simpl.
  - ring.
  - rewrite (IH (okxFundingStep t acc b)), (IH (okxFundingStep t 0 b)).
    unfold okxFundingStep. destruct (_ && _); ring.
Qed.

Lemma creditBills_sum t bills t' :
  sameLife t' t ->
  totalFundingFee
    (creditBills
       (filter (fun b => String.eqb (b_type b) "8"
                         && String.eqb (b_instId b) (symbol t)) bills) t')
  == totalFundingFee t' + fold_left (okxFundingStep t) bills 0
  /\ sameLife
       (creditBills
          (filter (fun b => String.eqb (b_type b) "8"
                            && String.eqb (b_instId b) (symbol t)) bills) t') t.
Proof.
  revert t'. induction bills as [|b bills IH]; intros t' Hsame; simpl.
  - split; [ring | assumption].
  - unfold okxFundingStep at 2.
    destruct (String.eqb (b_type b) "8" && String.eqb (b_instId b) (symbol t));
      simpl.
    + destruct Hsame as (Hs & He & Hst & Hx).
      rewrite (isRelevant_same (b_ts b) t t') by assumption.
      destruct (isRelevant (b_ts b) t).
      * destruct (IH (set_rawBills (_rawBills
                        (set_totalFundingFee (totalFundingFee t' + b_balChg b) t')
                        ++ [b])
                       (set_totalFundingFee (totalFundingFee t' + b_balChg b) t')))
          as [Hsum Hlife].
        { repeat split; assumption. }
        split; [|exact Hlife].
        rewrite Hsum. trade_simpl.
        rewrite (okxFunding_shift t bills (0 + b_balChg b)). ring.
      * apply IH. repeat split; assumption.
    + apply IH. assumption.
Qed.

Lemma okx_applyRisk_funding positions open :
  map (fun b => totalFundingFee (OkxTradeBuilder.getTrade b))
    (JS.values (fold_left applyRisk positions open))
  = map (fun b => totalFundingFee (OkxTradeBuilder.getTrade b)) (JS.values open).
Proof.
  revert open. induction positions as [|p positions IH]; intros open; simpl; trivial.
  rewrite IH. unfold applyRisk.
  destruct (JS.get _ open) as [b|] eqn:Hget; trivial.
  eapply map_values_set; [exact Hget | reflexivity].
Qed.

Lemma okx_apply_allTrades st bills positions :
  map totalFundingFee (allTradesOf (applyBillsAndRisks st bills positions))
  = map (fun t => totalFundingFee (applyFunding (indexBills bills) t))
      (allTradesOf st).
Proof.
  unfold applyBillsAndRisks, allTradesOf.
  cbn [closedTrades openPositions].
  rewrite !map_app, !map_map.
  rewrite okx_applyRisk_funding.
  f_equal. unfold JS.values. rewrite !map_map. reflexivity.
Qed.

Lemma okx_applyFunding_sum bills t :
  totalFundingFee (applyFunding (indexBills bills) t)
  == totalFundingFee t + okxFundingOf bills t.
Proof.
  rewrite applyFunding_creditBills, billsUnder_index.
  apply (creditBills_sum t bills t). repeat split.
Qed.

End OkxFunding.

(** *** Finalization keeps the funding total *)

Lemma okx_finalize_funding t :
  totalFundingFee (OkxUMFuturesTradeProcessor.finalizeTrade t) = totalFundingFee t.
Proof. unfold OkxUMFuturesTradeProcessor.finalizeTrade. break_ifs; reflexivity. Qed.

Lemma um_finalize_funding t :
  totalFundingFee (BinanceUMFuturesTradeProcessor.finalizeTrade t) = totalFundingFee t.
Proof. unfold BinanceUMFuturesTradeProcessor.finalizeTrade. break_ifs; reflexivity. Qed.

Lemma cm_finalize_funding t :
  totalFundingFee (BinanceCMFuturesTradeProcessor.finalizeTrade t) = totalFundingFee t.
Proof. unfold BinanceCMFuturesTradeProcessor.finalizeTrade. break_ifs; reflexivity. Qed.

Lemma spot_finalize_funding t :
  totalFundingFee (BinanceSpotTradeProcessor.finalizeTrade t) = totalFundingFee t.
Proof. unfold BinanceSpotTradeProcessor.finalizeTrade. break_ifs; reflexivity. Qed.

Lemma margin_finalize_funding t :
  totalFundingFee (BinanceMarginTradeProcessor.finalizeTrade t) = totalFundingFee t.
Proof. unfold BinanceMarginTradeProcessor.finalizeTrade. break_ifs; reflexivity. Qed.

Lemma map_funding_finalize (f : StandardizedTrade -> StandardizedTrade) l :
  (forall t, totalFundingFee (f t) = totalFundingFee t) ->
  map totalFundingFee (map f l) = map totalFundingFee l.
Proof.
  intros H. rewrite map_map. apply map_ext. exact H.
Qed.

(** C4, counterexample.  Margin: a funding bill of the trade's instrument,
    dated after the entry of a trade that is still open, is not added to
    the trade.  Binance linear: with a long and a short of one instrument
    both matching a bill, only the first is credited. *)
Lemma funding_claim_fails_margin_and_linear :
  (exists t,
      BinanceMarginTradeProcessor.processAllData
        (firstn 1 marginFlipFills) [marginFundingBill] [] [] = [t]
      /\ billMatches marginFundingBill t = true
      /\ totalFundingFee t == 0
      /\ ~ b_balChg marginFundingBill == 0)
  /\ (exists long short,
         BinanceUMFuturesTradeProcessor.processAllData
           hedgedFills [marginFundingBill] [] [] = [long; short]
         /\ billMatches marginFundingBill long = true
         /\ billMatches marginFundingBill short = true
         /\ totalFundingFee long == -5
         /\ totalFundingFee short == 0).
Proof.
  split.
  - eexists. split; [vm_compute; reflexivity|].
    repeat (apply conj); try (vm_compute; reflexivity).
    vm_compute. discriminate.
  - eexists. eexists. split; [vm_compute; reflexivity|].
    repeat (apply conj); vm_compute; reflexivity.
Qed.

(** C4, as amended.  A funding bill qualifies for a trade when the
    instruments are equal, the bill is not older than the entry and the
    trade is open or the bill is not younger than the exit.
    - Binance linear and inverse ([FUNDING_FEE] bills): a bill is credited
      to the first qualifying trade of the output order and to no other;
      a bill that no trade qualifies for changes nothing; the funding
      totals returned are those of this pass over the bills.
    - OKX linear (bills of type ['8']): every trade receives the sum of
      all the bills that qualify for it.
    - Spot and margin read no bills: the funding total of every trade
      they return is zero. *)
Theorem funding_attribution_by_variant :
  (* first match wins, per bill *)
  (forall bill trades,
      forallb (fun t => negb (billMatches bill t)) trades = true ->
      creditFirstRelevant bill trades = trades)
  /\ (forall bill before t after,
      forallb (fun t => negb (billMatches bill t)) before = true ->
      billMatches bill t = true ->
      creditFirstRelevant bill (before ++ t :: after)
      = (before ++ creditTrade bill t :: after)%list
      /\ totalFundingFee (creditTrade bill t) == totalFundingFee t + b_balChg bill)
  /\ (forall fills bills instruments risks,
      map totalFundingFee
        (BinanceUMFuturesTradeProcessor.processAllData fills bills instruments risks)
      = map totalFundingFee
          (applyBillsFirstMatch bills
             (BinanceUMFuturesTradeProcessor.allTradesOf
                (BinanceUMFuturesTradeProcessor.processFills
                   (indexInstruments instruments)
                   (JS.sort BinanceUMFuturesTradeProcessor.compareFills fills)))))
  /\ (forall fills bills instruments risks,
      map totalFundingFee
        (BinanceCMFuturesTradeProcessor.processAllData fills bills instruments risks)
      = map totalFundingFee
          (applyBillsFirstMatch bills
             (BinanceCMFuturesTradeProcessor.allTradesOf
                (BinanceCMFuturesTradeProcessor._processFillsAndAggregateTrades
                   (indexInstruments instruments)
                   (JS.sort BinanceCMFuturesTradeProcessor.compareFills fills)))))
  (* every qualifying bill, per trade *)
  /\ (forall fills bills instruments positions,
      Forall2 (fun credited t => credited == totalFundingFee t + okxFundingOf bills t)
        (map totalFundingFee
           (OkxUMFuturesTradeProcessor.processAllData fills bills instruments positions))
        (OkxUMFuturesTradeProcessor.allTradesOf
           (OkxUMFuturesTradeProcessor.processFills
              (indexInstruments instruments)
              (JS.sort OkxUMFuturesTradeProcessor.compareFills fills))))
  (* no funding at all *)
  /\ (forall fills bills instruments risks,
      Forall noFunding
        (BinanceSpotTradeProcessor.processAllData fills bills instruments risks)
      /\ Forall noFunding
           (BinanceMarginTradeProcessor.processAllData fills bills instruments risks)).
Proof.
  split; [exact creditFirstRelevant_none|].
  split.
  { intros bill before t after Hb Ht. split.
    - apply creditFirstRelevant_first; assumption.
    - unfold creditTrade. trade_simpl. reflexivity. }
  split.
  { intros. unfold BinanceUMFuturesTradeProcessor.processAllData,
      BinanceUMFuturesTradeProcessor.finalizeMetrics.
    rewrite (map_funding_finalize _ _ um_finalize_funding).
    rewrite um_apply_allTrades. reflexivity. }
  split.
  { intros. unfold BinanceCMFuturesTradeProcessor.processAllData,
      BinanceCMFuturesTradeProcessor._finalizeTradeMetrics.
    rewrite (map_funding_finalize _ _ cm_finalize_funding).
    apply cm_apply_allTrades. }
  split.
  { intros. unfold OkxUMFuturesTradeProcessor.processAllData,
      OkxUMFuturesTradeProcessor.finalizeMetrics.
    rewrite (map_funding_finalize _ _ okx_finalize_funding).
    rewrite okx_apply_allTrades.
    induction (OkxUMFuturesTradeProcessor.allTradesOf _) as [|t l IH]; simpl;
      constructor; [apply okx_applyFunding_sum | exact IH]. }
  intros fills bills instruments risks. split.
  - apply Forall_map_intro. intros t Ht. unfold noFunding.
    rewrite spot_finalize_funding.
    pose proof (spot_fold_funding (indexInstruments instruments)
                  (JS.sort BinanceSpotTradeProcessor.compareFills fills)) as HF.
    rewrite Forall_forall in HF. apply HF. exact Ht.
  - apply Forall_map_intro. intros t Ht. unfold noFunding.
    rewrite margin_finalize_funding.
    pose proof (margin_fold_funding (indexInstruments instruments)
                  (JS.sort BinanceMarginTradeProcessor.compareFills fills)) as HF.
    rewrite Forall_forall in HF. apply HF. exact Ht.
Qed.

(** The first-match statement on the hedged account: the bill goes to the
    long, which comes first, and the short after it is left as it is. *)
Lemma funding_attribution_by_variant_witness :
  let trades :=
    BinanceUMFuturesTradeProcessor.allTradesOf
      (BinanceUMFuturesTradeProcessor.processFills [] hedgedFills) in
  creditFirstRelevant marginFundingBill trades
  = (creditTrade marginFundingBill (hd (mkTrade "" "" LONG OPEN_ 0 0 0 0 0 0 0 0 0 0 0 0
                                          [] [] [] [] 0 0 0 [] [] None "" "" "") trades)
     :: tl trades)%list
  /\ creditFirstRelevant (mkBill "ETHUSDT" "USDT" (-5) 1500 "FUNDING_FEE") trades
     = trades.
Proof.
  destruct funding_attribution_by_variant as (Hnone & Hfirst & _).
  cbv zeta.
  match goal with
  | |- context [BinanceUMFuturesTradeProcessor.allTradesOf ?st] =>
      let v := eval vm_compute in (BinanceUMFuturesTradeProcessor.allTradesOf st) in
      replace (BinanceUMFuturesTradeProcessor.allTradesOf st) with v
        by (vm_compute; reflexivity)
  end.
  split.
  - apply (Hfirst marginFundingBill []); vm_compute; reflexivity.
  - apply Hnone. vm_compute. reflexivity.
Defined.

(** ** Position-risk annotation *)

(** [currentNotionalValue] is kept by every assignment to another field. *)
Lemma notional_set_status v t :
  currentNotionalValue (set_status v t) = currentNotionalValue t.
Proof. reflexivity. Qed.

Lemma notional_set_exitTime v t :
  currentNotionalValue (set_exitTime v t) = currentNotionalValue t.
Proof. reflexivity. Qed.

Lemma notional_set_durationMs v t :
  currentNotionalValue (set_durationMs v t) = currentNotionalValue t.
Proof. reflexivity. Qed.

Lemma notional_set_totalSize v t :
  currentNotionalValue (set_totalSize v t) = currentNotionalValue t.
Proof. reflexivity. Qed.

Lemma notional_set_totalValue v t :
  currentNotionalValue (set_totalValue v t) = currentNotionalValue t.
Proof. reflexivity. Qed.

Lemma notional_set_averageEntryPrice v t :
  currentNotionalValue (set_averageEntryPrice v t) = currentNotionalValue t.
Proof. reflexivity. Qed.

Lemma notional_set_averageExitPrice v t :
  currentNotionalValue (set_averageExitPrice v t) = currentNotionalValue t.
Proof. reflexivity. Qed.

Lemma notional_set_realizedPnl v t :
  currentNotionalValue (set_realizedPnl v t) = currentNotionalValue t.
Proof. reflexivity. Qed.

Lemma notional_set_totalCommission v t :
  currentNotionalValue (set_totalCommission v t) = currentNotionalValue t.
Proof. reflexivity. Qed.

Lemma notional_set_totalFundingFee v t :
  currentNotionalValue (set_totalFundingFee v t) = currentNotionalValue t.
Proof. reflexivity. Qed.

Lemma notional_set_netPnl v t :
  currentNotionalValue (set_netPnl v t) = currentNotionalValue t.
Proof. reflexivity. Qed.

Lemma notional_set_pnlPercentage v t :
  currentNotionalValue (set_pnlPercentage v t) = currentNotionalValue t.
Proof. reflexivity. Qed.

Lemma notional_set_timeline v t :
  currentNotionalValue (set_timeline v t) = currentNotionalValue t.
Proof. reflexivity. Qed.

Lemma notional_set_tradeIds v t :
  currentNotionalValue (set_tradeIds v t) = currentNotionalValue t.
Proof. reflexivity. Qed.

Lemma notional_set_orderIds v t :
  currentNotionalValue (set_orderIds v t) = currentNotionalValue t.
Proof. reflexivity. Qed.

Lemma notional_set_currentPositionSize v t :
  currentNotionalValue (set_currentPositionSize v t) = currentNotionalValue t.
Proof. reflexivity. Qed.

Lemma notional_set_closingSizeAccumulator v t :
  currentNotionalValue (set_closingSizeAccumulator v t) = currentNotionalValue t.
Proof. reflexivity. Qed.

Lemma notional_set_closingValueAccumulator v t :
  currentNotionalValue (set_closingValueAccumulator v t) = currentNotionalValue t.
Proof. reflexivity. Qed.

Lemma notional_set_rawFills v t :
  currentNotionalValue (set_rawFills v t) = currentNotionalValue t.
Proof. reflexivity. Qed.

Lemma notional_set_rawBills v t :
  currentNotionalValue (set_rawBills v t) = currentNotionalValue t.
Proof. reflexivity. Qed.

Ltac notional_frame :=
  repeat progress rewrite
    ?notional_set_status,
    ?notional_set_exitTime,
    ?notional_set_durationMs,
    ?notional_set_totalSize,
    ?notional_set_totalValue,
    ?notional_set_averageEntryPrice,
    ?notional_set_averageExitPrice,
    ?notional_set_realizedPnl,
    ?notional_set_totalCommission,
    ?notional_set_totalFundingFee,
    ?notional_set_netPnl,
    ?notional_set_pnlPercentage,
    ?notional_set_timeline,
    ?notional_set_tradeIds,
    ?notional_set_orderIds,
    ?notional_set_currentPositionSize,
    ?notional_set_closingSizeAccumulator,
    ?notional_set_closingValueAccumulator,
    ?notional_set_rawFills,
    ?notional_set_rawBills.

Section UmNotional.
Import BinanceUMFuturesTradeProcessor.

Lemma binance_applyEvent_notional tr event isLong :
  currentNotionalValue (BinanceTradeBuilder.applyEvent tr event isLong)
  = currentNotionalValue tr.
Proof. unfold BinanceTradeBuilder.applyEvent. break_ifs; reflexivity. Qed.

Lemma binance_closeTrade_notional tr ts :
  currentNotionalValue (BinanceTradeBuilder.closeTrade tr ts)
  = currentNotionalValue tr.
Proof. unfold BinanceTradeBuilder.closeTrade. break_ifs; reflexivity. Qed.

Lemma um_addFill_notional b fill :
  currentNotionalValue (BinanceTradeBuilder.trade (BinanceTradeBuilder.addFill b fill))
  = currentNotionalValue (BinanceTradeBuilder.trade b).
Proof.
  unfold BinanceTradeBuilder.addFill.
  break_ifs;
    unfold BinanceTradeBuilder.with_trade, BinanceTradeBuilder.trade at 1;
    notional_frame;
    rewrite ?binance_closeTrade_notional; notional_frame;
    apply binance_applyEvent_notional.
Qed.

Lemma um_closeCheck_notional k B closed open :
  Forall noNotional closed ->
  Forall (fun b => noNotional (BinanceTradeBuilder.getTrade b)) (JS.values open) ->
  noNotional (BinanceTradeBuilder.getTrade B) ->
  umNoNotional (closeCheck k B (mkState closed (JS.set k B open))).
Proof.
  intros Hc Ho Hb. unfold closeCheck.
  destruct (BinanceTradeBuilder.isClosed B); split;
    cbn [closedTrades openPositions].
  - apply Forall_app. split; [assumption|]. constructor; [exact Hb | constructor].
  - apply Forall_values_delete, Forall_values_set; assumption.
  - assumption.
  - apply Forall_values_set; assumption.
Qed.

Lemma um_processFill_notional insts st fill :
  umNoNotional st -> umNoNotional (processFill insts st fill).
Proof.
  intros [Hc Ho]. unfold processFill.
  destruct (JS.get (positionKeyOf fill) (openPositions st)) as [b|] eqn:Hget.
  - apply um_closeCheck_notional; try assumption.
    unfold noNotional, BinanceTradeBuilder.getTrade.
    rewrite um_addFill_notional.
    exact (Forall_values_get _ _ _ _ Ho Hget).
  - destruct (negb (isOpeningFill fill)); [split; assumption|].
    apply um_closeCheck_notional; try assumption.
    unfold noNotional, BinanceTradeBuilder.getTrade, BinanceTradeBuilder.new.
    rewrite um_addFill_notional. reflexivity.
Qed.

Lemma um_fold_notional insts fills :
  Forall noNotional (allTradesOf (processFills insts fills)).
Proof.
  unfold allTradesOf, processFills.
  assert (H : umNoNotional (fold_left (processFill insts) fills (mkState [] []))).
  { apply fold_left_invariant.
    - split; constructor.
    - intros; apply um_processFill_notional; assumption. }
  destruct H as [Hc Ho]. apply Forall_app. split; [assumption|].
  apply Forall_map_intro. intros b Hb.
  rewrite Forall_forall in Ho. apply Ho. exact Hb.
Qed.

Lemma creditFirstRelevant_notional bill trades :
  Forall noNotional trades -> Forall noNotional (creditFirstRelevant bill trades).
Proof.
  induction 1 as [|t trades Ht Hts IH]; simpl; [constructor|].
  destruct (_ && _); constructor; assumption.
Qed.

Lemma applyBillsFirstMatch_notional bills trades :
  Forall noNotional trades -> Forall noNotional (applyBillsFirstMatch bills trades).
Proof.
  unfold applyBillsFirstMatch. revert trades.
  induction bills as [|b bills IH]; intros trades H; simpl; trivial.
  apply IH. destruct (String.eqb _ _); trivial.
  apply creditFirstRelevant_notional. exact H.
Qed.

Lemma um_finalize_notional t :
  currentNotionalValue (finalizeTrade t) = currentNotionalValue t.
Proof. unfold finalizeTrade. break_ifs; reflexivity. Qed.

End UmNotional.

(** C8, what the code does.  The Binance linear processor never sets
    [currentNotionalValue]: the body of its loop over the position risks
    is empty, so every trade it returns, open or closed, is without the
    annotation whatever the snapshots.  The Binance inverse processor
    looks the snapshot up under the lower-cased position side while the
    fold files the trade under the position side as received: an open
    [LONG] position is not annotated by its own [LONG] snapshot, and is
    when both are spelt [long].  The OKX processor lower-cases both and
    annotates the trade. *)
Theorem binance_risk_annotation_missing :
  (forall fills bills instruments risks,
      Forall noNotional
        (BinanceUMFuturesTradeProcessor.processAllData fills bills instruments risks))
  /\ (exists t,
        BinanceUMFuturesTradeProcessor.processAllData
          [openLongFill "BTCUSDT" "long"] [] [] [longRisk "BTCUSDT" "long"] = [t]
        /\ status t = OPEN_
        /\ currentNotionalValue t = None)
  /\ (exists t,
        BinanceCMFuturesTradeProcessor.processAllData
          [openLongFill "BTCUSD_PERP" "LONG"] [] [] [longRisk "BTCUSD_PERP" "LONG"]
        = [t]
        /\ status t = OPEN_
        /\ BinanceCMFuturesTradeProcessor.positionKeyOf (openLongFill "BTCUSD_PERP" "LONG")
           = r_symbol (longRisk "BTCUSD_PERP" "LONG") ++ "-"
             ++ r_positionSide (longRisk "BTCUSD_PERP" "LONG")
        /\ currentNotionalValue t = None)
  /\ (exists t,
        BinanceCMFuturesTradeProcessor.processAllData
          [openLongFill "BTCUSD_PERP" "long"] [] [] [longRisk "BTCUSD_PERP" "long"]
        = [t]
        /\ status t = OPEN_
        /\ currentNotionalValue t = Some 500)
  /\ (exists t,
        OkxUMFuturesTradeProcessor.processAllData
          [openLongFill "BTC-USDT-SWAP" "LONG"] [] []
          [mkPosition "BTC-USDT-SWAP" "LONG" 500]
        = [t]
        /\ status t = OPEN_
        /\ currentNotionalValue t = Some 500).
Proof.
  split.
  { intros fills bills instruments risks.
    unfold BinanceUMFuturesTradeProcessor.processAllData,
      BinanceUMFuturesTradeProcessor.finalizeMetrics.
    apply Forall_map_intro. intros t Ht. unfold noNotional.
    rewrite um_finalize_notional.
    rewrite um_apply_allTrades in Ht.
    pose proof (applyBillsFirstMatch_notional bills _
                  (um_fold_notional (indexInstruments instruments)
                     (JS.sort BinanceUMFuturesTradeProcessor.compareFills fills))) as HF.
    rewrite Forall_forall in HF. apply HF. exact Ht. }
  repeat split; eexists; (split; [vm_compute; reflexivity|]);
    repeat (apply conj); vm_compute; reflexivity.
Qed.
(** * Further properties *)

(** Splits on the tests of the goal, innermost first, simplifying the
    record projections between two splits. *)
Ltac step_ifs :=
  repeat (trade_simpl;
          match goal with
          | |- context [if ?c then _ else _] =>
              lazymatch c with
              | context [if _ then _ else _] => fail
              | _ => destruct c eqn:?
              end
          end).

Lemma PositionStatus_eqb_eq a b : PositionStatus_eqb a b = true <-> a = b.
Proof. destruct a, b; simpl; split; congruence. Qed.

(** ** The sort of the fills and of the events *)

Local Close Scope Q_scope.

Section SortFacts.
Context {A : Type} (cmp : A -> A -> Z).

Lemma insert_perm (x : A) (l : list A) :
  Permutation (JS.insert cmp x l) (x :: l).
Proof.
  induction l as [|y l IH]; simpl.
  - apply Permutation_refl.
  - destruct (cmp x y <=? 0).
    + apply Permutation_refl.
    + eapply perm_trans; [apply perm_skip, IH | apply perm_swap].
Qed.

Lemma sort_perm (l : list A) : Permutation (JS.sort cmp l) l.
Proof.
  induction l as [|x l IH]; simpl.
  - apply perm_nil.
  - eapply perm_trans; [apply insert_perm | apply perm_skip, IH].
Qed.

Lemma sort_length (l : list A) : length (JS.sort cmp l) = length l.
Proof. apply Permutation_length, sort_perm. Qed.

Lemma insert_in (x y : A) (l : list A) :
  In y (JS.insert cmp x l) -> y = x \/ In y l.
Proof.
  intros H. apply (Permutation_in _ (insert_perm x l)) in H.
  destruct H as [H|H]; auto.
Qed.

(** A relation that every comparison "not greater" implies is kept
    between each element and the ones after it. *)
Section Ordered.
Variable R : A -> A -> Prop.
Hypothesis cmp_le : forall a b, cmp a b <= 0 -> R a b.
Hypothesis cmp_gt : forall a b, 0 < cmp a b -> R b a.
Hypothesis R_trans : forall a b c, R a b -> R b c -> R a c.

Lemma insert_sorted (x : A) (l : list A) :
  StronglySorted R l -> StronglySorted R (JS.insert cmp x l).
Proof.
  induction l as [|y l IH]; intros Hs; simpl.
  - constructor; constructor.
  - inversion Hs as [|? ? Hs' Hy]; subst.
    destruct (Z.leb_spec (cmp x y) 0) as [Hle|Hgt].
    + constructor; [assumption|].
      constructor; [apply cmp_le; assumption|].
      rewrite Forall_forall in *. intros z Hz.
      eapply R_trans; [apply cmp_le; eassumption | auto].
    + constructor; [apply IH; assumption|].
      rewrite Forall_forall in *. intros z Hz.
      apply insert_in in Hz. destruct Hz as [->|Hz]; auto.
Qed.

Lemma sort_sorted (l : list A) : StronglySorted R (JS.sort cmp l).
Proof.
  induction l as [|x l IH]; simpl.
  - constructor.
  - apply insert_sorted, IH.
Qed.

End Ordered.

Lemma sorted_perm_unique (R : A -> A -> Prop) (l1 : list A) :
  forall l2,
  StronglySorted R l1 -> StronglySorted R l2 -> Permutation l1 l2 ->
  (forall a b, In a l1 -> In b l1 -> R a b -> R b a -> a = b) ->
  l1 = l2.
Proof.
  induction l1 as [|a l1 IH]; intros l2 H1 H2 Hp Hanti.
  - apply Permutation_nil in Hp. congruence.
  - destruct l2 as [|b l2].
    + apply Permutation_sym, Permutation_nil in Hp. discriminate.
    + inversion H1 as [|? ? H1' Ha]; subst.
      inversion H2 as [|? ? H2' Hb]; subst.
      rewrite Forall_forall in Ha, Hb.
      assert (Hab : a = b).
      { assert (Hin_a : In a (b :: l2))
          by (eapply Permutation_in; [exact Hp | left; reflexivity]).
        assert (Hin_b : In b (a :: l1))
          by (eapply Permutation_in;
              [apply Permutation_sym; exact Hp | left; reflexivity]).
        destruct Hin_a as [E|Hin_a]; [congruence|].
        destruct Hin_b as [E|Hin_b]; [congruence|].
        apply Hanti; [left; reflexivity | right; assumption | auto | auto]. }
      subst b. f_equal.
      apply IH; try assumption.
      * eapply Permutation_cons_inv; eassumption.
      * intros x y Hx Hy. apply Hanti; right; assumption.
Qed.

End SortFacts.

(** [localeCompare] is a total order on the code points. *)

Lemma ascii_compare_trans (a b c : ascii) :
  Ascii.compare a b = Lt -> Ascii.compare b c = Lt -> Ascii.compare a c = Lt.
Proof.
  unfold Ascii.compare. rewrite !N.compare_lt_iff. apply N.lt_trans.
Qed.

Lemma string_compare_trans (a : string) :
  forall b c,
  String.compare a b = Lt -> String.compare b c = Lt -> String.compare a c = Lt.
Proof.
  induction a as [|x a IH]; intros [|y b] [|z c]; simpl; try discriminate; auto.
  destruct (Ascii.compare x y) eqn:Exy; try discriminate;
    destruct (Ascii.compare y z) eqn:Eyz; try discriminate; intros H1 H2.
  - apply Ascii.compare_eq_iff in Exy, Eyz. subst.
    assert (E : Ascii.compare z z = Eq)
      by (unfold Ascii.compare; apply N.compare_refl).
    rewrite E. eapply IH; eassumption.
  - apply Ascii.compare_eq_iff in Exy. subst. rewrite Eyz. reflexivity.
  - apply Ascii.compare_eq_iff in Eyz. subst. rewrite Exy. reflexivity.
  - rewrite (ascii_compare_trans _ _ _ Exy Eyz). reflexivity.
Qed.

Lemma string_compare_refl (a : string) : String.compare a a = Eq.
Proof.
  induction a as [|x a IH]; simpl; [reflexivity|].
  assert (E : Ascii.compare x x = Eq)
    by (unfold Ascii.compare; apply N.compare_refl).
  rewrite E. exact IH.
Qed.

Lemma string_le_trans a b c : string_le a b -> string_le b c -> string_le a c.
Proof.
  unfold string_le. intros H1 H2.
  destruct (String.compare a b) eqn:Eab; [| |congruence].
  - apply String.compare_eq_iff in Eab. subst. assumption.
  - destruct (String.compare b c) eqn:Ebc; [| |congruence].
    + apply String.compare_eq_iff in Ebc. subst. rewrite Eab. discriminate.
    + rewrite (string_compare_trans _ _ _ Eab Ebc). discriminate.
Qed.

Lemma string_le_antisym a b : string_le a b -> string_le b a -> a = b.
Proof.
  unfold string_le. intros H1 H2. rewrite String.compare_antisym in H2.
  destruct (String.compare a b) eqn:E; simpl in H2; try congruence.
  apply String.compare_eq_iff. assumption.
Qed.

Lemma localeCompare_le a b : JS.localeCompare a b <= 0 <-> string_le a b.
Proof.
  unfold JS.localeCompare, string_le.
  destruct (String.compare a b); split; intros H; try lia; try discriminate;
    congruence.
Qed.

Lemma localeCompare_gt a b : 0 < JS.localeCompare a b -> string_le b a.
Proof.
  unfold JS.localeCompare, string_le. rewrite (String.compare_antisym b a).
  destruct (String.compare a b); simpl; intros H; try lia; discriminate.
Qed.

Lemma lex_le_trans ta sa tb sb tc sc :
  lex_le ta sa tb sb -> lex_le tb sb tc sc -> lex_le ta sa tc sc.
Proof.
  unfold lex_le. intros [H1|[H1 H1']] [H2|[H2 H2']]; try (left; lia).
  right. split; [lia | eapply string_le_trans; eassumption].
Qed.

Lemma lex_le_antisym ta sa tb sb :
  lex_le ta sa tb sb -> lex_le tb sb ta sa -> ta = tb /\ sa = sb.
Proof.
  unfold lex_le. intros [H1|[H1 H1']] [H2|[H2 H2']]; try lia.
  split; [assumption | apply string_le_antisym; assumption].
Qed.

(** The comparators of the processors and of the aggregator. *)

Lemma okx_compareFills_le a b :
  OkxUMFuturesTradeProcessor.compareFills a b <= 0 <-> fillOrder a b.
Proof.
  unfold OkxUMFuturesTradeProcessor.compareFills, fillOrder, lex_le.
  destruct (Z.eqb_spec (f_ts a - f_ts b) 0) as [E|E]; simpl.
  - rewrite localeCompare_le. split; [intros H; right; split; [lia|exact H]|].
    intros [H|[_ H]]; [lia | exact H].
  - split; [intros H; left; lia|]. intros [H|[H _]]; lia.
Qed.

Lemma okx_compareFills_gt a b :
  0 < OkxUMFuturesTradeProcessor.compareFills a b -> fillOrder b a.
Proof.
  unfold OkxUMFuturesTradeProcessor.compareFills, fillOrder, lex_le.
  destruct (Z.eqb_spec (f_ts a - f_ts b) 0) as [E|E]; simpl; intros H.
  - right. split; [lia | apply localeCompare_gt; exact H].
  - left. lia.
Qed.

Lemma fillOrder_trans a b c : fillOrder a b -> fillOrder b c -> fillOrder a c.
Proof. unfold fillOrder. apply lex_le_trans. Qed.

Lemma compareEvents_le a b :
  TimelineUtils.compareEvents a b <= 0 <-> eventOrder a b.
Proof.
  unfold TimelineUtils.compareEvents, eventOrder, lex_le.
  destruct (Z.eqb_spec (timestamp a) (timestamp b)) as [E|E]; simpl.
  - rewrite localeCompare_le. split; [intros H; right; split; [lia|exact H]|].
    intros [H|[_ H]]; [lia | exact H].
  - split; [intros H; left; lia|]. intros [H|[H _]]; lia.
Qed.

Lemma compareEvents_gt a b :
  0 < TimelineUtils.compareEvents a b -> eventOrder b a.
Proof.
  unfold TimelineUtils.compareEvents, eventOrder, lex_le.
  destruct (Z.eqb_spec (timestamp a) (timestamp b)) as [E|E]; simpl; intros H.
  - right. split; [lia | apply localeCompare_gt; exact H].
  - left. lia.
Qed.

Lemma eventOrder_trans a b c : eventOrder a b -> eventOrder b c -> eventOrder a c.
Proof. unfold eventOrder. apply lex_le_trans. Qed.

(** A sort by the difference of the timestamps. *)
Section SortByTime.
Variable cmp : RawFill -> RawFill -> Z.
Hypothesis cmp_ts : forall a b, cmp a b = f_ts a - f_ts b.

Lemma byTime_sorted fills : StronglySorted fillBefore (JS.sort cmp fills).
Proof.
  apply sort_sorted; unfold fillBefore; intros a b; try rewrite cmp_ts; lia.
Qed.

(** The sort is stable: the fills of one timestamp keep their order. *)
Lemma byTime_insert_stable ts x fills :
  filter (fun f => f_ts f =? ts) (JS.insert cmp x fills) =
  filter (fun f => f_ts f =? ts) (x :: fills).
Proof.
  induction fills as [|y l IH]; simpl; [reflexivity|].
  rewrite cmp_ts. destruct (Z.leb_spec (f_ts x - f_ts y) 0) as [H|H].
  - reflexivity.
  - simpl. rewrite IH. simpl.
    destruct (Z.eqb_spec (f_ts x) ts), (Z.eqb_spec (f_ts y) ts);
      try reflexivity; lia.
Qed.

Lemma byTime_stable ts fills :
  filter (fun f => f_ts f =? ts) (JS.sort cmp fills) =
  filter (fun f => f_ts f =? ts) fills.
Proof.
  induction fills as [|x l IH]; simpl; [reflexivity|].
  rewrite byTime_insert_stable. simpl. rewrite IH. reflexivity.
Qed.

Lemma byTime_sort_perm_eq fills fills' :
  Permutation fills fills' ->
  (forall a b, In a fills -> In b fills -> f_ts a = f_ts b -> a = b) ->
  JS.sort cmp fills = JS.sort cmp fills'.
Proof.
  intros Hp Hdistinct.
  apply (sorted_perm_unique fillBefore).
  - apply byTime_sorted.
  - apply byTime_sorted.
  - eapply perm_trans; [apply sort_perm|].
    eapply perm_trans; [exact Hp | apply Permutation_sym, sort_perm].
  - intros a b Ha Hb H1 H2. unfold fillBefore in *.
    apply Hdistinct; try lia;
      eapply Permutation_in; try eassumption; apply sort_perm.
Qed.

End SortByTime.

Lemma okx_sort_perm_eq fills fills' :
  Permutation fills fills' ->
  distinctFillKeys fills ->
  JS.sort OkxUMFuturesTradeProcessor.compareFills fills =
  JS.sort OkxUMFuturesTradeProcessor.compareFills fills'.
Proof.
  intros Hp Hdistinct.
  apply (sorted_perm_unique fillOrder).
  - apply sort_sorted;
      [apply okx_compareFills_le | apply okx_compareFills_gt | apply fillOrder_trans].
  - apply sort_sorted;
      [apply okx_compareFills_le | apply okx_compareFills_gt | apply fillOrder_trans].
  - eapply perm_trans; [apply sort_perm|].
    eapply perm_trans; [exact Hp | apply Permutation_sym, sort_perm].
  - intros a b Ha Hb H1 H2.
    destruct (lex_le_antisym _ _ _ _ H1 H2) as [Ets Eid].
    apply Hdistinct; try assumption;
      eapply Permutation_in; try eassumption; apply sort_perm.
Qed.

Lemma sorted_by_timestamp (l : list RawFill) :
  StronglySorted fillOrder l -> StronglySorted fillBefore l.
Proof.
  induction 1 as [|x l Hs IH Hx]; constructor; [exact IH|].
  eapply Forall_impl; [|exact Hx]. intros y Hy.
  unfold fillOrder, lex_le, fillBefore in *. destruct Hy as [H|[H _]]; lia.
Qed.

(** X1: whatever the order in which the fills arrive, each processor
    replays all of them, and only them, by non-decreasing timestamp; the
    Binance processors keep the fills of one timestamp in their order of
    arrival. *)
Theorem fills_replayed_by_timestamp (fills : list RawFill) :
  (Permutation (JS.sort OkxUMFuturesTradeProcessor.compareFills fills) fills
   /\ StronglySorted fillBefore
        (JS.sort OkxUMFuturesTradeProcessor.compareFills fills))
  /\ stableTimeSort BinanceUMFuturesTradeProcessor.compareFills fills
  /\ stableTimeSort BinanceCMFuturesTradeProcessor.compareFills fills
  /\ stableTimeSort BinanceSpotTradeProcessor.compareFills fills
  /\ stableTimeSort BinanceMarginTradeProcessor.compareFills fills.
Proof.
  assert (Hbin : forall cmp, (forall a b, cmp a b = f_ts a - f_ts b) ->
                 stableTimeSort cmp fills).
  { intros cmp Hts. unfold stableTimeSort.
    split; [apply sort_perm|]. split.
    - apply byTime_sorted. exact Hts.
    - intros ts. apply byTime_stable. exact Hts. }
  repeat (apply conj); try (apply Hbin; reflexivity).
  - apply sort_perm.
  - apply sorted_by_timestamp. apply sort_sorted;
      [apply okx_compareFills_le | apply okx_compareFills_gt | apply fillOrder_trans].
Qed.

(** X3: a Binance processor gives the same trades for any two orders of
    arrival of a batch of fills in which no two different fills share
    their timestamp. *)
Theorem binance_fill_order_irrelevant fills fills' bills insts risks :
  Permutation fills fills' ->
  (forall a b, In a fills -> In b fills -> f_ts a = f_ts b -> a = b) ->
  BinanceUMFuturesTradeProcessor.processAllData fills bills insts risks =
  BinanceUMFuturesTradeProcessor.processAllData fills' bills insts risks
  /\ BinanceCMFuturesTradeProcessor.processAllData fills bills insts risks =
     BinanceCMFuturesTradeProcessor.processAllData fills' bills insts risks
  /\ BinanceSpotTradeProcessor.processAllData fills bills insts risks =
     BinanceSpotTradeProcessor.processAllData fills' bills insts risks
  /\ BinanceMarginTradeProcessor.processAllData fills bills insts risks =
     BinanceMarginTradeProcessor.processAllData fills' bills insts risks.
Proof.
  intros Hp Hd.
  unfold BinanceUMFuturesTradeProcessor.processAllData,
    BinanceCMFuturesTradeProcessor.processAllData,
    BinanceSpotTradeProcessor.processAllData,
    BinanceMarginTradeProcessor.processAllData.
  rewrite (byTime_sort_perm_eq BinanceUMFuturesTradeProcessor.compareFills
             (fun _ _ => eq_refl) fills fills' Hp Hd).
  rewrite (byTime_sort_perm_eq BinanceCMFuturesTradeProcessor.compareFills
             (fun _ _ => eq_refl) fills fills' Hp Hd).
  rewrite (byTime_sort_perm_eq BinanceSpotTradeProcessor.compareFills
             (fun _ _ => eq_refl) fills fills' Hp Hd).
  rewrite (byTime_sort_perm_eq BinanceMarginTradeProcessor.compareFills
             (fun _ _ => eq_refl) fills fills' Hp Hd).
  repeat (apply conj); reflexivity.
Qed.

Lemma binance_fill_order_irrelevant_witness :
  let a := mkFill "BTCUSDT" "1" "o1" "buy" "long" 100 1 0 "USDT" 1000 in
  let b := mkFill "BTCUSDT" "2" "o2" "sell" "long" 110 1 0 "USDT" 2000 in
  BinanceSpotTradeProcessor.processAllData [b; a] [] [] [] =
  BinanceSpotTradeProcessor.processAllData [a; b] [] [] [].
Proof.
  intros a b.
  refine (proj1 (proj2 (proj2
    (binance_fill_order_irrelevant [b; a] [a; b] [] [] [] _ _)))).
  - apply perm_swap.
  - intros x y Hx Hy Hts.
    simpl in Hx, Hy.
    destruct Hx as [<-|[<-|[]]]; destruct Hy as [<-|[<-|[]]];
      try reflexivity; discriminate Hts.
Defined.




Local Open Scope Q_scope.
(** ** More on the maps *)

Section MapKeys.
Context {V : Type}.
Implicit Types (m : JS.map V) (k : string) (v : V).

Lemma delete_set_same k v m : JS.delete k (JS.set k v m) = JS.delete k m.
Proof.
  induction m as [|[k' v'] m IH]; simpl.
  - rewrite String.eqb_refl. reflexivity.
  - destruct (String.eqb k k') eqn:E; simpl; rewrite E.
    + reflexivity.
    + rewrite IH. reflexivity.
Qed.

Lemma get_none_keys k m : JS.get k m = None -> ~ In k (map fst m).
Proof.
  induction m as [|[k' v'] m IH]; simpl; [tauto|].
  destruct (String.eqb_spec k k') as [->|Hne]; [discriminate|].
  intros H [E|Hin]; [congruence | exact (IH H Hin)].
Qed.

Lemma keys_set k v m :
  map fst (JS.set k v m) =
    match JS.get k m with
    | Some _ => map fst m
    | None => (map fst m ++ [k])%list
    end.
Proof.
  induction m as [|[k' v'] m IH]; simpl; [reflexivity|].
  destruct (String.eqb k k'); simpl; [reflexivity|].
  rewrite IH. destruct (JS.get k m); reflexivity.
Qed.

Lemma keys_delete_in k k0 m : In k0 (map fst (JS.delete k m)) -> In k0 (map fst m).
Proof.
  induction m as [|[k' v'] m IH]; simpl; [tauto|].
  destruct (String.eqb k k'); simpl; [tauto|].
  intros [E|Hin]; [left; exact E | right; exact (IH Hin)].
Qed.

Lemma NoDup_keys_set k v m :
  NoDup (map fst m) -> NoDup (map fst (JS.set k v m)).
Proof.
  intros Hnd. rewrite keys_set.
  destruct (JS.get k m) eqn:Hget; [exact Hnd|].
  apply NoDup_app; [exact Hnd | constructor; [simpl; tauto | constructor] |].
  intros x Hx [<-|[]]. exact (get_none_keys _ _ Hget Hx).
Qed.

Lemma NoDup_keys_delete k m :
  NoDup (map fst m) -> NoDup (map fst (JS.delete k m)).
Proof.
  induction m as [|[k' v'] m IH]; simpl; [trivial|].
  intros Hnd. inversion Hnd as [|? ? Hnotin Hnd']; subst.
  destruct (String.eqb k k'); simpl; [exact Hnd'|].
  constructor; [|exact (IH Hnd')].
  intros Hin. apply Hnotin. eapply keys_delete_in; eassumption.
Qed.

End MapKeys.
(** ** The aggregation of a timeline *)

Lemma sumOf_app g l1 l2 : sumOf g (l1 ++ l2) == sumOf g l1 + sumOf g l2.
Proof.
  induction l1 as [|e l1 IH]; simpl.
  - lra.
  - rewrite IH. lra.
Qed.

Lemma sumFees_app l1 l2 : sumFees (l1 ++ l2) == sumFees l1 + sumFees l2.
Proof.
  induction l1 as [|f l1 IH]; simpl.
  - lra.
  - rewrite IH. lra.
Qed.

Lemma sumOf_perm g l1 l2 : Permutation l1 l2 -> sumOf g l1 == sumOf g l2.
Proof.
  induction 1; simpl; try lra.
Qed.

Lemma fold_left_sumOf (g : TimelineEvent -> Q) l a :
  fold_left (fun acc e => acc + g e) l a == a + sumOf g l.
Proof.
  revert a. induction l as [|e l IH]; intros a; simpl.
  - lra.
  - rewrite IH. lra.
Qed.

(** What a merged event keeps of its group, for both [mergeGroup] and
    [_mergeEvents]. *)

Lemma mergeGroup_size f rest :
  size (TimelineUtils.mergeGroup f rest) == sumOf size (f :: rest).
Proof.
  destruct rest as [|e rest]; [simpl; lra|].
  unfold TimelineUtils.mergeGroup. cbn [size].
  rewrite fold_left_sumOf. lra.
Qed.

Lemma mergeGroup_fee f rest :
  fee (TimelineUtils.mergeGroup f rest) == sumOf fee (f :: rest).
Proof.
  destruct rest as [|e rest]; [simpl; lra|].
  unfold TimelineUtils.mergeGroup. cbn [fee].
  rewrite fold_left_sumOf. lra.
Qed.

Lemma mergeGroup_timestamp f rest :
  timestamp (TimelineUtils.mergeGroup f rest) = timestamp f.
Proof. destruct rest; reflexivity. Qed.

Lemma mergeEvents_size f rest :
  size (BinanceTimeline._mergeEvents f rest) == sumOf size (f :: rest).
Proof.
  destruct rest as [|e rest]; [simpl; lra|].
  unfold BinanceTimeline._mergeEvents. cbn [size].
  rewrite fold_left_sumOf. lra.
Qed.

Lemma mergeEvents_fee f rest :
  fee (BinanceTimeline._mergeEvents f rest) == sumOf fee (f :: rest).
Proof.
  destruct rest as [|e rest]; [simpl; lra|].
  unfold BinanceTimeline._mergeEvents. cbn [fee].
  rewrite fold_left_sumOf. lra.
Qed.

Lemma mergeEvents_timestamp f rest :
  timestamp (BinanceTimeline._mergeEvents f rest) = timestamp f.
Proof. destruct rest; reflexivity. Qed.

(** The grouping loop, for any test and any merge: the two loops of the
    source satisfy the two equations below. *)
Section GroupLoop.
Variable can : TimelineEvent -> TimelineEvent -> bool.
Variable merge : TimelineEvent -> list TimelineEvent -> TimelineEvent.
Variable loop :
  list TimelineEvent -> TimelineEvent -> list TimelineEvent ->
  list TimelineEvent -> list TimelineEvent.
Hypothesis loop_nil :
  forall agg gf gr, loop agg gf gr [] = (agg ++ [merge gf gr])%list.
Hypothesis loop_cons :
  forall agg gf gr c evs,
    loop agg gf gr (c :: evs) =
      if can (last gr gf) c
      then loop agg gf (gr ++ [c])%list evs
      else loop (agg ++ [merge gf gr])%list c [] evs.

Section Sum.
Variable g : TimelineEvent -> Q.
Variable P : TimelineEvent -> Prop.
Hypothesis merge_sum :
  forall f rest, Forall P (f :: rest) -> g (merge f rest) == sumOf g (f :: rest).

Lemma loop_sum evs :
  forall agg gf gr,
  Forall P (gf :: gr) -> Forall P evs ->
  sumOf g (loop agg gf gr evs)
  == sumOf g agg + sumOf g (gf :: gr) + sumOf g evs.
Proof.
  induction evs as [|c evs IH]; intros agg gf gr Hg He.
  - rewrite loop_nil, sumOf_app. simpl. rewrite (merge_sum gf gr Hg).
    simpl. lra.
  - inversion He as [|? ? Hc He']; subst.
    rewrite loop_cons. destruct (can (last gr gf) c).
    + rewrite IH; try assumption.
      * simpl. rewrite sumOf_app. simpl. lra.
      * inversion Hg; subst. constructor; [assumption|].
        apply Forall_app. split; [assumption | constructor; [assumption|constructor]].
    + rewrite IH; try assumption.
      * rewrite sumOf_app. simpl. rewrite (merge_sum gf gr Hg). simpl. lra.
      * constructor; [assumption | constructor].
Qed.

End Sum.

Lemma loop_length evs :
  forall agg gf gr,
  (length agg < length (loop agg gf gr evs)
   /\ length (loop agg gf gr evs) <= length agg + 1 + length evs)%nat.
Proof.
  induction evs as [|c evs IH]; intros agg gf gr.
  - rewrite loop_nil, length_app. simpl. lia.
  - rewrite loop_cons. destruct (can (last gr gf) c).
    + specialize (IH agg gf (gr ++ [c])%list). simpl. lia.
    + specialize (IH (agg ++ [merge gf gr])%list c []).
      rewrite length_app in IH. simpl in *. lia.
Qed.

Hypothesis merge_timestamp :
  forall f rest, timestamp (merge f rest) = timestamp f.

Lemma loop_timestamps (R : Z -> Z -> Prop) evs :
  forall agg gf gr,
  StronglySorted R (map timestamp agg ++ timestamp gf :: map timestamp evs) ->
  StronglySorted R (map timestamp (loop agg gf gr evs)).
Proof.
  induction evs as [|c evs IH]; intros agg gf gr Hs.
  - rewrite loop_nil, map_app. simpl. rewrite merge_timestamp. exact Hs.
  - rewrite loop_cons. destruct (can (last gr gf) c).
    + apply IH. simpl in Hs.
      clear -Hs. induction (map timestamp agg) as [|x l IHl]; simpl in *.
      * inversion Hs as [|? ? Hs' Hx]; subst.
        inversion Hs' as [|? ? Hs'' Hc]; subst.
        inversion Hx; subst. constructor; assumption.
      * inversion Hs as [|? ? Hs' Hx]; subst.
        constructor; [apply IHl; assumption|].
        rewrite Forall_app in *. destruct Hx as [Hx1 Hx2].
        split; [assumption|].
        inversion Hx2 as [|? ? Hgf Hx3]; subst.
        inversion Hx3; subst. constructor; assumption.
    + apply IH. rewrite map_app. simpl. rewrite merge_timestamp.
      rewrite <- app_assoc. exact Hs.
Qed.

End GroupLoop.

Lemma sorted_events_timestamps l :
  StronglySorted eventOrder l -> StronglySorted Z.le (map timestamp l).
Proof.
  induction 1 as [|e l Hs IH Hall]; simpl; constructor; [assumption|].
  rewrite Forall_forall in *. intros z Hz.
  apply in_map_iff in Hz. destruct Hz as (e' & <- & Hin).
  specialize (Hall e' Hin). unfold eventOrder, lex_le in Hall.
  destruct Hall as [H|[H _]]; lia.
Qed.

Lemma sort_events_sorted evs :
  StronglySorted eventOrder (JS.sort TimelineUtils.compareEvents evs).
Proof.
  apply sort_sorted;
    [apply compareEvents_le | apply compareEvents_gt | apply eventOrder_trans].
Qed.

Lemma aggregateEventsWithin_sum (g : TimelineEvent -> Q) w evs :
  (forall f rest, g (TimelineUtils.mergeGroup f rest) == sumOf g (f :: rest)) ->
  sumOf g (TimelineUtils.aggregateEventsWithin w evs) == sumOf g evs.
Proof.
  intros Hg. unfold TimelineUtils.aggregateEventsWithin.
  destruct (length evs <? 2)%nat; [reflexivity|].
  pose proof (sort_perm TimelineUtils.compareEvents evs) as Hp.
  destruct (JS.sort TimelineUtils.compareEvents evs) as [|e0 sorted].
  - apply (sumOf_perm g) in Hp. exact Hp.
  - rewrite (loop_sum (TimelineUtils.canMerge w) TimelineUtils.mergeGroup
               (TimelineUtils.groupLoop w)
               ltac:(reflexivity) ltac:(reflexivity)
               g (fun _ => True) (fun f rest _ => Hg f rest));
      try (apply Forall_forall; trivial).
    rewrite <- (sumOf_perm g _ _ Hp). simpl. lra.
Qed.

Lemma aggregateTimelineEvents_sum (g : TimelineEvent -> Q) evs :
  (forall f rest, g (BinanceTimeline._mergeEvents f rest) == sumOf g (f :: rest)) ->
  sumOf g (BinanceTimeline._aggregateTimelineEvents evs) == sumOf g evs.
Proof.
  intros Hg. unfold BinanceTimeline._aggregateTimelineEvents.
  destruct evs as [|e0 [|e1 rest]]; try reflexivity.
  rewrite (loop_sum BinanceTimeline.canMerge BinanceTimeline._mergeEvents
             BinanceTimeline.groupLoop
             ltac:(reflexivity) ltac:(reflexivity)
             g (fun _ => True) (fun f rest _ => Hg f rest));
    try (apply Forall_forall; trivial).
  simpl. lra.
Qed.

(** X6: the aggregated timeline is never longer than the timeline and is
    empty only for an empty timeline; in [TimelineUtils] its events come
    by non-decreasing timestamp, whatever the order of the timeline. *)
Theorem aggregated_timeline_shape (w : Z) (evs : list TimelineEvent) :
  (Nat.min 1 (length evs)
     <= length (TimelineUtils.aggregateEventsWithin w evs) <= length evs)%nat
  /\ StronglySorted Z.le
       (map timestamp (TimelineUtils.aggregateEventsWithin w evs))
  /\ (Nat.min 1 (length evs)
       <= length (BinanceTimeline._aggregateTimelineEvents evs) <= length evs)%nat.
Proof.
  repeat (apply conj).
  - unfold TimelineUtils.aggregateEventsWithin.
    destruct (length evs <? 2)%nat; [lia|].
    rewrite <- (sort_length TimelineUtils.compareEvents evs).
    destruct (JS.sort TimelineUtils.compareEvents evs) as [|e0 sorted];
      [simpl; lia|].
    pose proof (loop_length (TimelineUtils.canMerge w) TimelineUtils.mergeGroup
                  (TimelineUtils.groupLoop w)
                  ltac:(reflexivity) ltac:(reflexivity) sorted [] e0 []) as H.
    simpl in *. lia.
  - unfold TimelineUtils.aggregateEventsWithin.
    destruct (length evs <? 2)%nat; [lia|].
    rewrite <- (sort_length TimelineUtils.compareEvents evs).
    destruct (JS.sort TimelineUtils.compareEvents evs) as [|e0 sorted];
      [simpl; lia|].
    pose proof (loop_length (TimelineUtils.canMerge w) TimelineUtils.mergeGroup
                  (TimelineUtils.groupLoop w)
                  ltac:(reflexivity) ltac:(reflexivity) sorted [] e0 []) as H.
    simpl in *. lia.
  - unfold TimelineUtils.aggregateEventsWithin.
    destruct (Nat.ltb_spec (length evs) 2) as [Hlen|_].
    { destruct evs as [|e0 [|e1 rest]]; simpl in *; try lia;
        repeat constructor. }
    pose proof (sort_events_sorted evs) as Hs.
    destruct (JS.sort TimelineUtils.compareEvents evs) as [|e0 sorted];
      [constructor|].
    apply (loop_timestamps (TimelineUtils.canMerge w) TimelineUtils.mergeGroup
             (TimelineUtils.groupLoop w)
             ltac:(reflexivity) ltac:(reflexivity) mergeGroup_timestamp).
    apply sorted_events_timestamps in Hs. exact Hs.
  - unfold BinanceTimeline._aggregateTimelineEvents.
    destruct evs as [|e0 [|e1 rest]]; try (simpl; lia).
    pose proof (loop_length BinanceTimeline.canMerge BinanceTimeline._mergeEvents
                  BinanceTimeline.groupLoop
                  ltac:(reflexivity) ltac:(reflexivity) (e1 :: rest) [] e0 []) as H.
    simpl in *. lia.
  - unfold BinanceTimeline._aggregateTimelineEvents.
    destruct evs as [|e0 [|e1 rest]]; try (simpl; lia).
    pose proof (loop_length BinanceTimeline.canMerge BinanceTimeline._mergeEvents
                  BinanceTimeline.groupLoop
                  ltac:(reflexivity) ltac:(reflexivity) (e1 :: rest) [] e0 []) as H.
    simpl in *. lia.
Qed.
(** ** The fold of a processor that keeps the trades themselves

    The spot and the inverse-futures processors run the same loop: skip
    the fill, or update the trade of its key, created if there is none,
    and close it when the fill brings it within the tolerance. *)

Section TradeFold.
Variable State : Type.
Variable mkS : list StandardizedTrade -> JS.map StandardizedTrade -> State.
Variable closedOf : State -> list StandardizedTrade.
Variable openOf : State -> JS.map StandardizedTrade.
Hypothesis closedOf_mk : forall c o, closedOf (mkS c o) = c.
Hypothesis openOf_mk : forall c o, openOf (mkS c o) = o.
Variable key : RawFill -> string.
Variable skip : RawFill -> bool.
Variable create : RawFill -> StandardizedTrade.
Variable update : StandardizedTrade -> RawFill -> StandardizedTrade.
Variable close : StandardizedTrade -> Z -> StandardizedTrade.
Variable step : State -> RawFill -> State.
Hypothesis step_eq :
  forall st fill,
    step st fill =
      match JS.get (key fill) (openOf st) with
      | None =>
          if skip fill then st
          else
            if closesNow (update (create fill) fill)
            then mkS (closedOf st
                      ++ [close (update (create fill) fill) (f_ts fill)])
                     (JS.delete (key fill)
                        (JS.set (key fill) (update (create fill) fill)
                           (openOf st)))
            else mkS (closedOf st)
                     (JS.set (key fill) (update (create fill) fill) (openOf st))
      | Some t =>
          if closesNow (update t fill)
          then mkS (closedOf st ++ [close (update t fill) (f_ts fill)])
                   (JS.delete (key fill)
                      (JS.set (key fill) (update t fill) (openOf st)))
          else mkS (closedOf st) (JS.set (key fill) (update t fill) (openOf st))
      end.

Lemma trades_step_keys st fill :
  NoDup (map fst (openOf st)) -> NoDup (map fst (openOf (step st fill))).
Proof.
  intros Hnd. rewrite step_eq.
  destruct (JS.get (key fill) (openOf st)) as [t|].
  - destruct (closesNow _); rewrite openOf_mk.
    + apply NoDup_keys_delete, NoDup_keys_set, Hnd.
    + apply NoDup_keys_set, Hnd.
  - destruct (skip fill); [exact Hnd|].
    destruct (closesNow _); rewrite openOf_mk.
    + apply NoDup_keys_delete, NoDup_keys_set, Hnd.
    + apply NoDup_keys_set, Hnd.
Qed.

Lemma trades_fold_keys fills :
  forall st, NoDup (map fst (openOf st)) ->
  NoDup (map fst (openOf (fold_left step fills st))).
Proof.
  induction fills as [|fill rest IH]; intros st Hnd; simpl; [exact Hnd|].
  apply IH, trades_step_keys, Hnd.
Qed.

Variable OK : list RawFill -> Prop.
Variable I : list RawFill -> StandardizedTrade -> Prop.
Variable J : StandardizedTrade -> Prop.
Hypothesis OK_tail : forall fill rest, OK (fill :: rest) -> OK rest.
Hypothesis I_skip :
  forall fill rest t, OK (fill :: rest) -> I (fill :: rest) t -> I rest t.
Hypothesis I_new :
  forall fill rest, OK (fill :: rest) -> skip fill = false ->
    I (fill :: rest) (create fill).
Hypothesis I_update :
  forall fill rest t, OK (fill :: rest) -> I (fill :: rest) t ->
    closesNow (update t fill) = false -> I rest (update t fill).
Hypothesis J_close :
  forall fill rest t, OK (fill :: rest) -> I (fill :: rest) t ->
    closesNow (update t fill) = true -> J (close (update t fill) (f_ts fill)).

Lemma trades_update_invariant fill rest t st :
  OK (fill :: rest) -> I (fill :: rest) t ->
  Forall (I rest) (JS.values (openOf st)) -> Forall J (closedOf st) ->
  let st' :=
    if closesNow (update t fill)
    then mkS (closedOf st ++ [close (update t fill) (f_ts fill)])
             (JS.delete (key fill) (JS.set (key fill) (update t fill) (openOf st)))
    else mkS (closedOf st) (JS.set (key fill) (update t fill) (openOf st)) in
  tradesInvariant (I rest) J (closedOf st') (openOf st').
Proof.
  intros Hok Ht Hopen Hclosed. cbv zeta.
  destruct (closesNow (update t fill)) eqn:Hc;
    unfold tradesInvariant; rewrite closedOf_mk, openOf_mk.
  - split.
    + rewrite delete_set_same. apply Forall_values_delete. exact Hopen.
    + apply Forall_app. split; [exact Hclosed|].
      constructor; [|constructor]. apply (J_close fill rest t); assumption.
  - split; [|exact Hclosed].
    apply Forall_values_set; [exact Hopen|]. apply I_update; assumption.
Qed.

Lemma trades_step_invariant fill rest st :
  OK (fill :: rest) ->
  tradesInvariant (I (fill :: rest)) J (closedOf st) (openOf st) ->
  tradesInvariant (I rest) J (closedOf (step st fill)) (openOf (step st fill)).
Proof.
  intros Hok [Hopen Hclosed].
  assert (Hopen' : Forall (I rest) (JS.values (openOf st))).
  { eapply Forall_impl; [|exact Hopen]. intros t Ht.
    eapply I_skip; eassumption. }
  rewrite step_eq.
  destruct (JS.get (key fill) (openOf st)) as [t|] eqn:Hget.
  - apply (trades_update_invariant fill rest t st); auto.
    exact (Forall_values_get _ _ _ _ Hopen Hget).
  - destruct (skip fill) eqn:Hskip.
    + split; assumption.
    + apply (trades_update_invariant fill rest (create fill) st); auto.
Qed.

Lemma trades_fold_invariant fills :
  forall st, OK fills ->
  tradesInvariant (I fills) J (closedOf st) (openOf st) ->
  tradesInvariant (I []) J (closedOf (fold_left step fills st))
    (openOf (fold_left step fills st)).
Proof.
  induction fills as [|fill rest IH]; intros st Hok Hinv; simpl.
  - exact Hinv.
  - apply IH; [eapply OK_tail; eassumption|].
    apply trades_step_invariant; assumption.
Qed.

End TradeFold.

(** ** The fold of a processor that keeps builders

    The two linear-futures processors run the same loop: skip the fill,
    or add it to the builder of its key, created if there is none, and
    move the trade to the closed ones when the builder says it is
    closed. *)

Section BuilderFold.
Variable State B : Type.
Variable mkS : list StandardizedTrade -> JS.map B -> State.
Variable closedOf : State -> list StandardizedTrade.
Variable openOf : State -> JS.map B.
Hypothesis closedOf_mk : forall c o, closedOf (mkS c o) = c.
Hypothesis openOf_mk : forall c o, openOf (mkS c o) = o.
Variable tradeOf : B -> StandardizedTrade.
Variable isClosed : B -> bool.
Variable key : RawFill -> string.
Variable skip : RawFill -> bool.
Variable init : RawFill -> B.
Variable addFill : B -> RawFill -> B.
Variable step : State -> RawFill -> State.
Hypothesis step_eq :
  forall st fill,
    step st fill =
      match JS.get (key fill) (openOf st) with
      | None =>
          if skip fill then st
          else
            if isClosed (addFill (init fill) fill)
            then mkS (closedOf st ++ [tradeOf (addFill (init fill) fill)])
                     (JS.delete (key fill)
                        (JS.set (key fill) (addFill (init fill) fill) (openOf st)))
            else mkS (closedOf st)
                     (JS.set (key fill) (addFill (init fill) fill) (openOf st))
      | Some b =>
          if isClosed (addFill b fill)
          then mkS (closedOf st ++ [tradeOf (addFill b fill)])
                   (JS.delete (key fill)
                      (JS.set (key fill) (addFill b fill) (openOf st)))
          else mkS (closedOf st) (JS.set (key fill) (addFill b fill) (openOf st))
      end.

Lemma builders_step_keys st fill :
  NoDup (map fst (openOf st)) -> NoDup (map fst (openOf (step st fill))).
Proof.
  intros Hnd. rewrite step_eq.
  destruct (JS.get (key fill) (openOf st)) as [t|].
  - destruct (isClosed _); rewrite openOf_mk.
    + apply NoDup_keys_delete, NoDup_keys_set, Hnd.
    + apply NoDup_keys_set, Hnd.
  - destruct (skip fill); [exact Hnd|].
    destruct (isClosed _); rewrite openOf_mk.
    + apply NoDup_keys_delete, NoDup_keys_set, Hnd.
    + apply NoDup_keys_set, Hnd.
Qed.

Lemma builders_fold_keys fills :
  forall st, NoDup (map fst (openOf st)) ->
  NoDup (map fst (openOf (fold_left step fills st))).
Proof.
  induction fills as [|fill rest IH]; intros st Hnd; simpl; [exact Hnd|].
  apply IH, builders_step_keys, Hnd.
Qed.

Variable OK : list RawFill -> Prop.
Variable I : list RawFill -> B -> Prop.
Variable J : StandardizedTrade -> Prop.
Hypothesis OK_tail : forall fill rest, OK (fill :: rest) -> OK rest.
Hypothesis I_skip :
  forall fill rest b, OK (fill :: rest) -> I (fill :: rest) b -> I rest b.
Hypothesis I_first :
  forall fill rest, OK (fill :: rest) -> skip fill = false ->
    I rest (addFill (init fill) fill).
Hypothesis I_add :
  forall fill rest b, OK (fill :: rest) -> I (fill :: rest) b ->
    isClosed b = false -> I rest (addFill b fill).
Hypothesis J_close :
  forall rest b, I rest b -> isClosed b = true -> J (tradeOf b).

Lemma builders_add_invariant fill rest b st :
  I rest (addFill b fill) ->
  Forall (fun b => I rest b /\ isClosed b = false) (JS.values (openOf st)) ->
  Forall J (closedOf st) ->
  let st' :=
    if isClosed (addFill b fill)
    then mkS (closedOf st ++ [tradeOf (addFill b fill)])
             (JS.delete (key fill) (JS.set (key fill) (addFill b fill) (openOf st)))
    else mkS (closedOf st) (JS.set (key fill) (addFill b fill) (openOf st)) in
  buildersInvariant isClosed (I rest) J (closedOf st') (openOf st').
Proof.
  intros Hb' Hopen Hclosed. cbv zeta.
  destruct (isClosed (addFill b fill)) eqn:Hc;
    unfold buildersInvariant; rewrite closedOf_mk, openOf_mk.
  - split.
    + rewrite delete_set_same. apply Forall_values_delete. exact Hopen.
    + apply Forall_app. split; [exact Hclosed|].
      constructor; [|constructor]. eapply J_close; eassumption.
  - split; [|exact Hclosed].
    apply Forall_values_set; [exact Hopen | split; assumption].
Qed.

Lemma builders_step_invariant fill rest st :
  OK (fill :: rest) ->
  buildersInvariant isClosed (I (fill :: rest)) J (closedOf st) (openOf st) ->
  buildersInvariant isClosed (I rest) J
    (closedOf (step st fill)) (openOf (step st fill)).
Proof.
  intros Hok [Hopen Hclosed].
  assert (Hopen' : Forall (fun b => I rest b /\ isClosed b = false)
                     (JS.values (openOf st))).
  { eapply Forall_impl; [|exact Hopen]. intros b [Hb Hc].
    split; [eapply I_skip; eassumption | exact Hc]. }
  rewrite step_eq.
  destruct (JS.get (key fill) (openOf st)) as [b|] eqn:Hget.
  - destruct (Forall_values_get _ _ _ _ Hopen Hget) as [Hb Hc].
    apply (builders_add_invariant fill rest b st);
      [apply I_add|..]; assumption.
  - destruct (skip fill) eqn:Hskip.
    + split; assumption.
    + apply (builders_add_invariant fill rest (init fill) st);
        [apply I_first|..]; assumption.
Qed.

Lemma builders_fold_from_first fills :
  forall st, OK fills ->
  buildersInvariant isClosed (I fills) J (closedOf st) (openOf st) ->
  buildersInvariant isClosed (I []) J
    (closedOf (fold_left step fills st)) (openOf (fold_left step fills st)).
Proof.
  induction fills as [|fill rest IH]; intros st Hok Hinv; simpl.
  - exact Hinv.
  - apply IH; [eapply OK_tail; eassumption|].
    apply builders_step_invariant; assumption.
Qed.

End BuilderFold.

(** The same, with the invariant stated of the builder before its first
    fill. *)
Lemma builders_fold_invariant (State B : Type)
    (mkS : list StandardizedTrade -> JS.map B -> State)
    (closedOf : State -> list StandardizedTrade) (openOf : State -> JS.map B)
    (closedOf_mk : forall c o, closedOf (mkS c o) = c)
    (openOf_mk : forall c o, openOf (mkS c o) = o)
    (tradeOf : B -> StandardizedTrade) (isClosed : B -> bool)
    (key : RawFill -> string) (skip : RawFill -> bool) (init : RawFill -> B)
    (addFill : B -> RawFill -> B) (step : State -> RawFill -> State)
    (step_eq :
       forall st fill,
         step st fill =
           match JS.get (key fill) (openOf st) with
           | None =>
               if skip fill then st
               else
                 if isClosed (addFill (init fill) fill)
                 then mkS (closedOf st ++ [tradeOf (addFill (init fill) fill)])%list
                          (JS.delete (key fill)
                             (JS.set (key fill) (addFill (init fill) fill)
                                (openOf st)))
                 else mkS (closedOf st)
                          (JS.set (key fill) (addFill (init fill) fill)
                             (openOf st))
           | Some b =>
               if isClosed (addFill b fill)
               then mkS (closedOf st ++ [tradeOf (addFill b fill)])%list
                        (JS.delete (key fill)
                           (JS.set (key fill) (addFill b fill) (openOf st)))
               else mkS (closedOf st)
                        (JS.set (key fill) (addFill b fill) (openOf st))
           end)
    (OK : list RawFill -> Prop) (I : list RawFill -> B -> Prop)
    (J : StandardizedTrade -> Prop) :
  (forall fill rest, OK (fill :: rest) -> OK rest) ->
  (forall fill rest b, OK (fill :: rest) -> I (fill :: rest) b -> I rest b) ->
  (forall fill rest, OK (fill :: rest) -> skip fill = false ->
     I (fill :: rest) (init fill) /\ isClosed (init fill) = false) ->
  (forall fill rest b, OK (fill :: rest) -> I (fill :: rest) b ->
     isClosed b = false -> I rest (addFill b fill)) ->
  (forall rest b, I rest b -> isClosed b = true -> J (tradeOf b)) ->
  forall fills st, OK fills ->
  buildersInvariant isClosed (I fills) J (closedOf st) (openOf st) ->
  buildersInvariant isClosed (I []) J
    (closedOf (fold_left step fills st)) (openOf (fold_left step fills st)).
Proof.
  intros Htail Hskip Hinit Hadd Hclose.
  apply (builders_fold_from_first State B mkS closedOf openOf
           closedOf_mk openOf_mk tradeOf isClosed key skip init addFill step
           step_eq OK I J); try assumption.
  intros fill rest Hok Hs. destruct (Hinit fill rest Hok Hs) as [Hi Hc].
  apply Hadd; assumption.
Qed.

Lemma byTime_fills_sorted (cmp : RawFill -> RawFill -> Z) fills :
  (forall a b, cmp a b = (f_ts a - f_ts b)%Z) ->
  StronglySorted fillBefore (JS.sort cmp fills).
Proof. intros H. apply byTime_sorted. exact H. Qed.

Lemma lastIsReduceOrClose_snoc tl e :
  lastIsReduceOrClose (tl ++ [e]) =
    Action_eqb (action e) REDUCE || Action_eqb (action e) CLOSE.
Proof. unfold lastIsReduceOrClose. rewrite rev_app_distr. reflexivity. Qed.

(** The books of the trades of these processors, from the equations of
    the fields that their [_updateTradeWithFill] and [_closeTrade]
    satisfy. *)

Section TradeBooks.
Variable update : StandardizedTrade -> RawFill -> StandardizedTrade.
Variable close : StandardizedTrade -> Z -> StandardizedTrade.
Variable increases : StandardizedTrade -> RawFill -> bool.
Variable event : StandardizedTrade -> RawFill -> TimelineEvent.
Hypothesis update_cur :
  forall t f, _currentPositionSize (update t f) =
    if increases t f then _currentPositionSize t + f_fillSz f
    else if Qle_bool (spotReduced t f) FLOATING_POINT_TOLERANCE
         then 0 else spotReduced t f.
Hypothesis update_timeline :
  forall t f, timeline (update t f) = (timeline t ++ [event t f])%list.
Hypothesis event_fee : forall t f, fee (event t f) = f_fee f.
Hypothesis event_reduces :
  forall t f,
    Action_eqb (action (event t f)) REDUCE
    || Action_eqb (action (event t f)) CLOSE = negb (increases t f).
Hypothesis update_status : forall t f, status (update t f) = status t.
Hypothesis update_entryTime : forall t f, entryTime (update t f) = entryTime t.
Hypothesis update_exitTime : forall t f, exitTime (update t f) = exitTime t.
Hypothesis update_durationMs : forall t f, durationMs (update t f) = durationMs t.
Hypothesis update_totalSize :
  forall t f, totalSize (update t f) =
    if increases t f then totalSize t + f_fillSz f else totalSize t.
Hypothesis update_closingSize :
  forall t f, _closingSizeAccumulator (update t f) =
    if increases t f then _closingSizeAccumulator t
    else _closingSizeAccumulator t + Qmin (f_fillSz f) (_currentPositionSize t).
Hypothesis update_commission :
  forall t f, totalCommission (update t f) = totalCommission t + f_fee f.
Hypothesis update_rawFills :
  forall t f, _rawFills (update t f) = (_rawFills t ++ [f])%list.
Hypothesis close_books :
  forall t ts,
    status t = OPEN_ -> (entryTime t <= ts)%Z ->
    _currentPositionSize t = 0 ->
    totalSize t - _closingSizeAccumulator t <= FLOATING_POINT_TOLERANCE ->
    closedBooks (close t ts).
Hypothesis close_feeBooks :
  forall s t ts, feeBooks s t -> feeBooks s (close t ts).

Lemma books_closesNow t f :
  closesNow (update t f) =
    negb (increases t f)
    && Qle_bool (spotReduced t f) FLOATING_POINT_TOLERANCE.
Proof.
  unfold closesNow.
  rewrite update_cur, update_timeline, lastIsReduceOrClose_snoc, event_reduces.
  destruct (increases t f); simpl.
  - apply andb_false_r.
  - destruct (Qle_bool (spotReduced t f) FLOATING_POINT_TOLERANCE) eqn:E;
      simpl; [reflexivity|]. rewrite E. reflexivity.
Qed.

Lemma books_step_open fill rest t :
  binanceOpenInvariant (fill :: rest) t ->
  closesNow (update t fill) = false ->
  binanceOpenInvariant rest (update t fill).
Proof.
  intros (Htime & (Hst & Hexit & Hdur & Hcur) & (Hfee1 & Hfee2)) Hc.
  inversion Htime as [|? ? Hentry Htime']; subst.
  rewrite books_closesNow in Hc.
  unfold binanceOpenInvariant, openBooks, feeBooks.
  rewrite update_entryTime, update_status, update_exitTime,
    update_durationMs, update_cur, update_totalSize,
    update_closingSize, update_commission, update_timeline,
    update_rawFills.
  rewrite sumOf_app, sumFees_app. cbn [sumOf sumFees fold_right].
  rewrite event_fee.
  repeat (apply conj); try assumption; try lra.
  destruct (increases t fill); simpl in Hc.
  - lra.
  - rewrite Hc. unfold spotReduced. lra.
Qed.

Lemma books_step_close fill rest t :
  binanceOpenInvariant (fill :: rest) t ->
  closesNow (update t fill) = true ->
  closedBooks (close (update t fill) (f_ts fill))
  /\ feeBooks 1 (close (update t fill) (f_ts fill)).
Proof.
  intros (Htime & (Hst & Hexit & Hdur & Hcur) & (Hfee1 & Hfee2)) Hc.
  inversion Htime as [|? ? Hentry Htime']; subst.
  rewrite books_closesNow in Hc.
  apply andb_true_iff in Hc. destruct Hc as [Hsell Hclose].
  apply negb_true_iff in Hsell.
  split.
  - apply close_books.
    + rewrite update_status. exact Hst.
    + rewrite update_entryTime. exact Hentry.
    + rewrite update_cur, Hsell, Hclose. reflexivity.
    + rewrite update_totalSize, update_closingSize, Hsell.
      apply Qle_bool_iff in Hclose. unfold spotReduced in Hclose. lra.
  - apply close_feeBooks. unfold feeBooks.
    rewrite update_commission, update_timeline, update_rawFills.
    rewrite sumOf_app, sumFees_app. cbn [sumOf sumFees fold_right].
    rewrite event_fee. split; lra.
Qed.

End TradeBooks.

(** ** The OKX builder and processor *)

(** *** The fields of a trade after [updateState] and [addFill] *)

Section OkxFields.
Import OkxTradeBuilder.

Ltac okx_update b ev :=
  unfold closesBy, reducedBy, isIncreaseAction;
  destruct b as [tr cv inv]; destruct tr;
  unfold updateState;
  destruct (Action_eqb (action ev) OPEN || Action_eqb (action ev) ADD);
  cbv beta iota zeta delta [trade contractValue isInverse with_trade];
  step_ifs; trade_simpl; reflexivity.

Lemma okx_update_cur b ev :
  _currentPositionSize (fst (updateState b ev)) =
    if isIncreaseAction ev then _currentPositionSize (trade b) + size ev
    else if closesBy ev (trade b) then 0 else reducedBy ev (trade b).
Proof. okx_update b ev. Qed.

Lemma okx_update_status b ev :
  status (fst (updateState b ev)) =
    if isIncreaseAction ev then status (trade b)
    else if closesBy ev (trade b) then CLOSED else status (trade b).
Proof. okx_update b ev. Qed.

Lemma okx_update_exitTime b ev :
  exitTime (fst (updateState b ev)) =
    if isIncreaseAction ev then exitTime (trade b)
    else if closesBy ev (trade b) then timestamp ev else exitTime (trade b).
Proof. okx_update b ev. Qed.

Lemma okx_update_durationMs b ev :
  durationMs (fst (updateState b ev)) =
    if isIncreaseAction ev then durationMs (trade b)
    else if closesBy ev (trade b) then (timestamp ev - entryTime (trade b))%Z
         else durationMs (trade b).
Proof. okx_update b ev. Qed.

Lemma okx_update_entryTime b ev :
  entryTime (fst (updateState b ev)) = entryTime (trade b).
Proof. okx_update b ev. Qed.

Lemma okx_update_commission b ev :
  totalCommission (fst (updateState b ev)) = totalCommission (trade b) + fee ev.
Proof. okx_update b ev. Qed.

Lemma okx_update_symbol b ev :
  symbol (fst (updateState b ev)) = symbol (trade b).
Proof. okx_update b ev. Qed.

Lemma okx_update_direction b ev :
  direction (fst (updateState b ev)) = direction (trade b).
Proof. okx_update b ev. Qed.

Lemma okx_update_timeline b ev :
  timeline (fst (updateState b ev)) = timeline (trade b).
Proof. okx_update b ev. Qed.

Lemma okx_update_rawFills b ev :
  _rawFills (fst (updateState b ev)) = _rawFills (trade b).
Proof. okx_update b ev. Qed.

Lemma okx_update_notional b ev :
  currentNotionalValue (fst (updateState b ev)) = currentNotionalValue (trade b).
Proof. okx_update b ev. Qed.

Lemma okx_update_totalSize b ev :
  totalSize (fst (updateState b ev)) =
    if isIncreaseAction ev then totalSize (trade b) + size ev
    else totalSize (trade b).
Proof. okx_update b ev. Qed.

Lemma okx_update_closingSize b ev :
  _closingSizeAccumulator (fst (updateState b ev)) =
    if isIncreaseAction ev then _closingSizeAccumulator (trade b)
    else _closingSizeAccumulator (trade b)
         + Qmin (size ev) (_currentPositionSize (trade b)).
Proof. okx_update b ev. Qed.

Lemma okx_update_event_fee b ev : fee (snd (updateState b ev)) = fee ev.
Proof. okx_update b ev. Qed.

(** [addFill] in terms of [updateState]. *)
Lemma okx_addFill_trade b fill :
  trade (addFill b fill) =
    let r := updateState b (okxEvent b fill) in
    let tr := set_timeline (timeline (fst r) ++ [snd r]) (fst r) in
    let tr := set_tradeIds (tradeIds tr ++ [f_tradeId fill]) tr in
    let tr :=
      if negb (JS.mem (f_ordId fill) (orderIds tr))
      then set_orderIds (orderIds tr ++ [f_ordId fill]) tr
      else tr in
    set_rawFills (_rawFills tr ++ [fill]) tr.
Proof.
  unfold addFill, okxEvent.
  destruct (updateState b _) as [tr ev]. reflexivity.
Qed.

Ltac okx_add L :=
  rewrite okx_addFill_trade; cbv zeta;
  match goal with
  | |- context [if ?c then _ else _] => destruct c
  end;
  trade_simpl; rewrite ?L; reflexivity.

Lemma okx_addFill_cur b fill :
  _currentPositionSize (trade (addFill b fill)) =
    if isIncreaseAction (okxEvent b fill)
    then _currentPositionSize (trade b) + size (okxEvent b fill)
    else if closesBy (okxEvent b fill) (trade b) then 0
         else reducedBy (okxEvent b fill) (trade b).
Proof. okx_add okx_update_cur. Qed.

Lemma okx_addFill_status b fill :
  status (trade (addFill b fill)) =
    if isIncreaseAction (okxEvent b fill) then status (trade b)
    else if closesBy (okxEvent b fill) (trade b) then CLOSED
         else status (trade b).
Proof. okx_add okx_update_status. Qed.

Lemma okx_addFill_exitTime b fill :
  exitTime (trade (addFill b fill)) =
    if isIncreaseAction (okxEvent b fill) then exitTime (trade b)
    else if closesBy (okxEvent b fill) (trade b) then f_ts fill
         else exitTime (trade b).
Proof. okx_add okx_update_exitTime. Qed.

Lemma okx_addFill_durationMs b fill :
  durationMs (trade (addFill b fill)) =
    if isIncreaseAction (okxEvent b fill) then durationMs (trade b)
    else if closesBy (okxEvent b fill) (trade b)
         then (f_ts fill - entryTime (trade b))%Z
         else durationMs (trade b).
Proof. okx_add okx_update_durationMs. Qed.

Lemma okx_addFill_entryTime b fill :
  entryTime (trade (addFill b fill)) = entryTime (trade b).
Proof. okx_add okx_update_entryTime. Qed.

Lemma okx_addFill_commission b fill :
  totalCommission (trade (addFill b fill)) = totalCommission (trade b) + - f_fee fill.
Proof. okx_add okx_update_commission. Qed.

Lemma okx_addFill_symbol b fill :
  symbol (trade (addFill b fill)) = symbol (trade b).
Proof. okx_add okx_update_symbol. Qed.

Lemma okx_addFill_direction b fill :
  direction (trade (addFill b fill)) = direction (trade b).
Proof. okx_add okx_update_direction. Qed.

Lemma okx_addFill_notional b fill :
  currentNotionalValue (trade (addFill b fill)) = currentNotionalValue (trade b).
Proof. okx_add okx_update_notional. Qed.

Lemma okx_addFill_rawFills b fill :
  _rawFills (trade (addFill b fill)) = (_rawFills (trade b) ++ [fill])%list.
Proof. okx_add okx_update_rawFills. Qed.

Lemma okx_addFill_timeline b fill :
  timeline (trade (addFill b fill)) =
    (timeline (trade b) ++ [snd (updateState b (okxEvent b fill))])%list.
Proof. okx_add okx_update_timeline. Qed.

Lemma okx_addFill_totalSize b fill :
  totalSize (trade (addFill b fill)) =
    if isIncreaseAction (okxEvent b fill)
    then totalSize (trade b) + size (okxEvent b fill)
    else totalSize (trade b).
Proof. okx_add okx_update_totalSize. Qed.

Lemma okx_addFill_closingSize b fill :
  _closingSizeAccumulator (trade (addFill b fill)) =
    if isIncreaseAction (okxEvent b fill)
    then _closingSizeAccumulator (trade b)
    else _closingSizeAccumulator (trade b)
         + Qmin (size (okxEvent b fill)) (_currentPositionSize (trade b)).
Proof. okx_add okx_update_closingSize. Qed.

Lemma okx_addFill_contractValue b fill :
  contractValue (addFill b fill) = contractValue b.
Proof. unfold addFill. destruct (updateState b _). reflexivity. Qed.

End OkxFields.

(** *** The fold of [processFills] *)

Section OkxEngine.
Import OkxTradeBuilder OkxUMFuturesTradeProcessor.

(** The builder of a new position, before its first fill. *)
Lemma okx_processFill_eq insts st fill :
  processFill insts st fill =
    let init :=
      mk (initializeTrade
            (JS.includes (f_instId fill) "-USD-"
             && negb (JS.includes (f_instId fill) "-USDT-")) fill)
         (contractValueOf insts fill)
         (JS.includes (f_instId fill) "-USD-"
          && negb (JS.includes (f_instId fill) "-USDT-")) in
    match JS.get (positionKeyOf fill) (openPositions st) with
    | None =>
        if isReduceOnly fill then st
        else
          if isClosed (addFill init fill)
          then mkState (closedTrades st ++ [getTrade (addFill init fill)])
                 (JS.delete (positionKeyOf fill)
                    (JS.set (positionKeyOf fill) (addFill init fill)
                       (openPositions st)))
          else mkState (closedTrades st)
                 (JS.set (positionKeyOf fill) (addFill init fill)
                    (openPositions st))
    | Some b =>
        if isClosed (addFill b fill)
        then mkState (closedTrades st ++ [getTrade (addFill b fill)])
               (JS.delete (positionKeyOf fill)
                  (JS.set (positionKeyOf fill) (addFill b fill) (openPositions st)))
        else mkState (closedTrades st)
               (JS.set (positionKeyOf fill) (addFill b fill) (openPositions st))
    end.
Proof. reflexivity. Qed.

Lemma okx_processFills_invariant insts (OK : list RawFill -> Prop)
    (I : list RawFill -> OkxTradeBuilder.t -> Prop)
    (J : StandardizedTrade -> Prop) :
  (forall fill rest, OK (fill :: rest) -> OK rest) ->
  (forall fill rest b, OK (fill :: rest) -> I (fill :: rest) b -> I rest b) ->
  (forall fill rest inv, OK (fill :: rest) -> isReduceOnly fill = false ->
     I (fill :: rest)
       (mk (initializeTrade inv fill) (contractValueOf insts fill) inv)) ->
  (forall fill rest b, OK (fill :: rest) -> I (fill :: rest) b ->
     isClosed b = false -> I rest (addFill b fill)) ->
  (forall rest b, I rest b -> isClosed b = true -> J (trade b)) ->
  forall fills, OK fills ->
  buildersInvariant isClosed (I []) J
    (closedTrades (processFills insts fills))
    (openPositions (processFills insts fills)).
Proof.
  intros Htail Hskip Hinit Hadd Hclose fills Hok. unfold processFills.
  apply (builders_fold_invariant FoldState OkxTradeBuilder.t mkState
           closedTrades openPositions ltac:(reflexivity) ltac:(reflexivity)
           getTrade isClosed positionKeyOf isReduceOnly
           (fun fill =>
              mk (initializeTrade
                    (JS.includes (f_instId fill) "-USD-"
                     && negb (JS.includes (f_instId fill) "-USDT-")) fill)
                 (contractValueOf insts fill)
                 (JS.includes (f_instId fill) "-USD-"
                  && negb (JS.includes (f_instId fill) "-USDT-")))
           addFill (processFill insts) (okx_processFill_eq insts) OK I J);
    try assumption.
  - intros fill rest H1 H2. split; [apply Hinit; assumption | reflexivity].
  - split; constructor.
Qed.

Lemma okx_processFills_keys insts fills :
  NoDup (map fst (openPositions (processFills insts fills))).
Proof.
  unfold processFills.
  apply (builders_fold_keys FoldState OkxTradeBuilder.t mkState
           closedTrades openPositions ltac:(reflexivity)
           getTrade isClosed positionKeyOf isReduceOnly
           (fun fill =>
              mk (initializeTrade
                    (JS.includes (f_instId fill) "-USD-"
                     && negb (JS.includes (f_instId fill) "-USDT-")) fill)
                 (contractValueOf insts fill)
                 (JS.includes (f_instId fill) "-USD-"
                  && negb (JS.includes (f_instId fill) "-USDT-")))
           addFill (processFill insts) (okx_processFill_eq insts)).
  constructor.
Qed.

End OkxEngine.

(** *** After the fold: funding, risk and metrics *)

Section OkxOutput.
Import OkxTradeBuilder OkxUMFuturesTradeProcessor.

Lemma okx_applyFunding_kept (P : StandardizedTrade -> Prop) idx t :
  keptByFunding P -> P t -> P (applyFunding idx t).
Proof.
  intros HP Ht. unfold applyFunding.
  destruct (JS.get (symbol t) idx) as [bills|]; [|exact Ht].
  unfold creditBills. apply fold_left_invariant; [exact Ht|].
  intros t' bill Ht'. destruct (isRelevant (b_ts bill) t'); [|exact Ht'].
  destruct HP as [Hff Hrb]. apply Hrb, Hff. exact Ht'.
Qed.

Lemma okx_applyRisk_kept (P : StandardizedTrade -> Prop) positions open :
  keptByRisk P ->
  Forall (fun b => P (getTrade b)) (JS.values open) ->
  Forall (fun b => P (getTrade b)) (JS.values (fold_left applyRisk positions open)).
Proof.
  intros HP Hopen.
  apply (fold_left_invariant
           (fun m => Forall (fun b => P (getTrade b)) (JS.values m)));
    [exact Hopen|].
  intros m p Hm. unfold applyRisk.
  destruct (JS.get _ m) as [b|] eqn:Hget; [|exact Hm].
  apply Forall_values_set; [exact Hm|].
  apply HP. exact (Forall_values_get _ _ _ _ Hm Hget).
Qed.

(** The output of [processAllData]: the closed trades, then the trades
    of the open positions, each with what the fold had established as
    far as the later steps keep it. *)
Lemma okx_output_parts fills bills insts positions :
  exists closed open,
    processAllData fills bills insts positions = (closed ++ open)%list
    /\ (forall P, keptByFunding P -> keptByOkxFinalize P ->
         Forall P (closedTrades
                     (processFills (indexInstruments insts)
                        (JS.sort compareFills fills))) ->
         Forall P closed)
    /\ (forall P, keptByFunding P -> keptByRisk P -> keptByOkxFinalize P ->
         Forall (fun b => P (getTrade b))
           (JS.values (openPositions
                         (processFills (indexInstruments insts)
                            (JS.sort compareFills fills)))) ->
         Forall P open).
Proof.
  unfold processAllData. cbv zeta.
  set (st := processFills (indexInstruments insts) (JS.sort compareFills fills)).
  unfold finalizeMetrics, allTradesOf. rewrite map_app.
  eexists. eexists. split; [reflexivity|]. split.
  - intros P Hf Hfin HP. unfold applyBillsAndRisks. cbn [closedTrades].
    rewrite map_map. apply Forall_map_intro. intros t Ht.
    apply Hfin. apply okx_applyFunding_kept; [exact Hf|].
    rewrite Forall_forall in HP. exact (HP t Ht).
  - intros P Hf Hr Hfin HP. unfold applyBillsAndRisks. cbn [openPositions].
    rewrite map_map.
    assert (H : Forall (fun b => P (getTrade b))
                  (JS.values
                     (fold_left applyRisk positions
                        (map (fun kb =>
                                (fst kb,
                                 with_trade (snd kb)
                                   (applyFunding (indexBills bills)
                                      (getTrade (snd kb)))))
                           (openPositions st))))).
    { apply okx_applyRisk_kept; [exact Hr|].
      unfold JS.values. rewrite map_map. apply Forall_map_intro.
      intros [k b] Hin. cbn [fst snd]. unfold getTrade, with_trade. cbn [trade].
      apply okx_applyFunding_kept; [exact Hf|].
      rewrite Forall_forall in HP. apply (HP b).
      unfold JS.values. apply in_map_iff. exists (k, b). auto. }
    apply Forall_map_intro. intros b Hb. apply Hfin.
    rewrite Forall_forall in H. exact (H b Hb).
Qed.

End OkxOutput.
(** *** The books of the trades of the OKX processor *)

Section OkxBooks.
Import OkxTradeBuilder OkxUMFuturesTradeProcessor.

Lemma sorted_fills_weaken l :
  StronglySorted fillOrder l -> StronglySorted fillBefore l.
Proof.
  induction 1 as [|f l Hs IH Hall]; constructor; [assumption|].
  eapply Forall_impl; [|exact Hall].
  intros g [H|[H _]]; unfold fillBefore; lia.
Qed.

Lemma okx_sort_sorted fills :
  StronglySorted fillBefore (JS.sort compareFills fills).
Proof.
  apply sorted_fills_weaken, sort_sorted;
    [apply okx_compareFills_le | apply okx_compareFills_gt | apply fillOrder_trans].
Qed.

Lemma okx_builder_init fill rest cv inv :
  StronglySorted fillBefore (fill :: rest) ->
  okxBuilderInvariant (fill :: rest) (mk (initializeTrade inv fill) cv inv).
Proof.
  intros Hs. inversion Hs as [|? ? Hs' Hall]; subst.
  unfold okxBuilderInvariant, openBooks, feeBooks. cbn.
  repeat (apply conj); try reflexivity; try lra.
  - constructor; [lia | exact Hall].
  - left. repeat (apply conj); try reflexivity; lra.
Qed.

Lemma okx_builder_step fill rest b :
  StronglySorted fillBefore (fill :: rest) ->
  okxBuilderInvariant (fill :: rest) b ->
  isClosed b = false ->
  okxBuilderInvariant rest (addFill b fill).
Proof.
  intros Hs (Htime & Hbooks & (Hfee1 & Hfee2) & Hcn) Hnc.
  inversion Htime as [|? ? Hentry Htime']; subst.
  assert (Hopen : openBooks (trade b)).
  { destruct Hbooks as [H|(Hst & _)]; [exact H|].
    unfold isClosed in Hnc. rewrite Hst in Hnc. discriminate. }
  destruct Hopen as (Hst & Hexit & Hdur & Hcur).
  unfold okxBuilderInvariant, openBooks, closedBooks, feeBooks.
  rewrite okx_addFill_entryTime, okx_addFill_status, okx_addFill_exitTime,
    okx_addFill_durationMs, okx_addFill_cur, okx_addFill_totalSize,
    okx_addFill_closingSize, okx_addFill_commission, okx_addFill_timeline,
    okx_addFill_rawFills, okx_addFill_notional.
  rewrite sumOf_app, sumFees_app. cbn [sumOf sumFees fold_right].
  rewrite okx_update_event_fee. cbn [fee okxEvent].
  repeat (apply conj); try assumption; try lra.
  destruct (isIncreaseAction (okxEvent b fill)).
  - left. repeat (apply conj); try assumption. lra.
  - unfold closesBy.
    destruct (Qle_bool (reducedBy (okxEvent b fill) (trade b))
                FLOATING_POINT_TOLERANCE) eqn:Hclose.
    + right. apply Qle_bool_iff in Hclose. unfold reducedBy in Hclose.
      repeat (apply conj); try reflexivity; try lia. lra.
    + left. unfold reducedBy. repeat (apply conj); try assumption. lra.
Qed.

Lemma okx_builder_close rest b :
  okxBuilderInvariant rest b -> isClosed b = true ->
  okxClosedInvariant (trade b).
Proof.
  intros (_ & Hbooks & Hfee & Hcn) Hc. unfold okxClosedInvariant.
  split; [|split; assumption].
  destruct Hbooks as [(Hst & _)|H]; [|exact H].
  unfold isClosed in Hc. rewrite Hst in Hc. discriminate.
Qed.

Lemma okx_fold_books insts fills :
  buildersInvariant isClosed (okxBuilderInvariant []) okxClosedInvariant
    (closedTrades (processFills insts (JS.sort compareFills fills)))
    (openPositions (processFills insts (JS.sort compareFills fills))).
Proof.
  apply (okx_processFills_invariant insts (StronglySorted fillBefore)
           okxBuilderInvariant okxClosedInvariant).
  - intros fill rest Hs. inversion Hs; assumption.
  - intros fill rest b Hs (Htime & Hrest). split; [|exact Hrest].
    inversion Htime; assumption.
  - intros fill rest inv Hs _. apply okx_builder_init. exact Hs.
  - intros fill rest b Hs Hb Hc. apply okx_builder_step; assumption.
  - intros rest b Hb Hc. eapply okx_builder_close; eassumption.
  - apply okx_sort_sorted.
Qed.

Lemma okx_open_books insts fills :
  Forall (fun b => openBooks (getTrade b) /\ feeBooks (-1) (getTrade b))
    (JS.values (openPositions (processFills insts (JS.sort compareFills fills)))).
Proof.
  destruct (okx_fold_books insts fills) as [Hopen _].
  eapply Forall_impl; [|exact Hopen].
  intros b [(_ & Hbooks & Hfee & _) Hnc]. split; [|exact Hfee].
  destruct Hbooks as [H|(Hst & _)]; [exact H|].
  unfold isClosed in Hnc. unfold getTrade in *. rewrite Hst in Hnc. discriminate.
Qed.

Lemma okx_finalize_closedBooks : keptByOkxFinalize closedBooks.
Proof.
  intros t H. unfold finalizeTrade. break_ifs; exact H.
Qed.

Lemma okx_finalize_openBooks : keptByOkxFinalize openBooks.
Proof.
  intros t H. unfold finalizeTrade. break_ifs; exact H.
Qed.

Lemma okx_finalize_feeBooks s : keptByOkxFinalize (feeBooks s).
Proof.
  intros t [H1 H2]. unfold finalizeTrade, feeBooks.
  break_ifs; trade_simpl; (split; [|exact H2]);
    unfold TimelineUtils.aggregateEvents;
    rewrite (aggregateEventsWithin_sum fee _ _ mergeGroup_fee); exact H1.
Qed.

End OkxBooks.

(** Over the exact rationals of the embedding: the closed trades come
    first, then the open ones, each with its books. *)
Lemma okx_closed_then_open_books fills bills insts positions :
  exists closed open,
    OkxUMFuturesTradeProcessor.processAllData fills bills insts positions
      = (closed ++ open)%list
    /\ Forall closedBooks closed
    /\ Forall openBooks open.
Proof.
  destruct (okx_output_parts fills bills insts positions)
    as (closed & open & Hout & Hclosed & Hopen).
  exists closed, open. split; [exact Hout|]. split.
  - apply Hclosed.
    + split; intros t v H; exact H.
    + apply okx_finalize_closedBooks.
    + destruct (okx_fold_books (indexInstruments insts) fills) as [_ Hc].
      eapply Forall_impl; [|exact Hc]. intros t (H & _). exact H.
  - apply Hopen.
    + split; intros t v H; exact H.
    + intros t H v. exact H.
    + apply okx_finalize_openBooks.
    + eapply Forall_impl; [|apply okx_open_books]. intros b [H _]. exact H.
Qed.

(** X7: the OKX processor returns the closed trades first and the trades
    of the open positions after them.  A closed trade has status
    [CLOSED], a duration that is its exit time less its entry time and
    is not negative, and a running size of zero.  An open trade has
    status [OPEN], no exit time and no duration. *)
Theorem okx_closed_then_open_records fills bills insts positions :
  exists closed open,
    OkxUMFuturesTradeProcessor.processAllData fills bills insts positions
      = (closed ++ open)%list
    /\ Forall (fun t => closedRecord t /\ _currentPositionSize t = 0) closed
    /\ Forall openRecord open.
Proof.
  destruct (okx_closed_then_open_books fills bills insts positions)
    as (closed & open & Hout & Hclosed & Hopen).
  exists closed, open. split; [exact Hout|]. split.
  - eapply Forall_impl; [|exact Hclosed].
    intros t (H1 & H2 & H3 & H4 & _). repeat (apply conj); assumption.
  - eapply Forall_impl; [|exact Hopen].
    intros t (H1 & H2 & H3 & _). repeat (apply conj); assumption.
Qed.

Section OkxRisk.
Import OkxTradeBuilder OkxUMFuturesTradeProcessor.

Lemma okx_applyRisk_get key open p :
  JS.get key (applyRisk open p) =
    if String.eqb (okxRiskKey p) key
    then option_map
           (fun b => with_trade b
                       (set_currentNotionalValue (Some (p_notionalUsd p))
                          (getTrade b)))
           (JS.get key open)
    else JS.get key open.
Proof.
  unfold applyRisk. fold (okxRiskKey p).
  destruct (String.eqb_spec (okxRiskKey p) key) as [<-|Hne].
  - destruct (JS.get (okxRiskKey p) open) as [b|] eqn:Hget; simpl.
    + rewrite get_set_same. reflexivity.
    + exact Hget.
  - destruct (JS.get (okxRiskKey p) open) as [b|]; [|reflexivity].
    apply get_set_other. congruence.
Qed.

Lemma lastNotional_from key positions acc :
  fold_left
    (fun acc p =>
       if String.eqb (okxRiskKey p) key then Some (p_notionalUsd p) else acc)
    positions acc
  = match lastNotionalFor key positions with
    | Some n => Some n
    | None => acc
    end.
Proof.
  unfold lastNotionalFor. revert acc.
  induction positions as [|p ps IH]; intros acc; simpl; [reflexivity|].
  rewrite (IH (if String.eqb (okxRiskKey p) key then Some (p_notionalUsd p) else acc)).
  rewrite (IH (if String.eqb (okxRiskKey p) key then Some (p_notionalUsd p) else None)).
  destruct (fold_left _ ps None); [reflexivity|].
  destruct (String.eqb (okxRiskKey p) key); reflexivity.
Qed.

Lemma annotatedBy_cons key p ps b :
  annotatedBy key (p :: ps) b =
    if String.eqb (okxRiskKey p) key
    then annotatedBy key ps
           (with_trade b
              (set_currentNotionalValue (Some (p_notionalUsd p)) (getTrade b)))
    else annotatedBy key ps b.
Proof.
  unfold annotatedBy. unfold lastNotionalFor at 1. simpl.
  rewrite lastNotional_from.
  destruct (String.eqb (okxRiskKey p) key);
    destruct (lastNotionalFor key ps); reflexivity.
Qed.

Lemma okx_applyRisk_fold_get key positions :
  forall open,
  option_map (fun b => currentNotionalValue (trade b))
    (JS.get key (fold_left applyRisk positions open))
  = option_map (annotatedBy key positions) (JS.get key open).
Proof.
  induction positions as [|p ps IH]; intros open; simpl.
  - destruct (JS.get key open); reflexivity.
  - rewrite IH, okx_applyRisk_get.
    destruct (String.eqb (okxRiskKey p) key) eqn:E;
      destruct (JS.get key open) as [b|]; simpl;
      rewrite ?annotatedBy_cons, ?E; reflexivity.
Qed.

Lemma okx_fold_closed_unannotated insts fills :
  Forall (fun t => status t = CLOSED /\ currentNotionalValue t = None)
    (closedTrades (processFills insts (JS.sort compareFills fills))).
Proof.
  destruct (okx_fold_books insts fills) as [_ Hc].
  eapply Forall_impl; [|exact Hc].
  intros t ((Hst & _) & _ & Hcn). split; assumption.
Qed.

End OkxRisk.

(** X9: the loop over the position snapshots gives the builder under a
    key the notional of the last snapshot whose instrument and
    lower-cased side make that key, leaves a builder that no snapshot
    names as it was, and adds no builder; and a closed trade that the
    processor returns carries no notional. *)
Theorem okx_risk_annotation :
  (forall key positions open,
     option_map
       (fun b => currentNotionalValue (OkxTradeBuilder.trade b))
       (JS.get key
          (fold_left OkxUMFuturesTradeProcessor.applyRisk positions open))
     = option_map (annotatedBy key positions) (JS.get key open))
  /\ (forall fills bills insts positions,
        Forall (fun t => status t = CLOSED -> currentNotionalValue t = None)
          (OkxUMFuturesTradeProcessor.processAllData fills bills insts
             positions)).
Proof.
  split.
  - intros key positions open. apply okx_applyRisk_fold_get.
  - intros fills bills insts positions.
    destruct (okx_output_parts fills bills insts positions)
      as (closed & open & Hout & Hclosed & Hopen).
    rewrite Hout. apply Forall_app. split.
    + assert (H : Forall (fun t => status t = CLOSED
                                   /\ currentNotionalValue t = None) closed).
      { apply Hclosed.
        - split; intros t v H; exact H.
        - intros t H. unfold OkxUMFuturesTradeProcessor.finalizeTrade.
          break_ifs; exact H.
        - apply okx_fold_closed_unannotated. }
      eapply Forall_impl; [|exact H]. intros t [_ Hcn] _. exact Hcn.
    + assert (H : Forall (fun t => status t = OPEN_) open).
      { apply Hopen.
        - split; intros t v H; exact H.
        - intros t H v. exact H.
        - intros t H. unfold OkxUMFuturesTradeProcessor.finalizeTrade.
          break_ifs; exact H.
        - eapply Forall_impl; [|apply okx_open_books].
          intros b [(Hst & _) _]. exact Hst. }
      eapply Forall_impl; [|exact H]. intros t Hst Hc. congruence.
Qed.

(** *** Sizes in range *)

Section OkxSizes.
Import OkxTradeBuilder OkxUMFuturesTradeProcessor.

Lemma index_values_forall (P : InstrumentDetail -> Prop) l :
  Forall P l -> Forall P (JS.values (indexInstruments l)).
Proof.
  intros HF. unfold indexInstruments.
  assert (H : forall m, Forall P (JS.values m) ->
              Forall P (JS.values
                          (fold_left (fun m inst => JS.set (i_instId inst) inst m)
                             l m))).
  { induction HF as [|i l Hi HF IH]; intros m Hm; simpl; [exact Hm|].
    apply IH. apply Forall_values_set; assumption. }
  apply H. constructor.
Qed.

Lemma contractValueOf_nonneg insts fill :
  Forall (fun i => 0 <= i_ctVal i) (JS.values insts) ->
  0 <= contractValueOf insts fill.
Proof.
  intros HF. unfold contractValueOf.
  destruct (JS.get (f_instId fill) insts) as [i|] eqn:Hget; [|lra].
  exact (Forall_values_get _ _ _ _ HF Hget).
Qed.

Lemma okx_sizes_step b fill :
  0 <= f_fillSz fill -> 0 <= contractValue b ->
  sizesInRange (trade b) -> sizesInRange (trade (addFill b fill)).
Proof.
  intros Hsz Hcv (Hcur & Hcl & Htot). unfold sizesInRange.
  rewrite okx_addFill_cur, okx_addFill_totalSize, okx_addFill_closingSize.
  assert (Hev : 0 <= size (okxEvent b fill)).
  { cbn [size okxEvent]. apply Qmult_le_0_compat; assumption. }
  pose proof (Q.le_min_r (size (okxEvent b fill)) (_currentPositionSize (trade b)))
    as Hmin.
  assert (Hmin0 : 0 <= Qmin (size (okxEvent b fill)) (_currentPositionSize (trade b)))
    by (apply Q.min_glb; assumption).
  destruct (isIncreaseAction (okxEvent b fill)).
  - repeat (apply conj); lra.
  - unfold closesBy, reducedBy.
    destruct (Qle_bool _ FLOATING_POINT_TOLERANCE); repeat (apply conj); lra.
Qed.

Lemma okx_fold_sizes insts fills :
  Forall (fun f => 0 <= f_fillSz f) fills ->
  Forall (fun i => 0 <= i_ctVal i) (JS.values insts) ->
  buildersInvariant isClosed
    (fun b => 0 <= contractValue b /\ sizesInRange (trade b))
    sizesInRange
    (closedTrades (processFills insts fills))
    (openPositions (processFills insts fills)).
Proof.
  intros Hfills Hinsts.
  apply (okx_processFills_invariant insts
           (Forall (fun f => 0 <= f_fillSz f))
           (fun _ b => 0 <= contractValue b /\ sizesInRange (trade b))
           sizesInRange).
  - intros fill rest H. inversion H; assumption.
  - intros fill rest b _ H. exact H.
  - intros fill rest inv _ _. split.
    + cbn [contractValue]. apply contractValueOf_nonneg. exact Hinsts.
    + unfold sizesInRange. cbn. repeat (apply conj); lra.
  - intros fill rest b H [Hcv Hb] _. inversion H; subst. split.
    + rewrite okx_addFill_contractValue. exact Hcv.
    + apply okx_sizes_step; assumption.
  - intros rest b [_ Hb] _. exact Hb.
  - exact Hfills.
Qed.

End OkxSizes.

(** Over the exact rationals of the embedding: the running and the
    closed size are not negative and together do not exceed the opened
    size. *)
Lemma okx_sizes_in_range fills bills insts positions :
  Forall (fun f => 0 <= f_fillSz f) fills ->
  Forall (fun i => 0 <= i_ctVal i) insts ->
  Forall sizesInRange
    (OkxUMFuturesTradeProcessor.processAllData fills bills insts positions).
Proof.
  intros Hfills Hinsts.
  assert (Hsorted : Forall (fun f => 0 <= f_fillSz f)
                      (JS.sort OkxUMFuturesTradeProcessor.compareFills fills)).
  { rewrite Forall_forall in *. intros f Hf. apply Hfills.
    eapply Permutation_in; [apply sort_perm | exact Hf]. }
  destruct (okx_fold_sizes (indexInstruments insts) _ Hsorted
              (index_values_forall _ _ Hinsts)) as [Ho Hc].
  destruct (okx_output_parts fills bills insts positions)
    as (closed & open & Hout & Hclosed & Hopen).
  rewrite Hout. apply Forall_app. split.
  - apply Hclosed.
    + split; intros t v H; exact H.
    + intros t H. unfold OkxUMFuturesTradeProcessor.finalizeTrade.
      break_ifs; exact H.
    + exact Hc.
  - apply Hopen.
    + split; intros t v H; exact H.
    + intros t H v. exact H.
    + intros t H. unfold OkxUMFuturesTradeProcessor.finalizeTrade.
      break_ifs; exact H.
    + eapply Forall_impl; [|exact Ho]. intros b [[_ H] _]. exact H.
Qed.


(** ** The spot processor *)

(** *** The fields of a trade after [_updateTradeWithFill] and [_closeTrade] *)

Section SpotFields.
Import BinanceSpotTradeProcessor.

Ltac spot_field tr fill :=
  unfold spotEvent, spotReduced, isBuyFill;
  destruct tr;
  unfold _updateTradeWithFill;
  destruct (String.eqb (JS.toLowerCase (f_side fill)) "buy");
  step_ifs; trade_simpl; reflexivity.

Lemma spot_update_cur tr fill :
  _currentPositionSize (_updateTradeWithFill tr fill) =
    if isBuyFill fill then _currentPositionSize tr + f_fillSz fill
    else if Qle_bool (spotReduced tr fill) FLOATING_POINT_TOLERANCE
         then 0 else spotReduced tr fill.
Proof. spot_field tr fill. Qed.

Lemma spot_update_timeline tr fill :
  timeline (_updateTradeWithFill tr fill) =
    (timeline tr ++ [spotEvent tr fill])%list.
Proof. spot_field tr fill. Qed.

Lemma spot_update_status tr fill :
  status (_updateTradeWithFill tr fill) = status tr.
Proof. spot_field tr fill. Qed.

Lemma spot_update_entryTime tr fill :
  entryTime (_updateTradeWithFill tr fill) = entryTime tr.
Proof. spot_field tr fill. Qed.

Lemma spot_update_exitTime tr fill :
  exitTime (_updateTradeWithFill tr fill) = exitTime tr.
Proof. spot_field tr fill. Qed.

Lemma spot_update_durationMs tr fill :
  durationMs (_updateTradeWithFill tr fill) = durationMs tr.
Proof. spot_field tr fill. Qed.

Lemma spot_update_totalSize tr fill :
  totalSize (_updateTradeWithFill tr fill) =
    if isBuyFill fill then totalSize tr + f_fillSz fill else totalSize tr.
Proof. spot_field tr fill. Qed.

Lemma spot_update_totalValue tr fill :
  totalValue (_updateTradeWithFill tr fill) =
    if isBuyFill fill
    then totalSize tr * averageEntryPrice tr + f_fillSz fill * f_fillPx fill
    else totalValue tr.
Proof. spot_field tr fill. Qed.

Lemma spot_update_avgEntry tr fill :
  averageEntryPrice (_updateTradeWithFill tr fill) =
    if isBuyFill fill
    then (totalSize tr * averageEntryPrice tr + f_fillSz fill * f_fillPx fill)
         / (totalSize tr + f_fillSz fill)
    else averageEntryPrice tr.
Proof. spot_field tr fill. Qed.

Lemma spot_update_closingSize tr fill :
  _closingSizeAccumulator (_updateTradeWithFill tr fill) =
    if isBuyFill fill then _closingSizeAccumulator tr
    else _closingSizeAccumulator tr
         + Qmin (f_fillSz fill) (_currentPositionSize tr).
Proof. spot_field tr fill. Qed.

Lemma spot_update_commission tr fill :
  totalCommission (_updateTradeWithFill tr fill) = totalCommission tr + f_fee fill.
Proof. spot_field tr fill. Qed.

Lemma spot_event_reduces tr fill :
  Action_eqb (action (spotEvent tr fill)) REDUCE
  || Action_eqb (action (spotEvent tr fill)) CLOSE = negb (isBuyFill fill).
Proof.
  unfold spotEvent. cbn [action]. destruct (isBuyFill fill); simpl.
  - destruct (timeline tr); reflexivity.
  - destruct (Qle_bool _ _); reflexivity.
Qed.

Lemma spot_update_rawFills tr fill :
  _rawFills (_updateTradeWithFill tr fill) = (_rawFills tr ++ [fill])%list.
Proof. spot_field tr fill. Qed.

Lemma spot_update_direction tr fill :
  direction (_updateTradeWithFill tr fill) = direction tr.
Proof. spot_field tr fill. Qed.

End SpotFields.

Section SpotBooks.
Import BinanceSpotTradeProcessor.

Lemma spot_processFill_eq insts st fill :
  processFill insts st fill =
    match JS.get (positionKeyOf fill) (openPositions st) with
    | None =>
        if negb (isBuyFill fill) then st
        else
          if closesNow (_updateTradeWithFill (_createNewTrade insts fill) fill)
          then mkState
                 (closedTrades st
                  ++ [_closeTrade
                        (_updateTradeWithFill (_createNewTrade insts fill) fill)
                        (f_ts fill)])
                 (JS.delete (positionKeyOf fill)
                    (JS.set (positionKeyOf fill)
                       (_updateTradeWithFill (_createNewTrade insts fill) fill)
                       (openPositions st)))
          else mkState (closedTrades st)
                 (JS.set (positionKeyOf fill)
                    (_updateTradeWithFill (_createNewTrade insts fill) fill)
                    (openPositions st))
    | Some t =>
        if closesNow (_updateTradeWithFill t fill)
        then mkState
               (closedTrades st ++ [_closeTrade (_updateTradeWithFill t fill) (f_ts fill)])
               (JS.delete (positionKeyOf fill)
                  (JS.set (positionKeyOf fill) (_updateTradeWithFill t fill)
                     (openPositions st)))
        else mkState (closedTrades st)
               (JS.set (positionKeyOf fill) (_updateTradeWithFill t fill)
                  (openPositions st))
    end.
Proof. reflexivity. Qed.

Lemma spot_close_books t ts :
  status t = OPEN_ -> (entryTime t <= ts)%Z ->
  _currentPositionSize t = 0 ->
  totalSize t - _closingSizeAccumulator t <= FLOATING_POINT_TOLERANCE ->
  closedBooks (_closeTrade t ts).
Proof.
  intros Hst Hts Hcur Htot. unfold closedBooks, _closeTrade.
  break_ifs; trade_simpl; repeat (apply conj); try reflexivity;
    try assumption; lia.
Qed.

Lemma spot_close_feeBooks s t ts : feeBooks s t -> feeBooks s (_closeTrade t ts).
Proof. intros H. unfold _closeTrade. break_ifs; exact H. Qed.

Lemma spot_new_invariant insts fill rest :
  StronglySorted fillBefore (fill :: rest) ->
  binanceOpenInvariant (fill :: rest) (_createNewTrade insts fill).
Proof.
  intros Hs. inversion Hs as [|? ? Hs' Hall]; subst.
  unfold binanceOpenInvariant, openBooks, feeBooks. cbn.
  split; [constructor; [lia | exact Hall]|].
  repeat (apply conj); try reflexivity; lra.
Qed.

Lemma spot_fold_books insts fills :
  tradesInvariant (binanceOpenInvariant [])
    (fun t => closedBooks t /\ feeBooks 1 t)
    (closedTrades
       (_processFillsAndAggregateTrades insts (JS.sort compareFills fills)))
    (openPositions
       (_processFillsAndAggregateTrades insts (JS.sort compareFills fills))).
Proof.
  unfold _processFillsAndAggregateTrades.
  apply (trades_fold_invariant FoldState mkState closedTrades openPositions
           ltac:(reflexivity) ltac:(reflexivity)
           positionKeyOf (fun fill => negb (isBuyFill fill))
           (_createNewTrade insts) _updateTradeWithFill _closeTrade
           (processFill insts) (spot_processFill_eq insts)
           (StronglySorted fillBefore)
           binanceOpenInvariant (fun t => closedBooks t /\ feeBooks 1 t)).
  - intros fill rest Hs. inversion Hs; assumption.
  - intros fill rest t Hs (Htime & Hrest). split; [|exact Hrest].
    inversion Htime; assumption.
  - intros fill rest Hs _. apply spot_new_invariant. exact Hs.
  - intros fill rest t Hs Ht Hc.
    apply (books_step_open _updateTradeWithFill (fun _ f => isBuyFill f) spotEvent
             spot_update_cur spot_update_timeline ltac:(reflexivity)
             spot_event_reduces spot_update_status spot_update_entryTime
             spot_update_exitTime spot_update_durationMs spot_update_totalSize
             spot_update_closingSize spot_update_commission spot_update_rawFills);
      assumption.
  - intros fill rest t Hs Ht Hc.
    apply (books_step_close _updateTradeWithFill _closeTrade
             (fun _ f => isBuyFill f) spotEvent
             spot_update_cur spot_update_timeline ltac:(reflexivity)
             spot_event_reduces spot_update_status spot_update_entryTime
             spot_update_totalSize
             spot_update_closingSize spot_update_commission spot_update_rawFills
             spot_close_books spot_close_feeBooks fill rest t);
      assumption.
  - apply byTime_fills_sorted. reflexivity.
  - split; constructor.
Qed.

Lemma spot_finalize_kept (P : StandardizedTrade -> Prop) t :
  (forall v t, P t -> P (set_timeline v t)) ->
  (forall v t, P t -> P (set_netPnl v t)) ->
  (forall v t, P t -> P (set_pnlPercentage v t)) ->
  P t -> P (finalizeTrade t).
Proof.
  intros Htl Hnp Hpp Ht. unfold finalizeTrade.
  break_ifs; apply Hpp, Hnp, Htl; exact Ht.
Qed.

Lemma spot_finalize_feeBooks s t : feeBooks s t -> feeBooks s (finalizeTrade t).
Proof.
  intros [H1 H2]. unfold finalizeTrade, feeBooks.
  break_ifs; trade_simpl; (split; [|exact H2]);
    rewrite (aggregateTimelineEvents_sum fee _ mergeEvents_fee); exact H1.
Qed.

End SpotBooks.

Lemma spot_output_parts fills bills insts risks :
  exists closed open,
    BinanceSpotTradeProcessor.processAllData fills bills insts risks
      = (closed ++ open)%list
    /\ forall Pc Po : StandardizedTrade -> Prop,
        keptBy BinanceSpotTradeProcessor.finalizeTrade Pc ->
        keptBy BinanceSpotTradeProcessor.finalizeTrade Po ->
        Forall Pc
          (BinanceSpotTradeProcessor.closedTrades
             (BinanceSpotTradeProcessor._processFillsAndAggregateTrades
                (indexInstruments insts)
                (JS.sort BinanceSpotTradeProcessor.compareFills fills))) ->
        Forall Po
          (JS.values
             (BinanceSpotTradeProcessor.openPositions
                (BinanceSpotTradeProcessor._processFillsAndAggregateTrades
                   (indexInstruments insts)
                   (JS.sort BinanceSpotTradeProcessor.compareFills fills)))) ->
        Forall Pc closed /\ Forall Po open.
Proof.
  unfold BinanceSpotTradeProcessor.processAllData. cbv zeta.
  unfold BinanceSpotTradeProcessor._finalizeTradeMetrics,
    BinanceSpotTradeProcessor.allTradesOf.
  rewrite map_app. eexists. eexists. split; [reflexivity|].
  intros Pc Po Hc Ho HPc HPo. split; apply Forall_map_intro; intros t Ht.
  - apply Hc. rewrite Forall_forall in HPc. exact (HPc t Ht).
  - apply Ho. rewrite Forall_forall in HPo. exact (HPo t Ht).
Qed.
(** ** Funding by first match keeps the closed trades before the open ones *)

Lemma creditTrade_kept (P : StandardizedTrade -> Prop) bill t :
  keptByFunding P -> P t -> P (creditTrade bill t).
Proof.
  intros [Hff Hrb] Ht. unfold creditTrade. apply Hrb, Hff, Ht.
Qed.

Lemma creditFirstRelevant_parts (Pc Po : StandardizedTrade -> Prop) bill l1 :
  keptByFunding Pc -> keptByFunding Po ->
  forall l2, Forall Pc l1 -> Forall Po l2 ->
  exists l1' l2',
    creditFirstRelevant bill (l1 ++ l2) = (l1' ++ l2')%list
    /\ length l1' = length l1 /\ Forall Pc l1' /\ Forall Po l2'.
Proof.
  intros Hc Ho. induction l1 as [|t l1 IH]; intros l2 H1 H2.
  - exists [], (creditFirstRelevant bill l2).
    repeat (apply conj); try reflexivity; [constructor|].
    clear -Ho H2. induction H2 as [|t l Ht Hl IH]; simpl; [constructor|].
    destruct (_ && _).
    + constructor; [apply creditTrade_kept; assumption | assumption].
    + constructor; assumption.
  - inversion H1 as [|? ? Ht H1']; subst. simpl.
    destruct (String.eqb (symbol t) (b_instId bill) && isRelevant (b_ts bill) t).
    + exists (creditTrade bill t :: l1), l2.
      repeat (apply conj); try reflexivity; try assumption.
      constructor; [apply creditTrade_kept; assumption | assumption].
    + destruct (IH l2 H1' H2) as (l1' & l2' & E & Hlen & Hc' & Ho').
      exists (t :: l1'), l2'. rewrite E.
      repeat (apply conj); try reflexivity; try assumption.
      * simpl. congruence.
      * constructor; assumption.
Qed.

Lemma applyBills_parts (Pc Po : StandardizedTrade -> Prop) bills :
  keptByFunding Pc -> keptByFunding Po ->
  forall l1 l2, Forall Pc l1 -> Forall Po l2 ->
  exists l1' l2',
    applyBillsFirstMatch bills (l1 ++ l2) = (l1' ++ l2')%list
    /\ length l1' = length l1 /\ Forall Pc l1' /\ Forall Po l2'.
Proof.
  intros Hc Ho. unfold applyBillsFirstMatch.
  induction bills as [|bill bills IH]; intros l1 l2 H1 H2; simpl.
  - exists l1, l2. repeat (apply conj); try reflexivity; assumption.
  - destruct (String.eqb (b_type bill) BILL_TYPE_FUNDING_FEE).
    + destruct (creditFirstRelevant_parts Pc Po bill l1 Hc Ho l2 H1 H2)
        as (l1' & l2' & E & Hlen & Hc' & Ho').
      rewrite E.
      destruct (IH l1' l2' Hc' Ho') as (l1'' & l2'' & E' & Hlen' & Hc'' & Ho'').
      exists l1'', l2''. repeat (apply conj); try assumption. congruence.
    + apply IH; assumption.
Qed.
(** ** The inverse-futures processor *)

Section CmFields.
Import BinanceCMFuturesTradeProcessor.

Ltac cm_field tr fill :=
  unfold cmEvent, sideAgrees, spotReduced, isBuyFill;
  destruct tr;
  unfold _updateTradeWithFill;
  trade_simpl;
  match goal with
  | |- context [if (?a && ?b0 || ?c && ?d) then _ else _] =>
      destruct (a && b0 || c && d)
  end;
  step_ifs; trade_simpl; reflexivity.

Lemma cm_update_cur insts tr fill :
  _currentPositionSize (_updateTradeWithFill insts tr fill) =
    if sideAgrees tr fill then _currentPositionSize tr + f_fillSz fill
    else if Qle_bool (spotReduced tr fill) FLOATING_POINT_TOLERANCE
         then 0 else spotReduced tr fill.
Proof. cm_field tr fill. Qed.

Lemma cm_update_timeline insts tr fill :
  timeline (_updateTradeWithFill insts tr fill) =
    (timeline tr ++ [cmEvent tr fill])%list.
Proof. cm_field tr fill. Qed.

Lemma cm_event_reduces tr fill :
  Action_eqb (action (cmEvent tr fill)) REDUCE
  || Action_eqb (action (cmEvent tr fill)) CLOSE = negb (sideAgrees tr fill).
Proof.
  unfold cmEvent. cbn [action]. destruct (sideAgrees tr fill); simpl.
  - destruct (timeline tr); reflexivity.
  - destruct (Qle_bool _ _); reflexivity.
Qed.

Lemma cm_update_status insts tr fill :
  status (_updateTradeWithFill insts tr fill) = status tr.
Proof. cm_field tr fill. Qed.

Lemma cm_update_entryTime insts tr fill :
  entryTime (_updateTradeWithFill insts tr fill) = entryTime tr.
Proof. cm_field tr fill. Qed.

Lemma cm_update_exitTime insts tr fill :
  exitTime (_updateTradeWithFill insts tr fill) = exitTime tr.
Proof. cm_field tr fill. Qed.

Lemma cm_update_durationMs insts tr fill :
  durationMs (_updateTradeWithFill insts tr fill) = durationMs tr.
Proof. cm_field tr fill. Qed.

Lemma cm_update_totalSize insts tr fill :
  totalSize (_updateTradeWithFill insts tr fill) =
    if sideAgrees tr fill then totalSize tr + f_fillSz fill else totalSize tr.
Proof. cm_field tr fill. Qed.

Lemma cm_update_closingSize insts tr fill :
  _closingSizeAccumulator (_updateTradeWithFill insts tr fill) =
    if sideAgrees tr fill then _closingSizeAccumulator tr
    else _closingSizeAccumulator tr
         + Qmin (f_fillSz fill) (_currentPositionSize tr).
Proof. cm_field tr fill. Qed.

Lemma cm_update_commission insts tr fill :
  totalCommission (_updateTradeWithFill insts tr fill)
  = totalCommission tr + f_fee fill.
Proof. cm_field tr fill. Qed.

Lemma cm_update_rawFills insts tr fill :
  _rawFills (_updateTradeWithFill insts tr fill) = (_rawFills tr ++ [fill])%list.
Proof. cm_field tr fill. Qed.

Lemma cm_update_direction insts tr fill :
  direction (_updateTradeWithFill insts tr fill) = direction tr.
Proof. cm_field tr fill. Qed.

Lemma cm_close_books t ts :
  status t = OPEN_ -> (entryTime t <= ts)%Z ->
  _currentPositionSize t = 0 ->
  totalSize t - _closingSizeAccumulator t <= FLOATING_POINT_TOLERANCE ->
  closedBooks (_closeTrade t ts).
Proof.
  intros Hst Hts Hcur Htot. unfold closedBooks, _closeTrade.
  break_ifs; trade_simpl; repeat (apply conj); try reflexivity;
    try assumption; lia.
Qed.

Lemma cm_close_feeBooks s t ts : feeBooks s t -> feeBooks s (_closeTrade t ts).
Proof. intros H. unfold _closeTrade. break_ifs; exact H. Qed.

Lemma cm_processFill_eq insts st fill :
  processFill insts st fill =
    match JS.get (positionKeyOf fill) (openPositions st) with
    | None =>
        if negb (isOpeningFill fill) then st
        else
          if closesNow
               (_updateTradeWithFill insts (_createNewTrade insts fill) fill)
          then mkState
                 (closedTrades st
                  ++ [_closeTrade
                        (_updateTradeWithFill insts (_createNewTrade insts fill)
                           fill)
                        (f_ts fill)])
                 (JS.delete (positionKeyOf fill)
                    (JS.set (positionKeyOf fill)
                       (_updateTradeWithFill insts (_createNewTrade insts fill)
                          fill)
                       (openPositions st)))
          else mkState (closedTrades st)
                 (JS.set (positionKeyOf fill)
                    (_updateTradeWithFill insts (_createNewTrade insts fill) fill)
                    (openPositions st))
    | Some t =>
        if closesNow (_updateTradeWithFill insts t fill)
        then mkState
               (closedTrades st
                ++ [_closeTrade (_updateTradeWithFill insts t fill) (f_ts fill)])
               (JS.delete (positionKeyOf fill)
                  (JS.set (positionKeyOf fill) (_updateTradeWithFill insts t fill)
                     (openPositions st)))
        else mkState (closedTrades st)
               (JS.set (positionKeyOf fill) (_updateTradeWithFill insts t fill)
                  (openPositions st))
    end.
Proof. reflexivity. Qed.

Lemma cm_new_invariant insts fill rest :
  StronglySorted fillBefore (fill :: rest) ->
  binanceOpenInvariant (fill :: rest) (_createNewTrade insts fill).
Proof.
  intros Hs. inversion Hs as [|? ? Hs' Hall]; subst.
  unfold binanceOpenInvariant, openBooks, feeBooks. cbn.
  split; [constructor; [lia | exact Hall]|].
  repeat (apply conj); try reflexivity; lra.
Qed.

Lemma cm_fold_books insts fills :
  tradesInvariant (binanceOpenInvariant [])
    (fun t => closedBooks t /\ feeBooks 1 t)
    (closedTrades
       (_processFillsAndAggregateTrades insts (JS.sort compareFills fills)))
    (openPositions
       (_processFillsAndAggregateTrades insts (JS.sort compareFills fills))).
Proof.
  unfold _processFillsAndAggregateTrades.
  apply (trades_fold_invariant FoldState mkState closedTrades openPositions
           ltac:(reflexivity) ltac:(reflexivity)
           positionKeyOf (fun fill => negb (isOpeningFill fill))
           (_createNewTrade insts) (_updateTradeWithFill insts) _closeTrade
           (processFill insts) (cm_processFill_eq insts)
           (StronglySorted fillBefore)
           binanceOpenInvariant (fun t => closedBooks t /\ feeBooks 1 t)).
  - intros fill rest Hs. inversion Hs; assumption.
  - intros fill rest t Hs (Htime & Hrest). split; [|exact Hrest].
    inversion Htime; assumption.
  - intros fill rest Hs _. apply cm_new_invariant. exact Hs.
  - intros fill rest t Hs Ht Hc.
    apply (books_step_open (_updateTradeWithFill insts) sideAgrees cmEvent
             (cm_update_cur insts) (cm_update_timeline insts) ltac:(reflexivity)
             cm_event_reduces (cm_update_status insts) (cm_update_entryTime insts)
             (cm_update_exitTime insts) (cm_update_durationMs insts)
             (cm_update_totalSize insts) (cm_update_closingSize insts)
             (cm_update_commission insts) (cm_update_rawFills insts));
      assumption.
  - intros fill rest t Hs Ht Hc.
    apply (books_step_close (_updateTradeWithFill insts) _closeTrade
             sideAgrees cmEvent
             (cm_update_cur insts) (cm_update_timeline insts) ltac:(reflexivity)
             cm_event_reduces (cm_update_status insts) (cm_update_entryTime insts)
             (cm_update_totalSize insts) (cm_update_closingSize insts)
             (cm_update_commission insts) (cm_update_rawFills insts)
             cm_close_books cm_close_feeBooks fill rest t);
      assumption.
  - apply byTime_fills_sorted. reflexivity.
  - split; constructor.
Qed.

End CmFields.
(** ** The linear-futures processor of Binance *)

Section UmFields.
Import BinanceTradeBuilder.

Ltac um_apply tr ev :=
  unfold isIncreaseAction, isReduceAction;
  destruct tr; unfold applyEvent;
  destruct (Action_eqb (action ev) OPEN || Action_eqb (action ev) ADD);
    [|destruct (Action_eqb (action ev) REDUCE || Action_eqb (action ev) CLOSE)];
  step_ifs; trade_simpl; reflexivity.

Lemma um_apply_cur tr ev l :
  _currentPositionSize (applyEvent tr ev l) =
    if isIncreaseAction ev then _currentPositionSize tr + size ev
    else if isReduceAction ev
         then _currentPositionSize tr - Qmin (size ev) (_currentPositionSize tr)
         else _currentPositionSize tr.
Proof. um_apply tr ev. Qed.

Lemma um_apply_totalSize tr ev l :
  totalSize (applyEvent tr ev l) =
    if isIncreaseAction ev then totalSize tr + size ev else totalSize tr.
Proof. um_apply tr ev. Qed.

Lemma um_apply_closingSize tr ev l :
  _closingSizeAccumulator (applyEvent tr ev l) =
    if isIncreaseAction ev then _closingSizeAccumulator tr
    else if isReduceAction ev
         then _closingSizeAccumulator tr
              + Qmin (size ev) (_currentPositionSize tr)
         else _closingSizeAccumulator tr.
Proof. um_apply tr ev. Qed.

Lemma um_apply_status tr ev l : status (applyEvent tr ev l) = status tr.
Proof. um_apply tr ev. Qed.

Lemma um_apply_entryTime tr ev l : entryTime (applyEvent tr ev l) = entryTime tr.
Proof. um_apply tr ev. Qed.

Lemma um_apply_exitTime tr ev l : exitTime (applyEvent tr ev l) = exitTime tr.
Proof. um_apply tr ev. Qed.

Lemma um_apply_durationMs tr ev l :
  durationMs (applyEvent tr ev l) = durationMs tr.
Proof. um_apply tr ev. Qed.

Lemma um_apply_commission tr ev l :
  totalCommission (applyEvent tr ev l) = totalCommission tr.
Proof. um_apply tr ev. Qed.

Lemma um_apply_timeline tr ev l :
  timeline (applyEvent tr ev l) = (timeline tr ++ [ev])%list.
Proof. um_apply tr ev. Qed.

Lemma um_apply_rawFills tr ev l : _rawFills (applyEvent tr ev l) = _rawFills tr.
Proof. um_apply tr ev. Qed.

(** The steps of [addFill] after [applyEvent]. *)
Ltac um_tail b fill :=
  unfold umCloses, umApplied, umEvent, umAction, isBuyFill;
  unfold addFill; cbv zeta;
  match goal with
  | |- context [applyEvent ?t ?e ?l] => generalize (applyEvent t e l)
  end;
  let tr1 := fresh "tr1" in
  intros tr1; destruct tr1;
  unfold closeTrade;
  cbv beta iota zeta delta [trade contractValue with_trade];
  step_ifs; trade_simpl; reflexivity.

Lemma um_addFill_cur b fill :
  _currentPositionSize (trade (addFill b fill)) =
    _currentPositionSize (umApplied b fill).
Proof. um_tail b fill. Qed.

Lemma um_addFill_totalSize b fill :
  totalSize (trade (addFill b fill)) = totalSize (umApplied b fill).
Proof. um_tail b fill. Qed.

Lemma um_addFill_closingSize b fill :
  _closingSizeAccumulator (trade (addFill b fill)) =
    _closingSizeAccumulator (umApplied b fill).
Proof. um_tail b fill. Qed.

Lemma um_addFill_entryTime b fill :
  entryTime (trade (addFill b fill)) = entryTime (umApplied b fill).
Proof. um_tail b fill. Qed.

Lemma um_addFill_status b fill :
  status (trade (addFill b fill)) =
    if umCloses b fill then CLOSED else status (umApplied b fill).
Proof. um_tail b fill. Qed.

Lemma um_addFill_exitTime b fill :
  exitTime (trade (addFill b fill)) =
    if umCloses b fill then f_ts fill else exitTime (umApplied b fill).
Proof. um_tail b fill. Qed.

Lemma um_addFill_durationMs b fill :
  durationMs (trade (addFill b fill)) =
    if umCloses b fill then (f_ts fill - entryTime (umApplied b fill))%Z
    else durationMs (umApplied b fill).
Proof. um_tail b fill. Qed.

Lemma um_addFill_commission b fill :
  totalCommission (trade (addFill b fill)) =
    totalCommission (umApplied b fill) + f_fee fill.
Proof. um_tail b fill. Qed.

Lemma um_addFill_timeline b fill :
  timeline (trade (addFill b fill)) =
    if umCloses b fill then closeLastEvent (timeline (umApplied b fill))
    else timeline (umApplied b fill).
Proof. um_tail b fill. Qed.

Lemma um_addFill_rawFills b fill :
  _rawFills (trade (addFill b fill)) = (_rawFills (umApplied b fill) ++ [fill])%list.
Proof. um_tail b fill. Qed.

Lemma um_apply_direction tr ev l : direction (applyEvent tr ev l) = direction tr.
Proof. um_apply tr ev. Qed.

Lemma um_addFill_direction b fill :
  direction (trade (addFill b fill)) = direction (umApplied b fill).
Proof. um_tail b fill. Qed.

Lemma um_addFill_contractValue b fill :
  contractValue (addFill b fill) = contractValue b.
Proof. destruct b. reflexivity. Qed.

Lemma um_increase_or_reduce b fill :
  isIncreaseAction (umEvent b fill) = negb (Action_eqb (umAction b fill) REDUCE)
  /\ isReduceAction (umEvent b fill) = Action_eqb (umAction b fill) REDUCE.
Proof.
  unfold isIncreaseAction, isReduceAction, umEvent. cbn [action].
  unfold umAction. destruct (timeline (trade b)); [split; reflexivity|].
  destruct (if TradeDirection_eqb _ _ then _ else _); split; reflexivity.
Qed.

Lemma closeLastEvent_fee tl : sumOf fee (closeLastEvent tl) == sumOf fee tl.
Proof.
  unfold closeLastEvent.
  destruct (rev tl) as [|e before] eqn:E.
  - apply (f_equal (@rev _)) in E. rewrite rev_involutive in E. subst.
    reflexivity.
  - apply (f_equal (@rev _)) in E. rewrite rev_involutive in E. subst.
    simpl. rewrite !sumOf_app. simpl. lra.
Qed.

Lemma um_builder_step fill rest b :
  StronglySorted fillBefore (fill :: rest) ->
  umBuilderInvariant (fill :: rest) b ->
  isClosed b = false ->
  umBuilderInvariant rest (addFill b fill).
Proof.
  intros Hs (Htime & Hbooks & (Hfee1 & Hfee2)) Hnc.
  inversion Htime as [|? ? Hentry Htime']; subst.
  assert (Hopen : openBooks (trade b)).
  { destruct Hbooks as [H|(Hst & _)]; [exact H|].
    unfold isClosed in Hnc. rewrite Hst in Hnc. discriminate. }
  destruct Hopen as (Hst & Hexit & Hdur & Hcur).
  destruct (um_increase_or_reduce b fill) as [Hinc Hred].
  unfold umBuilderInvariant, openBooks, closedBooksWithResidue, feeBooks.
  rewrite um_addFill_entryTime, um_addFill_status, um_addFill_exitTime,
    um_addFill_durationMs, um_addFill_cur, um_addFill_totalSize,
    um_addFill_closingSize, um_addFill_commission, um_addFill_timeline,
    um_addFill_rawFills.
  unfold umCloses, umApplied.
  rewrite um_apply_entryTime, um_apply_status, um_apply_exitTime,
    um_apply_durationMs, um_apply_cur, um_apply_totalSize,
    um_apply_closingSize, um_apply_commission, um_apply_timeline,
    um_apply_rawFills.
  rewrite Hinc, Hred. rewrite sumFees_app. cbn [sumFees fold_right].
  assert (Htl : sumOf fee (timeline (trade b) ++ [umEvent b fill])
                == sumOf fee (timeline (trade b)) + f_fee fill).
  { rewrite sumOf_app. simpl. lra. }
  destruct (Action_eqb (umAction b fill) REDUCE); simpl.
  - destruct (Qle_bool _ FLOATING_POINT_TOLERANCE) eqn:Hclose.
    + rewrite closeLastEvent_fee, Htl.
      apply Qle_bool_iff in Hclose.
      repeat (apply conj); try assumption; try lra.
      right. repeat (apply conj); try reflexivity; try lia; lra.
    + rewrite Htl.
      repeat (apply conj); try assumption; try lra.
      left. repeat (apply conj); try assumption. lra.
  - rewrite Htl.
    repeat (apply conj); try assumption; try lra.
    left. repeat (apply conj); try assumption. lra.
Qed.

End UmFields.
(** ** The books of the trades of the Binance processors *)

Lemma firstn_skipn_app {A : Type} (l1 l2 : list A) n :
  length l1 = n -> firstn n (l1 ++ l2) = l1 /\ skipn n (l1 ++ l2) = l2.
Proof.
  intros <-. induction l1 as [|x l1 [IH1 IH2]]; simpl; [split; reflexivity|].
  rewrite IH1, IH2. split; reflexivity.
Qed.

Section UmBooks.
Import BinanceTradeBuilder BinanceUMFuturesTradeProcessor.

Lemma um_processFill_eq insts st fill :
  processFill insts st fill =
    let init := mk (initializeTrade fill) (contractValueOf insts fill) in
    match JS.get (positionKeyOf fill) (openPositions st) with
    | None =>
        if negb (isOpeningFill fill) then st
        else
          if isClosed (addFill init fill)
          then mkState (closedTrades st ++ [getTrade (addFill init fill)])
                 (JS.delete (positionKeyOf fill)
                    (JS.set (positionKeyOf fill) (addFill init fill)
                       (openPositions st)))
          else mkState (closedTrades st)
                 (JS.set (positionKeyOf fill) (addFill init fill)
                    (openPositions st))
    | Some b =>
        if isClosed (addFill b fill)
        then mkState (closedTrades st ++ [getTrade (addFill b fill)])
               (JS.delete (positionKeyOf fill)
                  (JS.set (positionKeyOf fill) (addFill b fill) (openPositions st)))
        else mkState (closedTrades st)
               (JS.set (positionKeyOf fill) (addFill b fill) (openPositions st))
    end.
Proof. reflexivity. Qed.

Lemma um_fold_books insts fills :
  buildersInvariant isClosed (umBuilderInvariant [])
    (fun t => closedBooksWithResidue t /\ feeBooks 1 t)
    (closedTrades (processFills insts (JS.sort compareFills fills)))
    (openPositions (processFills insts (JS.sort compareFills fills))).
Proof.
  unfold processFills.
  apply (builders_fold_invariant FoldState BinanceTradeBuilder.t mkState
           closedTrades openPositions ltac:(reflexivity) ltac:(reflexivity)
           getTrade isClosed positionKeyOf (fun fill => negb (isOpeningFill fill))
           (fun fill => mk (initializeTrade fill) (contractValueOf insts fill))
           addFill (processFill insts) (um_processFill_eq insts)
           (StronglySorted fillBefore) umBuilderInvariant
           (fun t => closedBooksWithResidue t /\ feeBooks 1 t)).
  - intros fill rest Hs. inversion Hs; assumption.
  - intros fill rest b Hs (Htime & Hrest). split; [|exact Hrest].
    inversion Htime; assumption.
  - intros fill rest Hs _. split; [|reflexivity].
    inversion Hs as [|? ? Hs' Hall]; subst.
    unfold umBuilderInvariant, openBooks, feeBooks. cbn.
    split; [constructor; [lia | exact Hall]|].
    split; [left|]; repeat (apply conj); try reflexivity; lra.
  - intros fill rest b Hs Hb Hc. apply um_builder_step; assumption.
  - intros rest b (_ & Hbooks & Hfee) Hc. split; [|exact Hfee].
    destruct Hbooks as [(Hst & _)|H]; [|exact H].
    unfold isClosed in Hc. rewrite Hst in Hc. discriminate.
  - apply byTime_fills_sorted. reflexivity.
  - split; constructor.
Qed.

Lemma um_output_parts fills bills insts risks :
  exists closed open,
    processAllData fills bills insts risks = (closed ++ open)%list
    /\ forall Pc Po : StandardizedTrade -> Prop,
        keptByFunding Pc -> keptByFunding Po ->
        keptBy finalizeTrade Pc -> keptBy finalizeTrade Po ->
        Forall Pc
          (closedTrades
             (processFills (indexInstruments insts)
                (JS.sort compareFills fills))) ->
        Forall (fun b => Po (getTrade b))
          (JS.values
             (openPositions
                (processFills (indexInstruments insts)
                   (JS.sort compareFills fills)))) ->
        Forall Pc closed /\ Forall Po open.
Proof.
  unfold processAllData. cbv zeta.
  set (st := processFills (indexInstruments insts) (JS.sort compareFills fills)).
  rewrite um_apply_allTrades. unfold finalizeMetrics.
  set (all := applyBillsFirstMatch bills (allTradesOf st)).
  exists (map finalizeTrade (firstn (length (closedTrades st)) all)),
         (map finalizeTrade (skipn (length (closedTrades st)) all)).
  split; [rewrite <- map_app, firstn_skipn; reflexivity|].
  intros Pc Po Hfc Hfo Hc Ho HPc HPo.
  destruct (applyBills_parts Pc Po bills Hfc Hfo
              (closedTrades st) (map getTrade (JS.values (openPositions st)))
              HPc)
    as (l1 & l2 & E & Hlen & H1 & H2).
  { apply Forall_map_intro. intros b Hb.
    rewrite Forall_forall in HPo. exact (HPo b Hb). }
  unfold all, allTradesOf. rewrite E.
  destruct (firstn_skipn_app l1 l2 _ Hlen) as [-> ->].
  split; apply Forall_map_intro; intros t Ht.
  - apply Hc. rewrite Forall_forall in H1. exact (H1 t Ht).
  - apply Ho. rewrite Forall_forall in H2. exact (H2 t Ht).
Qed.

Lemma um_finalize_kept (P : StandardizedTrade -> Prop) :
  (forall v t, P t -> P (set_timeline v t)) ->
  (forall v t, P t -> P (set_netPnl v t)) ->
  (forall v t, P t -> P (set_pnlPercentage v t)) ->
  keptBy finalizeTrade P.
Proof.
  intros Htl Hnp Hpp t Ht. unfold finalizeTrade.
  break_ifs; apply Hpp, Hnp, Htl; exact Ht.
Qed.

Lemma um_finalize_feeBooks s : keptBy finalizeTrade (feeBooks s).
Proof.
  intros t [H1 H2]. unfold finalizeTrade, feeBooks.
  break_ifs; trade_simpl; (split; [|exact H2]);
    unfold TimelineUtils.aggregateEvents;
    rewrite (aggregateEventsWithin_sum fee _ _ mergeGroup_fee); exact H1.
Qed.

Lemma um_open_books insts fills :
  Forall (fun b => openBooks (getTrade b) /\ feeBooks 1 (getTrade b))
    (JS.values (openPositions (processFills insts (JS.sort compareFills fills)))).
Proof.
  destruct (um_fold_books insts fills) as [Hopen _].
  eapply Forall_impl; [|exact Hopen].
  intros b [(_ & Hbooks & Hfee) Hnc]. split; [|exact Hfee].
  destruct Hbooks as [H|(Hst & _)]; [exact H|].
  unfold isClosed in Hnc. unfold getTrade in *. rewrite Hst in Hnc. discriminate.
Qed.

End UmBooks.

Section CmBooks.
Import BinanceCMFuturesTradeProcessor.

Lemma cm_applyRisk_kept (P : StandardizedTrade -> Prop) risks open :
  keptByRisk P ->
  Forall P (JS.values open) ->
  Forall P (JS.values (fold_left applyRisk risks open)).
Proof.
  intros HP Hopen.
  apply (fold_left_invariant (fun m => Forall P (JS.values m))); [exact Hopen|].
  intros m r Hm. unfold applyRisk.
  destruct (JS.get _ m) as [t|] eqn:Hget; [|exact Hm].
  apply Forall_values_set; [exact Hm|].
  apply HP. exact (Forall_values_get _ _ _ _ Hm Hget).
Qed.

Lemma cm_output_parts fills bills insts risks :
  exists closed open,
    processAllData fills bills insts risks = (closed ++ open)%list
    /\ forall Pc Po : StandardizedTrade -> Prop,
        keptByFunding Pc -> keptByFunding Po -> keptByRisk Po ->
        keptBy finalizeTrade Pc -> keptBy finalizeTrade Po ->
        Forall Pc
          (closedTrades
             (_processFillsAndAggregateTrades (indexInstruments insts)
                (JS.sort compareFills fills))) ->
        Forall Po
          (JS.values
             (openPositions
                (_processFillsAndAggregateTrades (indexInstruments insts)
                   (JS.sort compareFills fills)))) ->
        Forall Pc closed /\ Forall Po open.
Proof.
  unfold processAllData. cbv zeta.
  set (st := _processFillsAndAggregateTrades (indexInstruments insts)
               (JS.sort compareFills fills)).
  unfold _finalizeTradeMetrics, allTradesOf at 1, _applyBillsAndRisks.
  cbn [closedTrades openPositions]. rewrite map_app.
  eexists. eexists. split; [reflexivity|].
  intros Pc Po Hfc Hfo Hro Hc Ho HPc HPo.
  destruct (applyBills_parts Pc Po bills Hfc Hfo
              (closedTrades st) (JS.values (openPositions st)) HPc HPo)
    as (l1 & l2 & E & Hlen & H1 & H2).
  assert (Hlen2 : length l2 = length (openPositions st)).
  { apply (f_equal (@length _)) in E.
    rewrite applyBillsFirstMatch_length, !length_app in E.
    unfold JS.values in E. rewrite length_map in E. lia. }
  unfold allTradesOf. rewrite E.
  destruct (firstn_skipn_app l1 l2 _ Hlen) as [-> ->].
  split; apply Forall_map_intro; intros t Ht.
  - apply Hc. rewrite Forall_forall in H1. exact (H1 t Ht).
  - apply Ho.
    assert (H : Forall Po
                  (JS.values
                     (fold_left applyRisk risks
                        (replaceValues (fun _ trade => trade)
                           (openPositions st) l2)))).
    { apply cm_applyRisk_kept; [exact Hro|].
      rewrite <- (map_id (JS.values _)).
      rewrite (replaceValues_values _ (fun t => t)); auto. }
    rewrite Forall_forall in H. exact (H t Ht).
Qed.

Lemma cm_finalize_kept (P : StandardizedTrade -> Prop) :
  (forall v t, P t -> P (set_timeline v t)) ->
  (forall v t, P t -> P (set_netPnl v t)) ->
  (forall v t, P t -> P (set_pnlPercentage v t)) ->
  keptBy finalizeTrade P.
Proof.
  intros Htl Hnp Hpp t Ht. unfold finalizeTrade.
  break_ifs; apply Hpp, Hnp, Htl; exact Ht.
Qed.

Lemma cm_finalize_feeBooks s : keptBy finalizeTrade (feeBooks s).
Proof.
  intros t [H1 H2]. unfold finalizeTrade, feeBooks.
  break_ifs; trade_simpl; (split; [|exact H2]);
    rewrite (aggregateTimelineEvents_sum fee _ mergeEvents_fee); exact H1.
Qed.

End CmBooks.

(** Over the exact rationals of the embedding: the books of the trades
    of the spot and of the inverse-futures processor. *)
Lemma spot_and_inverse_closed_then_open_books fills bills insts risks :
  (exists closed open,
     BinanceSpotTradeProcessor.processAllData fills bills insts risks
       = (closed ++ open)%list
     /\ Forall closedBooks closed /\ Forall openBooks open)
  /\ (exists closed open,
        BinanceCMFuturesTradeProcessor.processAllData fills bills insts risks
          = (closed ++ open)%list
        /\ Forall closedBooks closed /\ Forall openBooks open).
Proof.
  split.
  - destruct (spot_output_parts fills bills insts risks)
      as (closed & open & Hout & Hparts).
    exists closed, open. split; [exact Hout|].
    destruct (spot_fold_books (indexInstruments insts) fills) as [Ho Hc].
    apply Hparts.
    + intros t H. apply spot_finalize_kept; try (intros v t0 H0; exact H0).
      exact H.
    + intros t H. apply spot_finalize_kept; try (intros v t0 H0; exact H0).
      exact H.
    + eapply Forall_impl; [|exact Hc]. intros t [H _]. exact H.
    + eapply Forall_impl; [|exact Ho]. intros t (_ & H & _). exact H.
  - destruct (cm_output_parts fills bills insts risks)
      as (closed & open & Hout & Hparts).
    exists closed, open. split; [exact Hout|].
    destruct (cm_fold_books (indexInstruments insts) fills) as [Ho Hc].
    apply Hparts.
    + split; intros t v H; exact H.
    + split; intros t v H; exact H.
    + intros t H v. exact H.
    + apply cm_finalize_kept; intros v t H; exact H.
    + apply cm_finalize_kept; intros v t H; exact H.
    + eapply Forall_impl; [|exact Hc]. intros t [H _]. exact H.
    + eapply Forall_impl; [|exact Ho]. intros t (_ & H & _). exact H.
Qed.

(** X11: the spot and the inverse-futures processors of Binance return
    the closed trades first and the open trades after them.  A closed
    trade has status [CLOSED], a duration that is its exit time less its
    entry time and is not negative, and a running size of zero; an open
    trade has status [OPEN], no exit time and no duration. *)
Theorem spot_and_inverse_closed_then_open_records fills bills insts risks :
  (exists closed open,
     BinanceSpotTradeProcessor.processAllData fills bills insts risks
       = (closed ++ open)%list
     /\ Forall (fun t => closedRecord t /\ _currentPositionSize t = 0) closed
     /\ Forall openRecord open)
  /\ (exists closed open,
        BinanceCMFuturesTradeProcessor.processAllData fills bills insts risks
          = (closed ++ open)%list
        /\ Forall (fun t => closedRecord t /\ _currentPositionSize t = 0) closed
        /\ Forall openRecord open).
Proof.
  destruct (spot_and_inverse_closed_then_open_books fills bills insts risks)
    as [(c1 & o1 & Hout1 & Hc1 & Ho1) (c2 & o2 & Hout2 & Hc2 & Ho2)].
  split.
  - exists c1, o1. split; [exact Hout1|]. split.
    + eapply Forall_impl; [|exact Hc1].
      intros t (H1 & H2 & H3 & H4 & _). repeat (apply conj); assumption.
    + eapply Forall_impl; [|exact Ho1].
      intros t (H1 & H2 & H3 & _). repeat (apply conj); assumption.
  - exists c2, o2. split; [exact Hout2|]. split.
    + eapply Forall_impl; [|exact Hc2].
      intros t (H1 & H2 & H3 & H4 & _). repeat (apply conj); assumption.
    + eapply Forall_impl; [|exact Ho2].
      intros t (H1 & H2 & H3 & _). repeat (apply conj); assumption.
Qed.

(** Over the exact rationals of the embedding: the books of the trades
    of the linear-futures processor. *)
Lemma linear_closed_then_open_books fills bills insts risks :
  exists closed open,
    BinanceUMFuturesTradeProcessor.processAllData fills bills insts risks
      = (closed ++ open)%list
    /\ Forall closedBooksWithResidue closed
    /\ Forall openBooks open.
Proof.
  destruct (um_output_parts fills bills insts risks)
    as (closed & open & Hout & Hparts).
  exists closed, open. split; [exact Hout|].
  destruct (um_fold_books (indexInstruments insts) fills) as [_ Hc].
  apply Hparts.
  - split; intros t v H; exact H.
  - split; intros t v H; exact H.
  - apply um_finalize_kept; intros v t H; exact H.
  - apply um_finalize_kept; intros v t H; exact H.
  - eapply Forall_impl; [|exact Hc]. intros t [H _]. exact H.
  - eapply Forall_impl; [|apply um_open_books]. intros b [H _]. exact H.
Qed.

(** X12: the linear-futures processor of Binance returns the closed
    trades first and the open trades after them.  Its closed trades have
    status [CLOSED] and a duration that is the exit time less the entry
    time and is not negative but, unlike those of the other processors,
    keep the running size at which they were closed, which is within
    the tolerance; its open trades have status [OPEN], no exit time and
    no duration. *)
Theorem linear_closed_then_open_records fills bills insts risks :
  exists closed open,
    BinanceUMFuturesTradeProcessor.processAllData fills bills insts risks
      = (closed ++ open)%list
    /\ Forall (fun t => closedRecord t
                        /\ _currentPositionSize t <= FLOATING_POINT_TOLERANCE)
         closed
    /\ Forall openRecord open.
Proof.
  destruct (linear_closed_then_open_books fills bills insts risks)
    as (closed & open & Hout & Hclosed & Hopen).
  exists closed, open. split; [exact Hout|]. split.
  - eapply Forall_impl; [|exact Hclosed].
    intros t (H1 & H2 & H3 & _ & H5). repeat (apply conj); assumption.
  - eapply Forall_impl; [|exact Hopen].
    intros t (H1 & H2 & H3 & _). repeat (apply conj); assumption.
Qed.
(** ** No trade without fills *)

Section NoFills.

Lemma okx_applyRisk_empty positions :
  fold_left OkxUMFuturesTradeProcessor.applyRisk positions [] = [].
Proof. induction positions as [|p ps IH]; simpl; [reflexivity | exact IH]. Qed.

Lemma cm_applyRisk_empty risks :
  fold_left BinanceCMFuturesTradeProcessor.applyRisk risks [] = [].
Proof. induction risks as [|r rs IH]; simpl; [reflexivity | exact IH]. Qed.

Lemma applyBillsFirstMatch_empty bills : applyBillsFirstMatch bills [] = [].
Proof.
  unfold applyBillsFirstMatch.
  induction bills as [|b bills IH]; simpl; [reflexivity|].
  destruct (String.eqb _ _); exact IH.
Qed.

End NoFills.

(** X15: without fills no processor returns a trade, whatever the
    bills, the instruments and the position snapshots. *)
Theorem no_fills_no_trades bills insts positions risks :
  OkxUMFuturesTradeProcessor.processAllData [] bills insts positions = []
  /\ BinanceUMFuturesTradeProcessor.processAllData [] bills insts risks = []
  /\ BinanceCMFuturesTradeProcessor.processAllData [] bills insts risks = []
  /\ BinanceSpotTradeProcessor.processAllData [] bills insts risks = []
  /\ BinanceMarginTradeProcessor.processAllData [] bills insts risks = [].
Proof.
  repeat (apply conj).
  - unfold OkxUMFuturesTradeProcessor.processAllData,
      OkxUMFuturesTradeProcessor.applyBillsAndRisks,
      OkxUMFuturesTradeProcessor.allTradesOf. simpl.
    rewrite okx_applyRisk_empty. reflexivity.
  - unfold BinanceUMFuturesTradeProcessor.processAllData. cbv zeta.
    rewrite um_apply_allTrades. simpl.
    rewrite applyBillsFirstMatch_empty. reflexivity.
  - unfold BinanceCMFuturesTradeProcessor.processAllData,
      BinanceCMFuturesTradeProcessor._applyBillsAndRisks,
      BinanceCMFuturesTradeProcessor.allTradesOf. simpl.
    rewrite applyBillsFirstMatch_empty. simpl.
    rewrite cm_applyRisk_empty. reflexivity.
  - reflexivity.
  - reflexivity.
Qed.
(** ** The margin processor *)

Section MarginBooks.
Import BinanceMarginTradeProcessor.

Ltac margin_fast tr fill :=
  unfold marginIsIncrease, marginReduced;
  destruct tr;
  unfold _updateTradeWithFill;
  trade_simpl;
  match goal with
  | |- context [TradeDirection_eqb ?d LONG] => destruct d
  end;
  destruct (String.eqb (JS.toLowerCase (f_side fill)) "buy");
  step_ifs; trade_simpl; reflexivity.

Lemma margin_update_exitTime tr fill b :
  exitTime (_updateTradeWithFill tr fill b) = exitTime tr.
Proof. margin_fast tr fill. Qed.

Lemma margin_update_durationMs tr fill b :
  durationMs (_updateTradeWithFill tr fill b) = durationMs tr.
Proof. margin_fast tr fill. Qed.

Lemma margin_update_closingSize tr fill b :
  _closingSizeAccumulator (_updateTradeWithFill tr fill b) =
    if marginIsIncrease tr fill then _closingSizeAccumulator tr
    else _closingSizeAccumulator tr + f_fillSz fill.
Proof. margin_fast tr fill. Qed.

Lemma margin_closesNow t fill b :
  marginClosesNow (_updateTradeWithFill t fill b) =
    negb (marginIsIncrease t fill)
    && Qle_bool (Qabs (marginReduced t fill)) FLOATING_POINT_TOLERANCE.
Proof.
  unfold marginClosesNow.
  rewrite margin_update_cur, margin_update_timeline, lastIsReduceOrClose_snoc.
  cbn [action].
  destruct (marginIsIncrease t fill); simpl.
  - destruct (JS.Qgtb _ 0 && negb b); simpl; apply andb_false_r.
  - destruct (Qle_bool (Qabs (marginReduced t fill)) FLOATING_POINT_TOLERANCE)
      eqn:E; simpl; [reflexivity|]. rewrite E. reflexivity.
Qed.

Lemma margin_feeBooks_update t fill b :
  feeBooks 1 t -> feeBooks 1 (_updateTradeWithFill t fill b).
Proof.
  intros [H1 H2]. unfold feeBooks.
  rewrite margin_update_commission, margin_update_timeline,
    margin_update_rawFills, sumOf_app, sumFees_app.
  cbn [sumOf sumFees fold_right fee]. split; lra.
Qed.

Lemma margin_close_books t ts :
  status t = OPEN_ -> (entryTime t <= ts)%Z ->
  _currentPositionSize t = 0 ->
  totalSize t - _closingSizeAccumulator t <= FLOATING_POINT_TOLERANCE ->
  closedBooks (_closeTrade t ts).
Proof.
  intros Hst Hts Hcur Htot. unfold closedBooks, _closeTrade.
  break_ifs; trade_simpl; repeat (apply conj); try reflexivity;
    try assumption; lia.
Qed.

Lemma margin_close_feeBooks s t ts : feeBooks s t -> feeBooks s (_closeTrade t ts).
Proof. intros H. unfold _closeTrade. break_ifs; exact H. Qed.

(** The absolute value of a running size that has the sign of the
    direction. *)
Lemma marginSigned_abs t :
  marginSigned t ->
  Qabs (_currentPositionSize t)
  == (if TradeDirection_eqb (direction t) LONG
      then _currentPositionSize t else - _currentPositionSize t).
Proof.
  intros [HL HS]. destruct (direction t); simpl.
  - apply Qabs_pos. auto.
  - apply Qabs_neg. auto.
Qed.

Lemma flipOf_none t fill :
  marginSigned t -> flipOf t fill = None ->
  marginIsIncrease t fill = true
  \/ f_fillSz fill
     <= Qabs (_currentPositionSize t) + FLOATING_POINT_TOLERANCE.
Proof.
  intros Hs. pose proof (marginSigned_abs t Hs) as Habs.
  unfold flipOf, marginIsIncrease.
  destruct (direction t); simpl in *;
    destruct (String.eqb (JS.toLowerCase (f_side fill)) "buy"); simpl;
    try (intros _; left; reflexivity).
  - destruct (JS.Qgtb _ _) eqn:E; [discriminate|]. intros _. right.
    apply Qgtb_false in E. lra.
  - destruct (JS.Qgtb _ _) eqn:E; [discriminate|]. intros _. right.
    apply Qgtb_false in E. lra.
Qed.

Lemma flipOf_some t fill c o :
  marginSigned t -> flipOf t fill = Some (c, o) ->
  marginIsIncrease t fill = false
  /\ c == Qabs (_currentPositionSize t)
  /\ o == f_fillSz fill - c
  /\ Qabs (_currentPositionSize t) + FLOATING_POINT_TOLERANCE < f_fillSz fill.
Proof.
  intros Hs. pose proof (marginSigned_abs t Hs) as Habs.
  unfold flipOf, marginIsIncrease.
  destruct (direction t); simpl in *;
    destruct (String.eqb (JS.toLowerCase (f_side fill)) "buy"); simpl;
    try discriminate.
  - destruct (JS.Qgtb _ _) eqn:E; [|discriminate]. intros H.
    injection H as <- <-. apply Qgtb_true in E.
    repeat (apply conj); try reflexivity; lra.
  - destruct (JS.Qgtb _ _) eqn:E; [|discriminate]. intros H.
    injection H as <- <-. apply Qgtb_true in E.
    repeat (apply conj); try reflexivity; lra.
Qed.

(** The running size after a fill that does not close the trade. *)
Lemma margin_books_increase t fill b :
  marginOpenBooks t -> 0 <= f_fillSz fill ->
  marginIsIncrease t fill = true ->
  marginOpenBooks (_updateTradeWithFill t fill b).
Proof.
  intros (Hst & Hexit & Hdur & Hsign & Hcur) Hsz Hinc.
  pose proof (marginSigned_abs t Hsign) as Habs.
  unfold marginOpenBooks, marginSigned.
  rewrite margin_update_status, margin_update_exitTime,
    margin_update_durationMs, margin_update_direction, margin_update_cur,
    margin_update_totalSize, margin_update_closingSize, Hinc.
  destruct Hsign as [HL HS].
  destruct (direction t) eqn:Hd; cbn [TradeDirection_eqb] in *.
  - specialize (HL eq_refl).
    assert (E : Qabs (_currentPositionSize t + f_fillSz fill)
                == _currentPositionSize t + f_fillSz fill)
      by (apply Qabs_pos; lra).
    repeat (apply conj); try assumption; try (intros; lra); try discriminate.
  - specialize (HS eq_refl).
    assert (E : Qabs (_currentPositionSize t - f_fillSz fill)
                == - (_currentPositionSize t - f_fillSz fill))
      by (apply Qabs_neg; lra).
    repeat (apply conj); try assumption; try (intros; lra); try discriminate.
Qed.

Lemma margin_books_reduce t fill b :
  marginOpenBooks t ->
  marginIsIncrease t fill = false ->
  f_fillSz fill <= Qabs (_currentPositionSize t) + FLOATING_POINT_TOLERANCE ->
  Qle_bool (Qabs (marginReduced t fill)) FLOATING_POINT_TOLERANCE = false ->
  marginOpenBooks (_updateTradeWithFill t fill b).
Proof.
  intros (Hst & Hexit & Hdur & Hsign & Hcur) Hinc Hle Hc.
  pose proof (marginSigned_abs t Hsign) as Habs.
  pose proof tolerance_pos as Htol.
  unfold marginOpenBooks, marginSigned.
  rewrite margin_update_status, margin_update_exitTime,
    margin_update_durationMs, margin_update_direction, margin_update_cur,
    margin_update_totalSize, margin_update_closingSize, Hinc, Hc.
  apply Qle_bool_false in Hc. unfold marginReduced in *.
  destruct Hsign as [HL HS].
  destruct (direction t) eqn:Hd; cbn [TradeDirection_eqb] in *.
  - specialize (HL eq_refl).
    assert (Hpos : FLOATING_POINT_TOLERANCE
                   < _currentPositionSize t - f_fillSz fill).
    { destruct (Qlt_le_dec (_currentPositionSize t - f_fillSz fill) 0) as [Hn|Hp].
      - assert (E : Qabs (_currentPositionSize t - f_fillSz fill)
                    == - (_currentPositionSize t - f_fillSz fill))
          by (apply Qabs_neg; lra).
        lra.
      - assert (E : Qabs (_currentPositionSize t - f_fillSz fill)
                    == _currentPositionSize t - f_fillSz fill)
          by (apply Qabs_pos; lra).
        lra. }
    assert (E : Qabs (_currentPositionSize t - f_fillSz fill)
                == _currentPositionSize t - f_fillSz fill)
      by (apply Qabs_pos; lra).
    repeat (apply conj); try assumption; try (intros; lra); try discriminate.
  - specialize (HS eq_refl).
    assert (Hneg : _currentPositionSize t + f_fillSz fill
                   < - FLOATING_POINT_TOLERANCE).
    { destruct (Qlt_le_dec (_currentPositionSize t + f_fillSz fill) 0) as [Hn|Hp].
      - assert (E : Qabs (_currentPositionSize t + f_fillSz fill)
                    == - (_currentPositionSize t + f_fillSz fill))
          by (apply Qabs_neg; lra).
        lra.
      - assert (E : Qabs (_currentPositionSize t + f_fillSz fill)
                    == _currentPositionSize t + f_fillSz fill)
          by (apply Qabs_pos; lra).
        lra. }
    assert (E : Qabs (_currentPositionSize t + f_fillSz fill)
                == - (_currentPositionSize t + f_fillSz fill))
      by (apply Qabs_neg; lra).
    repeat (apply conj); try assumption; try (intros; lra); try discriminate.
Qed.

Lemma margin_step_open fill rest t b :
  marginOpenInvariant (fill :: rest) t ->
  0 <= f_fillSz fill ->
  flipOf t fill = None ->
  marginClosesNow (_updateTradeWithFill t fill b) = false ->
  marginOpenInvariant rest (_updateTradeWithFill t fill b).
Proof.
  intros (Htime & Hbooks & Hfee) Hsz Hflip Hc.
  inversion Htime as [|? ? Hentry Htime']; subst.
  rewrite margin_closesNow in Hc.
  split; [rewrite margin_update_entryTime; exact Htime'|].
  split; [|apply margin_feeBooks_update; exact Hfee].
  assert (Hsign : marginSigned t) by (destruct Hbooks as (_ & _ & _ & H & _); exact H).
  destruct (marginIsIncrease t fill) eqn:Hinc.
  - apply margin_books_increase; assumption.
  - destruct (flipOf_none t fill Hsign Hflip) as [H|Hle]; [congruence|].
    simpl in Hc. apply margin_books_reduce; assumption.
Qed.

(** A fill that closes the trade. *)
Lemma margin_step_close fill rest t b :
  marginOpenInvariant (fill :: rest) t ->
  marginClosesNow (_updateTradeWithFill t fill b) = true ->
  closedBooks (_closeTrade (_updateTradeWithFill t fill b) (f_ts fill))
  /\ feeBooks 1 (_closeTrade (_updateTradeWithFill t fill b) (f_ts fill)).
Proof.
  intros (Htime & (Hst & Hexit & Hdur & Hsign & Hcur) & Hfee) Hc.
  inversion Htime as [|? ? Hentry Htime']; subst.
  rewrite margin_closesNow in Hc.
  apply andb_true_iff in Hc. destruct Hc as [Hinc Hclose].
  apply negb_true_iff in Hinc.
  pose proof (marginSigned_abs t Hsign) as Habs.
  split; [|apply margin_close_feeBooks, margin_feeBooks_update; exact Hfee].
  apply margin_close_books.
  - rewrite margin_update_status. exact Hst.
  - rewrite margin_update_entryTime. exact Hentry.
  - rewrite margin_update_cur, Hinc, Hclose. reflexivity.
  - rewrite margin_update_totalSize, margin_update_closingSize, Hinc.
    apply Qle_bool_iff in Hclose. unfold marginReduced in Hclose.
    destruct (direction t); cbn [TradeDirection_eqb] in *.
    + pose proof (Qle_Qabs (_currentPositionSize t - f_fillSz fill)). lra.
    + pose proof (Qle_Qabs (- (_currentPositionSize t + f_fillSz fill))) as H.
      rewrite Qabs_opp in H. lra.
Qed.

(** The first fill of a trade. *)
Lemma margin_first_fill insts fill rest b :
  StronglySorted fillBefore (fill :: rest) -> 0 <= f_fillSz fill ->
  marginOpenInvariant rest
    (_updateTradeWithFill (_createNewTrade insts fill) fill b).
Proof.
  intros Hs Hsz. inversion Hs as [|? ? Hs' Hall]; subst.
  split; [rewrite margin_update_entryTime; exact Hall|].
  split.
  - apply margin_books_increase; [|exact Hsz|].
    + unfold marginOpenBooks, marginSigned. cbn.
      repeat (apply conj); try reflexivity; intros; lra.
    + unfold marginIsIncrease, _createNewTrade. cbn [direction].
      destruct (String.eqb (JS.toLowerCase (f_side fill)) "buy"); reflexivity.
  - apply margin_feeBooks_update. unfold feeBooks. cbn. split; lra.
Qed.

(** The two parts of a flip. *)
Lemma margin_flip_closes fill rest t c o :
  marginOpenInvariant (fill :: rest) t ->
  flipOf t fill = Some (c, o) ->
  closedBooks
    (_closeTrade (_updateTradeWithFill t (with_fillSz c fill) false) (f_ts fill))
  /\ feeBooks 1
       (_closeTrade (_updateTradeWithFill t (with_fillSz c fill) false)
          (f_ts fill)).
Proof.
  intros (Htime & (Hst & Hexit & Hdur & Hsign & Hcur) & Hfee) Hflip.
  inversion Htime as [|? ? Hentry Htime']; subst.
  destruct (flipOf_some t fill c o Hsign Hflip) as (Hinc & Hc & Ho & Hgt).
  pose proof (marginSigned_abs t Hsign) as Habs.
  pose proof tolerance_pos as Htol.
  assert (Hinc' : marginIsIncrease t (with_fillSz c fill) = false) by exact Hinc.
  assert (Hzero : marginReduced t (with_fillSz c fill) == 0).
  { unfold marginReduced. cbn [f_fillSz with_fillSz].
    destruct (direction t); cbn [TradeDirection_eqb] in *; lra. }
  assert (Hclose : Qle_bool (Qabs (marginReduced t (with_fillSz c fill)))
                     FLOATING_POINT_TOLERANCE = true).
  { apply Qle_bool_iff. rewrite Hzero. simpl. lra. }
  split; [|apply margin_close_feeBooks, margin_feeBooks_update; exact Hfee].
  apply margin_close_books.
  - rewrite margin_update_status. exact Hst.
  - rewrite margin_update_entryTime. exact Hentry.
  - rewrite margin_update_cur, Hinc', Hclose. reflexivity.
  - rewrite margin_update_totalSize, margin_update_closingSize, Hinc'.
    cbn [f_fillSz with_fillSz]. lra.
Qed.

Lemma margin_flip_opens insts fill rest t c o :
  StronglySorted fillBefore (fill :: rest) ->
  marginOpenInvariant (fill :: rest) t ->
  flipOf t fill = Some (c, o) ->
  marginOpenInvariant rest
    (_updateTradeWithFill (_createNewTrade insts (with_fillSz o fill))
       (with_fillSz o fill) true).
Proof.
  intros Hs (_ & (_ & _ & _ & Hsign & _) & _) Hflip.
  destruct (flipOf_some t fill c o Hsign Hflip) as (_ & Hc & Ho & Hgt).
  pose proof tolerance_pos as Htol.
  pose proof (Qabs_nonneg (_currentPositionSize t)) as Hnn.
  apply margin_first_fill.
  - inversion Hs as [|? ? Hs' Hall]; subst. constructor; assumption.
  - cbn [f_fillSz with_fillSz]. lra.
Qed.

Lemma margin_processFill_invariant insts fill rest st :
  marginFillsOk (fill :: rest) ->
  tradesInvariant (marginOpenInvariant (fill :: rest))
    (fun t => closedBooks t /\ feeBooks 1 t)
    (closedTrades st) (openPositions st) ->
  tradesInvariant (marginOpenInvariant rest)
    (fun t => closedBooks t /\ feeBooks 1 t)
    (closedTrades (processFill insts st fill))
    (openPositions (processFill insts st fill)).
Proof.
  intros [Hs Hpos] [Hopen Hclosed].
  inversion Hpos as [|? ? Hsz Hpos']; subst.
  assert (Hopen' : Forall (marginOpenInvariant rest) (JS.values (openPositions st))).
  { eapply Forall_impl; [|exact Hopen]. intros t (Htime & Hrest).
    split; [inversion Htime; assumption | exact Hrest]. }
  unfold processFill. cbv zeta.
  destruct (JS.get (positionKeyOf fill) (openPositions st)) as [t|] eqn:Hget.
  - pose proof (Forall_values_get _ _ _ _ Hopen Hget) as Ht.
    destruct (flipOf t fill) as [[c o]|] eqn:Hflip.
    + cbn [closedTrades openPositions]. split.
      * apply Forall_values_set; [exact Hopen'|].
        eapply margin_flip_opens; eassumption.
      * apply Forall_app. split; [exact Hclosed|].
        constructor; [|constructor].
        eapply margin_flip_closes; eassumption.
    + fold (marginClosesNow (_updateTradeWithFill t fill false)).
      destruct (marginClosesNow (_updateTradeWithFill t fill false)) eqn:Hc;
        cbn [closedTrades openPositions].
      * split.
        -- rewrite delete_set_same. apply Forall_values_delete. exact Hopen'.
        -- apply Forall_app. split; [exact Hclosed|].
           constructor; [|constructor].
           eapply margin_step_close; eassumption.
      * split; [|exact Hclosed].
        apply Forall_values_set; [exact Hopen'|].
        apply margin_step_open; assumption.
  - cbn [closedTrades openPositions]. split; [|exact Hclosed].
    apply Forall_values_set; [exact Hopen'|].
    apply margin_first_fill; assumption.
Qed.

Lemma margin_fold_invariant insts fills :
  forall st, marginFillsOk fills ->
  tradesInvariant (marginOpenInvariant fills)
    (fun t => closedBooks t /\ feeBooks 1 t)
    (closedTrades st) (openPositions st) ->
  tradesInvariant (marginOpenInvariant [])
    (fun t => closedBooks t /\ feeBooks 1 t)
    (closedTrades (fold_left (processFill insts) fills st))
    (openPositions (fold_left (processFill insts) fills st)).
Proof.
  induction fills as [|fill rest IH]; intros st Hok Hinv; simpl.
  - exact Hinv.
  - apply IH.
    + destruct Hok as [Hs Hpos]. split.
      * inversion Hs; assumption.
      * inversion Hpos; assumption.
    + apply margin_processFill_invariant; assumption.
Qed.

Lemma margin_finalize_kept (P : StandardizedTrade -> Prop) :
  (forall v t, P t -> P (set_timeline v t)) ->
  (forall v t, P t -> P (set_netPnl v t)) ->
  (forall v t, P t -> P (set_pnlPercentage v t)) ->
  keptBy finalizeTrade P.
Proof.
  intros Htl Hnp Hpp t Ht. unfold finalizeTrade.
  break_ifs; apply Hpp, Hnp, Htl; exact Ht.
Qed.

Lemma margin_finalize_feeBooks s : keptBy finalizeTrade (feeBooks s).
Proof.
  intros t [H1 H2]. unfold finalizeTrade, feeBooks.
  break_ifs; trade_simpl; (split; [|exact H2]);
    rewrite (aggregateTimelineEvents_sum fee _ mergeEvents_fee); exact H1.
Qed.

End MarginBooks.

(** Over the exact rationals of the embedding: the books of the trades
    of the margin processor, when no fill has a negative size. *)
Lemma margin_closed_then_open_books fills bills insts risks :
  Forall (fun f => 0 <= f_fillSz f) fills ->
  exists closed open,
    BinanceMarginTradeProcessor.processAllData fills bills insts risks
      = (closed ++ open)%list
    /\ Forall (fun t => closedBooks t /\ feeBooks 1 t) closed
    /\ Forall (fun t => marginOpenBooks t /\ feeBooks 1 t) open.
Proof.
  intros Hpos.
  unfold BinanceMarginTradeProcessor.processAllData. cbv zeta.
  unfold BinanceMarginTradeProcessor._finalizeTradeMetrics,
    BinanceMarginTradeProcessor.allTradesOf.
  rewrite map_app. eexists. eexists. split; [reflexivity|].
  assert (Hok : marginFillsOk
                  (JS.sort BinanceMarginTradeProcessor.compareFills fills)).
  { split.
    - apply byTime_fills_sorted. reflexivity.
    - rewrite Forall_forall in *. intros f Hf. apply Hpos.
      eapply Permutation_in; [apply sort_perm | exact Hf]. }
  destruct (margin_fold_invariant (indexInstruments insts) _
              (BinanceMarginTradeProcessor.mkState [] []) Hok)
    as [Ho Hc]; [split; constructor|].
  split; apply Forall_map_intro; intros t Ht.
  - rewrite Forall_forall in Hc. destruct (Hc t Ht) as [H1 H2]. split.
    + apply margin_finalize_kept; try (intros v t0 H0; exact H0). exact H1.
    + apply margin_finalize_feeBooks. exact H2.
  - rewrite Forall_forall in Ho. destruct (Ho t Ht) as (_ & H1 & H2). split.
    + apply margin_finalize_kept; try (intros v t0 H0; exact H0). exact H1.
    + apply margin_finalize_feeBooks. exact H2.
Qed.

(** X16: when no fill has a negative size, the margin processor returns
    the closed trades first and the open trades after them.  A closed
    trade, whether a reducing fill or a flip has closed it, has status
    [CLOSED], a duration that is its exit time less its entry time and
    is not negative, and a running size of zero.  An open trade has
    status [OPEN], no exit time and no duration. *)
Theorem margin_closed_then_open_records fills bills insts risks :
  Forall (fun f => 0 <= f_fillSz f) fills ->
  exists closed open,
    BinanceMarginTradeProcessor.processAllData fills bills insts risks
      = (closed ++ open)%list
    /\ Forall (fun t => closedRecord t /\ _currentPositionSize t = 0) closed
    /\ Forall openRecord open.
Proof.
  intros Hpos.
  destruct (margin_closed_then_open_books fills bills insts risks Hpos)
    as (closed & open & Hout & Hclosed & Hopen).
  exists closed, open. split; [exact Hout|]. split.
  - eapply Forall_impl; [|exact Hclosed].
    intros t [(H1 & H2 & H3 & H4 & _) _]. repeat (apply conj); assumption.
  - eapply Forall_impl; [|exact Hopen].
    intros t [(H1 & H2 & H3 & _) _]. repeat (apply conj); assumption.
Qed.

Lemma margin_closed_then_open_records_witness :
  exists closed open,
    BinanceMarginTradeProcessor.processAllData
      [mkFill "BTCUSDT" "1" "o1" "buy" "" 100 1 0 "USDT" 1000;
       mkFill "BTCUSDT" "2" "o2" "sell" "" 110 3 0 "USDT" 2000]
      [] [] []
      = (closed ++ open)%list
    /\ Forall (fun t => closedRecord t /\ _currentPositionSize t = 0) closed
    /\ Forall openRecord open.
Proof.
  apply margin_closed_then_open_records.
  repeat constructor; discriminate.
Defined.
(** ** The deduplication of the fills and the last-sync timestamp *)

Section Dedup.
Import OkxDataProvider.

Lemma get_values_find (m : JS.map RawFill) key :
  Forall (fun kv => fst kv = fillKey (snd kv)) m ->
  NoDup (map fst m) ->
  find (fun g => String.eqb (fillKey g) key) (JS.values m) = JS.get key m.
Proof.
  induction m as [|[k v] m IH]; intros Hk Hnd; simpl; [reflexivity|].
  inversion Hk as [|? ? Hkv Hk']; subst. inversion Hnd; subst.
  simpl in Hkv. subst k. rewrite (String.eqb_sym key).
  destruct (String.eqb (fillKey v) key); [reflexivity | auto].
Qed.

Lemma keyed_set (m : JS.map RawFill) fill :
  Forall (fun kv => fst kv = fillKey (snd kv)) m ->
  Forall (fun kv => fst kv = fillKey (snd kv)) (JS.set (fillKey fill) fill m).
Proof.
  induction m as [|[k v] m IH]; intros Hk; simpl.
  - constructor; [reflexivity | constructor].
  - inversion Hk as [|? ? Hkv Hk']; subst.
    destruct (String.eqb_spec (fillKey fill) k) as [E|E].
    + constructor; [simpl; symmetry; exact E | exact Hk'].
    + constructor; [exact Hkv | exact (IH Hk')].
Qed.

Lemma dedup_fold_invariant fills :
  forall m,
  Forall (fun kv => fst kv = fillKey (snd kv)) m -> NoDup (map fst m) ->
  let m' := fold_left (fun unique fill => JS.set (fillKey fill) fill unique)
              fills m in
  Forall (fun kv => fst kv = fillKey (snd kv)) m'
  /\ NoDup (map fst m')
  /\ forall key,
       JS.get key m' =
         match lastWithKey key fills with
         | Some f => Some f
         | None => JS.get key m
         end.
Proof.
  induction fills as [|fill fills IH]; intros m Hk Hnd; simpl.
  - repeat (apply conj); try assumption. reflexivity.
  - destruct (IH (JS.set (fillKey fill) fill m) (keyed_set m fill Hk)
                (NoDup_keys_set _ _ _ Hnd)) as (Hk' & Hnd' & Hget).
    repeat (apply conj); try assumption.
    intros key. rewrite Hget. unfold lastWithKey. simpl.
    assert (Hshift : forall acc,
      fold_left
        (fun acc f => if String.eqb (fillKey f) key then Some f else acc)
        fills acc
      = match fold_left
                (fun acc f => if String.eqb (fillKey f) key then Some f else acc)
                fills None with
        | Some f => Some f
        | None => acc
        end).
    { clear. induction fills as [|g fills IHf]; intros acc; simpl; [reflexivity|].
      rewrite (IHf (if String.eqb (fillKey g) key then Some g else acc)).
      rewrite (IHf (if String.eqb (fillKey g) key then Some g else None)).
      destruct (fold_left _ fills None); [reflexivity|].
      destruct (String.eqb (fillKey g) key); reflexivity. }
    rewrite (Hshift (if String.eqb (fillKey fill) key then Some fill else None)).
    destruct (fold_left _ fills None); [reflexivity|].
    destruct (String.eqb_spec (fillKey fill) key) as [<-|Hne].
    + apply get_set_same.
    + apply get_set_other. congruence.
Qed.

Lemma dedup_keys_values (m : JS.map RawFill) :
  Forall (fun kv => fst kv = fillKey (snd kv)) m ->
  map fillKey (JS.values m) = map fst m.
Proof.
  induction 1 as [|[k v] m Hkv Hk IH]; simpl; [reflexivity|].
  simpl in Hkv. rewrite IH. congruence.
Qed.

Lemma dedup_fold_distinct fills :
  NoDup (map fillKey fills) ->
  forall m, (forall f, In f fills -> ~ In (fillKey f) (map fst m)) ->
  fold_left (fun unique fill => JS.set (fillKey fill) fill unique) fills m
  = (m ++ map (fun f => (fillKey f, f)) fills)%list.
Proof.
  induction fills as [|fill fills IH]; intros Hnd m Hfresh; simpl.
  - rewrite app_nil_r. reflexivity.
  - inversion Hnd as [|? ? Hnotin Hnd']; subst.
    assert (Hset : JS.set (fillKey fill) fill m = (m ++ [(fillKey fill, fill)])%list).
    { specialize (Hfresh fill (or_introl eq_refl)).
      clear -Hfresh. induction m as [|[k v] m IHm]; simpl; [reflexivity|].
      destruct (String.eqb_spec (fillKey fill) k) as [E|E].
      - exfalso. apply Hfresh. left. simpl. congruence.
      - rewrite IHm; [reflexivity|]. intros H. apply Hfresh. right. exact H. }
    rewrite Hset, IH; [rewrite <- app_assoc; reflexivity | exact Hnd' |].
    intros f Hf Hin. rewrite map_app in Hin. apply in_app_or in Hin.
    destruct Hin as [Hin|[E|[]]].
    + apply (Hfresh f (or_intror Hf)). exact Hin.
    + simpl in E. apply Hnotin. rewrite E. apply in_map. exact Hf.
Qed.

Lemma dedup_distinct fills :
  NoDup (map fillKey fills) -> deduplicateFills fills = fills.
Proof.
  intros Hnd. unfold deduplicateFills.
  rewrite (dedup_fold_distinct fills Hnd []); [|intros f _ []].
  simpl. unfold JS.values. rewrite map_map. simpl. apply map_id.
Qed.

End Dedup.

(** X17: [deduplicateFills] returns fills whose keys are pairwise
    distinct; under each key it returns the last fill of the input that
    has the key, and no fill under a key that no fill of the input has;
    and it leaves its own result as it is. *)
Theorem deduplicateFills_keeps_last (fills : list RawFill) :
  NoDup (map OkxDataProvider.fillKey (OkxDataProvider.deduplicateFills fills))
  /\ (forall key,
        find (fun g => String.eqb (OkxDataProvider.fillKey g) key)
          (OkxDataProvider.deduplicateFills fills)
        = lastWithKey key fills)
  /\ OkxDataProvider.deduplicateFills (OkxDataProvider.deduplicateFills fills)
     = OkxDataProvider.deduplicateFills fills.
Proof.
  destruct (dedup_fold_invariant fills [] ltac:(constructor) ltac:(constructor))
    as (Hk & Hnd & Hget).
  assert (Hkeys : NoDup (map OkxDataProvider.fillKey
                           (OkxDataProvider.deduplicateFills fills))).
  { unfold OkxDataProvider.deduplicateFills.
    rewrite (dedup_keys_values _ Hk). exact Hnd. }
  repeat (apply conj).
  - exact Hkeys.
  - intros key. unfold OkxDataProvider.deduplicateFills.
    rewrite (get_values_find _ key Hk Hnd), Hget.
    destruct (lastWithKey key fills); reflexivity.
  - apply dedup_distinct. exact Hkeys.
Qed.

Section SyncCursor.
Import TradeSyncService.

Lemma tradeMaxTs_from (fills : list RawFill) (acc : Z) :
  (acc <= fold_left (fun fillMax fill => Z.max fillMax (f_ts fill)) fills acc)%Z
  /\ Forall (fun f =>
       (f_ts f <= fold_left (fun fillMax fill => Z.max fillMax (f_ts fill))
                    fills acc)%Z) fills.
Proof.
  revert acc. induction fills as [|f fills IH]; intros acc; simpl.
  - split; [lia | constructor].
  - destruct (IH (Z.max acc (f_ts f))) as [H1 H2]. split; [lia|].
    constructor; [lia | exact H2].
Qed.

Lemma maxTimestamp_from (trades : list StandardizedTrade) (acc : Z) :
  (acc <= fold_left (fun max trade => Z.max max (tradeMaxTs trade)) trades acc)%Z
  /\ Forall (fun f =>
       (f_ts f <= fold_left (fun max trade => Z.max max (tradeMaxTs trade))
                    trades acc)%Z) (fillsOf trades).
Proof.
  revert acc. induction trades as [|t trades IH]; intros acc; simpl.
  - split; [lia | constructor].
  - destruct (IH (Z.max acc (tradeMaxTs t))) as [H1 H2]. split; [lia|].
    apply Forall_app. split; [|exact H2].
    destruct (tradeMaxTs_from (_rawFills t) 0) as [_ H3].
    eapply Forall_impl; [|exact H3]. intros f Hf.
    change (f_ts f <= tradeMaxTs t)%Z in Hf. lia.
Qed.

Lemma tradeMaxTs_attained (fills : list RawFill) (acc : Z) :
  fold_left (fun fillMax fill => Z.max fillMax (f_ts fill)) fills acc = acc
  \/ exists f, In f fills
       /\ fold_left (fun fillMax fill => Z.max fillMax (f_ts fill)) fills acc
          = f_ts f.
Proof.
  revert acc. induction fills as [|f fills IH]; intros acc; simpl.
  - left. reflexivity.
  - destruct (IH (Z.max acc (f_ts f))) as [E|(g & Hg & E)].
    + rewrite E. destruct (Z.max_spec acc (f_ts f)) as [[_ ->]|[_ ->]].
      * right. exists f. split; [left; reflexivity | reflexivity].
      * left. reflexivity.
    + right. exists g. split; [right; exact Hg | exact E].
Qed.

Lemma maxTimestamp_attained (trades : list StandardizedTrade) (acc : Z) :
  (0 <= acc)%Z ->
  fold_left (fun max trade => Z.max max (tradeMaxTs trade)) trades acc = acc
  \/ exists f, In f (fillsOf trades)
       /\ fold_left (fun max trade => Z.max max (tradeMaxTs trade)) trades acc
          = f_ts f.
Proof.
  revert acc. induction trades as [|t trades IH]; intros acc Hacc; simpl.
  - left. reflexivity.
  - assert (H0 : (0 <= tradeMaxTs t)%Z)
      by (destruct (tradeMaxTs_from (_rawFills t) 0) as [H _]; exact H).
    destruct (IH (Z.max acc (tradeMaxTs t)) ltac:(lia)) as [E|(g & Hg & E)].
    + rewrite E. destruct (Z.max_spec acc (tradeMaxTs t)) as [[Hlt ->]|[_ ->]].
      * destruct (tradeMaxTs_attained (_rawFills t) 0) as [E0|(g & Hg & E0)].
        -- left. change (tradeMaxTs t = 0%Z) in E0. lia.
        -- right. exists g. split; [apply in_or_app; left; exact Hg | exact E0].
      * left. reflexivity.
    + right. exists g. split; [apply in_or_app; right; exact Hg | exact E].
Qed.

End SyncCursor.

(** X18: the last-sync timestamp never moves back; after a run no fill
    of a trade of the run is later than it; it moves only to the
    timestamp of a fill of the run, when the timestamp before is not
    negative; and a second run on the same trades leaves it where the
    first has put it. *)
Theorem sync_timestamp_covers_the_fills (current : Z)
    (trades : list StandardizedTrade) :
  (current <= TradeSyncService.syncTrades current trades)%Z
  /\ Forall (fun f => (f_ts f <= TradeSyncService.syncTrades current trades)%Z)
       (fillsOf trades)
  /\ ((0 <=? current)%Z = false
      \/ TradeSyncService.syncTrades current trades = current
      \/ exists f, In f (fillsOf trades)
           /\ TradeSyncService.syncTrades current trades = f_ts f)
  /\ TradeSyncService.syncTrades
       (TradeSyncService.syncTrades current trades) trades
     = TradeSyncService.syncTrades current trades.
Proof.
  unfold TradeSyncService.syncTrades.
  destruct (maxTimestamp_from trades 0) as [H0 Hall].
  fold (TradeSyncService.maxTimestampOf trades) in H0, Hall.
  destruct trades as [|t trades].
  - simpl. repeat (apply conj); try lia. constructor.
  - cbn [length Nat.ltb Nat.leb].
    destruct (Z.gtb_spec (TradeSyncService.maxTimestampOf (t :: trades)) current)
      as [Hgt|Hle].
    + repeat (apply conj); try lia.
      * exact Hall.
      * destruct (Z.leb_spec 0 current) as [Hc|Hc]; [|left; reflexivity].
        right. right.
        destruct (maxTimestamp_attained (t :: trades) 0 ltac:(lia))
          as [E|(f & Hf & E)].
        -- unfold TradeSyncService.maxTimestampOf in Hgt. lia.
        -- exists f. split; [exact Hf | exact E].
      * rewrite Z.gtb_ltb, Z.ltb_irrefl. reflexivity.
    + repeat (apply conj); try lia.
      * eapply Forall_impl; [|exact Hall]. intros f Hf. simpl in Hf. lia.
      * destruct (Z.gtb_spec (TradeSyncService.maxTimestampOf (t :: trades)) current);
          [lia | reflexivity].
Qed.
(** ** The cache of the fills of the open positions *)

Local Close Scope Q_scope.
Local Open Scope list_scope.

Section MapEntries.
Context {V : Type}.
Implicit Types (m : JS.map V).

Lemma get_entry k m v : JS.get k m = Some v -> In (k, v) m.
Proof.
  induction m as [|[k' v'] m IH]; simpl; [discriminate|].
  destruct (String.eqb_spec k k') as [->|_].
  - intros [= ->]. left. reflexivity.
  - intros H. right. exact (IH H).
Qed.

Lemma get_notin k m : ~ In k (map fst m) -> JS.get k m = None.
Proof.
  induction m as [|[k' v'] m IH]; simpl; [reflexivity|]. intros H.
  destruct (String.eqb_spec k k') as [->|_].
  - exfalso. apply H. left. reflexivity.
  - apply IH. intros Hin. apply H. right. exact Hin.
Qed.

Lemma get_delete_other k k' m :
  k <> k' -> JS.get k (JS.delete k' m) = JS.get k m.
Proof.
  intros Hne. induction m as [|[k0 v0] m IH]; simpl; [reflexivity|].
  destruct (String.eqb_spec k' k0) as [->|_].
  - destruct (String.eqb_spec k k0); [contradiction | reflexivity].
  - simpl. rewrite IH. reflexivity.
Qed.

Lemma get_delete_same k m :
  NoDup (map fst m) -> JS.get k (JS.delete k m) = None.
Proof.
  induction m as [|[k0 v0] m IH]; simpl; [reflexivity|]. intros Hnd.
  inversion Hnd as [|? ? Hnotin Hnd']; subst.
  destruct (String.eqb_spec k k0) as [->|Hne].
  - apply get_notin. exact Hnotin.
  - simpl. destruct (String.eqb_spec k k0); [contradiction | apply IH, Hnd'].
Qed.

Lemma Forall_entries_set (P : string * V -> Prop) k v m :
  Forall P m -> P (k, v) -> Forall P (JS.set k v m).
Proof.
  induction m as [|[k0 v0] m IH]; simpl; intros Hm Hv.
  - constructor; [exact Hv | constructor].
  - inversion Hm; subst.
    destruct (String.eqb_spec k k0) as [->|_].
    + constructor; assumption.
    + constructor; [assumption | apply IH; assumption].
Qed.

Lemma Forall_entries_delete (P : string * V -> Prop) k m :
  Forall P m -> Forall P (JS.delete k m).
Proof.
  induction m as [|[k0 v0] m IH]; simpl; intros Hm; [constructor|].
  inversion Hm; subst.
  destruct (String.eqb k k0); [assumption|].
  constructor; [assumption | apply IH; assumption].
Qed.

End MapEntries.

Section FilterFacts.
Context {A : Type}.

Lemma filter_all (p : A -> bool) l :
  Forall (fun x => p x = true) l -> filter p l = l.
Proof.
  induction 1 as [|x l Hx _ IH]; simpl; [reflexivity|].
  rewrite Hx, IH. reflexivity.
Qed.

Lemma filter_none (p : A -> bool) l :
  Forall (fun x => p x = false) l -> filter p l = [].
Proof.
  induction 1 as [|x l Hx _ IH]; simpl; [reflexivity|].
  rewrite Hx, IH. reflexivity.
Qed.

Lemma StronglySorted_snoc (R : A -> A -> Prop) l x :
  StronglySorted R l -> Forall (fun y => R y x) l -> StronglySorted R (l ++ [x]).
Proof.
  induction 1 as [|y l Hs IH Hy]; intros Hx; simpl.
  - constructor; constructor.
  - inversion Hx; subst. constructor; [apply IH; assumption|].
    apply Forall_app. split; [exact Hy | constructor; [assumption | constructor]].
Qed.

End FilterFacts.

(** The insertion sort under a comparator whose "not greater" is a
    total preorder. *)
Section SortOrdered.
Context {A : Type} (cmp : A -> A -> Z).
Hypothesis cmp_total : forall a b, 0 < cmp a b -> cmp b a <= 0.
Hypothesis cmp_trans : forall a b c, cmp a b <= 0 -> cmp b c <= 0 -> cmp a c <= 0.

Lemma sort_le_sorted l : StronglySorted (fun a b => cmp a b <= 0) (JS.sort cmp l).
Proof.
  apply (sort_sorted cmp (fun a b => cmp a b <= 0)).
  - intros a b H. exact H.
  - exact cmp_total.
  - exact cmp_trans.
Qed.

Lemma insert_first x l :
  Forall (fun y => cmp x y <= 0) l -> JS.insert cmp x l = x :: l.
Proof.
  intros H. destruct l as [|y l]; simpl; [reflexivity|].
  inversion H; subst.
  destruct (Z.leb_spec (cmp x y) 0); [reflexivity | lia].
Qed.

Lemma sort_sorted_id l :
  StronglySorted (fun a b => cmp a b <= 0) l -> JS.sort cmp l = l.
Proof.
  induction 1 as [|x l Hs IH Hx]; simpl; [reflexivity|].
  rewrite IH. apply insert_first. exact Hx.
Qed.

Lemma insert_filter (p : A -> bool) x l :
  StronglySorted (fun a b => cmp a b <= 0) l ->
  filter p (JS.insert cmp x l) =
    if p x then JS.insert cmp x (filter p l) else filter p l.
Proof.
  induction 1 as [|y l Hs IH Hy]; simpl.
  - destruct (p x); reflexivity.
  - destruct (Z.leb_spec (cmp x y) 0) as [Hle|Hgt]; simpl.
    + destruct (p x) eqn:Hpx; [|reflexivity].
      destruct (p y) eqn:Hpy; simpl.
      * destruct (Z.leb_spec (cmp x y) 0); [reflexivity | lia].
      * symmetry. apply insert_first.
        rewrite Forall_forall in *. intros z Hz.
        apply filter_In in Hz. destruct Hz as [Hz _].
        eapply cmp_trans; [exact Hle | apply Hy, Hz].
    + rewrite IH. destruct (p y) eqn:Hpy; destruct (p x) eqn:Hpx; simpl;
        try reflexivity.
      destruct (Z.leb_spec (cmp x y) 0); [lia | reflexivity].
Qed.

Lemma sort_filter (p : A -> bool) l :
  filter p (JS.sort cmp l) = JS.sort cmp (filter p l).
Proof.
  induction l as [|x l IH]; simpl; [reflexivity|].
  rewrite insert_filter by apply sort_le_sorted.
  rewrite IH. destruct (p x); reflexivity.
Qed.

Lemma insert_app_before x l1 l2 :
  Forall (fun y => cmp x y <= 0) l2 ->
  JS.insert cmp x (l1 ++ l2) = JS.insert cmp x l1 ++ l2.
Proof.
  intros H. induction l1 as [|y l1 IH]; simpl.
  - apply insert_first. exact H.
  - destruct (cmp x y <=? 0); [reflexivity|]. rewrite IH. reflexivity.
Qed.

Lemma sort_app_ordered l1 l2 :
  Forall (fun x => Forall (fun y => cmp x y <= 0) l2) l1 ->
  JS.sort cmp (l1 ++ l2) = JS.sort cmp l1 ++ JS.sort cmp l2.
Proof.
  induction 1 as [|x l1 Hx _ IH]; simpl; [reflexivity|].
  rewrite IH. apply insert_app_before.
  rewrite Forall_forall in *. intros y Hy. apply Hx.
  exact (Permutation_in _ (sort_perm cmp l2) Hy).
Qed.

End SortOrdered.

(** The loop of a builder-based [processFills], key by key. *)
Section Replay.
Variable State B : Type.
Variable mkS : list StandardizedTrade -> JS.map B -> State.
Variable closedOf : State -> list StandardizedTrade.
Variable openOf : State -> JS.map B.
Hypothesis closedOf_mk : forall c o, closedOf (mkS c o) = c.
Hypothesis openOf_mk : forall c o, openOf (mkS c o) = o.
Variable tradeOf : B -> StandardizedTrade.
Variable isClosed : B -> bool.
Variable key : RawFill -> string.
Variable skip : RawFill -> bool.
Variable init : RawFill -> B.
Variable addFill : B -> RawFill -> B.
Variable step : State -> RawFill -> State.
Hypothesis step_eq :
  forall st fill,
    step st fill =
      match JS.get (key fill) (openOf st) with
      | None =>
          if skip fill then st
          else
            if isClosed (addFill (init fill) fill)
            then mkS (closedOf st ++ [tradeOf (addFill (init fill) fill)])
                     (JS.delete (key fill)
                        (JS.set (key fill) (addFill (init fill) fill) (openOf st)))
            else mkS (closedOf st)
                     (JS.set (key fill) (addFill (init fill) fill) (openOf st))
      | Some b =>
          if isClosed (addFill b fill)
          then mkS (closedOf st ++ [tradeOf (addFill b fill)])
                   (JS.delete (key fill)
                      (JS.set (key fill) (addFill b fill) (openOf st)))
          else mkS (closedOf st) (JS.set (key fill) (addFill b fill) (openOf st))
      end.
Variable rawOf : B -> list RawFill.
Hypothesis raw_init : forall f, rawOf (init f) = [].
Hypothesis raw_add : forall b f, rawOf (addFill b f) = rawOf b ++ [f].
Variable cmp : RawFill -> RawFill -> Z.
Hypothesis cmp_total : forall a b, 0 < cmp a b -> cmp b a <= 0.
Hypothesis cmp_trans : forall a b c, cmp a b <= 0 -> cmp b c <= 0 -> cmp a c <= 0.

Local Abbreviation stepK := (stepKey tradeOf isClosed skip init addFill).
Local Abbreviation runK := (runKey tradeOf isClosed skip init addFill).
Local Abbreviation ofKey k := (fun f => String.eqb (key f) k).

Lemma replay_step_keys st fill :
  NoDup (map fst (openOf st)) -> NoDup (map fst (openOf (step st fill))).
Proof.
  apply (builders_step_keys State B mkS closedOf openOf openOf_mk tradeOf
           isClosed key skip init addFill step step_eq).
Qed.

Lemma replay_fold_keys fills st :
  NoDup (map fst (openOf st)) ->
  NoDup (map fst (openOf (fold_left step fills st))).
Proof.
  apply (builders_fold_keys State B mkS closedOf openOf openOf_mk tradeOf
           isClosed key skip init addFill step step_eq).
Qed.

Lemma step_get st fill k :
  NoDup (map fst (openOf st)) ->
  JS.get k (openOf (step st fill)) =
    if String.eqb (key fill) k
    then fst (stepK (JS.get k (openOf st)) fill)
    else JS.get k (openOf st).
Proof.
  intros Hnd. rewrite step_eq. unfold stepKey.
  destruct (String.eqb_spec (key fill) k) as [<-|Hne].
  - destruct (JS.get (key fill) (openOf st)) as [b|] eqn:Hget.
    + destruct (isClosed (addFill b fill)); rewrite openOf_mk; simpl.
      * apply get_delete_same, NoDup_keys_set, Hnd.
      * apply get_set_same.
    + destruct (skip fill); [exact Hget|].
      destruct (isClosed (addFill (init fill) fill)); rewrite openOf_mk; simpl.
      * apply get_delete_same, NoDup_keys_set, Hnd.
      * apply get_set_same.
  - assert (Hne' : k <> key fill) by congruence.
    destruct (JS.get (key fill) (openOf st)) as [b|].
    + destruct (isClosed (addFill b fill)); rewrite openOf_mk.
      * rewrite get_delete_other by exact Hne'. apply get_set_other. exact Hne'.
      * apply get_set_other. exact Hne'.
    + destruct (skip fill); [reflexivity|].
      destruct (isClosed (addFill (init fill) fill)); rewrite openOf_mk.
      * rewrite get_delete_other by exact Hne'. apply get_set_other. exact Hne'.
      * apply get_set_other. exact Hne'.
Qed.

Lemma step_closed st fill :
  closedOf (step st fill) =
    closedOf st ++ snd (stepK (JS.get (key fill) (openOf st)) fill).
Proof.
  rewrite step_eq. unfold stepKey.
  destruct (JS.get (key fill) (openOf st)) as [b|].
  - destruct (isClosed (addFill b fill)); rewrite closedOf_mk; simpl;
      [reflexivity | rewrite app_nil_r; reflexivity].
  - destruct (skip fill); [simpl; rewrite app_nil_r; reflexivity|].
    destruct (isClosed (addFill (init fill) fill)); rewrite closedOf_mk; simpl;
      [reflexivity | rewrite app_nil_r; reflexivity].
Qed.

Lemma fold_get k fills :
  forall st, NoDup (map fst (openOf st)) ->
  JS.get k (openOf (fold_left step fills st)) =
    fst (runK (JS.get k (openOf st)) (filter (ofKey k) fills)).
Proof.
  induction fills as [|f fills IH]; intros st Hnd; simpl; [reflexivity|].
  rewrite IH by (apply replay_step_keys; exact Hnd).
  rewrite step_get by exact Hnd.
  destruct (String.eqb (key f) k); reflexivity.
Qed.

Lemma fold_quiet fills :
  forall st, NoDup (map fst (openOf st)) ->
  (forall k, snd (runK (JS.get k (openOf st)) (filter (ofKey k) fills)) = []) ->
  closedOf (fold_left step fills st) = closedOf st.
Proof.
  induction fills as [|f fills IH]; intros st Hnd Hq; simpl; [reflexivity|].
  pose proof (Hq (key f)) as Hf. simpl in Hf. rewrite String.eqb_refl in Hf.
  simpl in Hf. apply app_eq_nil in Hf. destruct Hf as [Hf1 Hf2].
  rewrite IH.
  - rewrite step_closed, Hf1, app_nil_r. reflexivity.
  - apply replay_step_keys. exact Hnd.
  - intros k. rewrite step_get by exact Hnd.
    specialize (Hq k). simpl in Hq.
    destruct (String.eqb (key f) k) eqn:E.
    + apply String.eqb_eq in E. subst k. exact Hf2.
    + exact Hq.
Qed.

Lemma fold_congr fills :
  forall s1 s2,
  NoDup (map fst (openOf s1)) -> NoDup (map fst (openOf s2)) ->
  (forall k, JS.get k (openOf s1) = JS.get k (openOf s2)) ->
  (forall k, JS.get k (openOf (fold_left step fills s1)) =
             JS.get k (openOf (fold_left step fills s2)))
  /\ exists E, closedOf (fold_left step fills s1) = closedOf s1 ++ E
            /\ closedOf (fold_left step fills s2) = closedOf s2 ++ E.
Proof.
  induction fills as [|f fills IH]; intros s1 s2 H1 H2 Heq; simpl.
  - split; [exact Heq|]. exists []. rewrite !app_nil_r. split; reflexivity.
  - destruct (IH (step s1 f) (step s2 f)
                (replay_step_keys s1 f H1) (replay_step_keys s2 f H2))
      as [Hget (E & E1 & E2)].
    { intros k. rewrite !step_get by assumption. rewrite Heq. reflexivity. }
    split; [exact Hget|].
    exists (snd (stepK (JS.get (key f) (openOf s1)) f) ++ E).
    rewrite E1, E2, !step_closed, <- !app_assoc, Heq. split; reflexivity.
Qed.

Lemma runKey_app s l1 l2 :
  runK s (l1 ++ l2) =
    (fst (runK (fst (runK s l1)) l2),
     snd (runK s l1) ++ snd (runK (fst (runK s l1)) l2)).
Proof.
  revert s. induction l1 as [|f l1 IH]; intros s; simpl.
  - destruct (runK s l2); reflexivity.
  - rewrite IH. simpl. rewrite app_assoc. reflexivity.
Qed.

Section Entries.
Variable before : RawFill -> RawFill -> Prop.
Variable Q0 : RawFill -> Prop.
Local Abbreviation entryOk :=
  (replayable tradeOf isClosed skip init addFill key rawOf before Q0).

Lemma entry_add rest f b :
  StronglySorted before (f :: rest) -> Q0 f ->
  isClosed (addFill b f) = false ->
  (rawOf b = [] /\ b = init f /\ skip f = false
   \/ entryOk (f :: rest) (key f, b)) ->
  entryOk rest (key f, addFill b f).
Proof.
  intros Hs Hq Hc Hb. inversion Hs as [|? ? Hs' Hf]; subst.
  unfold replayable. simpl. rewrite raw_add.
  destruct Hb as [(Hraw & -> & Hskip)|(Hrun & Hkey & Hsort & Hbefore & Hall)].
  - rewrite Hraw in *. simpl. unfold stepKey. rewrite Hskip, Hc. simpl.
    repeat (apply conj).
    + reflexivity.
    + constructor; [reflexivity | constructor].
    + constructor; constructor.
    + constructor; [exact Hf | constructor].
    + constructor; [exact Hq | constructor].
  - simpl in *. repeat (apply conj).
    + rewrite runKey_app, Hrun. simpl. unfold stepKey. rewrite Hc. reflexivity.
    + apply Forall_app. split; [exact Hkey | constructor; [reflexivity | constructor]].
    + apply StronglySorted_snoc; [exact Hsort|].
      eapply Forall_impl; [|exact Hbefore]. intros g Hg. inversion Hg; assumption.
    + apply Forall_app. split.
      * eapply Forall_impl; [|exact Hbefore]. intros g Hg. inversion Hg; assumption.
      * constructor; [exact Hf | constructor].
    + apply Forall_app. split; [exact Hall | constructor; [exact Hq | constructor]].
Qed.

Lemma step_entries st f rest :
  StronglySorted before (f :: rest) -> Q0 f ->
  Forall (entryOk (f :: rest)) (openOf st) ->
  Forall (entryOk rest) (openOf (step st f)).
Proof.
  intros Hs Hq Hall.
  assert (Hweak : Forall (entryOk rest) (openOf st)).
  { eapply Forall_impl; [|exact Hall].
    intros kb (H1 & H2 & H3 & H4 & H5). repeat (apply conj); try assumption.
    eapply Forall_impl; [|exact H4]. intros g Hg. inversion Hg; assumption. }
  rewrite step_eq.
  destruct (JS.get (key f) (openOf st)) as [b|] eqn:Hget.
  - assert (Hb : entryOk (f :: rest) (key f, b)).
    { rewrite Forall_forall in Hall. apply Hall, get_entry, Hget. }
    destruct (isClosed (addFill b f)) eqn:Hc; rewrite openOf_mk.
    + rewrite delete_set_same. apply Forall_entries_delete, Hweak.
    + apply Forall_entries_set; [exact Hweak|].
      apply entry_add; [assumption .. | right; exact Hb].
  - destruct (skip f) eqn:Hskip; [exact Hweak|].
    destruct (isClosed (addFill (init f) f)) eqn:Hc; rewrite openOf_mk.
    + rewrite delete_set_same. apply Forall_entries_delete, Hweak.
    + apply Forall_entries_set; [exact Hweak|].
      apply entry_add; [assumption .. |].
      left. repeat (apply conj); [apply raw_init | reflexivity | exact Hskip].
Qed.

Lemma fold_entries fills :
  forall st,
  StronglySorted before fills -> Forall Q0 fills ->
  Forall (entryOk fills) (openOf st) ->
  Forall (entryOk []) (openOf (fold_left step fills st)).
Proof.
  induction fills as [|f fills IH]; intros st Hs Hq Hall; simpl; [exact Hall|].
  inversion Hs; subst. inversion Hq; subst.
  apply IH; [assumption | assumption |].
  apply step_entries; assumption.
Qed.

(** The entries after the sorted fills. *)
Lemma run_entries fills :
  StronglySorted before (JS.sort cmp fills) -> Forall Q0 fills ->
  Forall (entryOk [])
    (openOf (fold_left step (JS.sort cmp fills) (mkS [] []))).
Proof.
  intros Hs Hq. apply fold_entries.
  - exact Hs.
  - rewrite Forall_forall in *. intros c Hc. apply Hq.
    exact (Permutation_in _ (sort_perm cmp fills) Hc).
  - rewrite openOf_mk. constructor.
Qed.

(** The fills of the open builders are pairwise distinct when no fill
    is before itself. *)
Lemma cache_NoDup (m : JS.map B) :
  (forall a, ~ before a a) ->
  NoDup (map fst m) -> Forall (entryOk []) m ->
  NoDup (flat_map rawOf (JS.values m)).
Proof.
  intros Hirr. induction m as [|[k0 v0] m IH]; simpl; intros Hnd Hall.
  - constructor.
  - inversion Hnd as [|? ? Hnotin Hnd']; subst.
    inversion Hall as [|? ? (_ & Hk0 & Hs0 & _) Hall']; subst. simpl in *.
    fold (JS.values m). apply NoDup_app. repeat (apply conj).
    + clear -Hs0 Hirr. induction Hs0 as [|x l Hs IHs Hx]; constructor; [|exact IHs].
      intros Hin. rewrite Forall_forall in Hx. exact (Hirr x (Hx x Hin)).
    + apply IH; assumption.
    + intros x Hx0 Hx. apply Hnotin.
      apply in_flat_map in Hx. destruct Hx as (b & Hb & Hxb).
      unfold JS.values in Hb. apply in_map_iff in Hb.
      destruct Hb as ([k1 v1] & <- & Hkb). simpl in *.
      rewrite Forall_forall in Hall', Hk0.
      destruct (Hall' _ Hkb) as (_ & Hk1 & _). simpl in Hk1.
      rewrite Forall_forall in Hk1.
      rewrite <- (Hk0 x Hx0), (Hk1 x Hxb).
      apply in_map_iff. exists (k1, v1). split; [reflexivity | exact Hkb].
Qed.

Lemma cache_all (m : JS.map B) :
  Forall (entryOk []) m -> Forall Q0 (flat_map rawOf (JS.values m)).
Proof.
  intros Hall. rewrite Forall_forall. intros c Hc.
  apply in_flat_map in Hc. destruct Hc as (b & Hb & Hc).
  unfold JS.values in Hb. apply in_map_iff in Hb.
  destruct Hb as (kb & <- & Hkb). rewrite Forall_forall in Hall.
  destruct (Hall _ Hkb) as (_ & _ & _ & _ & Hq).
  rewrite Forall_forall in Hq. apply Hq, Hc.
Qed.

End Entries.

Lemma filter_cache k (m : JS.map B) :
  NoDup (map fst m) ->
  Forall (fun kb => Forall (fun f => key f = fst kb) (rawOf (snd kb))) m ->
  filter (ofKey k) (flat_map rawOf (JS.values m)) =
    match JS.get k m with Some b => rawOf b | None => [] end.
Proof.
  induction m as [|[k0 v0] m IH]; simpl; intros Hnd Hk; [reflexivity|].
  inversion Hnd as [|? ? Hnotin Hnd']; subst.
  inversion Hk as [|? ? Hk0 Hk']; subst. simpl in Hk0.
  rewrite filter_app. fold (JS.values m). rewrite (IH Hnd' Hk').
  destruct (String.eqb_spec k k0) as [->|Hne].
  - rewrite (get_notin _ _ Hnotin), app_nil_r. apply filter_all.
    eapply Forall_impl; [|exact Hk0]. intros f Hf. simpl in Hf.
    rewrite Hf. apply String.eqb_refl.
  - rewrite filter_none; [reflexivity|].
    eapply Forall_impl; [|exact Hk0]. intros f Hf. simpl in Hf.
    rewrite Hf. apply String.eqb_neq. congruence.
Qed.

(** The state after the sorted fills, the fills of its open builders,
    and the run on these fills and on further ones. *)
Lemma replay_continues fills newFills :
  Forall (fun c => Forall (fun n => cmp c n <= 0) newFills) fills ->
  let run l := fold_left step (JS.sort cmp l) (mkS [] []) in
  let cache := flat_map rawOf (JS.values (openOf (run fills))) in
  (forall k, JS.get k (openOf (run (cache ++ newFills))) =
             JS.get k (openOf (run (fills ++ newFills))))
  /\ closedOf (run (fills ++ newFills)) =
       closedOf (run fills) ++ closedOf (run (cache ++ newFills)).
Proof.
  intros Hord run cache.
  assert (Hnd0 : NoDup (map fst (openOf (mkS [] [])))).
  { rewrite openOf_mk. constructor. }
  assert (Hnd1 : NoDup (map fst (openOf (run fills)))).
  { apply replay_fold_keys, Hnd0. }
  assert (Hent : Forall (replayable tradeOf isClosed skip init addFill key rawOf
                           (fun a b => cmp a b <= 0)
                           (fun c => Forall (fun n => cmp c n <= 0) newFills)
                           [])
                   (openOf (run fills))).
  { apply run_entries; [apply sort_le_sorted; assumption | exact Hord]. }
  assert (Hkeys : Forall (fun kb => Forall (fun f => key f = fst kb)
                                      (rawOf (snd kb))) (openOf (run fills))).
  { eapply Forall_impl; [|exact Hent]. intros kb H. apply H. }
  assert (Hfilter : forall k,
    runK None (filter (ofKey k) (JS.sort cmp cache)) =
      (JS.get k (openOf (run fills)), [])).
  { intros k. rewrite (sort_filter cmp cmp_total cmp_trans).
    unfold cache. rewrite (filter_cache k _ Hnd1 Hkeys).
    destruct (JS.get k (openOf (run fills))) as [b|] eqn:Hget; [|reflexivity].
    apply get_entry in Hget. rewrite Forall_forall in Hent.
    destruct (Hent _ Hget) as (Hrun & _ & Hsort & _). simpl in *.
    rewrite (sort_sorted_id cmp _ Hsort). exact Hrun. }
  assert (Hcache : Forall (fun c => Forall (fun n => cmp c n <= 0) newFills) cache).
  { exact (cache_all _ _ _ Hent). }
  assert (Hget : forall k, JS.get k (openOf (run cache)) =
                           JS.get k (openOf (run fills))).
  { intros k. unfold run at 1. rewrite fold_get by exact Hnd0.
    rewrite openOf_mk. simpl JS.get. rewrite Hfilter. reflexivity. }
  assert (Hquiet : closedOf (run cache) = []).
  { unfold run. rewrite fold_quiet; [apply closedOf_mk | exact Hnd0 |].
    intros k. rewrite openOf_mk. simpl JS.get. rewrite Hfilter. reflexivity. }
  assert (Hsplit : forall l,
    Forall (fun c => Forall (fun n => cmp c n <= 0) newFills) l ->
    run (l ++ newFills) = fold_left step (JS.sort cmp newFills) (run l)).
  { intros l Hl. unfold run.
    rewrite (sort_app_ordered cmp) by exact Hl. apply fold_left_app. }
  rewrite (Hsplit cache Hcache), (Hsplit fills Hord).
  destruct (fold_congr (JS.sort cmp newFills) (run cache) (run fills))
    as [Hg (E & E1 & E2)].
  - apply replay_fold_keys, Hnd0.
  - exact Hnd1.
  - exact Hget.
  - split; [exact Hg|]. rewrite E1, E2, Hquiet. reflexivity.
Qed.

End Replay.

Section ListFacts.
Context {A C : Type}.

Lemma NoDup_map_sub (f : A -> C) (l l' : list A) :
  NoDup (map f l) -> NoDup l' -> incl l' l -> NoDup (map f l').
Proof.
  intros Hl Hl' Hincl.
  assert (Hinj : forall x y, In x l -> In y l -> f x = f y -> x = y).
  { clear -Hl. induction l as [|a l IH]; simpl; intros x y Hx Hy E; [contradiction|].
    inversion Hl as [|? ? Hnotin Hl0]; subst.
    destruct Hx as [<-|Hx]; destruct Hy as [<-|Hy].
    - reflexivity.
    - exfalso. apply Hnotin. rewrite E. apply in_map, Hy.
    - exfalso. apply Hnotin. rewrite <- E. apply in_map, Hx.
    - apply IH; assumption. }
  induction Hl' as [|x l' Hx Hnd IH]; simpl; [constructor|].
  constructor.
  - intros Hin. apply in_map_iff in Hin. destruct Hin as (y & E & Hy).
    apply Hx. rewrite <- (Hinj y x); [exact Hy | | | exact E].
    + apply Hincl. right. exact Hy.
    + apply Hincl. left. reflexivity.
  - apply IH. intros z Hz. apply Hincl. right. exact Hz.
Qed.

Lemma NoDup_app_disjoint (l1 l2 : list A) :
  NoDup (l1 ++ l2) -> forall a, In a l1 -> ~ In a l2.
Proof.
  induction l1 as [|x l1 IH]; simpl; intros Hnd a Ha Hb; [contradiction|].
  inversion Hnd as [|? ? Hnotin Hnd']; subst.
  destruct Ha as [->|Ha].
  - apply Hnotin, in_or_app. right. exact Hb.
  - exact (IH Hnd' a Ha Hb).
Qed.

Lemma sorted_strict (R : A -> A -> Prop) (l : list A) :
  StronglySorted R l -> NoDup l ->
  StronglySorted (fun a b => R a b /\ a <> b) l.
Proof.
  induction 1 as [|x l Hs IH Hx]; intros Hnd; constructor.
  - apply IH. inversion Hnd; assumption.
  - inversion Hnd as [|? ? Hnotin _]; subst.
    rewrite Forall_forall in *. intros y Hy. split; [apply Hx, Hy|].
    intros ->. exact (Hnotin Hy).
Qed.

End ListFacts.

Local Open Scope Q_scope.
(** ** The replay of the cache by the OKX processor *)

Local Close Scope Q_scope.
Local Open Scope list_scope.

Section OkxCache.
Import OkxTradeBuilder OkxUMFuturesTradeProcessor OkxDataProvider.

Lemma okx_finalizeTrade_rawFills t : _rawFills (finalizeTrade t) = _rawFills t.
Proof. unfold finalizeTrade. break_ifs; reflexivity. Qed.

Lemma okx_applyFunding_rawFills idx t :
  _rawFills (applyFunding idx t) = _rawFills t.
Proof.
  apply (okx_applyFunding_kept (fun t' => _rawFills t' = _rawFills t));
    [|reflexivity].
  split; intros t' v H; exact H.
Qed.

Lemma okx_applyRisk_rawFills positions :
  forall m,
  map (fun b => _rawFills (getTrade b)) (JS.values (fold_left applyRisk positions m))
  = map (fun b => _rawFills (getTrade b)) (JS.values m).
Proof.
  induction positions as [|p positions IH]; intros m; simpl; [reflexivity|].
  rewrite IH. unfold applyRisk.
  destruct (JS.get _ m) as [b|] eqn:Hget; [|reflexivity].
  apply (map_values_set _ _ _ b); [exact Hget | reflexivity].
Qed.

Lemma okx_cache_eq fills bills insts positions :
  okxCachedFills fills bills insts positions =
    flat_map (fun b => _rawFills (trade b))
      (JS.values (openPositions (okxPositions insts fills))).
Proof.
  unfold okxCachedFills, getOpenPositionFills, lastOpenPositions, okxPositions.
  cbv zeta. rewrite !flat_map_concat_map. f_equal.
  unfold JS.values at 1. rewrite !map_map.
  rewrite (map_ext _ (fun kb => _rawFills (getTrade (snd kb))))
    by (intros kb; apply okx_finalizeTrade_rawFills).
  rewrite <- (map_map snd (fun b => _rawFills (getTrade b))).
  change (map snd ?m) with (JS.values m).
  unfold applyBillsAndRisks. cbv zeta. cbn [openPositions].
  rewrite okx_applyRisk_rawFills.
  unfold JS.values. rewrite !map_map. apply map_ext.
  intros kb. apply okx_applyFunding_rawFills.
Qed.

Lemma okx_replay_continues insts fills newFills :
  Forall (fun c => Forall (fillOrder c) newFills) fills ->
  let cache :=
    flat_map (fun b => _rawFills (trade b))
      (JS.values (openPositions (okxPositions insts fills))) in
  (forall k,
     JS.get k (openPositions (okxPositions insts (cache ++ newFills))) =
     JS.get k (openPositions (okxPositions insts (fills ++ newFills))))
  /\ closedTrades (okxPositions insts (fills ++ newFills)) =
       closedTrades (okxPositions insts fills)
       ++ closedTrades (okxPositions insts (cache ++ newFills)).
Proof.
  intros Hord.
  apply (replay_continues FoldState OkxTradeBuilder.t mkState closedTrades
           openPositions ltac:(reflexivity) ltac:(reflexivity) getTrade isClosed
           positionKeyOf isReduceOnly
           (fun fill =>
              mk (initializeTrade
                    (JS.includes (f_instId fill) "-USD-"
                     && negb (JS.includes (f_instId fill) "-USDT-")) fill)
                 (contractValueOf (indexInstruments insts) fill)
                 (JS.includes (f_instId fill) "-USD-"
                  && negb (JS.includes (f_instId fill) "-USDT-")))
           addFill (processFill (indexInstruments insts))
           (okx_processFill_eq (indexInstruments insts))
           (fun b => _rawFills (trade b)) ltac:(reflexivity)
           okx_addFill_rawFills compareFills).
  - intros a b H. apply okx_compareFills_le, okx_compareFills_gt, H.
  - intros a b c H1 H2. apply okx_compareFills_le.
    apply okx_compareFills_le in H1, H2. eapply fillOrder_trans; eassumption.
  - eapply Forall_impl; [|exact Hord]. intros c Hc.
    eapply Forall_impl; [|exact Hc]. intros n Hn. apply okx_compareFills_le, Hn.
Qed.

Lemma okx_cache_distinct insts fills newFills :
  NoDup (map fillKey (fills ++ newFills)) ->
  NoDup (map fillKey
           (flat_map (fun b => _rawFills (trade b))
              (JS.values (openPositions (okxPositions insts fills)))
            ++ newFills)).
Proof.
  intros Hnd.
  assert (Hnd' : NoDup (fills ++ newFills)) by (eapply NoDup_map_inv; exact Hnd).
  assert (Hfills : NoDup fills) by (eapply NoDup_app_remove_r; exact Hnd').
  pose proof (run_entries FoldState OkxTradeBuilder.t mkState closedTrades
           openPositions ltac:(reflexivity) getTrade isClosed
           positionKeyOf isReduceOnly
           (fun fill =>
              mk (initializeTrade
                    (JS.includes (f_instId fill) "-USD-"
                     && negb (JS.includes (f_instId fill) "-USDT-")) fill)
                 (contractValueOf (indexInstruments insts) fill)
                 (JS.includes (f_instId fill) "-USD-"
                  && negb (JS.includes (f_instId fill) "-USDT-")))
           addFill (processFill (indexInstruments insts))
           (okx_processFill_eq (indexInstruments insts))
           (fun b => _rawFills (trade b)) ltac:(reflexivity)
           okx_addFill_rawFills compareFills
           (fun a b => compareFills a b <= 0 /\ a <> b)
           (fun c => In c fills) fills) as Hent.
  assert (Hentries := Hent
    ltac:(apply sorted_strict;
          [ apply (sort_sorted compareFills (fun a b => compareFills a b <= 0));
            [ intros a b H; exact H
            | intros a b H; apply okx_compareFills_le, okx_compareFills_gt, H
            | intros a b c H1 H2; apply okx_compareFills_le;
              apply okx_compareFills_le in H1, H2;
              eapply fillOrder_trans; eassumption ]
          | exact (Permutation_NoDup
                     (Permutation_sym (sort_perm compareFills fills)) Hfills) ])
    ltac:(rewrite Forall_forall; intros c Hc; exact Hc)).
  clear Hent.
  fold (processFills (indexInstruments insts) (JS.sort compareFills fills))
    in Hentries.
  fold (okxPositions insts fills) in Hentries.
  assert (Hin : Forall (fun c => In c fills)
                  (flat_map (fun b => _rawFills (trade b))
                     (JS.values (openPositions (okxPositions insts fills))))).
  { eapply cache_all. exact Hentries. }
  rewrite Forall_forall in Hin.
  apply (NoDup_map_sub fillKey (fills ++ newFills)); [exact Hnd | |].
  - apply NoDup_app. repeat (apply conj).
    + eapply cache_NoDup; [| apply okx_processFills_keys | exact Hentries].
      intros a [_ H]. exact (H eq_refl).
    + exact (NoDup_app_remove_l _ _ Hnd').
    + intros c Hc Hn.
      exact (NoDup_app_disjoint _ _ Hnd' c (Hin c Hc) Hn).
  - intros c Hc. apply in_app_or in Hc. apply in_or_app.
    destruct Hc as [Hc|Hc]; [left; exact (Hin c Hc) | right; exact Hc].
Qed.

End OkxCache.

(** X19: the fills that the OKX processor leaves for the cache replay
    its open positions.  When the keys of the fills are pairwise
    distinct and every new fill has a later timestamp than every fill
    of the run before, the run on the cached and the new fills,
    deduplicated, has under every position key the open builder that a
    run on all the fills has, and closes the trades that the run on all
    the fills closes after those that the run before has closed. *)
Theorem okx_cached_fills_replay_open_positions fills newFills bills insts positions :
  NoDup (map OkxDataProvider.fillKey (fills ++ newFills)) ->
  Forall (fun c => Forall (fun n => (f_ts c < f_ts n)%Z) newFills) fills ->
  (forall key,
     JS.get key
       (OkxUMFuturesTradeProcessor.openPositions
          (okxPositions insts
             (OkxDataProvider.deduplicateFills
                (okxCachedFills fills bills insts positions ++ newFills))))
     = JS.get key
         (OkxUMFuturesTradeProcessor.openPositions
            (okxPositions insts (fills ++ newFills))))
  /\ OkxUMFuturesTradeProcessor.closedTrades
       (okxPositions insts (fills ++ newFills))
     = OkxUMFuturesTradeProcessor.closedTrades (okxPositions insts fills)
       ++ OkxUMFuturesTradeProcessor.closedTrades
            (okxPositions insts
               (OkxDataProvider.deduplicateFills
                  (okxCachedFills fills bills insts positions ++ newFills))).
Proof.
  intros Hnd Hlater.
  rewrite okx_cache_eq.
  rewrite (dedup_distinct _ (okx_cache_distinct insts fills newFills Hnd)).
  apply okx_replay_continues.
  eapply Forall_impl; [|exact Hlater]. intros c Hc.
  eapply Forall_impl; [|exact Hc]. intros n Hn.
  unfold fillOrder, lex_le. left. exact Hn.
Qed.

Lemma okx_cached_fills_replay_open_positions_witness :
  let a := mkFill "BTC-USDT-SWAP" "1" "o1" "buy" "long" 100 2 (-1 # 10) "USDT" 1000 in
  let b := mkFill "ETH-USDT-SWAP" "2" "o2" "sell" "short" 50 1 (-1 # 10) "USDT" 2000 in
  let c := mkFill "ETH-USDT-SWAP" "3" "o3" "buy" "short" 40 1 (-1 # 10) "USDT" 3000 in
  let d := mkFill "BTC-USDT-SWAP" "4" "o4" "sell" "long" 110 1 (-1 # 10) "USDT" 4000 in
  OkxUMFuturesTradeProcessor.closedTrades (okxPositions [] [a; b; c; d])
  = OkxUMFuturesTradeProcessor.closedTrades (okxPositions [] [a; b; c])
    ++ OkxUMFuturesTradeProcessor.closedTrades
         (okxPositions []
            (OkxDataProvider.deduplicateFills
               (okxCachedFills [a; b; c] [] [] [] ++ [d]))).
Proof.
  intros a b c d.
  apply (okx_cached_fills_replay_open_positions [a; b; c] [d] [] [] []).
  - repeat constructor; simpl; intuition discriminate.
  - repeat constructor.
Defined.

Local Open Scope Q_scope.
(** ** Aggregating an aggregated timeline *)

Local Close Scope Q_scope.
Local Open Scope list_scope.

Section LoopIdem.
Variable can : TimelineEvent -> TimelineEvent -> bool.
Variable merge : TimelineEvent -> list TimelineEvent -> TimelineEvent.
Variable loop :
  list TimelineEvent -> TimelineEvent -> list TimelineEvent ->
  list TimelineEvent -> list TimelineEvent.
Hypothesis loop_nil :
  forall agg gf gr, loop agg gf gr [] = agg ++ [merge gf gr].
Hypothesis loop_cons :
  forall agg gf gr c evs,
    loop agg gf gr (c :: evs) =
      if can (last gr gf) c
      then loop agg gf (gr ++ [c]) evs
      else loop (agg ++ [merge gf gr]) c [] evs.
Variable cls : Action -> nat.
Variable W : Z.
Hypothesis can_eq :
  forall p c,
    can p c =
      (timestamp c - timestamp p <? W) && Nat.eqb (cls (action p)) (cls (action c)).
Hypothesis merge_timestamp :
  forall f rest, timestamp (merge f rest) = timestamp f.
Hypothesis merge_class :
  forall f rest,
    Forall (fun e => cls (action e) = cls (action f)) rest ->
    cls (action (merge f rest)) = cls (action f).
Hypothesis merge_single : forall f, merge f [] = f.

Lemma loop_acc evs :
  forall agg gf gr, loop agg gf gr evs = agg ++ loop [] gf gr evs.
Proof.
  induction evs as [|c evs IH]; intros agg gf gr.
  - rewrite !loop_nil. reflexivity.
  - rewrite !loop_cons. destruct (can (last gr gf) c).
    + apply IH.
    + rewrite (IH (agg ++ [merge gf gr])), (IH ([] ++ [merge gf gr])).
      rewrite <- app_assoc. reflexivity.
Qed.

(** A list in which no event can join the one before it is given back. *)
Lemma loop_quiet l :
  forall m agg,
  Sorted (fun a b => can a b = false) (m :: l) ->
  loop agg m [] l = agg ++ m :: l.
Proof.
  induction l as [|c l IH]; intros m agg Hs.
  - rewrite loop_nil, merge_single. reflexivity.
  - inversion Hs as [|? ? Hs' Hhd]; subst. inversion Hhd; subst.
    rewrite loop_cons. simpl last.
    match goal with H : can m c = false |- _ => rewrite H end.
    rewrite (IH c _ Hs'), merge_single, <- app_assoc. reflexivity.
Qed.

Lemma last_class gf gr :
  Forall (fun e => cls (action e) = cls (action gf)) gr ->
  cls (action (last gr gf)) = cls (action gf).
Proof.
  induction 1 as [|e gr He _ IH]; simpl; [reflexivity|].
  destruct gr as [|e' gr]; [exact He | exact IH].
Qed.

Lemma last_snoc (gr : list TimelineEvent) c d : last (gr ++ [c]) d = c.
Proof.
  induction gr as [|e gr IH]; simpl; [reflexivity|].
  destruct (gr ++ [c]) eqn:E; [destruct gr; discriminate | exact IH].
Qed.

(** Over events by non-decreasing timestamp, no merged event can join
    the one before it. *)
Lemma loop_chain evs :
  forall gf gr,
  Forall (fun e => cls (action e) = cls (action gf)) gr ->
  timestamp gf <= timestamp (last gr gf) ->
  StronglySorted Z.le (timestamp (last gr gf) :: map timestamp evs) ->
  exists M rest,
    loop [] gf gr evs = M :: rest
    /\ timestamp M = timestamp gf
    /\ cls (action M) = cls (action gf)
    /\ Sorted (fun a b => can a b = false) (M :: rest).
Proof.
  induction evs as [|c evs IH]; intros gf gr Hcls Hts Hs.
  - rewrite loop_nil. exists (merge gf gr), []. simpl.
    repeat (apply conj);
      [reflexivity | apply merge_timestamp | apply merge_class, Hcls |].
    constructor; constructor.
  - rewrite loop_cons.
    inversion Hs as [|? ? Hs' Hall]; subst. simpl in Hs'.
    inversion Hall as [|? ? Hc _]; subst.
    destruct (can (last gr gf) c) eqn:Hcan.
    + apply IH.
      * apply Forall_app. split; [exact Hcls|]. constructor; [|constructor].
        rewrite can_eq in Hcan. apply andb_prop in Hcan. destruct Hcan as [_ Hcan].
        apply Nat.eqb_eq in Hcan. rewrite <- Hcan. apply last_class, Hcls.
      * rewrite last_snoc. lia.
      * rewrite last_snoc. exact Hs'.
    + rewrite loop_acc.
      destruct (IH c []) as (M' & rest' & E & Ht & Hc' & Hsorted).
      * constructor.
      * simpl. lia.
      * simpl. exact Hs'.
      * exists (merge gf gr), (M' :: rest'). rewrite E. simpl.
        repeat (apply conj);
          [reflexivity | apply merge_timestamp | apply merge_class, Hcls |].
        constructor; [exact Hsorted|]. constructor.
        rewrite can_eq in *. rewrite merge_timestamp, (merge_class _ _ Hcls), Ht, Hc'.
        rewrite (last_class _ _ Hcls) in Hcan.
        destruct (Nat.eqb (cls (action gf)) (cls (action c)));
          [|apply andb_false_r].
        rewrite andb_true_r in *.
        apply Z.ltb_ge in Hcan. apply Z.ltb_ge. lia.
Qed.

(** The loop on its own result. *)
Lemma loop_idem e0 evs :
  StronglySorted Z.le (map timestamp (e0 :: evs)) ->
  exists M rest,
    loop [] e0 [] evs = M :: rest /\ loop [] M [] rest = M :: rest.
Proof.
  intros Hs.
  destruct (loop_chain evs e0 []) as (M & rest & E & _ & _ & Hsorted).
  - constructor.
  - simpl. lia.
  - exact Hs.
  - exists M, rest. split; [exact E|].
    rewrite (loop_quiet rest M [] Hsorted). reflexivity.
Qed.

End LoopIdem.

Section AggregateTwice.

Lemma timeline_canMerge_eq w p c :
  TimelineUtils.canMerge w p c =
    (timestamp c - timestamp p <? w)
    && Nat.eqb (mergeClass (action p)) (mergeClass (action c)).
Proof.
  unfold TimelineUtils.canMerge. cbv zeta.
  destruct (timestamp c - timestamp p <? w); [|reflexivity].
  destruct (action p), (action c); reflexivity.
Qed.

Lemma binance_canMerge_eq p c :
  BinanceTimeline.canMerge p c =
    (timestamp c - timestamp p <? 60000)
    && Nat.eqb (binanceMergeClass (action p)) (binanceMergeClass (action c)).
Proof.
  unfold BinanceTimeline.canMerge. cbv zeta.
  destruct (timestamp c - timestamp p <? 60000);
    destruct (action p), (action c); reflexivity.
Qed.

Lemma existsb_action (a : Action) (l : list TimelineEvent) :
  existsb (fun e => Action_eqb (action e) a) l = true ->
  exists e, In e l /\ action e = a.
Proof.
  intros H. apply existsb_exists in H. destruct H as (e & Hin & He).
  exists e. split; [exact Hin|]. destruct (action e), a; try discriminate; reflexivity.
Qed.

Lemma mergeGroup_class f rest :
  Forall (fun e => mergeClass (action e) = mergeClass (action f)) rest ->
  mergeClass (action (TimelineUtils.mergeGroup f rest)) = mergeClass (action f).
Proof.
  intros Hall. destruct rest as [|r rest]; [reflexivity|].
  assert (Hgroup : forall e, In e (f :: r :: rest) ->
                     mergeClass (action e) = mergeClass (action f)).
  { intros e [<-|He]; [reflexivity|]. rewrite Forall_forall in Hall. exact (Hall e He). }
  unfold TimelineUtils.mergeGroup. cbv zeta. cbn [action].
  destruct (existsb (fun e => Action_eqb (action e) OPEN) (f :: r :: rest)) eqn:Ho.
  - apply existsb_action in Ho. destruct Ho as (e & He & <-). exact (Hgroup e He).
  - destruct (existsb (fun e => Action_eqb (action e) CLOSE) (f :: r :: rest)) eqn:Hc.
    + apply existsb_action in Hc. destruct Hc as (e & He & <-). exact (Hgroup e He).
    + reflexivity.
Qed.

Lemma mergeEvents_class f rest :
  Forall (fun e => binanceMergeClass (action e) = binanceMergeClass (action f)) rest ->
  binanceMergeClass (action (BinanceTimeline._mergeEvents f rest))
  = binanceMergeClass (action f).
Proof.
  intros Hall. destruct rest as [|r rest]; [reflexivity|].
  assert (Hgroup : forall e, In e (f :: r :: rest) ->
                     binanceMergeClass (action e) = binanceMergeClass (action f)).
  { intros e [<-|He]; [reflexivity|]. rewrite Forall_forall in Hall. exact (Hall e He). }
  unfold BinanceTimeline._mergeEvents. cbv zeta. cbn [action].
  destruct (existsb (fun e => Action_eqb (action e) CLOSE) (f :: r :: rest)) eqn:Hc.
  - apply existsb_action in Hc. destruct Hc as (e & He & <-). exact (Hgroup e He).
  - destruct (existsb (fun e => Action_eqb (action e) OPEN) (f :: r :: rest)) eqn:Ho.
    + apply existsb_action in Ho. destruct Ho as (e & He & <-). exact (Hgroup e He).
    + reflexivity.
Qed.

Lemma events_by_time_sorted (l : list TimelineEvent) :
  StronglySorted Z.lt (map timestamp l) ->
  StronglySorted (fun a b => TimelineUtils.compareEvents a b <= 0) l.
Proof.
  induction l as [|e l IH]; simpl; intros Hs; [constructor|].
  inversion Hs as [|? ? Hs' Hall]; subst.
  constructor; [apply IH, Hs'|].
  rewrite Forall_forall in *. intros x Hx.
  apply compareEvents_le. left. apply Hall, in_map, Hx.
Qed.

Lemma sorted_lt_of_le (l : list Z) :
  StronglySorted Z.le l -> NoDup l -> StronglySorted Z.lt l.
Proof.
  intros Hs Hnd. pose proof (sorted_strict Z.le l Hs Hnd) as H.
  clear -H. induction H as [|x l Hs IH Hx]; constructor; [exact IH|].
  eapply Forall_impl; [|exact Hx]. intros y [H1 H2]. lia.
Qed.

Lemma timeline_aggregate_sorted_twice w evs :
  StronglySorted Z.lt
    (map timestamp (JS.sort TimelineUtils.compareEvents evs)) ->
  TimelineUtils.aggregateEventsWithin w (TimelineUtils.aggregateEventsWithin w evs)
  = TimelineUtils.aggregateEventsWithin w evs.
Proof.
  intros Hlt. unfold TimelineUtils.aggregateEventsWithin at 2 3.
  destruct (length evs <? 2)%nat eqn:Hlen.
  - unfold TimelineUtils.aggregateEventsWithin. rewrite Hlen. reflexivity.
  - destruct (JS.sort TimelineUtils.compareEvents evs) as [|e0 sorted] eqn:Hsort.
    + reflexivity.
    + assert (Hout : StronglySorted Z.lt
                       (map timestamp (TimelineUtils.groupLoop w [] e0 [] sorted))).
      { apply (loop_timestamps (TimelineUtils.canMerge w) TimelineUtils.mergeGroup
                 (TimelineUtils.groupLoop w)
                 ltac:(reflexivity) ltac:(reflexivity) mergeGroup_timestamp).
        exact Hlt. }
      assert (Hle : StronglySorted Z.le (map timestamp (e0 :: sorted))).
      { clear -Hlt. induction Hlt as [|x l Hs IH Hx]; constructor; [exact IH|].
        eapply Forall_impl; [|exact Hx]. intros y Hy. lia. }
      destruct (loop_idem (TimelineUtils.canMerge w) TimelineUtils.mergeGroup
                  (TimelineUtils.groupLoop w)
                  ltac:(reflexivity) ltac:(reflexivity) mergeClass w
                  (timeline_canMerge_eq w) mergeGroup_timestamp mergeGroup_class
                  ltac:(reflexivity) e0 sorted Hle)
        as (M & rest & E & Eidem).
      rewrite E in *. unfold TimelineUtils.aggregateEventsWithin.
      destruct (length (M :: rest) <? 2)%nat; [reflexivity|].
      rewrite (sort_sorted_id TimelineUtils.compareEvents _
                 (events_by_time_sorted _ Hout)).
      exact Eidem.
Qed.

End AggregateTwice.

(** X20: on events whose timestamps are pairwise distinct,
    [TimelineUtils.aggregateEvents], with any merge window, gives back
    its own result: aggregating twice is aggregating once. *)
Theorem aggregation_twice_distinct_timestamps (w : Z) (evs : list TimelineEvent) :
  NoDup (map timestamp evs) ->
  TimelineUtils.aggregateEventsWithin w (TimelineUtils.aggregateEventsWithin w evs)
  = TimelineUtils.aggregateEventsWithin w evs.
Proof.
  intros Hnd. apply timeline_aggregate_sorted_twice.
  apply sorted_lt_of_le.
  - apply sorted_events_timestamps, sort_events_sorted.
  - eapply Permutation_NoDup; [|exact Hnd].
    apply Permutation_map, Permutation_sym, sort_perm.
Qed.

Lemma aggregation_twice_distinct_timestamps_witness :
  let e1 := mkEvent 1000 OPEN 1 100 "" "1" "o1" 0 "USDT" in
  let e2 := mkEvent 2000 ADD 1 110 "" "2" "o2" 0 "USDT" in
  let e3 := mkEvent 90000 CLOSE 2 120 "" "3" "o3" 0 "USDT" in
  TimelineUtils.aggregateEventsWithin 60000
    (TimelineUtils.aggregateEventsWithin 60000 [e3; e1; e2])
  = TimelineUtils.aggregateEventsWithin 60000 [e3; e1; e2].
Proof.
  intros e1 e2 e3. apply aggregation_twice_distinct_timestamps.
  repeat constructor; simpl; intuition discriminate.
Defined.




(** X21: on a timeline by non-decreasing timestamp, the aggregation of
    the Binance processors gives back its own result. *)
Theorem binance_aggregation_twice (evs : list TimelineEvent) :
  StronglySorted Z.le (map timestamp evs) ->
  BinanceTimeline._aggregateTimelineEvents
    (BinanceTimeline._aggregateTimelineEvents evs)
  = BinanceTimeline._aggregateTimelineEvents evs.
Proof.
  intros Hs. destruct evs as [|e0 [|e1 evs]]; try reflexivity.
  change (BinanceTimeline._aggregateTimelineEvents (e0 :: e1 :: evs))
    with (BinanceTimeline.groupLoop [] e0 [] (e1 :: evs)).
  destruct (loop_idem BinanceTimeline.canMerge BinanceTimeline._mergeEvents
              BinanceTimeline.groupLoop
              ltac:(reflexivity) ltac:(reflexivity) binanceMergeClass 60000
              binance_canMerge_eq mergeEvents_timestamp mergeEvents_class
              ltac:(reflexivity) e0 (e1 :: evs) Hs)
    as (M & rest & E & Eidem).
  rewrite E. unfold BinanceTimeline._aggregateTimelineEvents.
  destruct rest as [|r rest]; [reflexivity | exact Eidem].
Qed.

Lemma binance_aggregation_twice_witness :
  let e1 := mkEvent 1000 OPEN 1 100 "" "1" "o1" 0 "USDT" in
  let e2 := mkEvent 2000 OPEN 1 110 "" "2" "o2" 0 "USDT" in
  let e3 := mkEvent 90000 CLOSE 2 120 "" "3" "o3" 0 "USDT" in
  BinanceTimeline._aggregateTimelineEvents
    (BinanceTimeline._aggregateTimelineEvents [e1; e2; e3])
  = BinanceTimeline._aggregateTimelineEvents [e1; e2; e3].
Proof.
  intros e1 e2 e3. apply binance_aggregation_twice.
  repeat constructor; simpl; lia.
Defined.

Local Open Scope Q_scope.
(** ** The running size and the status of a trade *)

Lemma lastFillReduces_stepped t t' fill :
  sizeStepped t t' fill -> lastFillReduces t' = isClosingSide t fill.
Proof.
  intros (Hd & Hr & _). unfold lastFillReduces.
  rewrite Hr, rev_app_distr. simpl.
  unfold isClosingSide. rewrite Hd. reflexivity.
Qed.

Lemma sizeStepped_agrees t t' fill :
  sizeStepped t t' fill -> sizeAgreesWithStatus t'.
Proof.
  intros H. pose proof (lastFillReduces_stepped _ _ _ H) as Hl.
  destruct H as (_ & _ & Hcur & Hst). unfold sizeAgreesWithStatus.
  rewrite Hl. split; [exact Hcur|].
  destruct (isClosingSide t fill).
  - destruct Hst as [[Hs Hc]|[Hs Hc]]; rewrite Hs.
    + split; [right; reflexivity|]. split.
      * intros _. split; [reflexivity | exact Hc].
      * intros H. discriminate H.
    + split; [left; reflexivity|]. split.
      * intros H. discriminate H.
      * intros _ _. exact Hc.
  - rewrite Hst. split; [left; reflexivity|]. split.
    + intros H. discriminate H.
    + intros _ H. discriminate H.
Qed.

Lemma sizeAgrees_fresh t :
  _currentPositionSize t = 0 -> status t = OPEN_ -> _rawFills t = [] ->
  sizeAgreesWithStatus t.
Proof.
  intros Hcur Hst Hraw. unfold sizeAgreesWithStatus, lastFillReduces.
  rewrite Hcur, Hst, Hraw. simpl. split; [lra|].
  split; [left; reflexivity|]. split.
  - intros H. discriminate H.
  - intros _ H. discriminate H.
Qed.

Lemma sideAgrees_closing t fill :
  sideAgrees t fill = negb (isClosingSide t fill).
Proof.
  unfold sideAgrees, isClosingSide, isBuyFill.
  destruct (direction t); simpl; destruct (String.eqb _ "buy"); reflexivity.
Qed.

Lemma open_of_not_closed t :
  sizeAgreesWithStatus t -> PositionStatus_eqb (status t) CLOSED = false ->
  status t = OPEN_.
Proof.
  intros (_ & [H|H] & _) Hc; [exact H|]. rewrite H in Hc. discriminate Hc.
Qed.

Lemma sorted_fills_nonneg (cmp : RawFill -> RawFill -> Z) fills :
  Forall (fun f => 0 <= f_fillSz f) fills ->
  Forall (fun f => 0 <= f_fillSz f) (JS.sort cmp fills).
Proof.
  intros H. rewrite Forall_forall in *. intros f Hf. apply H.
  eapply Permutation_in; [apply sort_perm | exact Hf].
Qed.

(** *** The OKX builder *)

Section OkxSizeSteps.
Import OkxTradeBuilder OkxUMFuturesTradeProcessor.

Lemma okx_increase_closing b fill :
  isIncreaseAction (okxEvent b fill) = negb (isClosingSide (trade b) fill).
Proof.
  unfold isIncreaseAction, okxEvent, determineAction, isClosingSide.
  cbn [action].
  destruct (direction (trade b)); simpl; destruct (String.eqb _ "buy"); simpl;
    try reflexivity; destruct (timeline (trade b)); reflexivity.
Qed.

Lemma okx_size_stepped b fill :
  0 <= f_fillSz fill -> 0 <= contractValue b ->
  0 <= _currentPositionSize (trade b) -> status (trade b) = OPEN_ ->
  sizeStepped (trade b) (trade (addFill b fill)) fill.
Proof.
  intros Hsz Hcv Hcur Hst. unfold sizeStepped.
  rewrite okx_addFill_direction, okx_addFill_rawFills, okx_addFill_cur,
    okx_addFill_status, okx_increase_closing.
  assert (Hev : 0 <= size (okxEvent b fill)).
  { cbn [size okxEvent]. apply Qmult_le_0_compat; assumption. }
  pose proof (Q.le_min_r (size (okxEvent b fill)) (_currentPositionSize (trade b)))
    as Hmin.
  pose proof tolerance_pos as Htol.
  split; [reflexivity|]. split; [reflexivity|].
  destruct (isClosingSide (trade b) fill); cbn [negb andb].
  - unfold closesBy, reducedBy.
    destruct (Qle_bool _ FLOATING_POINT_TOLERANCE) eqn:E.
    + split; [lra|]. left. split; [reflexivity | lra].
    + apply Qle_bool_false in E. split; [lra|]. right.
      split; [exact Hst | exact E].
  - split; [lra | exact Hst].
Qed.

Lemma okx_fold_size_status insts fills :
  Forall (fun f => 0 <= f_fillSz f) fills ->
  Forall (fun i => 0 <= i_ctVal i) (JS.values insts) ->
  buildersInvariant isClosed
    (fun b => 0 <= contractValue b /\ sizeAgreesWithStatus (trade b))
    sizeAgreesWithStatus
    (closedTrades (processFills insts fills))
    (openPositions (processFills insts fills)).
Proof.
  intros Hfills Hinsts.
  apply (okx_processFills_invariant insts
           (Forall (fun f => 0 <= f_fillSz f))
           (fun _ b => 0 <= contractValue b /\ sizeAgreesWithStatus (trade b))
           sizeAgreesWithStatus).
  - intros fill rest H. inversion H; assumption.
  - intros fill rest b _ H. exact H.
  - intros fill rest inv _ _. split.
    + cbn [contractValue]. apply contractValueOf_nonneg. exact Hinsts.
    + apply sizeAgrees_fresh; reflexivity.
  - intros fill rest b H [Hcv Hb] Hc. inversion H; subst. split.
    + rewrite okx_addFill_contractValue. exact Hcv.
    + apply (sizeStepped_agrees (trade b) _ fill).
      apply okx_size_stepped; try assumption.
      * destruct Hb as [Hcur _]. exact Hcur.
      * apply open_of_not_closed; assumption.
  - intros rest b [_ Hb] _. exact Hb.
  - exact Hfills.
Qed.

End OkxSizeSteps.

(** *** The linear-futures builder of Binance *)

Section UmSizeSteps.
Import BinanceTradeBuilder BinanceUMFuturesTradeProcessor.

Lemma um_reduce_closing b fill :
  (timeline (trade b) = [] -> isClosingSide (trade b) fill = false) ->
  Action_eqb (umAction b fill) REDUCE = isClosingSide (trade b) fill.
Proof.
  intros H. unfold umAction.
  destruct (timeline (trade b)) as [|e tl].
  - rewrite H; reflexivity.
  - unfold isClosingSide, isBuyFill.
    destruct (direction (trade b)); simpl; destruct (String.eqb _ "buy");
      reflexivity.
Qed.

Lemma um_opening_not_closing fill :
  isOpeningFill fill = true -> isClosingSide (initializeTrade fill) fill = false.
Proof.
  unfold isOpeningFill, isClosingSide, initializeTrade. cbn [direction].
  destruct (String.eqb_spec (JS.toLowerCase (f_posSide fill)) "long") as [El|_];
    destruct (String.eqb_spec (JS.toLowerCase (f_posSide fill)) "short")
      as [Es|_];
    destruct (String.eqb_spec (JS.toLowerCase (f_side fill)) "buy") as [Eb|_];
    destruct (String.eqb_spec (JS.toLowerCase (f_side fill)) "sell") as [Ee|_];
    simpl; intros H; try reflexivity; try discriminate H;
    congruence.
Qed.

Lemma um_size_stepped b fill :
  0 <= f_fillSz fill -> 0 <= contractValue b ->
  0 <= _currentPositionSize (trade b) -> status (trade b) = OPEN_ ->
  (timeline (trade b) = [] -> isClosingSide (trade b) fill = false) ->
  sizeStepped (trade b) (trade (addFill b fill)) fill.
Proof.
  intros Hsz Hcv Hcur Hst Hfirst. unfold sizeStepped.
  rewrite um_addFill_direction, um_addFill_rawFills, um_addFill_cur,
    um_addFill_status.
  unfold umCloses, umApplied.
  rewrite um_apply_direction, um_apply_rawFills, um_apply_cur, um_apply_status.
  destruct (um_increase_or_reduce b fill) as [Hinc Hred].
  rewrite Hinc, Hred, (um_reduce_closing b fill Hfirst).
  assert (Hev : 0 <= size (umEvent b fill)).
  { cbn [size umEvent]. apply Qmult_le_0_compat; assumption. }
  pose proof (Q.le_min_r (size (umEvent b fill)) (_currentPositionSize (trade b)))
    as Hmin.
  split; [reflexivity|]. split; [reflexivity|].
  destruct (isClosingSide (trade b) fill); cbn [negb andb].
  - destruct (Qle_bool _ FLOATING_POINT_TOLERANCE) eqn:E.
    + apply Qle_bool_iff in E. split; [lra|]. left.
      split; [reflexivity | exact E].
    + apply Qle_bool_false in E. split; [lra|]. right.
      split; [exact Hst | exact E].
  - split; [lra | exact Hst].
Qed.

Lemma um_addFill_timeline_not_empty b fill : timeline (trade (addFill b fill)) <> [].
Proof.
  rewrite um_addFill_timeline. unfold umApplied. rewrite um_apply_timeline.
  destruct (umCloses b fill).
  - unfold closeLastEvent. rewrite rev_app_distr. simpl.
    intros H. apply app_eq_nil in H. destruct H as [_ H]. discriminate H.
  - intros H. apply app_eq_nil in H. destruct H as [_ H]. discriminate H.
Qed.

Lemma um_fold_size_status insts fills :
  Forall (fun f => 0 <= f_fillSz f) fills ->
  Forall (fun i => 0 <= i_ctVal i) (JS.values insts) ->
  buildersInvariant isClosed
    (fun b => 0 <= contractValue b /\ timeline (trade b) <> []
              /\ sizeAgreesWithStatus (trade b))
    sizeAgreesWithStatus
    (closedTrades (processFills insts fills))
    (openPositions (processFills insts fills)).
Proof.
  intros Hfills Hinsts. unfold processFills.
  apply (builders_fold_from_first FoldState BinanceTradeBuilder.t mkState
           closedTrades openPositions ltac:(reflexivity) ltac:(reflexivity)
           getTrade isClosed positionKeyOf (fun fill => negb (isOpeningFill fill))
           (fun fill => mk (initializeTrade fill) (contractValueOf insts fill))
           addFill (processFill insts) (um_processFill_eq insts)
           (Forall (fun f => 0 <= f_fillSz f))
           (fun _ b => 0 <= contractValue b /\ timeline (trade b) <> []
                       /\ sizeAgreesWithStatus (trade b))
           sizeAgreesWithStatus).
  - intros fill rest H. inversion H; assumption.
  - intros fill rest b _ H. exact H.
  - intros fill rest H Hskip. inversion H; subst.
    apply negb_false_iff in Hskip.
    assert (Hcv : 0 <= contractValueOf insts fill)
      by (apply contractValueOf_nonneg; exact Hinsts).
    split; [rewrite um_addFill_contractValue; exact Hcv|].
    split; [apply um_addFill_timeline_not_empty|].
    apply (sizeStepped_agrees
             (trade (mk (initializeTrade fill) (contractValueOf insts fill)))
             _ fill).
    apply um_size_stepped; try assumption.
    + cbn. lra.
    + reflexivity.
    + intros _. apply um_opening_not_closing. exact Hskip.
  - intros fill rest b H (Hcv & Htl & Hb) Hc. inversion H; subst.
    split; [rewrite um_addFill_contractValue; exact Hcv|].
    split; [apply um_addFill_timeline_not_empty|].
    apply (sizeStepped_agrees (trade b) _ fill).
    apply um_size_stepped; try assumption.
    + destruct Hb as [Hcur _]. exact Hcur.
    + apply open_of_not_closed; assumption.
    + intros E. contradiction.
  - intros rest b (_ & _ & Hb) _. exact Hb.
  - exact Hfills.
  - split; constructor.
Qed.

End UmSizeSteps.

(** *** The processors that keep the trades themselves *)

Section TradeSizeSteps.
Variable update : StandardizedTrade -> RawFill -> StandardizedTrade.
Variable close : StandardizedTrade -> Z -> StandardizedTrade.
Variable increases : StandardizedTrade -> RawFill -> bool.
Variable event : StandardizedTrade -> RawFill -> TimelineEvent.
Variable directed : TradeDirection -> Prop.
Hypothesis update_cur :
  forall t f, _currentPositionSize (update t f) =
    if increases t f then _currentPositionSize t + f_fillSz f
    else if Qle_bool (spotReduced t f) FLOATING_POINT_TOLERANCE
         then 0 else spotReduced t f.
Hypothesis update_timeline :
  forall t f, timeline (update t f) = (timeline t ++ [event t f])%list.
Hypothesis event_reduces :
  forall t f,
    Action_eqb (action (event t f)) REDUCE
    || Action_eqb (action (event t f)) CLOSE = negb (increases t f).
Hypothesis update_status : forall t f, status (update t f) = status t.
Hypothesis update_direction : forall t f, direction (update t f) = direction t.
Hypothesis update_rawFills :
  forall t f, _rawFills (update t f) = (_rawFills t ++ [f])%list.
Hypothesis increases_closing :
  forall t f, directed (direction t) -> increases t f = negb (isClosingSide t f).
Hypothesis close_status : forall t ts, status (close t ts) = CLOSED.
Hypothesis close_cur :
  forall t ts, _currentPositionSize (close t ts) = _currentPositionSize t.
Hypothesis close_direction : forall t ts, direction (close t ts) = direction t.
Hypothesis close_rawFills : forall t ts, _rawFills (close t ts) = _rawFills t.

Lemma sizes_closesNow t f :
  closesNow (update t f) =
    negb (increases t f)
    && Qle_bool (spotReduced t f) FLOATING_POINT_TOLERANCE.
Proof.
  unfold closesNow.
  rewrite update_cur, update_timeline, lastIsReduceOrClose_snoc, event_reduces.
  destruct (increases t f); simpl.
  - apply andb_false_r.
  - destruct (Qle_bool (spotReduced t f) FLOATING_POINT_TOLERANCE) eqn:E;
      simpl; [reflexivity|]. rewrite E. reflexivity.
Qed.

Lemma sizes_step_open t fill :
  0 <= f_fillSz fill -> 0 <= _currentPositionSize t -> status t = OPEN_ ->
  directed (direction t) ->
  closesNow (update t fill) = false ->
  sizeStepped t (update t fill) fill.
Proof.
  intros Hsz Hcur Hst Hd Hc. rewrite sizes_closesNow in Hc.
  unfold sizeStepped.
  rewrite update_direction, update_rawFills, update_cur, update_status.
  rewrite (increases_closing t fill Hd) in *.
  pose proof (Q.le_min_r (f_fillSz fill) (_currentPositionSize t)) as Hmin.
  split; [reflexivity|]. split; [reflexivity|].
  destruct (isClosingSide t fill); cbn [negb andb] in *.
  - rewrite Hc. apply Qle_bool_false in Hc. unfold spotReduced in *.
    split; [lra|]. right. split; [exact Hst | exact Hc].
  - split; [lra | exact Hst].
Qed.

Lemma sizes_step_close t fill ts :
  directed (direction t) ->
  closesNow (update t fill) = true ->
  sizeStepped t (close (update t fill) ts) fill.
Proof.
  intros Hd Hc. rewrite sizes_closesNow in Hc.
  unfold sizeStepped.
  rewrite close_direction, close_rawFills, close_cur, close_status,
    update_direction, update_rawFills, update_cur.
  rewrite (increases_closing t fill Hd) in *.
  pose proof tolerance_pos as Htol.
  split; [reflexivity|]. split; [reflexivity|].
  destruct (isClosingSide t fill); cbn [negb andb] in *; [|discriminate Hc].
  rewrite Hc. split; [lra|]. left. split; [reflexivity | lra].
Qed.

End TradeSizeSteps.

Section SpotSizeSteps.
Import BinanceSpotTradeProcessor.

Lemma spot_close_fields t ts :
  status (_closeTrade t ts) = CLOSED
  /\ _currentPositionSize (_closeTrade t ts) = _currentPositionSize t
  /\ direction (_closeTrade t ts) = direction t
  /\ _rawFills (_closeTrade t ts) = _rawFills t.
Proof. unfold _closeTrade. break_ifs; repeat split; reflexivity. Qed.

Lemma spot_increases_closing t f :
  direction t = LONG -> isBuyFill f = negb (isClosingSide t f).
Proof.
  intros Hd. unfold isClosingSide, isBuyFill. rewrite Hd.
  destruct (String.eqb _ "buy"); reflexivity.
Qed.

Lemma spot_fold_size_status insts fills :
  Forall (fun f => 0 <= f_fillSz f) fills ->
  tradesInvariant
    (fun t => status t = OPEN_ /\ direction t = LONG /\ sizeAgreesWithStatus t)
    sizeAgreesWithStatus
    (closedTrades (_processFillsAndAggregateTrades insts fills))
    (openPositions (_processFillsAndAggregateTrades insts fills)).
Proof.
  intros Hfills. unfold _processFillsAndAggregateTrades.
  apply (trades_fold_invariant FoldState mkState closedTrades openPositions
           ltac:(reflexivity) ltac:(reflexivity)
           positionKeyOf (fun fill => negb (isBuyFill fill))
           (_createNewTrade insts) _updateTradeWithFill _closeTrade
           (processFill insts) (spot_processFill_eq insts)
           (Forall (fun f => 0 <= f_fillSz f))
           (fun _ t => status t = OPEN_ /\ direction t = LONG
                       /\ sizeAgreesWithStatus t)
           sizeAgreesWithStatus).
  - intros fill rest H. inversion H; assumption.
  - intros fill rest t _ H. exact H.
  - intros fill rest _ _. split; [reflexivity|]. split; [reflexivity|].
    apply sizeAgrees_fresh; reflexivity.
  - intros fill rest t H (Hst & Hd & (Hcur & _)) Hc. inversion H; subst.
    split; [rewrite spot_update_status; exact Hst|].
    split; [rewrite spot_update_direction; exact Hd|].
    apply (sizeStepped_agrees t _ fill).
    apply (sizes_step_open _updateTradeWithFill (fun _ f => isBuyFill f) spotEvent
             (fun d => d = LONG)
             spot_update_cur spot_update_timeline spot_event_reduces
             spot_update_status spot_update_direction spot_update_rawFills
             spot_increases_closing);
      assumption.
  - intros fill rest t H (Hst & Hd & _) Hc.
    apply (sizeStepped_agrees t _ fill).
    apply (sizes_step_close _updateTradeWithFill _closeTrade
             (fun _ f => isBuyFill f) spotEvent (fun d => d = LONG)
             spot_update_cur spot_update_timeline spot_event_reduces
             spot_update_direction spot_update_rawFills
             spot_increases_closing
             (fun t ts => proj1 (spot_close_fields t ts))
             (fun t ts => proj1 (proj2 (spot_close_fields t ts)))
             (fun t ts => proj1 (proj2 (proj2 (spot_close_fields t ts))))
             (fun t ts => proj2 (proj2 (proj2 (spot_close_fields t ts)))));
      assumption.
  - exact Hfills.
  - split; constructor.
Qed.

End SpotSizeSteps.

Section CmSizeSteps.
Import BinanceCMFuturesTradeProcessor.

Lemma cm_close_fields t ts :
  status (_closeTrade t ts) = CLOSED
  /\ _currentPositionSize (_closeTrade t ts) = _currentPositionSize t
  /\ direction (_closeTrade t ts) = direction t
  /\ _rawFills (_closeTrade t ts) = _rawFills t.
Proof. unfold _closeTrade. break_ifs; repeat split; reflexivity. Qed.

Lemma cm_fold_size_status insts fills :
  Forall (fun f => 0 <= f_fillSz f) fills ->
  tradesInvariant
    (fun t => status t = OPEN_ /\ sizeAgreesWithStatus t)
    sizeAgreesWithStatus
    (closedTrades (_processFillsAndAggregateTrades insts fills))
    (openPositions (_processFillsAndAggregateTrades insts fills)).
Proof.
  intros Hfills. unfold _processFillsAndAggregateTrades.
  apply (trades_fold_invariant FoldState mkState closedTrades openPositions
           ltac:(reflexivity) ltac:(reflexivity)
           positionKeyOf (fun fill => negb (isOpeningFill fill))
           (_createNewTrade insts) (_updateTradeWithFill insts) _closeTrade
           (processFill insts) (cm_processFill_eq insts)
           (Forall (fun f => 0 <= f_fillSz f))
           (fun _ t => status t = OPEN_ /\ sizeAgreesWithStatus t)
           sizeAgreesWithStatus).
  - intros fill rest H. inversion H; assumption.
  - intros fill rest t _ H. exact H.
  - intros fill rest _ _. split; [reflexivity|].
    apply sizeAgrees_fresh; reflexivity.
  - intros fill rest t H (Hst & (Hcur & _)) Hc. inversion H; subst.
    split; [rewrite cm_update_status; exact Hst|].
    apply (sizeStepped_agrees t _ fill).
    apply (sizes_step_open (_updateTradeWithFill insts) sideAgrees cmEvent
             (fun _ => True)
             (cm_update_cur insts) (cm_update_timeline insts) cm_event_reduces
             (cm_update_status insts) (cm_update_direction insts)
             (cm_update_rawFills insts)
             (fun t f _ => sideAgrees_closing t f));
      trivial.
  - intros fill rest t H (Hst & _) Hc.
    apply (sizeStepped_agrees t _ fill).
    apply (sizes_step_close (_updateTradeWithFill insts) _closeTrade
             sideAgrees cmEvent (fun _ => True)
             (cm_update_cur insts) (cm_update_timeline insts) cm_event_reduces
             (cm_update_direction insts) (cm_update_rawFills insts)
             (fun t f _ => sideAgrees_closing t f)
             (fun t ts => proj1 (cm_close_fields t ts))
             (fun t ts => proj1 (proj2 (cm_close_fields t ts)))
             (fun t ts => proj1 (proj2 (proj2 (cm_close_fields t ts))))
             (fun t ts => proj2 (proj2 (proj2 (cm_close_fields t ts)))));
      trivial.
  - exact Hfills.
  - split; constructor.
Qed.

End CmSizeSteps.

Lemma sizeAgrees_keptByFunding : keptByFunding sizeAgreesWithStatus.
Proof. split; intros t v H; exact H. Qed.

Lemma sizeAgrees_keptByRisk : keptByRisk sizeAgreesWithStatus.
Proof. intros t H v. exact H. Qed.



